(** * Force-directed label placement (pathmap, [LabelManager])

    A shallow embedding of the label manager of the pathmap web application
    (the class [LabelManager] in its version with Verlet integration, and
    [addPolygon] and [refreshAllLabels] of [MapManager]): the geometry helpers ([calculateVertexAngle], [lineIntersectsBox]), the
    vertex-selection pass shared by [setLabels] and [updateAllLabels], the
    force solver [simulateStep] and the animation-frame scheduler
    ([startSimulation], [stopSimulation]).

    Numbers.  JavaScript numbers are modelled as real numbers: [+ - * /],
    [Math.sqrt], [Math.abs], [Math.max], [Math.min], [Math.cos], [Math.acos]
    and [Math.PI] are the functions of the same name of the real-number
    library, and every comparison of the source is the corresponding decidable
    comparison on [R].  Rounding, NaN and the infinities of IEEE-754 are
    therefore outside the model; the one place where the source starts from
    [Infinity] ([previousEnergy]) uses an [option].  Where a statement would
    hold only because real arithmetic is exact (a point put on a circle, an
    angle of 180 degrees between opposite edges, a threshold just above 0),
    it is made with an explicit tolerance ([anchorEpsilon], an angle of at
    least 179.9999, a threshold of 0.001), and where the doubles leave the
    reals altogether (the underflow of [Math.pow]) the settings are bounded.

    The iteration budget [settings.iterations] is a natural number (the
    settings panel reads it with [parseInt]).

    Division.  The solver and [lineIntersectsBox] are written over a division
    operator [div]; the program is the instance at the quotient of the reals
    ([simulateStep], [lineIntersectsBox]).  That a run never divides by zero
    is stated as: the result is the same for every [div] that agrees with
    the quotient on non-zero divisors.

    Arrays and keys.  Arrays are lists; [this.velocities] and
    [this.previousPositions], which the solver also writes at indices it has
    not seen before, are finite maps from indices.  An index that the source
    reads is read with a total lookup where it is in range by construction
    ([forces[i]], the three ring positions of [calculateVertexAngle]).  The
    label key [`${polygonId}-${index}`] is the pair of its two components.

    Host objects.  The Leaflet map is reduced to what the label manager reads
    from it (zoom and viewport bounds); markers and polylines, which are only
    written to, are replaced by a trace of the rendering calls, and
    [requestAnimationFrame] by a queue of pending callbacks that
    [animationFrame] runs. *)

From Stdlib Require Import Reals Lra Lia ZArith String.
From stdpp Require Import base option list gmap sets pretty strings.

Open Scope R_scope.

(** ** Comparisons of numbers as decisions *)

#[global] Instance Rlt_decision (x y : R) : Decision (x < y) := Rlt_dec x y.
#[global] Instance Rle_decision (x y : R) : Decision (x <= y) := Rle_dec x y.
#[global] Instance Rgt_decision (x y : R) : Decision (x > y) := Rgt_dec x y.
#[global] Instance Rge_decision (x y : R) : Decision (x >= y) := Rge_dec x y.
#[global] Instance Req_decision : EqDecision R := Req_dec_T.

(** ** Data model *)

(** Plain [{lat, lon}] objects: hull vertices, forces, stored previous
    positions and velocities. *)
Record Vertex := mkVertex { lat : R; lon : R }.

(** Leaflet's [L.latLng(lat, lng)]. *)
Module LatLng.
Record t := mk { lat : R; lng : R }.
End LatLng.

Definition L_latLng (lat lng : R) : LatLng.t := LatLng.mk lat lng.

(** Bounding boxes built by [simulateStep]: [{left, right, bottom, top}]. *)
Record Box := mkBox { left : R; right : R; bottom : R; top : R }.

(** Leaflet's [LatLngBounds], as returned by [map.getBounds()]. *)
Record Bounds := mkBounds { south : R; north : R; west : R; east : R }.

Definition getSouth (b : Bounds) : R := south b.
Definition getNorth (b : Bounds) : R := north b.
Definition getWest (b : Bounds) : R := west b.
Definition getEast (b : Bounds) : R := east b.

(** [bounds.contains(latLng)]: both coordinates inside the closed ranges. *)
Definition contains (b : Bounds) (p : LatLng.t) : bool :=
  bool_decide (south b <= LatLng.lat p ∧ LatLng.lat p <= north b ∧
               west b <= LatLng.lng p ∧ LatLng.lng p <= east b).

(** [bounds.getCenter()]. *)
Definition getCenter (b : Bounds) : LatLng.t :=
  L_latLng ((south b + north b) / 2) ((west b + east b) / 2).

(** What the label manager reads from [this.map]. *)
Record MapView := mkMapView { getZoom : R; getBounds : Bounds }.

(** [this.settings]; [iterations] is the iteration budget, a count. *)
Record Settings := mkSettings {
  initialOffset : R;
  minVertexDistance : R;
  springStrength : R;
  minLabelSpacing : R;
  iterations : nat;
  damping : R;
  maxLabelDistance : R;
  minVertexAngle : R;
  eqVertex : R;
  eqLabel : R;
  eqCenter : R;
  eqFalloff : R
}.

(** The settings installed by the constructor. *)
Definition defaultSettings : Settings :=
  {| initialOffset := 15; minVertexDistance := 30; springStrength := 0.1;
     minLabelSpacing := 40; iterations := 200; damping := 0.6;
     maxLabelDistance := 80; minVertexAngle := 10;
     eqVertex := 20; eqLabel := 30; eqCenter := 100; eqFalloff := 3 |}.

Definition PolygonId := nat.

(** The key [`${polygonId}-${index}`]: the decimal index after the last
    dash determines both components, so the string is the pair. *)
Definition Key : Type := PolygonId * nat.

(** Polygons as the map manager passes them; [hull] may be [null]. *)
Record Polygon := mkPolygon {
  id : PolygonId;
  hull : option (list Vertex);
  color : string;
  name : option string
}.

(** The label objects pushed on [this.labels].  [setLabels] creates them
    without the [manuallyPositioned] property, which then reads as false. *)
Record Label := mkLabel {
  key : Key;
  polygonId : PolygonId;
  vertexIndex : nat;
  vertexLatLng : LatLng.t;
  labelLatLng : LatLng.t;
  text : string;
  width : R;
  height : R;
  polygonVertices : list Vertex;
  manuallyPositioned : bool
}.

Definition set_labelLatLng (p : LatLng.t) (l : Label) : Label :=
  {| key := key l; polygonId := polygonId l; vertexIndex := vertexIndex l;
     vertexLatLng := vertexLatLng l; labelLatLng := p; text := text l;
     width := width l; height := height l;
     polygonVertices := polygonVertices l;
     manuallyPositioned := manuallyPositioned l |}.

(** Calls into the rendering sink and the solver, most recent first. *)
Inductive Event :=
  | EvSimulateStep
  | EvRenderLabels
  | EvRenderPolygonNames (polygons : list Polygon)
  | EvRenderDebugFields.

(** The variables captured by one [animate] closure of [startSimulation].
    [previousEnergy] is [None] while it still holds [Infinity]. *)
Record Run := mkRun {
  iterationCount : nat;
  previousEnergy : option R;
  stableCount : nat;
  polygonsForNames : option (list Polygon)
}.

(** The [LabelManager] instance, together with the callbacks it has handed
    to [requestAnimationFrame] and not yet received ([rafQueue]) and the
    trace of calls ([trace]). *)
Record LabelManager := mkLabelManager {
  the_map : MapView;
  labels : list Label;
  showDebugFields : bool;
  isSimulating : bool;
  simulationInterval : option nat;
  manuallyPositionedKeys : gset Key;
  velocities : gmap nat Vertex;
  previousPositions : gmap nat Vertex;
  settings : Settings;
  rafQueue : list Run;
  trace : list Event
}.

Definition set_labels (ls : list Label) (lm : LabelManager) : LabelManager :=
  mkLabelManager (the_map lm) ls (showDebugFields lm) (isSimulating lm)
    (simulationInterval lm) (manuallyPositionedKeys lm) (velocities lm)
    (previousPositions lm) (settings lm) (rafQueue lm) (trace lm).

Definition set_isSimulating (b : bool) (lm : LabelManager) : LabelManager :=
  mkLabelManager (the_map lm) (labels lm) (showDebugFields lm) b
    (simulationInterval lm) (manuallyPositionedKeys lm) (velocities lm)
    (previousPositions lm) (settings lm) (rafQueue lm) (trace lm).

Definition set_simulationInterval (h : option nat) (lm : LabelManager) : LabelManager :=
  mkLabelManager (the_map lm) (labels lm) (showDebugFields lm) (isSimulating lm)
    h (manuallyPositionedKeys lm) (velocities lm)
    (previousPositions lm) (settings lm) (rafQueue lm) (trace lm).

Definition set_tracking (vel prev : gmap nat Vertex) (lm : LabelManager) : LabelManager :=
  mkLabelManager (the_map lm) (labels lm) (showDebugFields lm) (isSimulating lm)
    (simulationInterval lm) (manuallyPositionedKeys lm) vel prev
    (settings lm) (rafQueue lm) (trace lm).

Definition set_rafQueue (q : list Run) (lm : LabelManager) : LabelManager :=
  mkLabelManager (the_map lm) (labels lm) (showDebugFields lm) (isSimulating lm)
    (simulationInterval lm) (manuallyPositionedKeys lm) (velocities lm)
    (previousPositions lm) (settings lm) q (trace lm).

Definition log (e : Event) (lm : LabelManager) : LabelManager :=
  mkLabelManager (the_map lm) (labels lm) (showDebugFields lm) (isSimulating lm)
    (simulationInterval lm) (manuallyPositionedKeys lm) (velocities lm)
    (previousPositions lm) (settings lm) (rafQueue lm) (e :: trace lm).

(** [requestAnimationFrame(animate)]: the closure joins the host's queue. *)
Definition requestAnimationFrame (r : Run) (lm : LabelManager) : LabelManager :=
  set_rafQueue (rafQueue lm ++ [r]) lm.

(** The rendering sink. *)
Definition renderLabels (lm : LabelManager) : LabelManager := log EvRenderLabels lm.
Definition renderPolygonNames (polygons : list Polygon) (lm : LabelManager) : LabelManager :=
  log (EvRenderPolygonNames polygons) lm.
Definition renderDebugFields (lm : LabelManager) : LabelManager := log EvRenderDebugFields lm.

(** [pixelsToDegrees], the closure over [metersPerPixel] that each method
    builds for itself. *)
Definition pixelsToDegrees (metersPerPixel pixels : R) : R :=
  (metersPerPixel * pixels) / 111320.

(** [x.toFixed(6)]: sign, then the integer nearest to [x * 10^6] (the larger
    one on a tie) written with a point before its last six digits. *)
Definition toFixed6 (x : R) : string :=
  let s := if decide (x < 0) then "-" else "" in
  let x := if decide (x < 0) then - x else x in
  let n := Int_part (x * 10 ^ 6 + / 2) in
  let m := pretty n in
  let k := String.length m in
  let m := if decide (k <= 6)%nat then String.concat "" (replicate (7 - k) "0") +:+ m else m in
  let k := String.length m in
  s +:+ substring 0 (k - 6) m +:+ "." +:+ substring (k - 6) 6 m.

(** [estimateLabelWidth(text)]. *)
Definition estimateLabelWidth (text : string) : R :=
  INR (String.length text) * 7 + 16.

(** ** Geometry *)

(** [Math.pow(x, 2)], the only use of [Math.pow] with a base that may be
    negative or zero. *)
Definition Math_pow2 (x : R) : R := x ^ 2.

#[global] Instance Vertex_inhabited : Inhabited Vertex := populate (mkVertex 0 0).

(** [calculateVertexAngle(vertices, index)].  It is only called through
    [vertices.map], hence with an index of the ring, where the three array
    reads are inside the ring ([ring_reads_in_range] below); a read outside
    the array, on which the source raises a [TypeError], cannot occur, and
    the statements about this function are made for indices of the ring.
    The literal 180 of the degenerate case is exact; the value computed
    through [Math.acos] is exact here and rounded in the program (at two
    opposite edges the program may return 179.9999988 where this function
    gives 180). *)
Definition calculateVertexAngle (vertices : list Vertex) (index : nat) : R :=
  let n := Z.of_nat (length vertices) in
  let prev := vertices !!! Z.to_nat (Z.rem (Z.of_nat index - 1 + n) n) in
  let curr := vertices !!! index in
  let next := vertices !!! Z.to_nat (Z.rem (Z.of_nat index + 1) n) in
  (* Vector from curr to prev *)
  let v1x := lon prev - lon curr in
  let v1y := lat prev - lat curr in
  (* Vector from curr to next *)
  let v2x := lon next - lon curr in
  let v2y := lat next - lat curr in
  (* Calculate angle between vectors using dot product *)
  let dot := v1x * v2x + v1y * v2y in
  let mag1 := sqrt (v1x * v1x + v1y * v1y) in
  let mag2 := sqrt (v2x * v2x + v2y * v2y) in
  if decide (mag1 = 0 ∨ mag2 = 0) then
    180 (* Degenerate case, treat as straight line *)
  else
    (* Angle in radians *)
    let angleRad := acos (Rmax (-1) (Rmin 1 (dot / (mag1 * mag2)))) in
    (* Convert to degrees *)
    let angleDeg := angleRad * (180 / PI) in
    angleDeg.

(** *** Division

    The methods that the force solver runs are written over an arbitrary
    quotient [div], written [/] as in the source, and then used with the
    quotient of the real numbers.  This makes "the method never divides by
    zero" a statement about the code: its result is the same for every [div]
    that agrees with the real quotient on non-zero denominators. *)
Definition agreesWithQuotient (div : R → R → R) : Prop :=
  ∀ x y : R, y ≠ 0 → div x y = x / y.

Section liang_barsky.
Variable div : R → R → R.
#[warnings="-notation-overridden"]
Local Infix "/" := div : R_scope.

(** [lineIntersectsBox(y1, x1, y2, x2, box)] (Liang-Barsky).  The mutable
    pair [t0], [t1] is threaded through the four edges; an early
    [return false] inside an edge is [None]. *)
Definition lineIntersectsBoxWith (y1 x1 y2 x2 : R) (box : Box) : bool :=
  let dx := x2 - x1 in
  let dy := y2 - y1 in
  (* Check if line is completely outside the box (quick reject) *)
  if decide ((x1 < left box ∧ x2 < left box) ∨
             (x1 > right box ∧ x2 > right box) ∨
             (y1 < bottom box ∧ y2 < bottom box) ∨
             (y1 > top box ∧ y2 > top box)) then false
  (* Check if either endpoint is inside the box *)
  else if decide ((x1 >= left box ∧ x1 <= right box ∧ y1 >= bottom box ∧ y1 <= top box) ∨
                  (x2 >= left box ∧ x2 <= right box ∧ y2 >= bottom box ∧ y2 <= top box)) then true
  else
    let clipped : option (R * R) :=
      '(t0, t1) ← Some (0, 1);
      (* Left edge *)
      '(t0, t1) ←
        (if decide (dx <> 0) then
           let t := (left box - x1) / dx in
           if decide (dx < 0) then Some (t0, if decide (t < t1) then t else t1)
           else Some (if decide (t > t0) then t else t0, t1)
         else if decide (x1 < left box ∨ x1 > right box) then None
         else Some (t0, t1));
      (* Right edge *)
      '(t0, t1) ←
        (if decide (dx <> 0) then
           let t := (right box - x1) / dx in
           if decide (dx < 0) then Some (if decide (t > t0) then t else t0, t1)
           else Some (t0, if decide (t < t1) then t else t1)
         else Some (t0, t1));
      (* Bottom edge *)
      '(t0, t1) ←
        (if decide (dy <> 0) then
           let t := (bottom box - y1) / dy in
           if decide (dy < 0) then Some (t0, if decide (t < t1) then t else t1)
           else Some (if decide (t > t0) then t else t0, t1)
         else if decide (y1 < bottom box ∨ y1 > top box) then None
         else Some (t0, t1));
      (* Top edge *)
      '(t0, t1) ←
        (if decide (dy <> 0) then
           let t := (top box - y1) / dy in
           if decide (dy < 0) then Some (if decide (t > t0) then t else t0, t1)
           else Some (t0, if decide (t < t1) then t else t1)
         else Some (t0, t1));
      Some (t0, t1) in
    match clipped with
    | Some (t0, t1) => bool_decide (t0 <= t1)
    | None => false
    end.
End liang_barsky.

Definition lineIntersectsBox : R → R → R → R → Box → bool :=
  lineIntersectsBoxWith Rdiv.

(** ** Vertex selection ([setLabels], [updateAllLabels]) *)

(** Entries of [labeledVertices]: [{ lat, lon, angle }]. *)
Record LabeledVertex := mkLabeledVertex { lv_lat : R; lv_lon : R; lv_angle : R }.

(** Entries of [vertexData]: [{ vertex, index, angle, inBounds }]. *)
Record VertexData := mkVertexData {
  vd_vertex : Vertex;
  vd_index : nat;
  vd_angle : R;
  vd_inBounds : bool
}.

Definition vertexData (bounds : Bounds) (vertices : list Vertex) : list VertexData :=
  imap (λ index vertex,
          {| vd_vertex := vertex;
             vd_index := index;
             vd_angle := calculateVertexAngle vertices index;
             vd_inBounds := contains bounds (L_latLng (lat vertex) (lon vertex)) |})
       vertices.

(** [array.reduce((sum, v) => sum + f(v), 0) / array.length]. *)
Definition average (f : Vertex → R) (vs : list Vertex) : R :=
  foldl (λ sum v, sum + f v) 0 vs / INR (length vs).

(** The label list and the list of accepted vertices while a selection pass
    is running. *)
Definition Selection : Type := list Label * list LabeledVertex.

Section vertex_selection.
(** What the body of [vertexData.forEach] reads from its environment.  The
    same body occurs in [setLabels] and in [updateAllLabels], with two
    differences: [setLabels] only evicts a label of the polygon it is
    called for ([ownOnly]) and has no saved positions ([savedPositions]
    empty, no [manuallyPositioned] property on its labels). *)
Variable ownOnly : bool.
Variable savedPositions : gmap Key LatLng.t.
Variable cfg : Settings.
Variable metersPerPixel : R.
Variable polygonId0 : PolygonId.
Variable polygonVertices0 : list Vertex.
Variables polyCenterLat polyCenterLon : R.

(** The predicate of [labeledVertices.find]. *)
Definition isClose (vertex : Vertex) (labeled : LabeledVertex) : Prop :=
  sqrt (Math_pow2 (lat vertex - lv_lat labeled) +
        Math_pow2 (lon vertex - lv_lon labeled))
  < pixelsToDegrees metersPerPixel (minVertexDistance cfg).

(** The predicate of [this.labels.findIndex]. *)
Definition isLabelOf (closeLabeled : LabeledVertex) (l : Label) : Prop :=
  (if ownOnly then polygonId l = polygonId0 else True) ∧
  Rabs (LatLng.lat (vertexLatLng l) - lv_lat closeLabeled) < 0.000001 ∧
  Rabs (LatLng.lng (vertexLatLng l) - lv_lon closeLabeled) < 0.000001.

#[global] Instance isLabelOf_dec c l : Decision (isLabelOf c l).
Proof. unfold isLabelOf. destruct ownOnly; apply _. Defined.

(** The label pushed for an accepted vertex. *)
Definition newLabel (vertex : Vertex) (index : nat) : Label :=
  let pixelsToDegrees := pixelsToDegrees metersPerPixel in
  let initialOffset := pixelsToDegrees (initialOffset cfg) in
  let vertexLatLng := L_latLng (lat vertex) (lon vertex) in
  let key : Key := (polygonId0, index) in
  let text := toFixed6 (lat vertex) +:+ ", " +:+ toFixed6 (lon vertex) in
  let labelWidth := estimateLabelWidth text in
  (* Alternate up and down for visual jitter (every other vertex) *)
  let isAlternate := bool_decide (index mod 2 = 1)%nat in
  let verticalOffset := pixelsToDegrees (if isAlternate then -45 else 45) in
  (* Check if this label was manually positioned *)
  let savedPos := savedPositions !! key in
  let '(labelLat, labelLon) :=
    match savedPos with
    | Some savedPos =>
        (* Restore manually positioned label *)
        (LatLng.lat savedPos, LatLng.lng savedPos)
    | None =>
        (* Calculate direction away from polygon center *)
        let dx := lon vertex - polyCenterLon in
        let dy := lat vertex - polyCenterLat in
        let dist := sqrt (dx * dx + dy * dy) in
        if decide (dist > 0.00001) then
          (* Push label away from center *)
          (lat vertex + (dy / dist) * initialOffset + verticalOffset,
           lon vertex + (dx / dist) * initialOffset)
        else
          (* Default to right if vertex is at center *)
          (lat vertex + verticalOffset, lon vertex + initialOffset)
    end in
  {| key := key;
     polygonId := polygonId0;
     vertexIndex := index;
     vertexLatLng := vertexLatLng;
     labelLatLng := L_latLng labelLat labelLon;
     text := text;
     width := labelWidth;
     height := 30;
     polygonVertices := polygonVertices0;
     manuallyPositioned := bool_decide (is_Some savedPos) |}.

(** The body of [vertexData.forEach]. *)
Definition selectVertex (sel : Selection) (vd : VertexData) : Selection :=
  let '(labels, labeledVertices) := sel in
  let vertex := vd_vertex vd in
  let index := vd_index vd in
  let angle := vd_angle vd in
  (* Only add label if vertex is in current view *)
  if negb (vd_inBounds vd) then sel
  (* Check vertex angle - skip if too shallow *)
  else if decide (angle > 180 - minVertexAngle cfg) then sel
  else
    (* Check if this vertex is too close to an already labeled vertex *)
    let evicted : option Selection :=
      match list_find (isClose vertex) labeledVertices with
      | Some (oldIndex, closeLabeled) =>
          (* Only replace if this vertex has a sharper angle *)
          if decide (angle < lv_angle closeLabeled) then
            (* Remove the old labeled vertex and use this sharper one *)
            let labeledVertices := delete oldIndex labeledVertices in
            (* Also remove the old label from the array *)
            let labels :=
              match list_find (isLabelOf closeLabeled) labels with
              | Some (oldLabelIndex, _) => delete oldLabelIndex labels
              | None => labels
              end in
            Some (labels, labeledVertices)
          else
            (* Existing label has sharper or equal angle, skip this one *)
            None
      | None => Some (labels, labeledVertices)
      end in
    match evicted with
    | None => sel
    | Some (labels, labeledVertices) =>
        (* Mark this vertex as labeled with its angle for comparison *)
        let labeledVertices :=
          labeledVertices ++ [mkLabeledVertex (lat vertex) (lon vertex) angle] in
        (labels ++ [newLabel vertex index], labeledVertices)
    end.
End vertex_selection.

(** [metersPerPixel] as [setLabels] and [updateAllLabels] compute it, at the
    latitude of the centre of the viewport. *)
Definition metersPerPixelAt (m : MapView) : R :=
  let bounds := getBounds m in
  let zoom := getZoom m in
  let centerLat := LatLng.lat (getCenter bounds) in
  156543.03392 * cos (centerLat * PI / 180) / Rpower 2 zoom.

(** The part of [setLabels] and of the [polygons.forEach] body of
    [updateAllLabels] after the test for a missing or empty ring. *)
Definition selectRing (ownOnly : bool) (savedPositions : gmap Key LatLng.t)
    (cfg : Settings) (m : MapView) (polygonId0 : PolygonId)
    (vertices : list Vertex) (sel : Selection) : Selection :=
  let bounds := getBounds m in
  let metersPerPixel := metersPerPixelAt m in
  (* Calculate polygon center *)
  let visibleVertices :=
    filter (λ v, contains bounds (L_latLng (lat v) (lon v)) = true) vertices in
  if decide (length visibleVertices = 0%nat) then sel
  else
    let polyCenterLat := average lat visibleVertices in
    let polyCenterLon := average lon visibleVertices in
    foldl (selectVertex ownOnly savedPositions cfg metersPerPixel polygonId0
             vertices polyCenterLat polyCenterLon)
          sel (vertexData bounds vertices).

(** ** The force solver ([simulateStep]) *)

(** A list with the index of each element, for [forEach((x, i) => ...)] and
    indexed [for] loops. *)
Definition indexed {A : Type} (l : list A) : list (nat * A) := imap pair l.

(** [forces[i].lat += dlat; forces[i].lon += dlon]. *)
Definition addForce (i : nat) (dlat dlon : R) (forces : list Vertex) : list Vertex :=
  alter (λ f, mkVertex (lat f + dlat) (lon f + dlon)) i forces.

(** [allVertices]: the ring snapshots of all labels, one after the other. *)
Definition allVerticesOf (ls : list Label) : list Vertex :=
  mbind (M := list) (λ label, (λ v, mkVertex (lat v) (lon v)) <$> polygonVertices label) ls.

Section forces.
Variable div : R → R → R.
#[warnings="-notation-overridden"]
Local Infix "/" := div : R_scope.

Variable cfg : Settings.
Variable metersPerPixel : R.

(** The closure [pixelsToDegrees] of [simulateStep]. *)
Definition p2d (pixels : R) : R := (metersPerPixel * pixels) / 111320.

(** Body of the vertex-padding loop, for label [i] and one vertex.
    [Math.pow(dist, falloffExp)] is the power function of the reals, which
    is positive; the power of the program underflows to 0 when [eqFalloff]
    is large (from about 65 on for distances just above the epsilon). *)
Definition vertexRepulsion (i : nat) (label : Label) (forces : list Vertex)
    (vertex : Vertex) : list Vertex :=
  let falloffExp := eqFalloff cfg in
  let dx := LatLng.lng (labelLatLng label) - lon vertex in
  let dy := LatLng.lat (labelLatLng label) - lat vertex in
  let dist := sqrt (dx * dx + dy * dy) in
  (* Check if this is the label's own vertex (skip the attached vertex only) *)
  if decide (Rabs (LatLng.lat (vertexLatLng label) - lat vertex) < 0.000001 ∧
             Rabs (LatLng.lng (vertexLatLng label) - lon vertex) < 0.000001)
  then forces
  else
    (* Very short-range repulsion with configurable falloff *)
    let minDist := p2d 15 in
    if decide (dist < minDist ∧ dist > 0.00001) then
      let repulsionStrength := p2d (eqVertex cfg) in
      let forceMagnitude := repulsionStrength / Rpower dist falloffExp in
      addForce i ((dy / dist) * forceMagnitude) ((dx / dist) * forceMagnitude) forces
    else forces.

(** The bounding box of a label, grown by [buffer] on every side. *)
Definition labelBox (buffer : R) (label : Label) : Box :=
  let w := p2d (width label) / 2 in
  let h := p2d (height label) / 2 in
  {| left := LatLng.lng (labelLatLng label) - w - buffer;
     right := LatLng.lng (labelLatLng label) + w + buffer;
     bottom := LatLng.lat (labelLatLng label) - h - buffer;
     top := LatLng.lat (labelLatLng label) + h + buffer |}.

(** The push [(fx, fy)] between two labels whose boxes overlap. *)
Definition overlapPush (label1 label2 : Label) : R * R :=
  let w1 := p2d (width label1) / 2 in
  let h1 := p2d (height label1) / 2 in
  let w2 := p2d (width label2) / 2 in
  let h2 := p2d (height label2) / 2 in
  let buffer := p2d 5 in
  (* Calculate distance between centers *)
  let dx := LatLng.lng (labelLatLng label2) - LatLng.lng (labelLatLng label1) in
  let dy := LatLng.lat (labelLatLng label2) - LatLng.lat (labelLatLng label1) in
  let centerDist := sqrt (dx * dx + dy * dy) in
  let overlapX := (w1 + w2 + buffer * 2) - Rabs dx in
  let overlapY := (h1 + h2 + buffer * 2) - Rabs dy in
  (* Push apart along BOTH axes proportional to overlap *)
  let forceMultiplier := eqLabel cfg / 30 in
  let fx :=
    if decide (Rabs dx > 0.00001)
    then (if decide (dx > 0) then 1 else -1) * overlapX * 0.5 * forceMultiplier
    else overlapX * 0.5 * forceMultiplier in
  let fy :=
    if decide (Rabs dy > 0.00001)
    then (if decide (dy > 0) then 1 else -1) * overlapY * 0.5 * forceMultiplier
    else overlapY * 0.5 * forceMultiplier in
  (* Add additional repulsion for deeply overlapping labels *)
  if decide (centerDist > 0.00001) then
    let combinedSize := (w1 + w2 + h1 + h2) / 4 in
    (* Always apply some radial repulsion when overlapping *)
    let penetrationForce := p2d (eqLabel cfg) / (centerDist + p2d 2) in
    (fx + (dx / centerDist) * penetrationForce,
     fy + (dy / centerDist) * penetrationForce)
  else
    (* Centers exactly on top of each other - push apart strongly *)
    (fx + p2d 10, fy + p2d 10).

(** Body of the pairwise loop, for the labels at [i < j]. *)
Definition labelRepulsion (i : nat) (label1 : Label) (forces : list Vertex)
    (jl : nat * Label) : list Vertex :=
  let '(j, label2) := jl in
  let box1 := labelBox (p2d 5) label1 in
  let box2 := labelBox (p2d 5) label2 in
  (* Check for AABB collision *)
  let overlapping :=
    negb (bool_decide (right box1 < left box2 ∨
                       left box1 > right box2 ∨
                       top box1 < bottom box2 ∨
                       bottom box1 > top box2)) in
  if overlapping then
    let '(fx, fy) := overlapPush label1 label2 in
    let forces := addForce i (- fy) (- fx) forces in
    addForce j fy fx forces
  else forces.

(** Elastic spring force towards vertex. *)
Definition springForce (i : nat) (label : Label) (forces : list Vertex) : list Vertex :=
  let dx := LatLng.lng (vertexLatLng label) - LatLng.lng (labelLatLng label) in
  let dy := LatLng.lat (vertexLatLng label) - LatLng.lat (labelLatLng label) in
  let dist := sqrt (dx * dx + dy * dy) in
  if decide (dist > 0.00001) then
    (* Every other vertex (odd index) is twice as springy *)
    let springMultiplier := if bool_decide (vertexIndex label mod 2 = 1)%nat then 2 else 1 in
    let effectiveSpring := springStrength cfg * springMultiplier in
    addForce i (dy * effectiveSpring) (dx * effectiveSpring) forces
  else forces.

(** Repulsion from polygon center to push labels outward.  The remark on
    [Math.pow] at [vertexRepulsion] applies. *)
Definition centerRepulsion (i : nat) (label : Label) (forces : list Vertex) : list Vertex :=
  let falloffExp := eqFalloff cfg in
  if decide (0 < length (polygonVertices label))%nat then
    (* Calculate polygon center *)
    let centerLat :=
      foldl (λ sum v, sum + lat v) 0 (polygonVertices label)
      / INR (length (polygonVertices label)) in
    let centerLon :=
      foldl (λ sum v, sum + lon v) 0 (polygonVertices label)
      / INR (length (polygonVertices label)) in
    let centerDx := LatLng.lng (labelLatLng label) - centerLon in
    let centerDy := LatLng.lat (labelLatLng label) - centerLat in
    let centerDist := sqrt (centerDx * centerDx + centerDy * centerDy) in
    if decide (centerDist > 0.00001) then
      let repulsionStrength := p2d (eqCenter cfg) in
      let forceMagnitude := repulsionStrength / Rpower centerDist (falloffExp - 1) in
      (* Apply force in direction away from center *)
      addForce i ((centerDy / centerDist) * forceMagnitude)
                 ((centerDx / centerDist) * forceMagnitude) forces
    else forces
  else forces.

(** Body of the leader-line loop, for the ordered pair [(i, j)]. *)
Definition leaderLineAvoidance (i : nat) (label : Label) (forces : list Vertex)
    (jl : nat * Label) : list Vertex :=
  let '(j, otherLabel) := jl in
  if decide (i = j) then forces
  else
    let labelBox := labelBox (p2d 2) label in
    (* Check if the other label's leader line intersects this label's box *)
    if lineIntersectsBoxWith div
         (LatLng.lat (vertexLatLng otherLabel)) (LatLng.lng (vertexLatLng otherLabel))
         (LatLng.lat (labelLatLng otherLabel)) (LatLng.lng (labelLatLng otherLabel))
         labelBox && bool_decide (i ≠ j)
    then
      (* Push label away from the leader line *)
      let lineMidLat := (LatLng.lat (vertexLatLng otherLabel) + LatLng.lat (labelLatLng otherLabel)) / 2 in
      let lineMidLng := (LatLng.lng (vertexLatLng otherLabel) + LatLng.lng (labelLatLng otherLabel)) / 2 in
      let pushDx := LatLng.lng (labelLatLng label) - lineMidLng in
      let pushDy := LatLng.lat (labelLatLng label) - lineMidLat in
      let pushDist := sqrt (pushDx * pushDx + pushDy * pushDy) in
      if decide (pushDist > 0.00001) then
        let pushStrength := p2d 3 in
        addForce i ((pushDy / pushDist) * pushStrength)
                   ((pushDx / pushDist) * pushStrength) forces
      else forces
    else forces.

(** The force accumulators at the end of the three force loops. *)
Definition computeForces (ls : list Label) : list Vertex :=
  let forces := (λ _, mkVertex 0 0) <$> ls in
  let allVertices := allVerticesOf ls in
  (* Apply repulsion from all vertices to all labels (for padding) *)
  let forces :=
    foldl (λ forces '(i, label), foldl (vertexRepulsion i label) forces allVertices)
          forces (indexed ls) in
  (* Apply repulsion forces between labels using AABB collision detection *)
  let forces :=
    foldl (λ forces '(i, label1),
             let forces := foldl (labelRepulsion i label1) forces (drop (S i) (indexed ls)) in
             let forces := springForce i label1 forces in
             centerRepulsion i label1 forces)
          forces (indexed ls) in
  (* Check for leader line intersections with labels *)
  foldl (λ forces '(i, label), foldl (leaderLineAvoidance i label) forces (indexed ls))
        forces (indexed ls).

Variable bounds : Bounds.

(** The state threaded through the integration loop: [this.velocities],
    [this.previousPositions] and [totalEnergy]. *)
Definition Tracking : Type := gmap nat Vertex * gmap nat Vertex * R.

(** Body of the integration loop for the label at index [i]. *)
Definition integrateLabel (force : Vertex) (i : nat) (label : Label)
    (tr : Tracking) : Label * Tracking :=
  let '(velocities, previousPositions, totalEnergy) := tr in
  (* Skip manually positioned labels - don't apply physics to them *)
  if manuallyPositioned label then (label, tr)
  else
    (* Initialize velocity if needed *)
    let velocities :=
      if velocities !! i is Some _ then velocities
      else <[i := mkVertex 0 0]> velocities in
    let previousPositions :=
      if previousPositions !! i is Some _ then previousPositions
      else <[i := mkVertex (LatLng.lat (labelLatLng label)) (LatLng.lng (labelLatLng label))]>
             previousPositions in
    let currentLat := LatLng.lat (labelLatLng label) in
    let currentLng := LatLng.lng (labelLatLng label) in
    let prevLat := lat (previousPositions !!! i) in
    let prevLng := lon (previousPositions !!! i) in
    (* Calculate velocity from position difference (implicit velocity) *)
    let velLat := (currentLat - prevLat) * damping cfg in
    let velLng := (currentLng - prevLng) * damping cfg in
    (* Update velocities for energy calculation *)
    let velocities := <[i := mkVertex velLat velLng]> velocities in
    (* Calculate new position: pos + velocity + acceleration *)
    let forceScale := 0.15 in
    let newLat := currentLat + velLat + lat force * forceScale in
    let newLng := currentLng + velLng + lon force * forceScale in
    (* Store current position as previous for next iteration *)
    let previousPositions := <[i := mkVertex currentLat currentLng]> previousPositions in
    (* Constrain to maximum distance from vertex *)
    let maxDist := p2d (maxLabelDistance cfg) in
    let vertexDx := newLng - LatLng.lng (vertexLatLng label) in
    let vertexDy := newLat - LatLng.lat (vertexLatLng label) in
    let vertexDist := sqrt (vertexDx * vertexDx + vertexDy * vertexDy) in
    let '(newLat, newLng, previousPositions) :=
      if decide (vertexDist > maxDist) then
        (* Clamp to max distance from vertex *)
        let scale := maxDist / vertexDist in
        let newLng := LatLng.lng (vertexLatLng label) + vertexDx * scale in
        let newLat := LatLng.lat (vertexLatLng label) + vertexDy * scale in
        (* When hitting max distance, reduce velocity to prevent bouncing *)
        (newLat, newLng,
         <[i := mkVertex (newLat - velLat * 0.3) (newLng - velLng * 0.3)]> previousPositions)
      else (newLat, newLng, previousPositions) in
    (* Clamp label to stay within map bounds with padding *)
    let padding := p2d (width label / 2 + 10) in
    let paddingHeight := p2d (height label / 2 + 10) in
    let clampedLat :=
      Rmax (getSouth bounds + paddingHeight) (Rmin (getNorth bounds - paddingHeight) newLat) in
    let clampedLng :=
      Rmax (getWest bounds + padding) (Rmin (getEast bounds - padding) newLng) in
    (* If we hit bounds, adjust previous position to avoid bouncing *)
    let previousPositions :=
      if decide (clampedLat ≠ newLat ∨ clampedLng ≠ newLng) then
        <[i := mkVertex (clampedLat - velLat * 0.1) (clampedLng - velLng * 0.1)]>
          previousPositions
      else previousPositions in
    (set_labelLatLng (L_latLng clampedLat clampedLng) label,
     (velocities, previousPositions,
      (* Calculate kinetic energy for convergence detection *)
      totalEnergy + (velLat * velLat + velLng * velLng))).

(** The integration loop [this.labels.forEach((label, i) => ...)], from
    index [i] on. *)
Fixpoint integrateFrom (forces : list Vertex) (i : nat) (ls : list Label)
    (tr : Tracking) : list Label * Tracking :=
  match ls with
  | [] => ([], tr)
  | label :: rest =>
      let '(label', tr) := integrateLabel (forces !!! i) i label tr in
      let '(rest', tr) := integrateFrom forces (S i) rest tr in
      (label' :: rest', tr)
  end.
End forces.

Section step.
Variable div : R → R → R.
#[warnings="-notation-overridden"]
Local Infix "/" := div : R_scope.

(** [simulateStep()]: the new state and the kinetic energy it returns. *)
Definition simulateStepWith (lm : LabelManager) : LabelManager * R :=
  let lm := log EvSimulateStep lm in
  (* Calculate pixels to degrees conversion at current zoom *)
  let zoom := getZoom (the_map lm) in
  let metersPerPixel := 156543.03392 * cos 0 / Rpower 2 zoom in
  let forces := computeForces div (settings lm) metersPerPixel (labels lm) in
  (* Apply forces using Verlet integration with velocity damping *)
  let bounds := getBounds (the_map lm) in
  let '(labels', (velocities', previousPositions', totalEnergy)) :=
    integrateFrom div (settings lm) metersPerPixel bounds forces 0 (labels lm)
      (velocities lm, previousPositions lm, 0) in
  (set_tracking velocities' previousPositions' (set_labels labels' lm), totalEnergy).
End step.

Definition simulateStep : LabelManager → LabelManager * R := simulateStepWith Rdiv.

(** [metersPerPixel] as [simulateStep] computes it, at the equator. *)
Definition stepScale (m : MapView) : R :=
  156543.03392 * cos 0 / Rpower 2 (getZoom m).

(** ** The scheduler ([startSimulation], [stopSimulation]) *)

Definition stableThreshold : nat := 10.
Definition stepsPerFrame : nat := 3.

(** The loop [for (i = 0; i < stepsPerFrame && iterationCount < iterations; i++)],
    with [k] the number of values of [i] still to come. *)
Fixpoint stepBatch (k : nat) (lm : LabelManager) (iterationCount : nat)
    (totalEnergy : R) : LabelManager * nat * R :=
  match k with
  | O => (lm, iterationCount, totalEnergy)
  | S k =>
      if decide (iterationCount < iterations (settings lm))%nat then
        let '(lm, energy) := simulateStep lm in
        stepBatch k lm (S iterationCount) (totalEnergy + energy)
      else (lm, iterationCount, totalEnergy)
  end.

(** One call of the closure [animate] whose captured variables are [run]. *)
Definition animate (run : Run) (lm : LabelManager) : LabelManager :=
  if decide ((iterationCount run < iterations (settings lm))%nat ∧
             (stableCount run < stableThreshold)%nat) then
    (* Run multiple physics steps per frame for stability *)
    let '(lm, iterationCount, totalEnergy) :=
      stepBatch stepsPerFrame lm (iterationCount run) 0 in
    (* Check for convergence *)
    let avgEnergy := totalEnergy / INR stepsPerFrame in
    let stableCount :=
      if bool_decide (avgEnergy < 0.0001) ||
         (if previousEnergy run is Some previousEnergy
          then bool_decide (Rabs (avgEnergy - previousEnergy) < 0.00001)
          else false (* |avgEnergy - Infinity| is Infinity *))
      then S (stableCount run)
      else O in
    let previousEnergy := Some avgEnergy in
    (* Render current positions with interpolation *)
    let lm := renderLabels lm in
    (* Continue animation *)
    requestAnimationFrame
      (mkRun iterationCount previousEnergy stableCount (polygonsForNames run)) lm
  else
    (* Simulation complete *)
    let lm := set_isSimulating false lm in
    let lm := renderLabels lm in
    (* Update polygon names at the end of simulation *)
    let lm :=
      if polygonsForNames run is Some polygons then renderPolygonNames polygons lm
      else lm in
    (* Update debug fields at end of simulation *)
    if showDebugFields lm then renderDebugFields lm else lm.

(** [startSimulation(polygonsForNames)]. *)
Definition startSimulation (polygonsForNames : option (list Polygon))
    (lm : LabelManager) : LabelManager :=
  if isSimulating lm then lm
  else
    let lm := set_isSimulating true lm in
    (* Initialize velocities and previous positions for Verlet integration *)
    let velocities := map_seq 0 ((λ _, mkVertex 0 0) <$> labels lm) in
    let previousPositions :=
      map_seq 0 ((λ label, mkVertex (LatLng.lat (labelLatLng label))
                                    (LatLng.lng (labelLatLng label))) <$> labels lm) in
    let lm := set_tracking velocities previousPositions lm in
    (* Track energy for convergence detection; start animation *)
    requestAnimationFrame (mkRun 0 None 0 polygonsForNames) lm.

(** [stopSimulation()]. *)
Definition stopSimulation (lm : LabelManager) : LabelManager :=
  let lm :=
    if simulationInterval lm is Some _ then set_simulationInterval None lm
    else lm in
  set_isSimulating false lm.

(** One animation frame of the host: every callback that was queued when the
    frame began is called once, in order; what they queue waits for the next
    frame. *)
Definition animationFrame (lm : LabelManager) : LabelManager :=
  foldl (λ lm run, animate run lm) (set_rafQueue [] lm) (rafQueue lm).

(** ** The entry points ([setLabels], [removeLabels], [updateAllLabels]) *)

(** [removeLabels(polygonId)]. *)
Definition removeLabels (polygonId0 : PolygonId) (lm : LabelManager) : LabelManager :=
  let lm := set_labels (filter (λ label, polygonId label ≠ polygonId0) (labels lm)) lm in
  if decide (length (labels lm) = 0%nat) then stopSimulation lm else lm.

(** [setLabels(polygonId, vertices)]; [vertices] may be missing. *)
Definition setLabels (polygonId0 : PolygonId) (vertices : option (list Vertex))
    (lm : LabelManager) : LabelManager :=
  (* Remove existing labels for this polygon *)
  let lm := removeLabels polygonId0 lm in
  match vertices with
  | None => lm
  | Some vertices =>
      if decide (length vertices = 0%nat) then lm
      else
        let visibleVertices :=
          filter (λ v, contains (getBounds (the_map lm)) (L_latLng (lat v) (lon v)) = true)
                 vertices in
        if decide (length visibleVertices = 0%nat) then lm
        else
          let '(labels, _) :=
            selectRing true ∅ (settings lm) (the_map lm) polygonId0 vertices
              (labels lm, []) in
          let lm := set_labels labels lm in
          (* Render initial positions *)
          let lm := renderLabels lm in
          (* Run simulation to adjust positions and avoid collisions *)
          startSimulation None lm
  end.

(** The map [savedPositions] that [updateAllLabels] builds first. *)
Definition savePositions (lm : LabelManager) : gmap Key LatLng.t :=
  foldl (λ savedPositions label,
           if decide (key label ∈ manuallyPositionedKeys lm) then
             <[key label := L_latLng (LatLng.lat (labelLatLng label))
                                     (LatLng.lng (labelLatLng label))]> savedPositions
           else savedPositions)
        ∅ (labels lm).

(** The body of [polygons.forEach] in [updateAllLabels]. *)
Definition selectPolygon (savedPositions : gmap Key LatLng.t) (cfg : Settings)
    (m : MapView) (sel : Selection) (polygon : Polygon) : Selection :=
  match hull polygon with
  | None => sel
  | Some vertices =>
      if decide (length vertices = 0%nat) then sel
      else selectRing false savedPositions cfg m (id polygon) vertices sel
  end.

(** [updateAllLabels(polygons)]. *)
Definition updateAllLabels (polygons : list Polygon) (lm : LabelManager) : LabelManager :=
  (* Save manually positioned label coordinates before clearing *)
  let savedPositions := savePositions lm in
  (* Clear all existing labels *)
  let lm := set_labels [] lm in
  (* Process each polygon *)
  let '(labels, _) :=
    foldl (selectPolygon savedPositions (settings lm) (the_map lm)) ([], []) polygons in
  let lm := set_labels labels lm in
  (* Render all labels *)
  if decide (0 < length (labels))%nat then
    startSimulation (Some polygons) (renderLabels lm)
  else
    (* No vertex labels, but still render polygon names *)
    renderPolygonNames polygons lm.

(** What the marker handlers installed by [renderLabels] do for the label
    with key [k]: [drag] moves it, [dragstart] stops the simulation and
    [dragend] records the key. *)
Definition onDrag (k : Key) (newLatLng : LatLng.t) (lm : LabelManager) : LabelManager :=
  set_labels ((λ label, if decide (key label = k) then set_labelLatLng newLatLng label
                        else label) <$> labels lm) lm.

Definition onDragStart (lm : LabelManager) : LabelManager := stopSimulation lm.

Definition onDragEnd (k : Key) (lm : LabelManager) : LabelManager :=
  mkLabelManager (the_map lm) (labels lm) (showDebugFields lm) (isSimulating lm)
    (simulationInterval lm) ({[ k ]} ∪ manuallyPositionedKeys lm) (velocities lm)
    (previousPositions lm) (settings lm) (rafQueue lm) (trace lm).

(** [MapManager.addPolygon] keeps a polygon for [refreshAllLabels] only when
    its hull has at least three points; [polygonData] is the list of values
    of its map of that name. *)
Definition addPolygon (polygon : Polygon) (polygonData : list Polygon) : list Polygon :=
  let polygonData := filter (λ p, id p ≠ id polygon) polygonData in
  match hull polygon with
  | None => polygonData
  | Some vertices =>
      if decide (length vertices < 3)%nat then polygonData
      else polygonData ++ [polygon]
  end.

(** [MapManager.refreshAllLabels()]. *)
Definition refreshAllLabels (polygonData : list Polygon) (lm : LabelManager) : LabelManager :=
  updateAllLabels polygonData lm.

(** The view of the map changes (the user pans or zooms, or
    [MapManager.fitBounds] runs, as it does at the end of [addPolygon] after
    the labels were rebuilt).  The map reports the new view at once;
    [moveend], on which [MapManager] rebuilds the labels, only comes when the
    movement is over. *)
Definition setView (m : MapView) (lm : LabelManager) : LabelManager :=
  mkLabelManager m (labels lm) (showDebugFields lm) (isSimulating lm)
    (simulationInterval lm) (manuallyPositionedKeys lm) (velocities lm)
    (previousPositions lm) (settings lm) (rafQueue lm) (trace lm).

(** ** Notions used in the statements *)

(** *** Labels and steps *)

(** [l'] is [l] but for its position. *)
Definition movedFrom (l l' : Label) : Prop :=
  key l' = key l ∧ polygonId l' = polygonId l ∧ vertexIndex l' = vertexIndex l ∧
  vertexLatLng l' = vertexLatLng l ∧ text l' = text l ∧
  width l' = width l ∧ height l' = height l ∧
  polygonVertices l' = polygonVertices l ∧
  manuallyPositioned l' = manuallyPositioned l.

(** What [simulateStep] leaves alone in the manager itself. *)
Definition sameManagerButLabels (lm lm' : LabelManager) : Prop :=
  the_map lm' = the_map lm ∧ settings lm' = settings lm ∧
  isSimulating lm' = isSimulating lm ∧
  simulationInterval lm' = simulationInterval lm ∧
  showDebugFields lm' = showDebugFields lm ∧
  manuallyPositionedKeys lm' = manuallyPositionedKeys lm ∧
  rafQueue lm' = rafQueue lm.

(** A label agrees with the saved positions: if its key has one, the label
    sits there and is flagged. *)
Definition restored (saved : gmap Key LatLng.t) (l : Label) : Prop :=
  ∀ p, saved !! key l = Some p → labelLatLng l = p ∧ manuallyPositioned l = true.

(** [distance(label position, label anchor vertex)]. *)
Definition anchorDistance (l : Label) : R :=
  sqrt ((LatLng.lng (labelLatLng l) - LatLng.lng (vertexLatLng l)) *
        (LatLng.lng (labelLatLng l) - LatLng.lng (vertexLatLng l)) +
        (LatLng.lat (labelLatLng l) - LatLng.lat (vertexLatLng l)) *
        (LatLng.lat (labelLatLng l) - LatLng.lat (vertexLatLng l))).

(** The box into which the second clamp of [simulateStep] brings a label:
    the viewport shrunk by the half-extent of the label plus 10px. *)
Definition paddedSouth (mpp : R) (b : Bounds) (l : Label) : R :=
  getSouth b + pixelsToDegrees mpp (height l / 2 + 10).
Definition paddedNorth (mpp : R) (b : Bounds) (l : Label) : R :=
  getNorth b - pixelsToDegrees mpp (height l / 2 + 10).
Definition paddedWest (mpp : R) (b : Bounds) (l : Label) : R :=
  getWest b + pixelsToDegrees mpp (width l / 2 + 10).
Definition paddedEast (mpp : R) (b : Bounds) (l : Label) : R :=
  getEast b - pixelsToDegrees mpp (width l / 2 + 10).

Definition anchorInPaddedViewport (mpp : R) (b : Bounds) (l : Label) : Prop :=
  paddedSouth mpp b l <= LatLng.lat (vertexLatLng l) <= paddedNorth mpp b l ∧
  paddedWest mpp b l <= LatLng.lng (vertexLatLng l) <= paddedEast mpp b l.

(** The epsilon of the distance bounds, in degrees.  Numbers are real
    numbers here, and the doubles of the program round each operation: a
    billionth of a degree is far above that rounding at the magnitude of
    coordinates, and below a thousandth of a pixel at every zoom level. *)
Definition anchorEpsilon : R := 0.000000001.

(** Two labels that the solver cannot tell apart: same position, anchor,
    extent and ring, and the same parity of the vertex index (which decides
    the strength of the spring). *)
Definition twins (l1 l2 : Label) : Prop :=
  labelLatLng l1 = labelLatLng l2 ∧ vertexLatLng l1 = vertexLatLng l2 ∧
  width l1 = width l2 ∧ height l1 = height l2 ∧
  polygonVertices l1 = polygonVertices l2 ∧
  (vertexIndex l1 mod 2 = vertexIndex l2 mod 2)%nat.

(** A clamp of [simulateStep] has acted on the label: it is at
    [maxLabelDistance] from its anchor (up to [anchorEpsilon]) or on an edge
    of its padded viewport box. *)
Definition touchesClamp (mpp : R) (cfg : Settings) (b : Bounds) (l : Label) : Prop :=
  pixelsToDegrees mpp (maxLabelDistance cfg) - anchorEpsilon <= anchorDistance l ∨
  LatLng.lat (labelLatLng l) = paddedSouth mpp b l ∨
  LatLng.lat (labelLatLng l) = paddedNorth mpp b l ∨
  LatLng.lng (labelLatLng l) = paddedWest mpp b l ∨
  LatLng.lng (labelLatLng l) = paddedEast mpp b l.

(** A quotient that is 1 where the real quotient is a division by zero. *)
Definition guardedQuotient (x y : R) : R := if decide (y = 0) then 1 else x / y.

(** *** Rings and the selection pass *)

(** The ring neighbours of [index], wrapping. *)
Definition ringPrev (n index : nat) : nat := ((index + n - 1) mod n)%nat.
Definition ringNext (n index : nat) : nat := ((index + 1) mod n)%nat.

(** The two edges at [curr] point in opposite directions, or one of them has
    length zero. *)
Definition straight (prev curr next : Vertex) : Prop :=
  (lat prev = lat curr ∧ lon prev = lon curr) ∨
  (lat next = lat curr ∧ lon next = lon curr) ∨
  ∃ k : R, 0 < k ∧
    lat next - lat curr = - k * (lat prev - lat curr) ∧
    lon next - lon curr = - k * (lon prev - lon curr).

Definition straightAt (vertices : list Vertex) (index : nat) : Prop :=
  straight (vertices !!! ringPrev (length vertices) index)
           (vertices !!! index)
           (vertices !!! ringNext (length vertices) index).

(** One of the two edges at [index] has length zero (the degenerate case of
    [calculateVertexAngle]). *)
Definition zeroEdgeAt (vertices : list Vertex) (index : nat) : Prop :=
  let prev := vertices !!! ringPrev (length vertices) index in
  let curr := vertices !!! index in
  let next := vertices !!! ringNext (length vertices) index in
  (lat prev = lat curr ∧ lon prev = lon curr) ∨
  (lat next = lat curr ∧ lon next = lon curr).

(** The vertices that pass the two filters at the head of the loop body. *)
Definition passesFilters (cfg : Settings) (vd : VertexData) : Prop :=
  vd_inBounds vd = true ∧ ¬ vd_angle vd > 180 - minVertexAngle cfg.

(** The vertices of a ring whose label the selection may create. *)
Definition selectable (cfg : Settings) (vertices : list Vertex) (index : nat) : Prop :=
  (index < length vertices)%nat ∧
  ¬ calculateVertexAngle vertices index > 180 - minVertexAngle cfg.

(** The label and the entry that the loop body pushes for a vertex. *)
Definition entryOf (vd : VertexData) : LabeledVertex :=
  mkLabeledVertex (lat (vd_vertex vd)) (lon (vd_vertex vd)) (vd_angle vd).

(** No vertex of [vds] is within [minVertexDistance] of an entry of [lvs] or
    of a vertex before it in [vds]. *)
Fixpoint spacedFrom (cfg : Settings) (mpp : R) (lvs : list LabeledVertex)
    (vds : list VertexData) : Prop :=
  match vds with
  | [] => True
  | vd :: rest =>
      Forall (λ c, ¬ isClose cfg mpp (vd_vertex vd) c) lvs ∧
      spacedFrom cfg mpp (lvs ++ [entryOf vd]) rest
  end.

(** The polygons that [MapManager] keeps for its label manager. *)
Definition hasRing (p : Polygon) : Prop :=
  ∃ vertices, hull p = Some vertices ∧ (3 <= length vertices)%nat.

(** [updateSettings({ minVertexAngle })]. *)
Definition updateMinVertexAngle (a : R) (cfg : Settings) : Settings :=
  {| initialOffset := initialOffset cfg; minVertexDistance := minVertexDistance cfg;
     springStrength := springStrength cfg; minLabelSpacing := minLabelSpacing cfg;
     iterations := iterations cfg; damping := damping cfg;
     maxLabelDistance := maxLabelDistance cfg; minVertexAngle := a;
     eqVertex := eqVertex cfg; eqLabel := eqLabel cfg; eqCenter := eqCenter cfg;
     eqFalloff := eqFalloff cfg |}.

(** *** Runs of the scheduler *)

#[global] Instance Event_eq_step_dec (e : Event) : Decision (e = EvSimulateStep).
Proof. destruct e; (by left) || (by right). Defined.

(** The number of [simulateStep] calls in a trace. *)
Definition countSteps (tr : list Event) : nat :=
  length (filter (λ e, e = EvSimulateStep) tr).

(** [ceil(iterations / stepsPerFrame)]. *)
Definition ticksBound (iterations : nat) : nat :=
  ((iterations + (stepsPerFrame - 1)) / stepsPerFrame)%nat.

(** The two cases of [animate]: a tick that runs a batch and queues the
    closure again, and the call that ends the run. *)
Definition continues (it : nat) (run : Run) : Prop :=
  (iterationCount run < it)%nat ∧ (stableCount run < stableThreshold)%nat.

#[global] Instance continues_dec it run : Decision (continues it run).
Proof. unfold continues. apply _. Defined.

(** The test "energy below the floor, or changed by less than the
    threshold" that feeds [stableCount]. *)
Definition stableTick (previousEnergy : option R) (avgEnergy : R) : bool :=
  bool_decide (avgEnergy < 0.0001) ||
  (if previousEnergy is Some previousEnergy
   then bool_decide (Rabs (avgEnergy - previousEnergy) < 0.00001)
   else false).

(** The number of ticks that a queued closure can still spend on steps. *)
Definition ticksLeft (it : nat) (run : Run) : nat :=
  if decide (continues it run) then ticksBound (it - iterationCount run) else 0%nat.

(** The course of a run as the specification describes it, from the steps
    alone: the manager after [k] calls of [simulateStep], and the energy
    that call number [k] (counted from 0) returns. *)
Definition afterSteps (k : nat) (lm : LabelManager) : LabelManager :=
  Nat.iter k (λ lm, (simulateStep lm).1) lm.

Definition stepEnergy (k : nat) (lm : LabelManager) : R :=
  (simulateStep (afterSteps k lm)).2.

(** The average energy of tick [n] (counted from 0): the energies of its
    steps, [stepsPerFrame] of them or as many as the budget [it] leaves,
    summed from 0 and divided by [stepsPerFrame]. *)
Definition tickEnergy (it : nat) (lm : LabelManager) (n : nat) : R :=
  foldl (λ totalEnergy k, totalEnergy + stepEnergy k lm) 0
        (seq (stepsPerFrame * n) (Nat.min stepsPerFrame (it - stepsPerFrame * n)))
  / INR stepsPerFrame.

(** The average of the tick before tick [n]; none before the first. *)
Definition lastEnergy (it : nat) (lm : LabelManager) (n : nat) : option R :=
  match n with
  | O => None
  | S m => Some (tickEnergy it lm m)
  end.

(** The number of ticks in a row, the last of them tick [n - 1], whose
    average was below the floor or within the threshold of the average
    before. *)
Fixpoint stableTicks (it : nat) (lm : LabelManager) (n : nat) : nat :=
  match n with
  | O => O
  | S m =>
      if stableTick (lastEnergy it lm m) (tickEnergy it lm m)
      then S (stableTicks it lm m)
      else O
  end.

(** One of the conditions that end a run holds after [n] ticks: the budget
    is spent, or the last [stableThreshold] ticks were all stable. *)
Definition halted (it : nat) (lm : LabelManager) (n : nat) : Prop :=
  (it <= stepsPerFrame * n)%nat ∨ (stableThreshold <= stableTicks it lm n)%nat.

#[global] Instance halted_dec it lm n : Decision (halted it lm n).
Proof. unfold halted. apply _. Defined.

(** The variables of the closure after [n] ticks. *)
Definition runAfter (polys : option (list Polygon)) (it : nat) (lm : LabelManager)
    (n : nat) : Run :=
  mkRun (Nat.min (stepsPerFrame * n) it) (lastEnergy it lm n) (stableTicks it lm n) polys.

(** What a step reads of the manager and writes to it. *)
Definition samePhysics (lm lm' : LabelManager) : Prop :=
  labels lm' = labels lm ∧ velocities lm' = velocities lm ∧
  previousPositions lm' = previousPositions lm ∧
  settings lm' = settings lm ∧ the_map lm' = the_map lm.

(** Every queued closure is over in fewer than [n] frames, and a manager
    with nothing queued is idle. *)
Definition queueInvariant (it n : nat) (lm : LabelManager) : Prop :=
  iterations (settings lm) = it ∧
  Forall (λ run, (ticksLeft it run < n)%nat) (rafQueue lm) ∧
  (rafQueue lm = [] → isSimulating lm = false).

(** The state of a manager on which one run was started when its trace had
    [base] steps, [n] frames before the run is certainly over. *)
Definition runInvariant (polys : option (list Polygon)) (it base n : nat)
    (lm : LabelManager) : Prop :=
  iterations (settings lm) = it ∧
  ((rafQueue lm = [] ∧ isSimulating lm = false ∧
    (countSteps (trace lm) <= base + it)%nat ∧
    EvRenderLabels ∈ trace lm ∧
    (∀ ps, polys = Some ps → EvRenderPolygonNames ps ∈ trace lm)) ∨
   (∃ run, rafQueue lm = [run] ∧ polygonsForNames run = polys ∧
           (iterationCount run <= it)%nat ∧
           countSteps (trace lm) = (base + iterationCount run)%nat ∧
           (ticksLeft it run < n)%nat)).

(** ** Concrete scenes *)

(** A viewport of one degree around the origin at zoom 10. *)
Definition exampleMap : MapView := mkMapView 10 (mkBounds (-0.5) 0.5 (-0.5) 0.5).

(** An idle manager on the example viewport. *)
Definition idleManager (cfg : Settings) (ls : list Label) (dragged : gset Key) : LabelManager :=
  {| the_map := exampleMap; labels := ls; showDebugFields := false;
     isSimulating := false; simulationInterval := None;
     manuallyPositionedKeys := dragged;
     velocities := ∅; previousPositions := ∅;
     settings := cfg; rafQueue := []; trace := [] |}.

(** A square of 0.2 degrees. *)
Definition squareRing : list Vertex :=
  [mkVertex 0 0; mkVertex 0 0.2; mkVertex 0.2 0.2; mkVertex 0.2 0].
Definition squarePolygon : Polygon :=
  mkPolygon 1%nat (Some squareRing) "#FF6B6B" (Some "Field").

(** The label of the first corner of the square, dragged by the user. *)
Definition draggedLabel (flagged : bool) : Label :=
  {| key := (1%nat, 0%nat); polygonId := 1%nat; vertexIndex := 0;
     vertexLatLng := L_latLng 0 0;
     labelLatLng := L_latLng 0.05 (-0.07);
     text := "0.000000, 0.000000"; width := 142; height := 30;
     polygonVertices := squareRing; manuallyPositioned := flagged |}.

(** The label of the same corner under a second polygon id, as a second call
    of [setLabels] with the same ring gives it. *)
Definition twinLabel : Label :=
  {| key := (2%nat, 0%nat); polygonId := 2%nat; vertexIndex := 0;
     vertexLatLng := L_latLng 0 0;
     labelLatLng := L_latLng 0.05 (-0.07);
     text := "0.000000, 0.000000"; width := 142; height := 30;
     polygonVertices := squareRing; manuallyPositioned := false |}.

(** Settings without the overlap push ([eqLabel] 0) and with a stiff spring. *)
Definition stiffSettings : Settings :=
  {| initialOffset := 15; minVertexDistance := 30; springStrength := 1024;
     minLabelSpacing := 40; iterations := 200; damping := 0.6;
     maxLabelDistance := 80; minVertexAngle := 10;
     eqVertex := 20; eqLabel := 0; eqCenter := 100; eqFalloff := 3 |}.

(** The nudge of 10px at zoom 10, over the spring strength. *)
Definition heldOffset : R := pixelsToDegrees (156543.03392 / 1024) 10 / 1024.

(** Two labels at the origin whose anchors lie [heldOffset] to the
    north-east and to the south-west of it. *)
Definition heldLabel1 : Label :=
  {| key := (1%nat, 0%nat); polygonId := 1%nat; vertexIndex := 0;
     vertexLatLng := L_latLng heldOffset heldOffset;
     labelLatLng := L_latLng 0 0;
     text := "north-east"; width := 142; height := 30;
     polygonVertices := []; manuallyPositioned := false |}.

Definition heldLabel2 : Label :=
  {| key := (2%nat, 0%nat); polygonId := 2%nat; vertexIndex := 0;
     vertexLatLng := L_latLng (- heldOffset) (- heldOffset);
     labelLatLng := L_latLng 0 0;
     text := "south-west"; width := 142; height := 30;
     polygonVertices := []; manuallyPositioned := false |}.

(** The same square with one more vertex in the middle of its first edge. *)
Definition midpointRing : list Vertex :=
  [mkVertex 0 0; mkVertex 0 0.1; mkVertex 0 0.2; mkVertex 0.2 0.2; mkVertex 0.2 0].
Definition midpointPolygon : Polygon :=
  mkPolygon 1%nat (Some midpointRing) "#FF6B6B" (Some "Field").

(** A ring of two points. *)
Definition twoPointRing : list Vertex := [mkVertex 0 0; mkVertex 0 0.1].
Definition twoPointPolygon : Polygon :=
  mkPolygon 3%nat (Some twoPointRing) "#4ECDC4" (Some "Path").

(** A square with a corner at the origin, and next to that corner a small
    right triangle: its vertex [A] is 26px from the corner, its vertices [B]
    and [C] are 31px away, and the triangle is 5px wide and high. *)
Definition cornerSquare : list Vertex :=
  [mkVertex 0 0; mkVertex (-0.2) 0; mkVertex (-0.2) (-0.2); mkVertex 0 (-0.2)].
Definition smallTriangle : list Vertex :=
  [mkVertex 0.007 0.043 (* C *); mkVertex 0 0.043 (* B *); mkVertex 0 0.036 (* A *)].

Definition cornerSquarePolygon : Polygon :=
  mkPolygon 1%nat (Some cornerSquare) "#FF6B6B" (Some "Field").
Definition smallTrianglePolygon : Polygon :=
  mkPolygon 2%nat (Some smallTriangle) "#4ECDC4" (Some "Shed").

(** A triangle with a vertex on the west edge of the viewport; the labels
    that [updateAllLabels] gives it on an empty manager. *)
Definition edgeRing : list Vertex :=
  [mkVertex 0 (-0.5); mkVertex 0.2 (-0.3); mkVertex (-0.2) (-0.3)].
Definition edgePolygon : Polygon :=
  mkPolygon 1%nat (Some edgeRing) "#FF6B6B" (Some "Field").

Definition edgeManager : LabelManager :=
  updateAllLabels [edgePolygon] (idleManager defaultSettings [] ∅).

(** A triangle in the north-east of the example viewport.  Its labels are
    built there; then the view moves one half degree to the south-west, which
    leaves the triangle outside, and a step runs. *)
Definition cornerRing : list Vertex :=
  [mkVertex 0.3 0.3; mkVertex 0.3 0.35; mkVertex 0.35 0.3].
Definition cornerPolygon : Polygon :=
  mkPolygon 2%nat (Some cornerRing) "#4ECDC4" (Some "Shed").

Definition pannedMap : MapView := mkMapView 10 (mkBounds (-1) 0 (-1) 0).

Definition cornerManager : LabelManager :=
  (simulateStep
     (setView pannedMap
        (updateAllLabels [cornerPolygon] (idleManager defaultSettings [] ∅)))).1.

(** The north-east corner of the padded box of a label of width 142 in the
    moved view, and the three labels of the triangle there. *)
Definition cornerPosition : LatLng.t :=
  L_latLng (0 - pixelsToDegrees (156543.03392 / 1024) 25)
           (0 - pixelsToDegrees (156543.03392 / 1024) 81).

Definition cornerLabel1 : Label :=
  {| key := (2%nat, 0%nat); polygonId := 2%nat; vertexIndex := 0;
     vertexLatLng := L_latLng 0.3 0.3;
     labelLatLng := cornerPosition;
     text := "0.300000, 0.300000"; width := 142; height := 30;
     polygonVertices := cornerRing; manuallyPositioned := false |}.

Definition cornerLabel2 : Label :=
  {| key := (2%nat, 1%nat); polygonId := 2%nat; vertexIndex := 1;
     vertexLatLng := L_latLng 0.3 0.35;
     labelLatLng := cornerPosition;
     text := "0.300000, 0.350000"; width := 142; height := 30;
     polygonVertices := cornerRing; manuallyPositioned := false |}.

Definition cornerLabel3 : Label :=
  {| key := (2%nat, 2%nat); polygonId := 2%nat; vertexIndex := 2;
     vertexLatLng := L_latLng 0.35 0.3;
     labelLatLng := cornerPosition;
     text := "0.350000, 0.300000"; width := 142; height := 30;
     polygonVertices := cornerRing; manuallyPositioned := false |}.

(** ** Further parts of the program *)

(** *** Labels of vertices *)

(** The label of a vertex, as far as it does not depend on where the label
    is put. *)
Definition labelOf (polygon : Polygon) (vertices : list Vertex) (l : Label) : Prop :=
  polygonId l = id polygon ∧
  (vertexIndex l < length vertices)%nat ∧
  key l = (id polygon, vertexIndex l) ∧
  polygonVertices l = vertices ∧
  vertexLatLng l = L_latLng (lat (vertices !!! vertexIndex l)) (lon (vertices !!! vertexIndex l)) ∧
  text l = toFixed6 (lat (vertices !!! vertexIndex l)) +:+ ", " +:+
           toFixed6 (lon (vertices !!! vertexIndex l)) ∧
  width l = estimateLabelWidth (text l) ∧ height l = 30.

(** *** Polygon names ([findPolygonNamePosition]) *)

(** A number that may be [Infinity], as [minDist] and [maxClearance] are. *)
Inductive Num := Finite (r : R) | Infinity.

(** [Math.min(a, b)] and [a > b] on such numbers. *)
Definition Math_min (a b : Num) : Num :=
  match a, b with
  | Infinity, _ => b
  | _, Infinity => a
  | Finite x, Finite y => Finite (Rmin x y)
  end.

Definition Num_gt (a b : Num) : bool :=
  match a, b with
  | Infinity, Finite _ => true
  | Finite x, Finite y => bool_decide (x > y)
  | _, Infinity => false
  end.

(** The order of numbers that may be infinite. *)
Definition Num_le (a b : Num) : Prop := Num_gt a b = false.

(** The candidate positions that [findPolygonNamePosition] checks: the
    centroid and the four points 40px to its north, south, east and west,
    as far as they are in view; if none is, the centroid clamped into the
    viewport shrunk by 50px. *)
Definition candidatesToCheck (m : MapView) (centerLat centerLon : R) : list Vertex :=
  let bounds := getBounds m in
  let zoom := getZoom m in
  let metersPerPixel := 156543.03392 * cos (centerLat * PI / 180) / Rpower 2 zoom in
  let pixelsToDegrees := pixelsToDegrees metersPerPixel in
  (* Try multiple candidate positions around the centroid *)
  let candidates :=
    [ mkVertex centerLat centerLon;
      mkVertex (centerLat + pixelsToDegrees 40) centerLon;
      mkVertex (centerLat - pixelsToDegrees 40) centerLon;
      mkVertex centerLat (centerLon + pixelsToDegrees 40);
      mkVertex centerLat (centerLon - pixelsToDegrees 40) ] in
  (* Filter candidates to those within map bounds *)
  let visibleCandidates :=
    filter (λ c, contains bounds (L_latLng (lat c) (lon c)) = true) candidates in
  if decide (0 < length visibleCandidates)%nat then visibleCandidates
  else
    (* Clamp centroid to visible area with padding *)
    let padding := pixelsToDegrees 50 in
    let clampedLat :=
      Rmax (getSouth bounds + padding) (Rmin (getNorth bounds - padding) centerLat) in
    let clampedLon :=
      Rmax (getWest bounds + padding) (Rmin (getEast bounds - padding) centerLon) in
    [mkVertex clampedLat clampedLon].

(** [minDist] at the end of the inner loop: the minimum distance of a
    candidate to any label. *)
Definition clearance (ls : list Label) (candidate : Vertex) : Num :=
  foldl (λ minDist label,
           let dx := lon candidate - LatLng.lng (labelLatLng label) in
           let dy := lat candidate - LatLng.lat (labelLatLng label) in
           let dist := sqrt (dx * dx + dy * dy) in
           Math_min minDist (Finite dist))
        Infinity ls.

(** [findPolygonNamePosition(polygon, polygonLabels)]; [null] is [None].  The
    second argument is not used by the method. *)
Definition findPolygonNamePosition (polygon : Polygon) (polygonLabels : list Label)
    (lm : LabelManager) : option Vertex :=
  match hull polygon with
  | None => None
  | Some hull =>
      if decide (length hull = 0%nat) then None
      else
        (* Calculate polygon centroid *)
        let centerLat := average lat hull in
        let centerLon := average lon hull in
        let bestPosition := mkVertex centerLat centerLon in
        let maxClearance := Finite 0 in
        let '(bestPosition, _) :=
          foldl (λ '(bestPosition, maxClearance) candidate,
                   let minDist := clearance (labels lm) candidate in
                   (* Pick candidate with most clearance *)
                   if Num_gt minDist maxClearance then (candidate, minDist)
                   else (bestPosition, maxClearance))
                (bestPosition, maxClearance)
                (candidatesToCheck (the_map lm) centerLat centerLon) in
        Some bestPosition
  end.

(** The markers that [renderPolygonNames(polygons)] leaves in
    [polygonNameMarkers]: the position of the name of each polygon that has
    a position and a name. *)
Definition polygonNameMarkers (polygons : list Polygon) (lm : LabelManager)
    : gmap PolygonId Vertex :=
  foldl (λ markers polygon,
           let position :=
             findPolygonNamePosition polygon
               (filter (λ l, polygonId l = id polygon) (labels lm)) lm in
           match position, name polygon with
           | Some position, Some name =>
               if decide (name = EmptyString) then markers
               else <[id polygon := position]> markers
           | _, _ => markers
           end)
        ∅ polygons.

(** *** Forces *)

(** The sum of the force accumulators. *)
Definition netForce (forces : list Vertex) : Vertex :=
  foldr (λ f s, mkVertex (lat f + lat s) (lon f + lon s)) (mkVertex 0 0) forces.

(** *** The map manager *)

(** [MapManager.removePolygon(polygonId)], on [polygonData]. *)
Definition removePolygon (polygonId0 : PolygonId) (polygonData : list Polygon) : list Polygon :=
  filter (λ p, id p ≠ polygonId0) polygonData.

(** [MapManager.calculateArea(hull)], in square metres.  The sum runs over
    the edges in the order of the source; over the reals the order does not
    matter, in the doubles of the program it does in the last digits. *)
Definition calculateArea (hull : option (list Vertex)) : R :=
  match hull with
  | None => 0
  | Some hull =>
      if decide (length hull < 3)%nat then 0
      else
        let n := length hull in
        let area :=
          foldl (λ area i,
                   let j := ((i + 1) mod n)%nat in
                   let lat1 := lat (hull !!! i) * PI / 180 in
                   let lat2 := lat (hull !!! j) * PI / 180 in
                   let lon1 := lon (hull !!! i) * PI / 180 in
                   let lon2 := lon (hull !!! j) * PI / 180 in
                   (* Spherical excess formula for geodesic area *)
                   area + (lon2 - lon1) * (2 + sin lat1 + sin lat2))
                0 (seq 0 n) in
        (* Earth's radius in meters *)
        let R := 6371000 in
        Rabs (area * R * R / 2)
  end.

(** *** Convex hulls ([convex-hull.js]) *)

(** [crossProduct(o, a, b)]: positive for a counter-clockwise turn. *)
Definition crossProduct (o a b : Vertex) : R :=
  (lon a - lon o) * (lat b - lat o) - (lat a - lat o) * (lon b - lon o).

Definition distanceSquared (a b : Vertex) : R :=
  let dlat := lat a - lat b in
  let dlon := lon a - lon b in
  dlat * dlat + dlon * dlon.

(** [Math.atan2(y, x)] on real numbers.  Its arguments here are differences
    of coordinates, which are never the negative zero. *)
Definition Math_atan2 (y x : R) : R :=
  if decide (0 < x) then atan (y / x)
  else if decide (x < 0) then
    if decide (0 <= y) then atan (y / x) + PI else atan (y / x) - PI
  else if decide (0 < y) then PI / 2
  else if decide (y < 0) then - PI / 2
  else 0.

(** The loop that looks for the point with the lowest latitude (the leftmost
    of them), with its index. *)
Definition findPivot (pts : list Vertex) : Vertex * nat :=
  foldl (λ '(pivot, pivotIndex) '(i, p),
           if decide (lat p < lat pivot ∨ (lat p = lat pivot ∧ lon p < lon pivot))
           then (p, i)
           else (pivot, pivotIndex))
        (pts !!! 0%nat, 0%nat) (drop 1 (indexed pts)).

(** The comparison function handed to [sort]. *)
Definition compareByAngle (pivot a b : Vertex) : R :=
  let angleA := Math_atan2 (lat a - lat pivot) (lon a - lon pivot) in
  let angleB := Math_atan2 (lat b - lat pivot) (lon b - lon pivot) in
  if decide (angleA ≠ angleB) then angleA - angleB
  else
    let distA := distanceSquared pivot a in
    let distB := distanceSquared pivot b in
    distA - distB.

(** [array.sort(compare)] for a comparison function that is a consistent
    ordering, as the one above: the sorted arrangement in which [a] comes
    before [b] when [compare(a, b)] is negative and elements that compare as
    equal keep their order (the sort is stable), computed here by insertion. *)
Fixpoint sortedInsert {A : Type} (compare : A → A → R) (a : A) (sorted : list A) : list A :=
  match sorted with
  | [] => [a]
  | b :: sorted' =>
      if decide (compare a b <= 0) then a :: sorted
      else b :: sortedInsert compare a sorted'
  end.

Fixpoint Array_sort {A : Type} (compare : A → A → R) (array : list A) : list A :=
  match array with
  | [] => []
  | a :: array' => sortedInsert compare a (Array_sort compare array')
  end.

(** The loop that drops a point at the location of the point before it in
    [sorted]; [previous] is [sorted[i - 1]]. *)
Fixpoint removeDuplicates (previous : Vertex) (sorted : list Vertex) : list Vertex :=
  match sorted with
  | [] => []
  | p :: sorted' =>
      if decide (lat p ≠ lat previous ∨ lon p ≠ lon previous)
      then p :: removeDuplicates p sorted'
      else removeDuplicates p sorted'
  end.

(** The [while] loop of the scan.  The stack [hull] is held with its last
    element first, so that [hull.pop()] removes the head. *)
Fixpoint popClockwise (hull : list Vertex) (p : Vertex) : list Vertex :=
  match hull with
  | top :: ((below :: _) as hull') =>
      if decide (crossProduct below top p <= 0) then popClockwise hull' p else hull
  | _ => hull
  end.

Definition computeConvexHull (points : list Vertex) : list Vertex :=
  if decide (length points < 3)%nat then points
  else
    let pts := points in
    let '(pivot, pivotIndex) := findPivot pts in
    (* Move pivot to the beginning *)
    let pts := <[pivotIndex := pts !!! 0%nat]> (<[0%nat := pts !!! pivotIndex]> pts) in
    let rest := Array_sort (compareByAngle pivot) (drop 1 pts) in
    let sorted := [pts !!! 0%nat] ++ rest in
    let unique := [sorted !!! 0%nat] ++ removeDuplicates (sorted !!! 0%nat) (drop 1 sorted) in
    if decide (length unique < 3)%nat then unique
    else
      let hull :=
        foldl (λ hull p, p :: popClockwise hull p)
              [unique !!! 1%nat; unique !!! 0%nat] (drop 2 unique) in
      reverse hull.

Definition mergeConvexHulls (pointArrays : list (list Vertex)) : list Vertex :=
  let allPoints := concat pointArrays in
  computeConvexHull allPoints.

(** Four points: the corners of a triangle and a point inside of it. *)
Definition scatteredPoints : list Vertex :=
  [mkVertex 1 1; mkVertex 0 2; mkVertex 0 0; mkVertex 2 2].

(** *** Notions for the proofs about hulls *)

(** [p] is north of the pivot, or east of it at its latitude. *)
Definition above (pivot p : Vertex) : Prop :=
  lat pivot < lat p ∨ (lat pivot = lat p ∧ lon pivot < lon p).

(** Seen from the pivot, [q] is to the left of [p], or behind it in the same
    direction. *)
Definition before (pivot p q : Vertex) : Prop :=
  0 < crossProduct pivot p q ∨
  (crossProduct pivot p q = 0 ∧ distanceSquared pivot p < distanceSquared pivot q).

(** The elements of [l] are pairwise in the order [R]. *)
Fixpoint inOrder {A : Type} (R : A → A → Prop) (l : list A) : Prop :=
  match l with
  | [] => True
  | x :: l' => Forall (R x) l' ∧ inOrder R l'
  end.

(** What the scan keeps, for the pivot, the points [done] it has gone
    through and its stack (last element first). *)
Definition scanInvariant (pivot : Vertex) (done stack : list Vertex) : Prop :=
  last stack = Some pivot ∧
  (2 ≤ length stack)%nat ∧
  (∀ j x, stack !! j = Some x → (S j < length stack)%nat → x ∈ done) ∧
  (∀ j c b a, stack !! j = Some c → stack !! S j = Some b → stack !! S (S j) = Some a →
              0 < crossProduct a b c) ∧
  (∀ j b a, stack !! j = Some b → stack !! S j = Some a → (S (S j) < length stack)%nat →
            0 < crossProduct pivot a b) ∧
  (∀ p, p ∈ done →
        ∀ j b a, stack !! j = Some b → stack !! S j = Some a → 0 <= crossProduct a b p) ∧
  (∀ t, stack !! 0%nat = Some t → ∀ p, p ∈ done → p = t ∨ before pivot p t).

(** *** The application ([main.js]) *)

(** The tracks and the polygons of [state.polygons]. *)
Record Track := mkTrack {
  track_id : R;
  track_name : string;
  points : list Vertex
}.

Record StatePolygon := mkStatePolygon {
  state_id : PolygonId;
  state_name : string;
  state_color : string;
  tracks : list Track;
  state_hull : option (list Vertex)
}.

Definition updatePolygonHull (polygon : StatePolygon) : StatePolygon :=
  if decide (length (tracks polygon) = 0%nat) then
    mkStatePolygon (state_id polygon) (state_name polygon) (state_color polygon)
      (tracks polygon) None
  else
    let allPointArrays := points <$> tracks polygon in
    mkStatePolygon (state_id polygon) (state_name polygon) (state_color polygon)
      (tracks polygon) (Some (mergeConvexHulls allPointArrays)).

(** [updatePolygonOnMap(polygon)], on the [polygonData] of the map manager
    (the layers of the tracks are Leaflet objects). *)
Definition updatePolygonOnMap (polygon : StatePolygon) (polygonData : list Polygon)
    : list Polygon :=
  match state_hull polygon with
  | Some hull0 =>
      if decide (3 ≤ length hull0)%nat then
        addPolygon (mkPolygon (state_id polygon) (state_hull polygon) (state_color polygon)
                      (Some (state_name polygon))) polygonData
      else removePolygon (state_id polygon) polygonData
  | None => removePolygon (state_id polygon) polygonData
  end.

(** A polygon without tracks. *)
Definition emptyStatePolygon : StatePolygon :=
  mkStatePolygon 1%nat "Polygon 1" "#FF6B6B" [] None.

(** [polygon.tracks = tracks]. *)
Definition set_tracks (tracks0 : list Track) (polygon : StatePolygon) : StatePolygon :=
  mkStatePolygon (state_id polygon) (state_name polygon) (state_color polygon)
    tracks0 (state_hull polygon).

(** [moveTrack(trackId, fromPolygonId, toPolygonId)], on [state.polygons].
    [fromPolygon] and [toPolygon] are the objects at the indices [i] and [j]
    of the array, one object when the two are equal. *)
Definition moveTrack (trackId : R) (fromPolygonId toPolygonId : PolygonId)
    (polygons : list StatePolygon) : list StatePolygon :=
  match list_find (λ p, state_id p = fromPolygonId) polygons,
        list_find (λ p, state_id p = toPolygonId) polygons with
  | Some (i, fromPolygon), Some (j, _) =>
      match list_find (λ t, track_id t = trackId) (tracks fromPolygon) with
      | None => polygons
      | Some (trackIndex, track) =>
          (* fromPolygon.tracks.splice(trackIndex, 1) *)
          let polygons :=
            alter (λ p, set_tracks (delete trackIndex (tracks p)) p) i polygons in
          (* toPolygon.tracks.push(track) *)
          let polygons := alter (λ p, set_tracks (tracks p ++ [track]) p) j polygons in
          let polygons := alter updatePolygonHull i polygons in
          alter updatePolygonHull j polygons
      end
  | _, _ => polygons
  end.

(** * Theorems *)

(** ** Geometry *)

(** Resolves the decisions of a goal whose conditions are closed arithmetic. *)
Ltac decide_arith :=
  repeat match goal with
  | |- context [decide ?P] =>
      first [ rewrite (decide_True (P := P)) by (simpl; lra)
            | rewrite (decide_False (P := P)) by (simpl; lra) ]
  | |- context [bool_decide ?P] =>
      first [ rewrite (bool_decide_eq_true_2 P) by (simpl; lra)
            | rewrite (bool_decide_eq_false_2 P) by (simpl; lra) ]
  end.

(** C8: the two concrete segments of the specification, and every segment
    with an endpoint strictly inside the box intersects it. *)
Theorem lineIntersectsBox_correct :
  lineIntersectsBox 0 0 10 10 (mkBox 2 8 2 8) = true ∧
  lineIntersectsBox 0 0 1 1 (mkBox 5 6 5 6) = false ∧
  ∀ (y1 x1 y2 x2 : R) (box : Box),
    (left box < x1 < right box ∧ bottom box < y1 < top box) ∨
    (left box < x2 < right box ∧ bottom box < y2 < top box) →
    lineIntersectsBox y1 x1 y2 x2 box = true.
Proof.
  split; [|split].
  - unfold lineIntersectsBox, lineIntersectsBoxWith; simpl.
    repeat (progress (decide_arith; simpl)). reflexivity.
  - unfold lineIntersectsBox, lineIntersectsBoxWith; simpl. decide_arith. reflexivity.
  - intros y1 x1 y2 x2 box H. unfold lineIntersectsBox, lineIntersectsBoxWith.
    rewrite decide_False by (intros Hq; lra).
    rewrite decide_True by lra. reflexivity.
Qed.

Lemma lineIntersectsBox_correct_witness :
  lineIntersectsBox 5 5 100 (-3) (mkBox 2 8 2 8) = true.
Proof.
  apply (proj2 (proj2 lineIntersectsBox_correct)).
  left; simpl; lra.
Defined.

(** ** The solver only moves labels *)

Lemma set_labelLatLng_same (l : Label) : set_labelLatLng (labelLatLng l) l = l.
Proof. destruct l; reflexivity. Qed.

Lemma movedFrom_set (p : LatLng.t) (l : Label) : movedFrom l (set_labelLatLng p l).
Proof. repeat split. Qed.

Lemma movedFrom_refl (l : Label) : movedFrom l l.
Proof. repeat split. Qed.

Lemma integrateLabel_cases div cfg mpp bounds force i label tr :
  (manuallyPositioned label = true ∧
   integrateLabel div cfg mpp bounds force i label tr = (label, tr)) ∨
  (manuallyPositioned label = false ∧
   ∃ p tr', integrateLabel div cfg mpp bounds force i label tr = (set_labelLatLng p label, tr')).
Proof.
  unfold integrateLabel. destruct tr as [[vel prev] energy].
  destruct (manuallyPositioned label); [left; done|right; split; [done|]].
  destruct (decide (sqrt _ > _)); eauto.
Qed.

Lemma integrateFrom_Forall2 div cfg mpp bounds forces ls :
  ∀ i tr, Forall2 movedFrom ls (integrateFrom div cfg mpp bounds forces i ls tr).1.
Proof.
  induction ls as [|label rest IH]; intros i tr; simpl; [constructor|].
  destruct (integrateLabel _ _ _ _ _ _ _ _) as [label' tr'] eqn:Hl.
  specialize (IH (S i) tr').
  destruct (integrateFrom _ _ _ _ _ _ _ _) as [rest' tr''] eqn:Hr. simpl in *.
  constructor; [|done].
  destruct (integrateLabel_cases div cfg mpp bounds (forces !!! i) i label tr)
    as [[_ E]|[_ (p & t & E)]]; rewrite E in Hl; inversion Hl; subst.
  - apply movedFrom_refl.
  - apply movedFrom_set.
Qed.

Lemma integrateFrom_manual div cfg mpp bounds forces ls :
  ∀ i tr k l, ls !! k = Some l → manuallyPositioned l = true →
    (integrateFrom div cfg mpp bounds forces i ls tr).1 !! k = Some l.
Proof.
  induction ls as [|label rest IH]; intros i tr k l Hk Hm; simpl; [done|].
  destruct (integrateLabel _ _ _ _ _ _ _ _) as [label' tr'] eqn:Hl.
  specialize (IH (S i) tr').
  destruct (integrateFrom _ _ _ _ _ _ _ _) as [rest' tr''] eqn:Hr. simpl in *.
  destruct k as [|k]; simpl in *.
  - inversion Hk; subst.
    destruct (integrateLabel_cases div cfg mpp bounds (forces !!! i) i l tr)
      as [[_ E]|[E _]]; [|congruence].
    rewrite E in Hl. by inversion Hl.
  - by apply IH.
Qed.

Lemma simulateStep_labels (lm : LabelManager) :
  labels (simulateStep lm).1 =
  (integrateFrom Rdiv (settings lm) (stepScale (the_map lm)) (getBounds (the_map lm))
     (computeForces Rdiv (settings lm) (stepScale (the_map lm)) (labels lm))
     0 (labels lm) (velocities lm, previousPositions lm, 0)).1.
Proof.
  unfold simulateStep, simulateStepWith, stepScale. simpl.
  destruct (integrateFrom _ _ _ _ _ _ _ _) as [ls [[v p] e]]. reflexivity.
Qed.

Lemma simulateStep_manager (lm : LabelManager) :
  sameManagerButLabels lm (simulateStep lm).1.
Proof.
  unfold simulateStep, simulateStepWith. simpl.
  destruct (integrateFrom _ _ _ _ _ _ _ _) as [ls [[v p] e]]. repeat split.
Qed.

Lemma simulateStep_Forall2 (lm : LabelManager) :
  Forall2 movedFrom (labels lm) (labels (simulateStep lm).1).
Proof.
  rewrite simulateStep_labels. apply integrateFrom_Forall2.
Qed.

Lemma simulateStep_lookup (lm : LabelManager) (i : nat) (l : Label) :
  labels lm !! i = Some l →
  ∃ l', labels (simulateStep lm).1 !! i = Some l' ∧ movedFrom l l'.
Proof.
  intros Hi. pose proof (simulateStep_Forall2 lm) as HF.
  by eapply Forall2_lookup_l in HF.
Qed.

(** C10: a step keeps the number and order of the labels and changes, in each
    label, nothing but [labelLatLng]; in the manager it changes the labels
    and the velocity and previous-position tracking only. *)
Theorem simulateStep_frame (lm : LabelManager) :
  length (labels (simulateStep lm).1) = length (labels lm) ∧
  Forall2 movedFrom (labels lm) (labels (simulateStep lm).1) ∧
  sameManagerButLabels lm (simulateStep lm).1.
Proof.
  pose proof (simulateStep_Forall2 lm) as H.
  split; [|split].
  - symmetry. by eapply Forall2_length.
  - exact H.
  - apply simulateStep_manager.
Qed.

(** ** Manual positions *)

Lemma simulateStep_manual (lm : LabelManager) (i : nat) (l : Label) :
  labels lm !! i = Some l → manuallyPositioned l = true →
  labels (simulateStep lm).1 !! i = Some l.
Proof.
  intros Hi Hm. rewrite simulateStep_labels. by apply integrateFrom_manual.
Qed.

Lemma L_latLng_eta (p : LatLng.t) : L_latLng (LatLng.lat p) (LatLng.lng p) = p.
Proof. by destruct p. Qed.

Lemma newLabel_key saved cfg mpp pid ring cLat cLon vertex index :
  key (newLabel saved cfg mpp pid ring cLat cLon vertex index) = (pid, index).
Proof.
  unfold newLabel. destruct (saved !! _); [done|].
  destruct (decide _); done.
Qed.

Lemma newLabel_polygonId saved cfg mpp pid ring cLat cLon vertex index :
  polygonId (newLabel saved cfg mpp pid ring cLat cLon vertex index) = pid.
Proof.
  unfold newLabel. destruct (saved !! _); [done|].
  destruct (decide _); done.
Qed.

Lemma newLabel_restored saved cfg mpp pid ring cLat cLon vertex index :
  restored saved (newLabel saved cfg mpp pid ring cLat cLon vertex index).
Proof.
  intros p. rewrite newLabel_key. unfold newLabel. intros ->. simpl.
  by rewrite L_latLng_eta.
Qed.

(** The three outcomes of the loop body for a vertex that passes the
    filters: accepted, rejected, accepted in place of an earlier one. *)
Lemma selectVertex_skip ownOnly saved cfg mpp pid ring cLat cLon sel vd :
  ¬ passesFilters cfg vd →
  selectVertex ownOnly saved cfg mpp pid ring cLat cLon sel vd = sel.
Proof.
  intros Hs. destruct sel as [ls lvs]. unfold selectVertex.
  destruct (vd_inBounds vd) eqn:Hb; simpl; [|done].
  destruct (decide (_ > _)); [done|]. exfalso. apply Hs. by split.
Qed.

Lemma selectVertex_accept ownOnly saved cfg mpp pid ring cLat cLon ls lvs vd :
  passesFilters cfg vd →
  list_find (isClose cfg mpp (vd_vertex vd)) lvs = None →
  selectVertex ownOnly saved cfg mpp pid ring cLat cLon (ls, lvs) vd =
  (ls ++ [newLabel saved cfg mpp pid ring cLat cLon (vd_vertex vd) (vd_index vd)],
   lvs ++ [mkLabeledVertex (lat (vd_vertex vd)) (lon (vd_vertex vd)) (vd_angle vd)]).
Proof.
  intros [Hb Ha] Hf. unfold selectVertex. rewrite Hb. simpl.
  rewrite decide_False by done. by rewrite Hf.
Qed.

Lemma selectVertex_reject ownOnly saved cfg mpp pid ring cLat cLon ls lvs vd k c :
  passesFilters cfg vd →
  list_find (isClose cfg mpp (vd_vertex vd)) lvs = Some (k, c) →
  ¬ vd_angle vd < lv_angle c →
  selectVertex ownOnly saved cfg mpp pid ring cLat cLon (ls, lvs) vd = (ls, lvs).
Proof.
  intros [Hb Ha] Hf Hc. unfold selectVertex. rewrite Hb. simpl.
  rewrite decide_False by done. rewrite Hf. by rewrite decide_False.
Qed.

Lemma selectVertex_evict ownOnly saved cfg mpp pid ring cLat cLon ls lvs vd k c :
  passesFilters cfg vd →
  list_find (isClose cfg mpp (vd_vertex vd)) lvs = Some (k, c) →
  vd_angle vd < lv_angle c →
  selectVertex ownOnly saved cfg mpp pid ring cLat cLon (ls, lvs) vd =
  ((if list_find (isLabelOf ownOnly pid c) ls is Some (j, _) then delete j ls else ls)
     ++ [newLabel saved cfg mpp pid ring cLat cLon (vd_vertex vd) (vd_index vd)],
   delete k lvs
     ++ [mkLabeledVertex (lat (vd_vertex vd)) (lon (vd_vertex vd)) (vd_angle vd)]).
Proof.
  intros [Hb Ha] Hf Hc. unfold selectVertex. rewrite Hb. simpl.
  rewrite decide_False by done. rewrite Hf. rewrite decide_True by done.
  by destruct (list_find _ ls) as [[j ?]|].
Qed.

(** A property of all labels that deleting labels keeps, and that the label
    of every vertex passing the filters has, is kept by the loop body. *)
Lemma selectVertex_Forall (P : Label → Prop) ownOnly saved cfg mpp pid ring cLat cLon sel vd :
  (passesFilters cfg vd →
   P (newLabel saved cfg mpp pid ring cLat cLon (vd_vertex vd) (vd_index vd))) →
  Forall P sel.1 →
  Forall P (selectVertex ownOnly saved cfg mpp pid ring cLat cLon sel vd).1.
Proof.
  intros Hnew HP. destruct sel as [ls lvs].
  destruct (decide (passesFilters cfg vd)) as [Hp|Hp];
    [|by rewrite selectVertex_skip].
  destruct (list_find (isClose cfg mpp (vd_vertex vd)) lvs) as [[k c]|] eqn:Hf.
  - destruct (decide (vd_angle vd < lv_angle c)).
    + erewrite selectVertex_evict by done. simpl.
      apply Forall_app; split; [|by repeat constructor; auto].
      destruct (list_find _ ls) as [[j ?]|]; [by apply Forall_delete|done].
    + by erewrite selectVertex_reject.
  - rewrite selectVertex_accept by done. simpl.
    apply Forall_app; split; [done|by repeat constructor; auto].
Qed.

Lemma foldl_invariant {A B : Type} (Q : A → Prop) (f : A → B → A) (l : list B) :
  (∀ a b, b ∈ l → Q a → Q (f a b)) → ∀ a, Q a → Q (foldl f a l).
Proof.
  induction l as [|b l IH]; intros Hf a Ha; simpl; [done|].
  apply IH.
  - intros a' b' Hb'. apply Hf. by right.
  - apply Hf; [by left|done].
Qed.

(** The entries of [vertexData] carry their index, vertex and angle. *)
Lemma vertexData_spec bounds vertices vd :
  vd ∈ vertexData bounds vertices →
  (vd_index vd < length vertices)%nat ∧
  vd_vertex vd = vertices !!! vd_index vd ∧
  vd_angle vd = calculateVertexAngle vertices (vd_index vd).
Proof.
  intros Hin. apply list_elem_of_lookup in Hin as [i Hi].
  unfold vertexData in Hi. rewrite list_lookup_imap in Hi.
  destruct (vertices !! i) as [v|] eqn:Hv; simpl in Hi; [|done].
  inversion Hi; subst; simpl. split; [by eapply lookup_lt_Some|].
  split; [|done]. symmetry. by apply list_lookup_total_correct.
Qed.

Lemma selectRing_Forall (P : Label → Prop) ownOnly saved cfg m pid vertices sel :
  (∀ mpp cLat cLon index, selectable cfg vertices index →
     P (newLabel saved cfg mpp pid vertices cLat cLon (vertices !!! index) index)) →
  Forall P sel.1 →
  Forall P (selectRing ownOnly saved cfg m pid vertices sel).1.
Proof.
  intros Hnew HP. unfold selectRing. destruct (decide _); [done|].
  apply (foldl_invariant (λ s, Forall P s.1)); [|done].
  intros a vd Hvd Ha. apply selectVertex_Forall; [|done].
  intros [_ Hang]. apply vertexData_spec in Hvd as (Hlt & -> & Hangle).
  apply Hnew. split; [done|]. by rewrite <- Hangle.
Qed.

Lemma selectPolygon_Forall (P : Label → Prop) saved cfg m sel polygon :
  (∀ vertices mpp cLat cLon index,
     hull polygon = Some vertices → selectable cfg vertices index →
     P (newLabel saved cfg mpp (id polygon) vertices cLat cLon (vertices !!! index) index)) →
  Forall P sel.1 →
  Forall P (selectPolygon saved cfg m sel polygon).1.
Proof.
  intros Hnew HP. unfold selectPolygon. destruct (hull polygon); [|done].
  destruct (decide _); [done|]. apply selectRing_Forall; auto.
Qed.

Lemma startSimulation_labels polys lm : labels (startSimulation polys lm) = labels lm.
Proof. unfold startSimulation. by destruct (isSimulating lm). Qed.

(** The labels that [updateAllLabels] leaves in the manager. *)
Lemma updateAllLabels_labels polygons lm :
  labels (updateAllLabels polygons lm) =
  (foldl (selectPolygon (savePositions lm) (settings lm) (the_map lm)) ([], []) polygons).1.
Proof.
  unfold updateAllLabels. simpl.
  destruct (foldl _ _ polygons) as [ls lvs]. simpl.
  destruct (decide _); [|done]. by rewrite startSimulation_labels.
Qed.

Lemma updateAllLabels_Forall (P : Label → Prop) polygons lm :
  (∀ polygon vertices mpp cLat cLon index,
     polygon ∈ polygons → hull polygon = Some vertices →
     selectable (settings lm) vertices index →
     P (newLabel (savePositions lm) (settings lm) mpp (id polygon) vertices cLat cLon
          (vertices !!! index) index)) →
  Forall P (labels (updateAllLabels polygons lm)).
Proof.
  intros Hnew. rewrite updateAllLabels_labels.
  apply (foldl_invariant (λ s, Forall P s.1)); [|by constructor].
  intros a polygon Hin Ha. apply selectPolygon_Forall; [|done].
  intros. by apply Hnew.
Qed.

Lemma savePositions_fold_notin (M : gset Key) (ls : list Label) (k : Key) :
  k ∉ key <$> ls →
  ∀ m : gmap Key LatLng.t,
    foldl (λ saved label,
             if decide (key label ∈ M) then
               <[key label := L_latLng (LatLng.lat (labelLatLng label))
                                       (LatLng.lng (labelLatLng label))]> saved
             else saved) m ls !! k = m !! k.
Proof.
  induction ls as [|x ls IH]; intros Hk m; simpl; [done|].
  rewrite fmap_cons in Hk. apply not_elem_of_cons in Hk as [Hx Hk].
  rewrite IH by done. destruct (decide _); [|done].
  by rewrite lookup_insert_ne.
Qed.

(** With one label per key, the saved position of a dragged label is the
    position that label has. *)
Lemma savePositions_lookup (lm : LabelManager) (l : Label) :
  NoDup (key <$> labels lm) → l ∈ labels lm →
  key l ∈ manuallyPositionedKeys lm →
  savePositions lm !! key l = Some (labelLatLng l).
Proof.
  unfold savePositions. generalize (∅ : gmap Key LatLng.t).
  induction (labels lm) as [|x ls IH]; intros m Hnd Hl Hk; [by apply elem_of_nil in Hl|].
  rewrite fmap_cons in Hnd. apply NoDup_cons in Hnd as [Hx Hnd].
  simpl. apply elem_of_cons in Hl as [->|Hl].
  - rewrite savePositions_fold_notin by done.
    rewrite decide_True by done. rewrite lookup_insert_eq. by rewrite L_latLng_eta.
  - by apply IH.
Qed.

(** Without that, it is the position of one of the labels of that key (the
    last one). *)
Lemma savePositions_origin (lm : LabelManager) (k : Key) :
  k ∈ key <$> labels lm → k ∈ manuallyPositionedKeys lm →
  ∃ l, l ∈ labels lm ∧ key l = k ∧ savePositions lm !! k = Some (labelLatLng l).
Proof.
  unfold savePositions. generalize (∅ : gmap Key LatLng.t).
  induction (labels lm) as [|x ls IH]; intros m Hin Hk; [by apply elem_of_nil in Hin|].
  simpl. destruct (decide (k ∈ key <$> ls)) as [Hls|Hls].
  - destruct (IH (if decide (key x ∈ manuallyPositionedKeys lm)
                  then <[key x := L_latLng (LatLng.lat (labelLatLng x))
                                           (LatLng.lng (labelLatLng x))]> m
                  else m) Hls Hk) as (l & Hl & Hkl & Hs).
    exists l. split; [by right|done].
  - rewrite fmap_cons in Hin. apply elem_of_cons in Hin as [->|Hin]; [|done].
    exists x. split; [by left|]. split; [done|].
    rewrite savePositions_fold_notin by done.
    rewrite decide_True by done. rewrite lookup_insert_eq. by rewrite L_latLng_eta.
Qed.

(** C1: a label flagged [manuallyPositioned] keeps its position (indeed all
    of itself) through any number of steps; and after [updateAllLabels],
    every label whose key was dragged before and was the key of a label has
    the position that a label of that key had, and is flagged; with one
    label per key in the old list, it has the position of the label of its
    key. *)
Theorem manual_position_invariance :
  (∀ (n : nat) (lm : LabelManager) (i : nat) (l : Label),
     labels lm !! i = Some l → manuallyPositioned l = true →
     labels (Nat.iter n (λ s, (simulateStep s).1) lm) !! i = Some l) ∧
  (∀ (polygons : list Polygon) (lm : LabelManager) (l' : Label),
     l' ∈ labels (updateAllLabels polygons lm) →
     key l' ∈ key <$> labels lm → key l' ∈ manuallyPositionedKeys lm →
     ∃ l, l ∈ labels lm ∧ key l = key l' ∧
          labelLatLng l' = labelLatLng l ∧ manuallyPositioned l' = true) ∧
  (∀ (polygons : list Polygon) (lm : LabelManager) (l l' : Label),
     NoDup (key <$> labels lm) →
     l ∈ labels lm → key l ∈ manuallyPositionedKeys lm →
     l' ∈ labels (updateAllLabels polygons lm) → key l' = key l →
     labelLatLng l' = labelLatLng l ∧ manuallyPositioned l' = true).
Proof.
  assert (∀ polygons lm l', l' ∈ labels (updateAllLabels polygons lm) →
            restored (savePositions lm) l') as Hrestored.
  { intros polygons lm l' Hl'.
    pose proof (updateAllLabels_Forall (restored (savePositions lm)) polygons lm) as HF.
    rewrite Forall_forall in HF.
    apply (HF (λ _ _ _ _ _ _ _ _ _, newLabel_restored _ _ _ _ _ _ _ _ _) l' Hl'). }
  split; [|split].
  - intros n lm i l Hi Hm. induction n as [|n IH]; simpl; [done|].
    by apply simulateStep_manual.
  - intros polygons lm l' Hl' Hin Hk.
    destruct (savePositions_origin lm (key l') Hin Hk) as (l & Hl & Hkey & Hs).
    exists l. split; [done|]. split; [done|].
    by apply (Hrestored polygons lm l' Hl').
  - intros polygons lm l l' Hnd Hl Hk Hl' Hkey.
    apply (Hrestored polygons lm l' Hl').
    rewrite Hkey. by apply savePositions_lookup.
Qed.

(** ** The angle at a straight vertex *)

(** The index arithmetic of [calculateVertexAngle] reads the ring
    neighbours, which are inside the ring. *)
Lemma ring_reads_in_range (n index : nat) :
  (index < n)%nat →
  Z.to_nat (Z.rem (Z.of_nat index - 1 + Z.of_nat n) (Z.of_nat n)) = ringPrev n index ∧
  Z.to_nat (Z.rem (Z.of_nat index + 1) (Z.of_nat n)) = ringNext n index ∧
  (ringPrev n index < n)%nat ∧ (ringNext n index < n)%nat.
Proof.
  intros Hi. unfold ringPrev, ringNext.
  rewrite !Z.rem_mod_nonneg by lia.
  repeat split.
  - replace (Z.of_nat index - 1 + Z.of_nat n)%Z with (Z.of_nat (index + n - 1)) by lia.
    rewrite <- Nat2Z.inj_mod. apply Nat2Z.id.
  - replace (Z.of_nat index + 1)%Z with (Z.of_nat (index + 1)) by lia.
    rewrite <- Nat2Z.inj_mod. apply Nat2Z.id.
  - apply Nat.mod_upper_bound. lia.
  - apply Nat.mod_upper_bound. lia.
Qed.

Lemma sqrt_sum_squares_0 (a b : R) : sqrt (a * a + b * b) = 0 ↔ a = 0 ∧ b = 0.
Proof.
  split.
  - intros H. apply sqrt_eq_0 in H; [|nra]. split; nra.
  - intros [-> ->]. replace (0 * 0 + 0 * 0) with 0 by lra. apply sqrt_0.
Qed.

Lemma opposite_cosine (a b k : R) :
  0 < k → sqrt (a * a + b * b) ≠ 0 →
  (a * (- k * a) + b * (- k * b)) /
  (sqrt (a * a + b * b) * sqrt (- k * a * (- k * a) + - k * b * (- k * b))) = -1.
Proof.
  intros Hk Hm.
  assert (0 <= a * a + b * b) as Hnn by nra.
  replace (- k * a * (- k * a) + - k * b * (- k * b)) with ((k * k) * (a * a + b * b)) by ring.
  rewrite sqrt_mult by nra. rewrite sqrt_square by lra.
  replace (sqrt (a * a + b * b) * (k * sqrt (a * a + b * b)))
    with (k * (sqrt (a * a + b * b) * sqrt (a * a + b * b))) by ring.
  rewrite sqrt_sqrt by done.
  assert (a * a + b * b ≠ 0) as Hne.
  { intros H0. apply Hm. rewrite H0. apply sqrt_0. }
  field. split; lra.
Qed.

Lemma acos_opp_1 : acos (-1) = PI.
Proof. replace (-1) with (- (1)) by lra. rewrite acos_opp, acos_1. lra. Qed.

Lemma calculateVertexAngle_straight (vertices : list Vertex) (index : nat) :
  (index < length vertices)%nat → straightAt vertices index →
  calculateVertexAngle vertices index = 180.
Proof.
  intros Hi Hs. unfold calculateVertexAngle, straightAt in *.
  destruct (ring_reads_in_range _ _ Hi) as (-> & -> & _ & _).
  set (prev := vertices !!! ringPrev (length vertices) index) in *.
  set (curr := vertices !!! index) in *.
  set (next := vertices !!! ringNext (length vertices) index) in *.
  destruct (decide _) as [|Hmag]; [done|].
  destruct Hs as [[H1 H2]|[[H1 H2]|(k & Hk & H1 & H2)]].
  - exfalso. apply Hmag. left. apply sqrt_sum_squares_0. split; lra.
  - exfalso. apply Hmag. right. apply sqrt_sum_squares_0. split; lra.
  - rewrite H1, H2. rewrite opposite_cosine; [|done|tauto].
    rewrite Rmin_right, Rmax_left by lra. rewrite acos_opp_1.
    field. apply PI_neq0.
Qed.

(** ** Straight vertices are not labeled *)

Lemma newLabel_vertexIndex saved cfg mpp pid ring cLat cLon vertex index :
  vertexIndex (newLabel saved cfg mpp pid ring cLat cLon vertex index) = index.
Proof.
  unfold newLabel. destruct (saved !! _); [done|].
  destruct (decide _); done.
Qed.

Lemma newLabel_polygonVertices saved cfg mpp pid ring cLat cLon vertex index :
  polygonVertices (newLabel saved cfg mpp pid ring cLat cLon vertex index) = ring.
Proof.
  unfold newLabel. destruct (saved !! _); [done|].
  destruct (decide _); done.
Qed.

Lemma newLabel_vertexLatLng saved cfg mpp pid ring cLat cLon vertex index :
  vertexLatLng (newLabel saved cfg mpp pid ring cLat cLon vertex index) =
  L_latLng (lat vertex) (lon vertex).
Proof.
  unfold newLabel. destruct (saved !! _); [done|].
  destruct (decide _); done.
Qed.

Lemma stopSimulation_labels lm : labels (stopSimulation lm) = labels lm.
Proof. unfold stopSimulation. by destruct (simulationInterval lm). Qed.

Lemma stopSimulation_settings lm : settings (stopSimulation lm) = settings lm.
Proof. unfold stopSimulation. by destruct (simulationInterval lm). Qed.

Lemma stopSimulation_the_map lm : the_map (stopSimulation lm) = the_map lm.
Proof. unfold stopSimulation. by destruct (simulationInterval lm). Qed.

Lemma removeLabels_labels pid lm :
  labels (removeLabels pid lm) = filter (λ label, polygonId label ≠ pid) (labels lm).
Proof.
  unfold removeLabels. destruct (decide _); [|done]. by rewrite stopSimulation_labels.
Qed.

Lemma removeLabels_settings pid lm : settings (removeLabels pid lm) = settings lm.
Proof.
  unfold removeLabels. destruct (decide _); [|done]. by rewrite stopSimulation_settings.
Qed.

Lemma removeLabels_the_map pid lm : the_map (removeLabels pid lm) = the_map lm.
Proof.
  unfold removeLabels. destruct (decide _); [|done]. by rewrite stopSimulation_the_map.
Qed.

(** The labels that [setLabels] leaves in the manager: those of the other
    polygons, and what the selection pass adds for the ring. *)
Lemma setLabels_labels pid vertices lm :
  labels (setLabels pid (Some vertices) lm) =
  (selectRing true ∅ (settings lm) (the_map lm) pid vertices
     (filter (λ label, polygonId label ≠ pid) (labels lm), [])).1.
Proof.
  unfold setLabels.
  rewrite <- (removeLabels_labels pid lm), <- (removeLabels_settings pid lm),
    <- (removeLabels_the_map pid lm).
  generalize (removeLabels pid lm). intros lm'.
  destruct (decide (length vertices = 0%nat)) as [Hl|Hl].
  { apply length_zero_iff_nil in Hl as ->. unfold selectRing. by simpl. }
  destruct (decide (length (filter _ vertices) = 0%nat)) as [Hv|Hv].
  - unfold selectRing. by rewrite decide_True.
  - destruct (selectRing _ _ _ _ _ _ _) as [ls lvs] eqn:Hsel.
    by rewrite startSimulation_labels.
Qed.

Lemma setLabels_labels_None pid lm :
  labels (setLabels pid None lm) = filter (λ label, polygonId label ≠ pid) (labels lm).
Proof. unfold setLabels. apply removeLabels_labels. Qed.

(** C4 (as amended): at a vertex of the ring with an adjacent edge of
    length zero the angle is the literal 180; at a vertex whose two edges
    are opposite it is 180 up to rounding, stated as at least 179.9999.
    Neither [updateAllLabels] nor [setLabels] leaves a label for a vertex
    whose angle exceeds [180 - minVertexAngle], hence none for a straight
    vertex when [minVertexAngle] is at least 0.001. *)
Theorem straight_vertex_not_labeled (vertices : list Vertex) (index : nat) :
  (index < length vertices)%nat →
  (zeroEdgeAt vertices index → calculateVertexAngle vertices index = 180) ∧
  (straightAt vertices index → 179.9999 <= calculateVertexAngle vertices index <= 180) ∧
  (∀ (polygons : list Polygon) (lm : LabelManager),
     calculateVertexAngle vertices index > 180 - minVertexAngle (settings lm) ∨
     (straightAt vertices index ∧ 0.001 <= minVertexAngle (settings lm)) →
     Forall (λ l, ¬ (polygonVertices l = vertices ∧ vertexIndex l = index))
            (labels (updateAllLabels polygons lm))) ∧
  (∀ (pid : PolygonId) (lm : LabelManager),
     calculateVertexAngle vertices index > 180 - minVertexAngle (settings lm) ∨
     (straightAt vertices index ∧ 0.001 <= minVertexAngle (settings lm)) →
     Forall (λ l, ¬ (polygonId l = pid ∧ vertexIndex l = index))
            (labels (setLabels pid (Some vertices) lm))).
Proof.
  intros Hi.
  assert (straightAt vertices index →
          179.9999 <= calculateVertexAngle vertices index <= 180) as Hstraight.
  { intros Hs. rewrite (calculateVertexAngle_straight vertices index Hi Hs). lra. }
  assert (∀ m : R,
            calculateVertexAngle vertices index > 180 - m ∨
            (straightAt vertices index ∧ 0.001 <= m) →
            calculateVertexAngle vertices index > 180 - m) as Hskip.
  { intros m [H|[Hs Hm]]; [done|]. apply Hstraight in Hs. lra. }
  split; [|split; [done|split]].
  - intros Hz. apply calculateVertexAngle_straight; [done|].
    unfold straightAt, straight. unfold zeroEdgeAt in Hz. tauto.
  - intros polygons lm Hmin. apply Hskip in Hmin. apply updateAllLabels_Forall.
    intros polygon ring mpp cLat cLon i _ _ [_ Hsel].
    rewrite newLabel_polygonVertices, newLabel_vertexIndex. intros [-> ->].
    by apply Hsel.
  - intros pid lm Hmin. apply Hskip in Hmin. rewrite setLabels_labels.
    apply selectRing_Forall; simpl.
    + intros mpp cLat cLon i [_ Hsel].
      rewrite newLabel_vertexIndex. intros [_ ->].
      by apply Hsel.
    + apply Forall_forall. intros l Hl. apply list_elem_of_filter in Hl as [Hl _].
      tauto.
Qed.

(** ** Rings that are too small *)

Lemma straightAt_singleton (v : Vertex) : straightAt [v] 0.
Proof. unfold straightAt, straight. left. by simpl. Qed.

Lemma selectRing_singleton ownOnly saved cfg m pid v sel :
  0 < minVertexAngle cfg →
  selectRing ownOnly saved cfg m pid [v] sel = sel.
Proof.
  intros Hmin. unfold selectRing. destruct (decide _); [done|].
  simpl. apply selectVertex_skip. intros [_ Ha]. apply Ha. simpl.
  rewrite (calculateVertexAngle_straight [v] 0); [lra|simpl; lia|].
  apply straightAt_singleton.
Qed.

(** C5 (as amended): a missing or empty ring, and a ring of one point when
    [minVertexAngle] is at least 0.001, gives no label in [updateAllLabels]
    (the selection is left as it was) nor in [setLabels] (only the old
    labels of the polygon go away); and [MapManager.addPolygon] keeps rings
    of fewer than three points out of what [refreshAllLabels] passes on.
    The angle of the single vertex is the literal 180 of the degenerate
    case, and the filter tests [180 > 180 - minVertexAngle]. *)
Theorem small_rings_give_no_label :
  (∀ saved cfg m sel polygon,
     hull polygon = None ∨ hull polygon = Some [] →
     selectPolygon saved cfg m sel polygon = sel) ∧
  (∀ pid vertices lm,
     vertices = None ∨ vertices = Some [] →
     labels (setLabels pid vertices lm) =
     filter (λ label, polygonId label ≠ pid) (labels lm)) ∧
  (∀ saved cfg m sel polygon v,
     hull polygon = Some [v] → 0.001 <= minVertexAngle cfg →
     selectPolygon saved cfg m sel polygon = sel) ∧
  (∀ pid v lm,
     0.001 <= minVertexAngle (settings lm) →
     labels (setLabels pid (Some [v]) lm) =
     filter (λ label, polygonId label ≠ pid) (labels lm)) ∧
  (∀ polygon polygonData,
     Forall hasRing polygonData → Forall hasRing (addPolygon polygon polygonData)).
Proof.
  repeat split.
  - intros saved cfg m sel polygon [H|H]; unfold selectPolygon; by rewrite H.
  - intros pid vertices lm [->| ->]; [apply setLabels_labels_None|].
    rewrite setLabels_labels. by unfold selectRing.
  - intros saved cfg m sel polygon v H Hmin. unfold selectPolygon. rewrite H. simpl.
    apply selectRing_singleton. lra.
  - intros pid v lm Hmin. rewrite setLabels_labels.
    rewrite selectRing_singleton; [done|lra].
  - intros polygon polygonData HF. unfold addPolygon.
    assert (Forall hasRing (filter (λ p, id p ≠ id polygon) polygonData)) as HF'.
    { apply Forall_forall. intros p Hp. apply list_elem_of_filter in Hp as [_ Hp].
      by eapply Forall_forall in HF. }
    destruct (hull polygon) as [vertices|] eqn:Hh; [|done].
    destruct (decide _); [done|].
    apply Forall_app; split; [done|]. repeat constructor.
    exists vertices. split; [done|lia].
Qed.

(** ** Two close vertices *)

Lemma list_find_app_first {A : Type} (P : A → Prop) `{!∀ x, Decision (P x)}
    (l1 l2 : list A) (x : A) :
  (∀ y, y ∈ l1 → ¬ P y) → P x →
  list_find P (l1 ++ x :: l2) = Some (length l1, x).
Proof.
  intros Hl1 Hx. apply list_find_Some. split; [|split; [done|]].
  - by rewrite list_lookup_middle.
  - intros j y Hj Hlt. rewrite lookup_app_l in Hj by done.
    apply Hl1. by eapply list_elem_of_lookup_2.
Qed.

Lemma delete_middle {A : Type} (l1 l2 : list A) (x : A) :
  delete (length l1) (l1 ++ x :: l2) = l1 ++ l2.
Proof. induction l1 as [|y l1 IH]; simpl; [done|]. by rewrite IH. Qed.

(** C7 (as amended): let an accepted vertex A, of this polygon or (in
    [updateAllLabels]) of an earlier one, have its entry in
    [labeledVertices] and its label in [labels], and let a later vertex B
    that passes the filters be within [minVertexDistance] of A while no
    vertex accepted before A is (the scan stops at the first accepted vertex
    in range), and let no earlier label sit on A's vertex.  Then B takes A's
    place, entry and label, when its angle is strictly smaller, and is
    rejected otherwise. *)
Theorem close_vertices_one_label ownOnly saved cfg mpp pid ring cLat cLon
    (ls1 ls2 : list Label) (lvs1 lvs2 : list LabeledVertex)
    (entryA : LabeledVertex) (labelA : Label) (vdB : VertexData) :
  let entryB := mkLabeledVertex (lat (vd_vertex vdB)) (lon (vd_vertex vdB)) (vd_angle vdB) in
  let labelB := newLabel saved cfg mpp pid ring cLat cLon (vd_vertex vdB) (vd_index vdB) in
  passesFilters cfg vdB →
  isClose cfg mpp (vd_vertex vdB) entryA →
  (∀ c, c ∈ lvs1 → ¬ isClose cfg mpp (vd_vertex vdB) c) →
  isLabelOf ownOnly pid entryA labelA →
  (∀ l, l ∈ ls1 → ¬ isLabelOf ownOnly pid entryA l) →
  selectVertex ownOnly saved cfg mpp pid ring cLat cLon
    (ls1 ++ labelA :: ls2, lvs1 ++ entryA :: lvs2) vdB =
  if decide (vd_angle vdB < lv_angle entryA)
  then (ls1 ++ ls2 ++ [labelB], lvs1 ++ lvs2 ++ [entryB])
  else (ls1 ++ labelA :: ls2, lvs1 ++ entryA :: lvs2).
Proof.
  intros entryB labelB Hpass Hclose Hlvs1 HlabelA Hls1.
  assert (list_find (isClose cfg mpp (vd_vertex vdB)) (lvs1 ++ entryA :: lvs2)
          = Some (length lvs1, entryA)) as Hfind by by apply list_find_app_first.
  destruct (decide (vd_angle vdB < lv_angle entryA)) as [Hlt|Hge].
  - erewrite selectVertex_evict; [|done|exact Hfind|done].
    assert (list_find (isLabelOf ownOnly pid entryA) (ls1 ++ labelA :: ls2)
            = Some (length ls1, labelA)) as ->
      by by apply list_find_app_first.
    by rewrite !delete_middle, <- !(assoc_L (++)).
  - by erewrite selectVertex_reject.
Qed.

(** ** The distance of a label from its anchor *)

Lemma stepScale_pos (m : MapView) : 0 < stepScale m.
Proof.
  unfold stepScale. rewrite cos_0.
  assert (0 < Rpower 2 (getZoom m)) by apply exp_pos.
  apply Rdiv_lt_0_compat; lra.
Qed.

Lemma pixelsToDegrees_nonneg (mpp px : R) : 0 < mpp → 0 <= px → 0 <= pixelsToDegrees mpp px.
Proof.
  intros. unfold pixelsToDegrees.
  apply Rmult_le_pos; [nra|]. apply Rlt_le, Rinv_0_lt_compat. lra.
Qed.

(** Scaling an offset of length above [m >= 0] back to length [m]. *)
Lemma scaled_back_length (dx dy m : R) :
  0 <= m → sqrt (dx * dx + dy * dy) > m →
  sqrt (dx * (m / sqrt (dx * dx + dy * dy)) * (dx * (m / sqrt (dx * dx + dy * dy))) +
        dy * (m / sqrt (dx * dx + dy * dy)) * (dy * (m / sqrt (dx * dx + dy * dy)))) = m.
Proof.
  intros Hm Hd. set (d := sqrt (dx * dx + dy * dy)) in *.
  assert (d * d = dx * dx + dy * dy) as Hdd by (apply sqrt_sqrt; nra).
  assert (d ≠ 0) as Hd0 by lra.
  replace (dx * (m / d) * (dx * (m / d)) + dy * (m / d) * (dy * (m / d)))
    with (m * m).
  - by apply sqrt_square.
  - transitivity ((dx * dx + dy * dy) * (m * m) / (d * d)); [|by field].
    rewrite <- Hdd. by field.
Qed.

(** The position that the integration loop gives a label that is not
    manually positioned: some point within [maxDist] of the anchor, brought
    into the padded viewport. *)
Lemma integrateLabel_position cfg mpp bounds force i label tr :
  manuallyPositioned label = false →
  ∃ newLat newLng tr',
    integrateLabel Rdiv cfg mpp bounds force i label tr =
    (set_labelLatLng
       (L_latLng
          (Rmax (paddedSouth mpp bounds label) (Rmin (paddedNorth mpp bounds label) newLat))
          (Rmax (paddedWest mpp bounds label) (Rmin (paddedEast mpp bounds label) newLng)))
       label, tr') ∧
    (0 <= pixelsToDegrees mpp (maxLabelDistance cfg) →
     sqrt ((newLng - LatLng.lng (vertexLatLng label)) *
           (newLng - LatLng.lng (vertexLatLng label)) +
           (newLat - LatLng.lat (vertexLatLng label)) *
           (newLat - LatLng.lat (vertexLatLng label)))
     <= pixelsToDegrees mpp (maxLabelDistance cfg)).
Proof.
  intros Hm. unfold integrateLabel, p2d. destruct tr as [[vel prev] energy]. rewrite Hm.
  fold (pixelsToDegrees mpp (maxLabelDistance cfg)).
  fold (pixelsToDegrees mpp (height label / 2 + 10)).
  fold (pixelsToDegrees mpp (width label / 2 + 10)).
  fold (paddedSouth mpp bounds label). fold (paddedNorth mpp bounds label).
  fold (paddedWest mpp bounds label). fold (paddedEast mpp bounds label).
  destruct (decide (sqrt _ > _)) as [Hgt|Hle].
  - eexists _, _, _. split; [reflexivity|].
    intros Hmax.
    match goal with |- sqrt ?e <= _ =>
      match type of Hgt with sqrt (?dx * ?dx + ?dy * ?dy) > ?m =>
        replace e with
          (dx * (m / sqrt (dx * dx + dy * dy)) * (dx * (m / sqrt (dx * dx + dy * dy))) +
           dy * (m / sqrt (dx * dx + dy * dy)) * (dy * (m / sqrt (dx * dx + dy * dy))))
          by (unfold Rdiv; ring)
      end
    end.
    rewrite scaled_back_length by done. lra.
  - eexists _, _, _. split; [reflexivity|]. intros _. lra.
Qed.

Lemma clamp_toward (lo hi a x : R) :
  lo <= a <= hi →
  (Rmax lo (Rmin hi x) - a) * (Rmax lo (Rmin hi x) - a) <= (x - a) * (x - a).
Proof.
  intros Ha. unfold Rmax, Rmin.
  repeat (destruct (Rle_dec _ _)); nra.
Qed.

(** Every label after the integration loop is the result of the loop body
    on the label that was at its index. *)
Lemma integrateFrom_lookup div cfg mpp bounds forces ls :
  ∀ i tr k l', (integrateFrom div cfg mpp bounds forces i ls tr).1 !! k = Some l' →
    ∃ l force j tr0, ls !! k = Some l ∧
      (integrateLabel div cfg mpp bounds force j l tr0).1 = l'.
Proof.
  induction ls as [|label rest IH]; intros i tr k l' Hk; simpl in Hk; [done|].
  destruct (integrateLabel _ _ _ _ _ _ _ _) as [label' tr'] eqn:Hl.
  specialize (IH (S i) tr').
  destruct (integrateFrom _ _ _ _ _ _ _ _) as [rest' tr''] eqn:Hr. simpl in *.
  destruct k as [|k]; simpl in *.
  - inversion Hk; subst. exists label, (forces !!! i), i, tr. by rewrite Hl.
  - by apply IH.
Qed.

(** Over the real numbers the bound holds without any epsilon: the label
    is put on the circle of radius [maxDist] exactly, and the clamp into a
    box that contains the anchor moves no coordinate away from it. *)
Lemma anchorDistance_after_step (lm : LabelManager) (i : nat) (l' : Label) :
  labels (simulateStep lm).1 !! i = Some l' →
  manuallyPositioned l' = false →
  0 <= maxLabelDistance (settings lm) →
  anchorInPaddedViewport (stepScale (the_map lm)) (getBounds (the_map lm)) l' →
  anchorDistance l' <= pixelsToDegrees (stepScale (the_map lm)) (maxLabelDistance (settings lm)).
Proof.
  intros Hi Hm Hmax Hin. rewrite simulateStep_labels in Hi.
  apply integrateFrom_lookup in Hi as (l & force & j & tr0 & _ & Hl).
  destruct (integrateLabel_cases Rdiv (settings lm) (stepScale (the_map lm))
              (getBounds (the_map lm)) force j l tr0) as [[Hl1 E]|[Hl1 _]].
  { rewrite E in Hl. simpl in Hl. congruence. }
  destruct (integrateLabel_position (settings lm) (stepScale (the_map lm))
              (getBounds (the_map lm)) force j l tr0 Hl1)
    as (newLat & newLng & tr' & E & Hd).
  rewrite E in Hl. simpl in Hl. subst l'.
  destruct Hin as [Hlat Hlng]. simpl in Hlat, Hlng.
  unfold paddedSouth, paddedNorth, paddedWest, paddedEast in Hlat, Hlng. simpl in *.
  specialize (Hd (pixelsToDegrees_nonneg _ _ (stepScale_pos _) Hmax)).
  etransitivity; [|exact Hd]. unfold anchorDistance. simpl.
  apply sqrt_le_1_alt.
  pose proof (clamp_toward _ _ _ newLat Hlat).
  pose proof (clamp_toward _ _ _ newLng Hlng).
  unfold paddedSouth, paddedNorth, paddedWest, paddedEast. lra.
Qed.

(** C2 (as amended): after a step, a label that is not manually positioned
    and whose anchor lies inside its padded viewport box is no farther from
    its anchor than [maxLabelDistance] in coordinate units plus the small
    epsilon [anchorEpsilon], for every non-negative [maxLabelDistance]. *)
Theorem anchor_distance_bound (lm : LabelManager) (i : nat) (l' : Label) :
  labels (simulateStep lm).1 !! i = Some l' →
  manuallyPositioned l' = false →
  0 <= maxLabelDistance (settings lm) →
  anchorInPaddedViewport (stepScale (the_map lm)) (getBounds (the_map lm)) l' →
  anchorDistance l' <=
  pixelsToDegrees (stepScale (the_map lm)) (maxLabelDistance (settings lm)) + anchorEpsilon.
Proof.
  intros Hi Hm Hmax Hin.
  pose proof (anchorDistance_after_step lm i l' Hi Hm Hmax Hin).
  unfold anchorEpsilon. lra.
Qed.

Lemma Rpower_2_10 : Rpower 2 10 = 1024.
Proof.
  replace 10 with (INR 10) by (simpl; lra).
  rewrite Rpower_pow by lra. simpl; lra.
Qed.

Lemma stepScale_exampleMap : stepScale exampleMap = 156543.03392 / 1024.
Proof. unfold stepScale. simpl. by rewrite cos_0, Rpower_2_10, Rmult_1_r. Qed.

Lemma metersPerPixelAt_exampleMap : metersPerPixelAt exampleMap = 156543.03392 / 1024.
Proof.
  unfold metersPerPixelAt. simpl.
  replace ((-0.5 + 0.5) / 2 * PI / 180) with 0 by lra.
  by rewrite cos_0, Rpower_2_10, Rmult_1_r.
Qed.

(** ** The solver never divides by zero *)

Section division_safety.
Variable div : R → R → R.
Hypothesis Hdiv : agreesWithQuotient div.

Lemma foldl_pointwise {A B : Type} (f g : A → B → A) (l : list B) :
  (∀ a b, f a b = g a b) → ∀ a, foldl f a l = foldl g a l.
Proof.
  intros Hfg. induction l as [|b l IH]; intros a; simpl; [done|].
  by rewrite Hfg, IH.
Qed.

(** Quotients by the literal constants of the source. *)
Ltac constant_quotients :=
  rewrite ?(Hdiv _ 111320), ?(Hdiv _ 2), ?(Hdiv _ 30), ?(Hdiv _ 4) by lra.

Lemma p2d_quotient mpp px : p2d div mpp px = pixelsToDegrees mpp px.
Proof. unfold p2d, pixelsToDegrees. by constant_quotients. Qed.

Lemma labelBox_quotient mpp buffer label :
  labelBox div mpp buffer label = labelBox Rdiv mpp buffer label.
Proof. unfold labelBox. rewrite !p2d_quotient. by constant_quotients. Qed.

Lemma lineIntersectsBoxWith_quotient y1 x1 y2 x2 box :
  lineIntersectsBoxWith div y1 x1 y2 x2 box = lineIntersectsBox y1 x1 y2 x2 box.
Proof.
  unfold lineIntersectsBox, lineIntersectsBoxWith.
  destruct (decide (x2 - x1 ≠ 0)) as [Hx|Hx];
    destruct (decide (y2 - y1 ≠ 0)) as [Hy|Hy];
    rewrite ?(Hdiv _ (x2 - x1)), ?(Hdiv _ (y2 - y1)) by done; reflexivity.
Qed.

Lemma vertexRepulsion_quotient cfg mpp i label forces vertex :
  vertexRepulsion div cfg mpp i label forces vertex =
  vertexRepulsion Rdiv cfg mpp i label forces vertex.
Proof.
  unfold vertexRepulsion. rewrite !p2d_quotient. unfold p2d. fold (pixelsToDegrees mpp 15).
  fold (pixelsToDegrees mpp (eqVertex cfg)).
  destruct (decide (_ ∧ _)); [done|].
  destruct (decide (_ ∧ _)) as [[_ Hd]|]; [|done].
  pose proof (exp_pos (eqFalloff cfg * ln (sqrt
    ((LatLng.lng (labelLatLng label) - lon vertex) * (LatLng.lng (labelLatLng label) - lon vertex) +
     (LatLng.lat (labelLatLng label) - lat vertex) * (LatLng.lat (labelLatLng label) - lat vertex))))) as Hp.
  fold (Rpower (sqrt
    ((LatLng.lng (labelLatLng label) - lon vertex) * (LatLng.lng (labelLatLng label) - lon vertex) +
     (LatLng.lat (labelLatLng label) - lat vertex) * (LatLng.lat (labelLatLng label) - lat vertex)))
    (eqFalloff cfg)) in Hp.
  rewrite !(Hdiv _ (sqrt _)) by lra. rewrite (Hdiv _ (Rpower _ _)) by lra.
  reflexivity.
Qed.

Lemma overlapPush_quotient cfg mpp label1 label2 :
  0 < mpp →
  overlapPush div cfg mpp label1 label2 = overlapPush Rdiv cfg mpp label1 label2.
Proof.
  intros Hmpp. unfold overlapPush. rewrite !p2d_quotient. unfold p2d.
  fold (pixelsToDegrees mpp (width label1)). fold (pixelsToDegrees mpp (width label2)).
  fold (pixelsToDegrees mpp (height label1)). fold (pixelsToDegrees mpp (height label2)).
  fold (pixelsToDegrees mpp 5). fold (pixelsToDegrees mpp 2). fold (pixelsToDegrees mpp 10).
  fold (pixelsToDegrees mpp (eqLabel cfg)).
  constant_quotients.
  destruct (decide (sqrt _ > _)) as [Hd|]; [|done].
  assert (0 <= pixelsToDegrees mpp 2) by (apply pixelsToDegrees_nonneg; lra).
  rewrite !(Hdiv _ (sqrt _)) by lra. rewrite (Hdiv _ (sqrt _ + _)) by lra.
  reflexivity.
Qed.

Lemma labelRepulsion_quotient cfg mpp i label1 forces jl :
  0 < mpp →
  labelRepulsion div cfg mpp i label1 forces jl =
  labelRepulsion Rdiv cfg mpp i label1 forces jl.
Proof.
  intros Hmpp. unfold labelRepulsion. destruct jl as [j label2].
  rewrite !p2d_quotient, !labelBox_quotient, overlapPush_quotient by done.
  reflexivity.
Qed.

Lemma centerRepulsion_quotient cfg mpp i label forces :
  centerRepulsion div cfg mpp i label forces =
  centerRepulsion Rdiv cfg mpp i label forces.
Proof.
  unfold centerRepulsion. rewrite !p2d_quotient. unfold p2d.
  fold (pixelsToDegrees mpp (eqCenter cfg)).
  destruct (decide (0 < _)%nat) as [Hlen|]; [|done].
  assert (INR (length (polygonVertices label)) ≠ 0) as Hn.
  { apply not_0_INR. lia. }
  rewrite !(Hdiv _ (INR _)) by done.
  destruct (decide (sqrt _ > _)) as [Hd|]; [|done].
  match goal with |- context [Rpower ?b ?e] =>
    pose proof (exp_pos (e * ln b)) as Hp; fold (Rpower b e) in Hp end.
  rewrite !(Hdiv _ (sqrt _)) by lra. rewrite (Hdiv _ (Rpower _ _)) by lra.
  reflexivity.
Qed.

Lemma leaderLineAvoidance_quotient mpp i label forces jl :
  leaderLineAvoidance div mpp i label forces jl =
  leaderLineAvoidance Rdiv mpp i label forces jl.
Proof.
  unfold leaderLineAvoidance. destruct jl as [j otherLabel].
  destruct (decide (i = j)); [done|].
  rewrite !p2d_quotient, labelBox_quotient, lineIntersectsBoxWith_quotient.
  unfold p2d. fold (pixelsToDegrees mpp 2). fold (pixelsToDegrees mpp 3).
  fold (lineIntersectsBox
          (LatLng.lat (vertexLatLng otherLabel)) (LatLng.lng (vertexLatLng otherLabel))
          (LatLng.lat (labelLatLng otherLabel)) (LatLng.lng (labelLatLng otherLabel))
          (labelBox Rdiv mpp (pixelsToDegrees mpp 2) label)).
  destruct (lineIntersectsBox _ _ _ _ _ && _); [|done].
  constant_quotients.
  destruct (decide (sqrt _ > _)) as [Hd|]; [|done].
  rewrite !(Hdiv _ (sqrt _)) by lra. reflexivity.
Qed.

Lemma foldl_pointwise_from {A B : Type} (f g : A → B → A) (l : list B) (a a' : A) :
  (∀ a b, f a b = g a b) → a = a' → foldl f a l = foldl g a' l.
Proof. intros Hfg ->. by apply foldl_pointwise. Qed.

Lemma computeForces_quotient cfg mpp ls :
  0 < mpp → computeForces div cfg mpp ls = computeForces Rdiv cfg mpp ls.
Proof.
  intros Hmpp. unfold computeForces. cbv zeta.
  apply foldl_pointwise_from.
  { intros a [i label]. apply foldl_pointwise. intros.
    apply leaderLineAvoidance_quotient. }
  apply foldl_pointwise_from.
  { intros a [i label]. rewrite centerRepulsion_quotient. do 2 f_equal.
    apply foldl_pointwise. intros. by apply labelRepulsion_quotient. }
  apply foldl_pointwise_from; [|done].
  intros a [i label]. apply foldl_pointwise. intros. apply vertexRepulsion_quotient.
Qed.

Lemma integrateLabel_quotient cfg mpp bounds force i label tr :
  0 < mpp → 0 <= maxLabelDistance cfg →
  integrateLabel div cfg mpp bounds force i label tr =
  integrateLabel Rdiv cfg mpp bounds force i label tr.
Proof.
  intros Hmpp Hmax. unfold integrateLabel. destruct tr as [[vel prev] energy].
  destruct (manuallyPositioned label); [done|].
  rewrite !p2d_quotient. unfold p2d.
  fold (pixelsToDegrees mpp (maxLabelDistance cfg)).
  constant_quotients.
  fold (pixelsToDegrees mpp (height label / 2 + 10)).
  fold (pixelsToDegrees mpp (width label / 2 + 10)).
  pose proof (pixelsToDegrees_nonneg mpp _ Hmpp Hmax).
  destruct (decide (sqrt _ > _)) as [Hd|]; [|done].
  rewrite !(Hdiv _ (sqrt _)) by lra. reflexivity.
Qed.

Lemma integrateFrom_quotient cfg mpp bounds forces ls :
  0 < mpp → 0 <= maxLabelDistance cfg →
  ∀ i tr, integrateFrom div cfg mpp bounds forces i ls tr =
          integrateFrom Rdiv cfg mpp bounds forces i ls tr.
Proof.
  intros Hmpp Hmax. induction ls as [|label rest IH]; intros i tr; simpl; [done|].
  rewrite integrateLabel_quotient by done.
  destruct (integrateLabel Rdiv _ _ _ _ _ _ _) as [label' tr'].
  by rewrite IH.
Qed.

Lemma simulateStepWith_quotient lm :
  0 <= maxLabelDistance (settings lm) → simulateStepWith div lm = simulateStep lm.
Proof.
  intros Hmax. unfold simulateStep, simulateStepWith. simpl.
  assert (0 < Rpower 2 (getZoom (the_map lm))) as Hp by apply exp_pos.
  rewrite !(Hdiv _ (Rpower _ _)) by lra.
  fold (stepScale (the_map lm)). pose proof (stepScale_pos (the_map lm)).
  rewrite computeForces_quotient by done.
  by rewrite integrateFrom_quotient.
Qed.
End division_safety.

(** ** Labels on top of each other *)

Lemma sqrt_0_plus_0 : sqrt (0 * 0 + 0 * 0) = 0.
Proof. replace (0 * 0 + 0 * 0) with 0 by lra. apply sqrt_0. Qed.

(** The push between two labels with the same position: half the sum of
    the extents on each axis, scaled by [eqLabel / 30], plus the fixed
    nudge of 10px. *)
Lemma overlapPush_coincident cfg mpp (l1 l2 : Label) :
  labelLatLng l1 = labelLatLng l2 →
  overlapPush Rdiv cfg mpp l1 l2 =
  ((pixelsToDegrees mpp (width l1) / 2 + pixelsToDegrees mpp (width l2) / 2
      + pixelsToDegrees mpp 5 * 2) * 0.5 * (eqLabel cfg / 30) + pixelsToDegrees mpp 10,
   (pixelsToDegrees mpp (height l1) / 2 + pixelsToDegrees mpp (height l2) / 2
      + pixelsToDegrees mpp 5 * 2) * 0.5 * (eqLabel cfg / 30) + pixelsToDegrees mpp 10).
Proof.
  intros Hpos. unfold overlapPush, p2d. rewrite Hpos, !Rminus_diag.
  rewrite sqrt_0_plus_0, Rabs_R0.
  fold (pixelsToDegrees mpp (width l1)). fold (pixelsToDegrees mpp (width l2)).
  fold (pixelsToDegrees mpp (height l1)). fold (pixelsToDegrees mpp (height l2)).
  fold (pixelsToDegrees mpp 5). fold (pixelsToDegrees mpp 10).
  rewrite !decide_False by lra. by rewrite !Rminus_0_r.
Qed.

Lemma coincident_labels_pushed_apart cfg mpp (i j : nat) (l1 l2 : Label) (forces : list Vertex) :
  0 < mpp → 0 <= eqLabel cfg →
  0 <= width l1 → 0 <= width l2 → 0 <= height l1 → 0 <= height l2 →
  labelLatLng l1 = labelLatLng l2 →
  ∃ fx fy : R,
    pixelsToDegrees mpp 10 <= fx ∧ pixelsToDegrees mpp 10 <= fy ∧
    0 < pixelsToDegrees mpp 10 ∧
    labelRepulsion Rdiv cfg mpp i l1 forces (j, l2) =
    addForce j fy fx (addForce i (- fy) (- fx) forces).
Proof.
  intros Hmpp Heq Hw1 Hw2 Hh1 Hh2 Hpos.
  pose proof (pixelsToDegrees_nonneg mpp _ Hmpp Hw1).
  pose proof (pixelsToDegrees_nonneg mpp _ Hmpp Hw2).
  pose proof (pixelsToDegrees_nonneg mpp _ Hmpp Hh1).
  pose proof (pixelsToDegrees_nonneg mpp _ Hmpp Hh2).
  assert (0 <= pixelsToDegrees mpp 5) by (apply pixelsToDegrees_nonneg; lra).
  assert (0 < pixelsToDegrees mpp 10) as H10.
  { unfold pixelsToDegrees. apply Rdiv_lt_0_compat; lra. }
  eexists _, _. split; [|split; [|split; [exact H10|]]]; cycle 2.
  - unfold labelRepulsion. rewrite overlapPush_coincident by done.
    unfold labelBox, p2d. simpl. rewrite Hpos.
    fold (pixelsToDegrees mpp (width l1)). fold (pixelsToDegrees mpp (width l2)).
    fold (pixelsToDegrees mpp (height l1)). fold (pixelsToDegrees mpp (height l2)).
    fold (pixelsToDegrees mpp 5).
    rewrite bool_decide_eq_false_2 by lra. reflexivity.
  - assert (0 <= eqLabel cfg / 30) by lra. nra.
  - assert (0 <= eqLabel cfg / 30) by lra. nra.
Qed.

(** *** Twins *)

Lemma addForce_0 i forces : addForce i 0 0 forces = forces.
Proof.
  unfold addForce. apply list_alter_id. intros [x y]. simpl. f_equal; lra.
Qed.

Lemma addForce_add i a b c d forces :
  addForce i c d (addForce i a b forces) = addForce i (a + c) (b + d) forces.
Proof.
  unfold addForce. rewrite list_alter_alter_eq. apply list_alter_ext; [|done].
  intros [x y] _. simpl. f_equal; lra.
Qed.

Lemma vertexRepulsion_push cfg mpp label v :
  ∃ a b, ∀ i forces, vertexRepulsion Rdiv cfg mpp i label forces v = addForce i a b forces.
Proof.
  unfold vertexRepulsion.
  destruct (decide (_ ∧ _)).
  { exists 0, 0. intros. by rewrite addForce_0. }
  destruct (decide (_ ∧ _)).
  - eexists _, _. intros. reflexivity.
  - exists 0, 0. intros. by rewrite addForce_0.
Qed.

Lemma vertexRepulsion_twins cfg mpp l1 l2 i forces v :
  twins l1 l2 →
  vertexRepulsion Rdiv cfg mpp i l1 forces v = vertexRepulsion Rdiv cfg mpp i l2 forces v.
Proof. intros (H1 & H2 & _). unfold vertexRepulsion. by rewrite H1, H2. Qed.

Lemma vertexRepulsions_push cfg mpp label vs :
  ∃ a b, ∀ i forces,
    foldl (vertexRepulsion Rdiv cfg mpp i label) forces vs = addForce i a b forces.
Proof.
  induction vs as [|v vs (a & b & IH)]; simpl.
  { exists 0, 0. intros. by rewrite addForce_0. }
  destruct (vertexRepulsion_push cfg mpp label v) as (c & d & Hv).
  exists (c + a), (d + b). intros i forces. by rewrite Hv, IH, addForce_add.
Qed.

Lemma springForce_push cfg label :
  ∃ a b, ∀ i forces, springForce cfg i label forces = addForce i a b forces.
Proof.
  unfold springForce. destruct (decide _).
  - eexists _, _. intros. reflexivity.
  - exists 0, 0. intros. by rewrite addForce_0.
Qed.

Lemma springForce_twins cfg l1 l2 i forces :
  twins l1 l2 → springForce cfg i l1 forces = springForce cfg i l2 forces.
Proof. intros (H1 & H2 & _ & _ & _ & H6). unfold springForce. by rewrite H1, H2, H6. Qed.

Lemma centerRepulsion_push cfg mpp label :
  ∃ a b, ∀ i forces, centerRepulsion Rdiv cfg mpp i label forces = addForce i a b forces.
Proof.
  unfold centerRepulsion. destruct (decide _); [|exists 0, 0; intros; by rewrite addForce_0].
  destruct (decide _).
  - eexists _, _. intros. reflexivity.
  - exists 0, 0. intros. by rewrite addForce_0.
Qed.

Lemma centerRepulsion_twins cfg mpp l1 l2 i forces :
  twins l1 l2 →
  centerRepulsion Rdiv cfg mpp i l1 forces = centerRepulsion Rdiv cfg mpp i l2 forces.
Proof. intros (H1 & _ & _ & _ & H5 & _). unfold centerRepulsion. by rewrite H1, H5. Qed.

Lemma leaderLineAvoidance_push mpp label other :
  ∃ a b, ∀ i j forces,
    i ≠ j → leaderLineAvoidance Rdiv mpp i label forces (j, other) = addForce i a b forces.
Proof.
  unfold leaderLineAvoidance.
  destruct (lineIntersectsBoxWith Rdiv _ _ _ _ _) eqn:Hx.
  - destruct (decide (sqrt _ > _)) as [Hd|Hd].
    + eexists _, _. intros i j forces Hij. rewrite decide_False by done.
      rewrite bool_decide_eq_true_2 by done. simpl. reflexivity.
    + exists 0, 0. intros i j forces Hij. rewrite decide_False by done.
      rewrite bool_decide_eq_true_2 by done. simpl. by rewrite addForce_0.
  - exists 0, 0. intros i j forces Hij. rewrite decide_False by done.
    simpl. by rewrite addForce_0.
Qed.

Lemma leaderLineAvoidance_twins mpp l1 l2 i j forces :
  twins l1 l2 →
  leaderLineAvoidance Rdiv mpp i l1 forces (j, l2) =
  leaderLineAvoidance Rdiv mpp i l2 forces (j, l1).
Proof.
  intros (H1 & H2 & H3 & H4 & _). unfold leaderLineAvoidance, labelBox.
  by rewrite H1, H2, H3, H4.
Qed.

Lemma vertexRepulsions_twins cfg mpp l1 l2 i vs :
  twins l1 l2 →
  ∀ forces,
    foldl (vertexRepulsion Rdiv cfg mpp i l1) forces vs =
    foldl (vertexRepulsion Rdiv cfg mpp i l2) forces vs.
Proof.
  intros Ht. induction vs as [|v vs IH]; intros forces; simpl; [done|].
  by rewrite (vertexRepulsion_twins _ _ l1 l2), IH.
Qed.

Lemma leaderLineAvoidance_self mpp label other i forces :
  leaderLineAvoidance Rdiv mpp i label forces (i, other) = forces.
Proof. unfold leaderLineAvoidance. by rewrite decide_True. Qed.

(** The forces on two twins, alone in the manager: a common part, and the
    push of the pairwise repulsion, taken from the first and given to the
    second. *)
Lemma computeForces_twins cfg mpp l1 l2 :
  0 < mpp → 0 <= eqLabel cfg → 0 <= width l1 → 0 <= height l1 → twins l1 l2 →
  ∃ A B fx fy : R,
    pixelsToDegrees mpp 10 <= fx ∧ pixelsToDegrees mpp 10 <= fy ∧
    0 < pixelsToDegrees mpp 10 ∧
    computeForces Rdiv cfg mpp [l1; l2] =
    [mkVertex (A - fy) (B - fx); mkVertex (A + fy) (B + fx)].
Proof.
  intros Hmpp Heq Hw Hh Ht.
  pose proof Ht as (H1 & H2 & H3 & H4 & H5 & H6).
  destruct (vertexRepulsions_push cfg mpp l1 (allVerticesOf [l1; l2])) as (va & vb & Hv).
  destruct (springForce_push cfg l1) as (sa & sb & Hs).
  destruct (centerRepulsion_push cfg mpp l1) as (ca & cb & Hc).
  destruct (leaderLineAvoidance_push mpp l1 l2) as (pa & pb & Hp).
  unfold computeForces.
  change (indexed [l1; l2]) with [(0%nat, l1); (1%nat, l2)].
  cbn [fmap list_fmap foldl drop].
  rewrite <- (vertexRepulsions_twins cfg mpp l1 l2 1) by done.
  rewrite !Hv.
  rewrite <- (springForce_twins cfg l1 l2 1) by done.
  rewrite <- (centerRepulsion_twins cfg mpp l1 l2 1) by done.
  rewrite !leaderLineAvoidance_self.
  rewrite <- (leaderLineAvoidance_twins mpp l1 l2 1 0) by done.
  rewrite (Hp 0%nat 1%nat) by done. rewrite (Hp 1%nat 0%nat) by done.
  rewrite !Hs, !Hc.
  match goal with |- context [labelRepulsion Rdiv cfg mpp 0 l1 ?f (1%nat, l2)] =>
    destruct (coincident_labels_pushed_apart cfg mpp 0 1 l1 l2 f)
      as (fx & fy & Hfx & Hfy & H10 & ->); try done; try lra
  end.
  exists (va + sa + ca + pa), (vb + sb + cb + pb), fx, fy.
  split; [done|]. split; [done|]. split; [done|].
  unfold addForce. simpl. f_equal; [f_equal; lra|f_equal; f_equal; lra].
Qed.

Lemma clamp_cases (lo hi x : R) :
  Rmax lo (Rmin hi x) = x ∨ Rmax lo (Rmin hi x) = lo ∨ Rmax lo (Rmin hi x) = hi.
Proof.
  unfold Rmax, Rmin. destruct (Rle_dec hi x), (Rle_dec lo _); auto.
Qed.

(** Where the integration loop puts a label that is not manually
    positioned: at its position plus the damped displacement of the last
    step plus 0.15 times the force, unless a clamp acts, which leaves it at
    [maxDist] from its anchor or on an edge of its padded viewport box.  The
    tracking of the other labels is left alone. *)
Lemma integrateLabel_result cfg mpp bounds force i label vel prev e :
  manuallyPositioned label = false →
  0 <= pixelsToDegrees mpp (maxLabelDistance cfg) →
  let before :=
    match prev !! i with
    | Some v => v
    | None => mkVertex (LatLng.lat (labelLatLng label)) (LatLng.lng (labelLatLng label))
    end in
  let newLat :=
    LatLng.lat (labelLatLng label)
    + (LatLng.lat (labelLatLng label) - lat before) * damping cfg + lat force * 0.15 in
  let newLng :=
    LatLng.lng (labelLatLng label)
    + (LatLng.lng (labelLatLng label) - lon before) * damping cfg + lon force * 0.15 in
  ∃ p vel' prev' e',
    integrateLabel Rdiv cfg mpp bounds force i label (vel, prev, e) =
    (set_labelLatLng p label, (vel', prev', e')) ∧
    (∀ j, j ≠ i → prev' !! j = prev !! j) ∧
    (p = L_latLng newLat newLng ∨ touchesClamp mpp cfg bounds (set_labelLatLng p label)).
Proof.
  intros Hm Hmax before newLat newLng. unfold integrateLabel, p2d. rewrite Hm.
  fold (pixelsToDegrees mpp (maxLabelDistance cfg)).
  fold (pixelsToDegrees mpp (height label / 2 + 10)).
  fold (pixelsToDegrees mpp (width label / 2 + 10)).
  fold (paddedSouth mpp bounds label). fold (paddedNorth mpp bounds label).
  fold (paddedWest mpp bounds label). fold (paddedEast mpp bounds label).
  set (prev0 := if prev !! i is Some _ then prev
                else <[i := mkVertex (LatLng.lat (labelLatLng label))
                                     (LatLng.lng (labelLatLng label))]> prev).
  assert (prev0 !!! i = before) as Hbefore.
  { unfold prev0, before. destruct (prev !! i) as [v|] eqn:Hv.
    - by rewrite lookup_total_alt, Hv.
    - by rewrite lookup_total_insert_eq. }
  assert (∀ j, j ≠ i → prev0 !! j = prev !! j) as Hprev0.
  { intros j Hj. unfold prev0. destruct (prev !! i); [done|].
    by rewrite lookup_insert_ne. }
  rewrite !Hbefore. fold newLat newLng.
  set (m := pixelsToDegrees mpp (maxLabelDistance cfg)) in *.
  set (dx := newLng - LatLng.lng (vertexLatLng label)).
  set (dy := newLat - LatLng.lat (vertexLatLng label)).
  destruct (decide (sqrt (dx * dx + dy * dy) > m)) as [Hgt|Hle].
  - set (sLat := LatLng.lat (vertexLatLng label) + dy * (m / sqrt (dx * dx + dy * dy))).
    set (sLng := LatLng.lng (vertexLatLng label) + dx * (m / sqrt (dx * dx + dy * dy))).
    eexists _, _, _, _. split; [reflexivity|]. split.
    + intros j Hj. destruct (decide _); rewrite ?lookup_insert_ne by done; by apply Hprev0.
    + right. unfold touchesClamp. simpl.
      destruct (clamp_cases (paddedSouth mpp bounds label) (paddedNorth mpp bounds label) sLat)
        as [Hlat|[Hlat|Hlat]]; [|right; left; exact Hlat|right; right; left; exact Hlat].
      destruct (clamp_cases (paddedWest mpp bounds label) (paddedEast mpp bounds label) sLng)
        as [Hlng|[Hlng|Hlng]];
        [|right; right; right; left; exact Hlng|right; right; right; right; exact Hlng].
      left. unfold anchorDistance. simpl. rewrite Hlat, Hlng. unfold sLat, sLng.
      replace (_ * _ + _ * _)
        with (dx * (m / sqrt (dx * dx + dy * dy)) * (dx * (m / sqrt (dx * dx + dy * dy))) +
              dy * (m / sqrt (dx * dx + dy * dy)) * (dy * (m / sqrt (dx * dx + dy * dy))))
        by ring.
      rewrite scaled_back_length by done. unfold anchorEpsilon, m. lra.
  - eexists _, _, _, _. split; [reflexivity|]. split.
    + intros j Hj. destruct (decide _); rewrite ?lookup_insert_ne by done; by apply Hprev0.
    + destruct (clamp_cases (paddedSouth mpp bounds label) (paddedNorth mpp bounds label) newLat)
        as [Hlat|[Hlat|Hlat]];
        [|right; right; left; exact Hlat|right; right; right; left; exact Hlat].
      destruct (clamp_cases (paddedWest mpp bounds label) (paddedEast mpp bounds label) newLng)
        as [Hlng|[Hlng|Hlng]];
        [|right; right; right; right; left; exact Hlng
         |right; right; right; right; right; exact Hlng].
      left. by rewrite Hlat, Hlng.
Qed.

(** Two twins alone in the manager, neither manually positioned and with
    the same previous position: after a step the second is north-east of
    the first by more than 0.2 times the nudge of 10px, unless a clamp has
    acted on one of them. *)
Lemma twins_after_step (lm : LabelManager) (l1 l2 : Label) :
  labels lm = [l1; l2] → twins l1 l2 →
  manuallyPositioned l1 = false → manuallyPositioned l2 = false →
  previousPositions lm !! 0%nat = previousPositions lm !! 1%nat →
  0 <= maxLabelDistance (settings lm) → 0 <= eqLabel (settings lm) →
  0 <= width l1 → 0 <= height l1 →
  let mpp := stepScale (the_map lm) in
  ∃ l1' l2',
    labels (simulateStep lm).1 = [l1'; l2'] ∧
    ((0.2 * pixelsToDegrees mpp 10
        < LatLng.lat (labelLatLng l2') - LatLng.lat (labelLatLng l1') ∧
      0.2 * pixelsToDegrees mpp 10
        < LatLng.lng (labelLatLng l2') - LatLng.lng (labelLatLng l1')) ∨
     touchesClamp mpp (settings lm) (getBounds (the_map lm)) l1' ∨
     touchesClamp mpp (settings lm) (getBounds (the_map lm)) l2').
Proof.
  intros Hls Ht Hm1 Hm2 Hprev Hmax Heq Hw Hh mpp.
  pose proof (stepScale_pos (the_map lm)) as Hmpp. fold mpp in Hmpp.
  pose proof (pixelsToDegrees_nonneg mpp _ Hmpp Hmax) as Hmax'.
  destruct (computeForces_twins (settings lm) mpp l1 l2 Hmpp Heq Hw Hh Ht)
    as (A & B & fx & fy & Hfx & Hfy & H10 & Hforces).
  rewrite simulateStep_labels. fold mpp. rewrite Hls, Hforces.
  cbn [integrateFrom].
  destruct (integrateLabel_result (settings lm) mpp (getBounds (the_map lm))
              (mkVertex (A - fy) (B - fx)) 0 l1 (velocities lm) (previousPositions lm) 0
              Hm1 Hmax')
    as (p1 & vel1 & prev1 & e1 & E1 & Hprev1 & Hp1).
  change ([mkVertex (A - fy) (B - fx); mkVertex (A + fy) (B + fx)] !!! 0%nat)
    with (mkVertex (A - fy) (B - fx)).
  rewrite E1.
  destruct (integrateLabel_result (settings lm) mpp (getBounds (the_map lm))
              (mkVertex (A + fy) (B + fx)) 1 l2 vel1 prev1 e1 Hm2 Hmax')
    as (p2 & vel2 & prev2 & e2 & E2 & _ & Hp2).
  change ([mkVertex (A - fy) (B - fx); mkVertex (A + fy) (B + fx)] !!! 1%nat)
    with (mkVertex (A + fy) (B + fx)).
  rewrite E2. simpl.
  eexists _, _. split; [reflexivity|].
  destruct Hp1 as [Hp1|Hp1]; [|by right; left].
  destruct Hp2 as [Hp2|Hp2]; [|by right; right].
  left. simpl. rewrite Hp1, Hp2. simpl.
  rewrite (Hprev1 1%nat) by done. rewrite <- Hprev.
  destruct Ht as (-> & _). simpl.
  destruct (previousPositions lm !! 0%nat) as [v|]; simpl; split; lra.
Qed.


(** *** Labels held together by their springs *)

Lemma sqrt_gt_epsilon (x : R) : 0.0000000001 < x → sqrt x > 0.00001.
Proof.
  intros Hx. rewrite <- (sqrt_square 0.00001) by lra.
  apply Rlt_gt, sqrt_lt_1_alt. lra.
Qed.

Lemma sqrt_le_epsilon (x : R) : 0 <= x <= 0.0000000001 → ¬ sqrt x > 0.00001.
Proof.
  intros Hx. rewrite <- (sqrt_square 0.00001) by lra.
  apply Rle_not_gt, sqrt_le_1_alt. lra.
Qed.

Lemma heldOffset_bounds :
  0.0000134 < heldOffset < 0.0000135.
Proof. unfold heldOffset, pixelsToDegrees. lra. Qed.

Lemma heldOffset_spring : heldOffset * 1024 = pixelsToDegrees (156543.03392 / 1024) 10.
Proof. unfold heldOffset. lra. Qed.

Lemma held_forces :
  computeForces Rdiv stiffSettings (156543.03392 / 1024) [heldLabel1; heldLabel2]
  = [mkVertex 0 0; mkVertex 0 0].
Proof.
  pose proof heldOffset_bounds as Hb.
  unfold computeForces.
  change (indexed [heldLabel1; heldLabel2]) with [(0%nat, heldLabel1); (1%nat, heldLabel2)].
  change (allVerticesOf [heldLabel1; heldLabel2]) with (@nil Vertex).
  cbn [fmap list_fmap foldl drop].
  rewrite !leaderLineAvoidance_self.
  (* the leader lines are too short to push *)
  assert (∀ i j forces, i ≠ j →
            leaderLineAvoidance Rdiv (156543.03392 / 1024) i heldLabel1 forces (j, heldLabel2)
            = forces) as Hl1.
  { intros i j forces Hij. unfold leaderLineAvoidance. rewrite decide_False by done.
    destruct (_ && _); [|done]. rewrite decide_False; [done|].
    apply sqrt_le_epsilon. simpl. nra. }
  assert (∀ i j forces, i ≠ j →
            leaderLineAvoidance Rdiv (156543.03392 / 1024) i heldLabel2 forces (j, heldLabel1)
            = forces) as Hl2.
  { intros i j forces Hij. unfold leaderLineAvoidance. rewrite decide_False by done.
    destruct (_ && _); [|done]. rewrite decide_False; [done|].
    apply sqrt_le_epsilon. simpl. nra. }
  rewrite Hl1, Hl2 by done.
  (* no ring, no repulsion from a centre *)
  unfold centerRepulsion. simpl (polygonVertices _). simpl (length _).
  rewrite !(decide_False (P := (0 < 0)%nat)) by lia.
  (* the springs *)
  unfold springForce. simpl (vertexLatLng _). simpl (labelLatLng _). simpl (vertexIndex _).
  simpl (LatLng.lat _). simpl (LatLng.lng _). simpl (springStrength _).
  rewrite !decide_True by (apply sqrt_gt_epsilon; nra).
  rewrite (bool_decide_eq_false_2 (0 mod 2 = 1)%nat) by (simpl; lia).
  (* the push between the two labels *)
  unfold labelRepulsion. rewrite overlapPush_coincident by reflexivity.
  rewrite bool_decide_eq_false_2.
  2:{ unfold labelBox, p2d. simpl. lra. }
  simpl negb. cbv iota beta.
  unfold addForce. simpl.
  fold heldOffset in *.
  pose proof heldOffset_spring as Hs. unfold pixelsToDegrees in *.
  f_equal; [f_equal; lra|f_equal; f_equal; lra].
Qed.

(** A label at rest on which no force acts, within [maxDist] of its anchor
    and inside its padded viewport box, stays where it is. *)
Lemma integrateLabel_at_rest cfg mpp bounds i label vel prev e :
  manuallyPositioned label = false →
  prev !! i = None →
  ¬ anchorDistance label > pixelsToDegrees mpp (maxLabelDistance cfg) →
  paddedSouth mpp bounds label <= LatLng.lat (labelLatLng label)
    <= paddedNorth mpp bounds label →
  paddedWest mpp bounds label <= LatLng.lng (labelLatLng label)
    <= paddedEast mpp bounds label →
  ∃ vel' prev' e',
    integrateLabel Rdiv cfg mpp bounds (mkVertex 0 0) i label (vel, prev, e)
    = (label, (vel', prev', e')) ∧
    (∀ j, j ≠ i → prev' !! j = prev !! j).
Proof.
  intros Hm Hprev Hdist Hlat Hlng. unfold integrateLabel, p2d. rewrite Hm, Hprev.
  fold (pixelsToDegrees mpp (maxLabelDistance cfg)).
  fold (pixelsToDegrees mpp (height label / 2 + 10)).
  fold (pixelsToDegrees mpp (width label / 2 + 10)).
  fold (paddedSouth mpp bounds label). fold (paddedNorth mpp bounds label).
  fold (paddedWest mpp bounds label). fold (paddedEast mpp bounds label).
  rewrite lookup_total_insert_eq. cbn [lat lon].
  replace (LatLng.lat (labelLatLng label)
           + (LatLng.lat (labelLatLng label) - LatLng.lat (labelLatLng label)) * damping cfg
           + 0 * 0.15) with (LatLng.lat (labelLatLng label)) by lra.
  replace (LatLng.lng (labelLatLng label)
           + (LatLng.lng (labelLatLng label) - LatLng.lng (labelLatLng label)) * damping cfg
           + 0 * 0.15) with (LatLng.lng (labelLatLng label)) by lra.
  unfold anchorDistance in Hdist. rewrite decide_False by exact Hdist.
  rewrite (Rmin_right _ (LatLng.lat (labelLatLng label))) by lra.
  rewrite (Rmin_right _ (LatLng.lng (labelLatLng label))) by lra.
  rewrite !Rmax_right by lra.
  rewrite decide_False by (intros [?|?]; done).
  eexists _, _, _. split.
  - f_equal. destruct label as [? ? ? ? [? ?] ? ? ? ? ?]. reflexivity.
  - intros j Hj. by rewrite !lookup_insert_ne.
Qed.

(** Two labels with the same position need not separate, also where no
    clamp acts: with anchors on opposite sides the springs can hold them
    against the nudge. *)
Lemma coincident_labels_held_by_springs :
  let lm := idleManager stiffSettings [heldLabel1; heldLabel2] ∅ in
  labelLatLng heldLabel1 = labelLatLng heldLabel2 ∧
  labels (simulateStep lm).1 = [heldLabel1; heldLabel2] ∧
  ¬ touchesClamp (stepScale exampleMap) stiffSettings (getBounds exampleMap) heldLabel1 ∧
  ¬ touchesClamp (stepScale exampleMap) stiffSettings (getBounds exampleMap) heldLabel2.
Proof.
  intros lm. pose proof heldOffset_bounds as Hb.
  assert (∀ s : R, Rabs s = heldOffset → sqrt (s * s + s * s) < 0.00002) as Hnear.
  { intros s Hs. rewrite <- (sqrt_square 0.00002) by lra.
    apply sqrt_lt_1_alt. split; [nra|].
    assert (s * s = heldOffset * heldOffset) as ->; [|nra].
    rewrite <- Hs. unfold Rabs. destruct (Rcase_abs s); ring. }
  assert (Rabs heldOffset = heldOffset) as Ha1 by (apply Rabs_right; lra).
  assert (Rabs (0 - heldOffset) = heldOffset) as Ha2.
  { rewrite Rabs_left by lra. lra. }
  assert (Rabs (0 - - heldOffset) = heldOffset) as Ha3.
  { rewrite Rabs_right by lra. lra. }
  split; [reflexivity|]. split; [|split].
  - rewrite simulateStep_labels. simpl the_map. rewrite stepScale_exampleMap.
    simpl labels. simpl settings. rewrite held_forces. cbn [integrateFrom].
    change ([mkVertex 0 0; mkVertex 0 0] !!! 0%nat) with (mkVertex 0 0).
    change ([mkVertex 0 0; mkVertex 0 0] !!! 1%nat) with (mkVertex 0 0).
    destruct (integrateLabel_at_rest stiffSettings (156543.03392 / 1024)
                (getBounds exampleMap) 0 heldLabel1 (velocities lm) (previousPositions lm) 0)
      as (vel1 & prev1 & e1 & -> & Hprev1).
    { reflexivity. }
    { reflexivity. }
    { unfold anchorDistance, pixelsToDegrees. simpl.
      pose proof (Hnear (0 - heldOffset) Ha2). lra. }
    { unfold paddedSouth, paddedNorth, pixelsToDegrees. simpl. lra. }
    { unfold paddedWest, paddedEast, pixelsToDegrees. simpl. lra. }
    destruct (integrateLabel_at_rest stiffSettings (156543.03392 / 1024)
                (getBounds exampleMap) 1 heldLabel2 vel1 prev1 e1)
      as (vel2 & prev2 & e2 & -> & _).
    { reflexivity. }
    { rewrite Hprev1 by done. reflexivity. }
    { unfold anchorDistance, pixelsToDegrees. simpl.
      pose proof (Hnear (0 - - heldOffset) Ha3). lra. }
    { unfold paddedSouth, paddedNorth, pixelsToDegrees. simpl. lra. }
    { unfold paddedWest, paddedEast, pixelsToDegrees. simpl. lra. }
    reflexivity.
  - rewrite stepScale_exampleMap.
    unfold touchesClamp, anchorDistance, anchorEpsilon, paddedSouth, paddedNorth,
      paddedWest, paddedEast, pixelsToDegrees. simpl.
    pose proof (Hnear (0 - heldOffset) Ha2). lra.
  - rewrite stepScale_exampleMap.
    unfold touchesClamp, anchorDistance, anchorEpsilon, paddedSouth, paddedNorth,
      paddedWest, paddedEast, pixelsToDegrees. simpl.
    pose proof (Hnear (0 - - heldOffset) Ha3). lra.
Qed.

(** A label whose anchor is beyond the north-east corner of its padded
    viewport box by more than [maxLabelDistance] ends the step in that
    corner. *)
Lemma integrateLabel_corner cfg mpp bounds force i label tr :
  manuallyPositioned label = false →
  0 <= pixelsToDegrees mpp (maxLabelDistance cfg) →
  paddedSouth mpp bounds label <= paddedNorth mpp bounds label →
  paddedWest mpp bounds label <= paddedEast mpp bounds label →
  paddedNorth mpp bounds label + pixelsToDegrees mpp (maxLabelDistance cfg)
    <= LatLng.lat (vertexLatLng label) →
  paddedEast mpp bounds label + pixelsToDegrees mpp (maxLabelDistance cfg)
    <= LatLng.lng (vertexLatLng label) →
  (integrateLabel Rdiv cfg mpp bounds force i label tr).1 =
  set_labelLatLng
    (L_latLng (paddedNorth mpp bounds label) (paddedEast mpp bounds label)) label.
Proof.
  intros Hm Hmax Hlat Hlng Halat Halng.
  destruct (integrateLabel_position cfg mpp bounds force i label tr Hm)
    as (newLat & newLng & tr' & -> & Hd).
  specialize (Hd Hmax). simpl.
  set (dx := newLng - LatLng.lng (vertexLatLng label)) in *.
  set (dy := newLat - LatLng.lat (vertexLatLng label)) in *.
  set (m := pixelsToDegrees mpp (maxLabelDistance cfg)) in *.
  assert (dx * dx + dy * dy <= m * m) as Hsq.
  { apply sqrt_le_0; [nra|nra|]. by rewrite sqrt_square. }
  assert (- m <= dx) by nra. assert (- m <= dy) by nra.
  rewrite (Rmin_left _ newLat) by (unfold dy in *; lra).
  rewrite (Rmin_left _ newLng) by (unfold dx in *; lra).
  by rewrite !Rmax_right.
Qed.

(** ** The scheduler *)

Lemma simulateStep_trace lm : trace (simulateStep lm).1 = EvSimulateStep :: trace lm.
Proof.
  unfold simulateStep, simulateStepWith. simpl.
  by destruct (integrateFrom _ _ _ _ _ _ _ _) as [ls [[v p] e]].
Qed.

(** What a batch of steps does to the manager apart from the labels, and to
    the iteration counter. *)
Lemma stepBatch_spec (k : nat) :
  ∀ lm c e,
    let r := stepBatch k lm c e in
    settings r.1.1 = settings lm ∧ rafQueue r.1.1 = rafQueue lm ∧
    isSimulating r.1.1 = isSimulating lm ∧
    showDebugFields r.1.1 = showDebugFields lm ∧
    r.1.2 = Nat.min (c + k) (Nat.max c (iterations (settings lm))) ∧
    countSteps (trace r.1.1) = (countSteps (trace lm) + (r.1.2 - c))%nat ∧
    (∀ ev, ev ∈ trace lm → ev ∈ trace r.1.1).
Proof.
  induction k as [|k IH]; intros lm c e; simpl.
  { repeat split; try done; lia. }
  destruct (decide (c < iterations (settings lm))%nat) as [Hlt|Hge].
  - destruct (simulateStep lm) as [lm1 e1] eqn:Hstep.
    pose proof (simulateStep_manager lm) as (_ & Hs & Hsim & _ & Hdbg & _ & Hq).
    pose proof (simulateStep_trace lm) as Htr.
    rewrite Hstep in Hs, Hsim, Hdbg, Hq, Htr. simpl in *.
    destruct (IH lm1 (S c) (e + e1)) as (H1 & H2 & H3 & H4 & H5 & H6 & H7).
    rewrite Hs in H1, H5. rewrite Hq in H2. rewrite Hsim in H3. rewrite Hdbg in H4.
    repeat split; try done.
    + rewrite H5. lia.
    + rewrite H6, Htr. unfold countSteps. simpl. rewrite H5. lia.
    + intros ev Hev. apply H7. rewrite Htr. by right.
  - simpl. repeat split; try done; lia.
Qed.

Lemma animate_continues run lm :
  continues (iterations (settings lm)) run →
  let batch := stepBatch stepsPerFrame lm (iterationCount run) 0 in
  let avgEnergy := batch.2 / INR stepsPerFrame in
  ∃ run',
    rafQueue (animate run lm) = rafQueue lm ++ [run'] ∧
    iterationCount run' =
      Nat.min (iterationCount run + stepsPerFrame) (iterations (settings lm)) ∧
    stableCount run' =
      (if stableTick (previousEnergy run) avgEnergy then S (stableCount run) else 0%nat) ∧
    previousEnergy run' = Some avgEnergy ∧
    polygonsForNames run' = polygonsForNames run ∧
    settings (animate run lm) = settings lm ∧
    isSimulating (animate run lm) = isSimulating lm ∧
    showDebugFields (animate run lm) = showDebugFields lm ∧
    countSteps (trace (animate run lm)) =
      (countSteps (trace lm) + (iterationCount run' - iterationCount run))%nat ∧
    (∀ ev, ev ∈ trace lm → ev ∈ trace (animate run lm)).
Proof.
  intros Hc. cbv zeta. unfold animate.
  rewrite decide_True by exact Hc.
  pose proof (stepBatch_spec stepsPerFrame lm (iterationCount run) 0)
    as (H1 & H2 & H3 & H4 & H5 & H6 & H7).
  destruct (stepBatch stepsPerFrame lm (iterationCount run) 0) as [[lm1 c1] e1].
  simpl in *.
  eexists. split; [by rewrite H2|]. simpl.
  destruct Hc as [Hc _].
  repeat split; try done.
  - rewrite H5. lia.
  - intros ev Hev. right. by apply H7.
Qed.

Lemma animate_halts run lm :
  ¬ continues (iterations (settings lm)) run →
  rafQueue (animate run lm) = rafQueue lm ∧
  isSimulating (animate run lm) = false ∧
  settings (animate run lm) = settings lm ∧
  showDebugFields (animate run lm) = showDebugFields lm ∧
  countSteps (trace (animate run lm)) = countSteps (trace lm) ∧
  (∀ ev, ev ∈ trace lm → ev ∈ trace (animate run lm)) ∧
  EvRenderLabels ∈ trace (animate run lm) ∧
  (∀ polygons, polygonsForNames run = Some polygons →
     EvRenderPolygonNames polygons ∈ trace (animate run lm)) ∧
  (showDebugFields lm = true → EvRenderDebugFields ∈ trace (animate run lm)).
Proof.
  intros Hc. unfold animate. rewrite decide_False by exact Hc.
  destruct (polygonsForNames run) as [ps|], (showDebugFields lm) eqn:Hdbg; simpl;
    rewrite Hdbg; simpl; repeat split; try done;
    try (intros ev Hev; set_solver); try (intros ? [= <-]; set_solver); set_solver.
Qed.

Lemma ticksLeft_decreases (it : nat) (run run' : Run) :
  continues it run →
  iterationCount run' = Nat.min (iterationCount run + stepsPerFrame) it →
  (S (ticksLeft it run') <= ticksLeft it run)%nat.
Proof.
  intros Hc Hc'. unfold ticksLeft. rewrite (decide_True (P := continues it run)) by done.
  destruct Hc as [Hlt _].
  assert (ticksBound (it - iterationCount run') < ticksBound (it - iterationCount run))%nat.
  { unfold ticksBound, stepsPerFrame in *. rewrite Hc'.
    destruct (decide (iterationCount run + 3 <= it)%nat).
    - rewrite Nat.min_l by lia.
      replace (it - iterationCount run + (3 - 1))%nat
        with ((it - (iterationCount run + 3) + (3 - 1)) + 1 * 3)%nat by lia.
      rewrite Nat.div_add by lia. lia.
    - rewrite Nat.min_r by lia. rewrite Nat.sub_diag.
      change ((0 + (3 - 1)) / 3)%nat with 0%nat.
      apply Nat.div_str_pos. lia. }
  destruct (decide (continues it run')); lia.
Qed.

Lemma animationFrame_invariant polys it base n lm :
  runInvariant polys it base (S n) lm → runInvariant polys it base n (animationFrame lm).
Proof.
  intros [Hit [(Hq & Hsim & Hsteps & Hrl & Hpn)|(run & Hq & Hpolys & Hle & Hsteps & Hleft)]];
    unfold animationFrame; rewrite Hq; simpl.
  - split; [done|]. left. by repeat split.
  - set (lm0 := set_rafQueue [] lm).
    assert (iterations (settings lm0) = it) as Hit0 by done.
    destruct (decide (continues (iterations (settings lm0)) run)) as [Hc|Hc].
    + destruct (animate_continues run lm0 Hc)
        as (run' & Hq' & Hc' & _ & _ & Hp' & Hs' & _ & _ & Hsteps' & _).
      rewrite Hit0 in Hc, Hc'. split; [by rewrite Hs'|]. right.
      exists run'. split; [done|]. split; [congruence|].
      split; [rewrite Hc'; lia|]. split.
      * rewrite Hsteps'. simpl. rewrite Hsteps, Hc'. unfold stepsPerFrame.
        destruct Hc as [Hc _]. lia.
      * pose proof (ticksLeft_decreases it run run' Hc Hc'). lia.
    + destruct (animate_halts run lm0 Hc)
        as (Hq' & Hsim' & Hs' & _ & Hsteps' & _ & Hrl' & Hpn' & _).
      split; [by rewrite Hs'|]. left.
      split; [done|]. split; [done|]. split; [|split; [done|]].
      * rewrite Hsteps'. simpl. lia.
      * intros ps Hps. apply Hpn'. congruence.
Qed.

Lemma animationFrames_invariant polys it base n :
  ∀ k lm, runInvariant polys it base (n + k) lm →
          runInvariant polys it base k (Nat.iter n animationFrame lm).
Proof.
  induction n as [|n IH]; intros k lm H; simpl; [done|].
  apply animationFrame_invariant, IH. by replace (n + S k)%nat with (S n + k)%nat by lia.
Qed.

Lemma startSimulation_invariant polys lm :
  isSimulating lm = false → rafQueue lm = [] →
  runInvariant polys (iterations (settings lm)) (countSteps (trace lm))
    (S (ticksBound (iterations (settings lm)))) (startSimulation polys lm).
Proof.
  intros Hsim Hq. unfold startSimulation. rewrite Hsim. split; [done|]. right.
  exists (mkRun 0 None 0 polys). simpl. rewrite Hq.
  split; [done|]. split; [done|]. split; [lia|]. split; [lia|].
  unfold ticksLeft. simpl. destruct (decide _); [|lia].
  rewrite Nat.sub_0_r. lia.
Qed.

(** *** The course of a run *)

Lemma samePhysics_refl lm : samePhysics lm lm.
Proof. by repeat split. Qed.

(** A step reads the labels, the tracking maps, the settings and the map,
    and nothing else. *)
Lemma simulateStep_physics lm lm' :
  samePhysics lm lm' →
  samePhysics (simulateStep lm).1 (simulateStep lm').1 ∧
  (simulateStep lm').2 = (simulateStep lm).2.
Proof.
  intros (Hl & Hv & Hp & Hs & Hm). unfold simulateStep, simulateStepWith. simpl.
  rewrite Hl, Hv, Hp, Hs, Hm.
  destruct (integrateFrom _ _ _ _ _ _ _ _) as [ls [[v p] e]]. by repeat split.
Qed.

Lemma afterSteps_settings k lm : settings (afterSteps k lm) = settings lm.
Proof.
  induction k as [|k IH]; simpl; [done|].
  pose proof (simulateStep_manager (afterSteps k lm)) as (_ & Hs & _).
  unfold afterSteps in *. by rewrite Hs.
Qed.

(** A batch runs the next steps of the course and adds up their energies. *)
Lemma stepBatch_course (base : LabelManager) (k : nat) :
  ∀ lm c e,
    samePhysics (afterSteps c base) lm →
    let m := Nat.min k (iterations (settings lm) - c) in
    let r := stepBatch k lm c e in
    samePhysics (afterSteps (c + m) base) r.1.1 ∧
    r.2 = foldl (λ totalEnergy j, totalEnergy + stepEnergy j base) e (seq c m).
Proof.
  induction k as [|k IH]; intros lm c e Hph; cbv zeta; cbn [stepBatch].
  { simpl. by rewrite Nat.add_0_r. }
  destruct (decide (c < iterations (settings lm))%nat) as [Hlt|Hge].
  - destruct (simulateStep lm) as [lm1 e1] eqn:Hstep.
    destruct (simulateStep_physics _ _ Hph) as [Hph1 He].
    rewrite Hstep in Hph1, He. simpl in Hph1, He.
    assert (settings lm1 = settings lm) as Hs.
    { pose proof (simulateStep_manager lm) as (_ & Hs & _). by rewrite Hstep in Hs. }
    destruct (IH lm1 (S c) (e + e1) Hph1) as [H1 H2]. rewrite Hs in H1, H2.
    replace (Nat.min (S k) (iterations (settings lm) - c))
      with (S (Nat.min k (iterations (settings lm) - S c))) by lia.
    replace (c + S (Nat.min k (iterations (settings lm) - S c)))%nat
      with (S c + Nat.min k (iterations (settings lm) - S c))%nat by lia.
    split; [exact H1|]. rewrite H2. simpl. unfold stepEnergy. by rewrite He.
  - replace (Nat.min (S k) (iterations (settings lm) - c)) with 0%nat by lia.
    by rewrite Nat.add_0_r.
Qed.

Lemma animate_physics run lm :
  samePhysics
    (if decide (continues (iterations (settings lm)) run)
     then (stepBatch stepsPerFrame lm (iterationCount run) 0).1.1 else lm)
    (animate run lm).
Proof.
  unfold animate, continues.
  destruct (decide _) as [Hc|Hc].
  - destruct (stepBatch stepsPerFrame lm (iterationCount run) 0) as [[lm1 c1] e1].
    by repeat split.
  - destruct (polygonsForNames run), (showDebugFields lm) eqn:Hd; simpl; rewrite Hd;
      by repeat split.
Qed.

Lemma startSimulation_queue polys lm :
  isSimulating lm = false →
  rafQueue (startSimulation polys lm) = rafQueue lm ++ [mkRun 0 None 0 polys] ∧
  trace (startSimulation polys lm) = trace lm ∧
  settings (startSimulation polys lm) = settings lm ∧
  isSimulating (startSimulation polys lm) = true.
Proof. intros Hsim. unfold startSimulation. by rewrite Hsim. Qed.

(** While none of the conditions holds, the queue holds the one closure of
    the run, in the state that the course gives it. *)
Lemma run_course polys lm :
  isSimulating lm = false → rafQueue lm = [] →
  let it := iterations (settings lm) in
  let started := startSimulation polys lm in
  ∀ n, (∀ m, (m < n)%nat → ¬ halted it started m) →
    let running := Nat.iter n animationFrame started in
    rafQueue running = [runAfter polys it started n] ∧
    samePhysics (afterSteps (Nat.min (stepsPerFrame * n) it) started) running ∧
    countSteps (trace running) =
      (countSteps (trace lm) + Nat.min (stepsPerFrame * n) it)%nat ∧
    isSimulating running = true.
Proof.
  intros Hsim Hq it started.
  destruct (startSimulation_queue polys lm Hsim) as (Hq0 & Ht0 & Hs0 & Hsim0).
  fold started in Hq0, Ht0, Hs0, Hsim0.
  induction n as [|n IH]; intros Hrun.
  { simpl. rewrite Hq0, Hq, Ht0. split; [done|]. split; [apply samePhysics_refl|].
    split; [lia|done]. }
  destruct IH as (IHq & IHp & IHc & IHs); [intros m Hm; apply Hrun; lia|].
  assert (¬ halted it started n) as Hn by (apply Hrun; lia).
  unfold halted in Hn.
  assert (stepsPerFrame * n < it)%nat as Hlt by lia.
  assert (stableTicks it started n < stableThreshold)%nat as Hst by lia.
  cbv zeta. rewrite Nat.iter_succ. set (running := Nat.iter n animationFrame started) in *.
  unfold animationFrame. rewrite IHq. cbn [foldl].
  set (lm0 := set_rafQueue [] running).
  assert (samePhysics (afterSteps (stepsPerFrame * n) started) lm0) as Hp0.
  { rewrite Nat.min_l in IHp by lia. exact IHp. }
  assert (iterations (settings lm0) = it) as Hit0.
  { destruct Hp0 as (_ & _ & _ & Hs & _). rewrite Hs, afterSteps_settings, Hs0. done. }
  assert (iterationCount (runAfter polys it started n) = (stepsPerFrame * n)%nat) as Hc0.
  { unfold runAfter. cbn [iterationCount]. apply Nat.min_l. lia. }
  assert (continues (iterations (settings lm0)) (runAfter polys it started n)) as Hc.
  { rewrite Hit0. split; [rewrite Hc0; lia|exact Hst]. }
  pose proof (animate_physics (runAfter polys it started n) lm0) as Hph.
  rewrite decide_True in Hph by exact Hc.
  destruct (animate_continues _ lm0 Hc)
    as (run' & Hq' & Hc' & Hs' & Hp' & Hpn' & _ & Hsim' & _ & Hsteps' & _).
  rewrite Hc0 in Hph, Hc', Hs', Hp', Hsteps'.
  destruct (stepBatch_course started stepsPerFrame lm0 (stepsPerFrame * n) 0 Hp0)
    as [Hbp Hbe].
  rewrite Hit0 in Hbp, Hbe, Hc'.
  assert ((stepBatch stepsPerFrame lm0 (stepsPerFrame * n) 0).2 / INR stepsPerFrame
          = tickEnergy it started n) as He.
  { unfold tickEnergy. by rewrite Hbe. }
  rewrite He in Hs', Hp'.
  assert (iterationCount run' = Nat.min (stepsPerFrame * S n) it) as Hc''.
  { rewrite Hc'. unfold stepsPerFrame. lia. }
  split; [|split; [|split]].
  - rewrite Hq'. simpl. f_equal. destruct run' as [c' p' s' pl']. simpl in *.
    unfold runAfter. subst. f_equal. unfold stepsPerFrame. lia.
  - destruct Hph as (H1 & H2 & H3 & H4 & H5).
    destruct Hbp as (B1 & B2 & B3 & B4 & B5).
    replace (Nat.min (stepsPerFrame * S n) it)
      with (stepsPerFrame * n + Nat.min stepsPerFrame (it - stepsPerFrame * n))%nat
      by (unfold stepsPerFrame in *; lia).
    repeat split; congruence.
  - rewrite Hsteps', Hc''. change (trace lm0) with (trace running). rewrite IHc.
    unfold stepsPerFrame in *. lia.
  - rewrite Hsim'. exact IHs.
Qed.

(** The frame after a condition has come to hold ends the run. *)
Lemma run_end polys lm :
  isSimulating lm = false → rafQueue lm = [] →
  let it := iterations (settings lm) in
  let started := startSimulation polys lm in
  ∀ n, (∀ m, (m < n)%nat → ¬ halted it started m) → halted it started n →
    let ended := Nat.iter (S n) animationFrame started in
    rafQueue ended = [] ∧ isSimulating ended = false ∧
    samePhysics (afterSteps (Nat.min (stepsPerFrame * n) it) started) ended ∧
    countSteps (trace ended) =
      (countSteps (trace lm) + Nat.min (stepsPerFrame * n) it)%nat ∧
    EvRenderLabels ∈ trace ended ∧
    (∀ ps, polys = Some ps → EvRenderPolygonNames ps ∈ trace ended).
Proof.
  intros Hsim Hq it started n Hrun Hhalt.
  destruct (startSimulation_queue polys lm Hsim) as (_ & _ & Hs0 & _).
  destruct (run_course polys lm Hsim Hq n Hrun) as (IHq & IHp & IHc & IHs).
  fold it started in IHq, IHp, IHc, IHs, Hs0.
  cbv zeta in *. rewrite Nat.iter_succ. set (running := Nat.iter n animationFrame started) in *.
  unfold animationFrame. rewrite IHq. cbn [foldl].
  set (lm0 := set_rafQueue [] running).
  assert (iterations (settings lm0) = it) as Hit0.
  { destruct IHp as (_ & _ & _ & Hs & _).
    change (settings lm0) with (settings running).
    rewrite Hs, afterSteps_settings, Hs0. done. }
  assert (¬ continues (iterations (settings lm0)) (runAfter polys it started n)) as Hc.
  { rewrite Hit0. unfold continues, halted, runAfter in *.
    cbn [iterationCount stableCount]. lia. }
  pose proof (animate_physics (runAfter polys it started n) lm0) as Hph.
  rewrite decide_False in Hph by exact Hc.
  destruct (animate_halts _ lm0 Hc) as (Hq' & Hsim' & _ & _ & Hsteps' & _ & Hrl & Hpn & _).
  split; [done|]. split; [done|]. split; [|split; [|split; [done|]]].
  - destruct Hph as (H1 & H2 & H3 & H4 & H5). destruct IHp as (B1 & B2 & B3 & B4 & B5).
    change (labels lm0) with (labels running) in H1.
    change (velocities lm0) with (velocities running) in H2.
    change (previousPositions lm0) with (previousPositions running) in H3.
    change (settings lm0) with (settings running) in H4.
    change (the_map lm0) with (the_map running) in H5.
    repeat split; congruence.
  - rewrite Hsteps'. exact IHc.
  - intros ps ->. by apply Hpn.
Qed.

(** The first tick count at which a decidable condition holds. *)
Lemma first_such (P : nat → Prop) `{!∀ n, Decision (P n)} (bound : nat) :
  P bound → ∃ n, (n <= bound)%nat ∧ P n ∧ ∀ m, (m < n)%nat → ¬ P m.
Proof.
  intros Hb.
  assert (∀ k, (∃ n, (n <= k)%nat ∧ P n ∧ ∀ m, (m < n)%nat → ¬ P m) ∨
               (∀ m, (m <= k)%nat → ¬ P m)) as Hall.
  { induction k as [|k [IH|IH]].
    - destruct (decide (P 0%nat)) as [H0|H0].
      + left. exists 0%nat. split; [lia|]. split; [done|]. intros m Hm. lia.
      + right. intros m Hm. by replace m with 0%nat by lia.
    - left. destruct IH as (n & Hn & HP & Hl). exists n. split; [lia|done].
    - destruct (decide (P (S k))) as [H1|H1].
      + left. exists (S k). split; [lia|]. split; [done|]. intros m Hm. apply IH. lia.
      + right. intros m Hm. destruct (decide (m = S k)) as [->|]; [done|]. apply IH. lia. }
  destruct (Hall bound) as [Hex|Hno]; [done|]. exfalso. by apply (Hno bound).
Qed.

Lemma halted_at_bound it lm : halted it lm (ticksBound it).
Proof.
  left. unfold ticksBound, stepsPerFrame.
  pose proof (Nat.mul_succ_div_gt (it + (3 - 1)) 3). lia.
Qed.

(** *** Runs next to closures that were queued before *)

Lemma ticksLeft_le_bound (it : nat) (run : Run) : (ticksLeft it run <= ticksBound it)%nat.
Proof.
  unfold ticksLeft. destruct (decide _); [|lia].
  unfold ticksBound. apply Nat.Div0.div_le_mono. lia.
Qed.

Lemma animate_queueInvariant it n :
  ∀ queue lm,
    iterations (settings lm) = it →
    Forall (λ run, (ticksLeft it run < n)%nat) (rafQueue lm) →
    Forall (λ run, (ticksLeft it run < S n)%nat) queue →
    (queue = [] → rafQueue lm = [] → isSimulating lm = false) →
    queueInvariant it n (foldl (λ lm run, animate run lm) lm queue).
Proof.
  induction queue as [|run queue IH]; intros lm Hit Hlm Hqueue Hidle; simpl.
  { split; [done|]. split; [done|]. by apply Hidle. }
  inversion Hqueue as [|? ? Hrun Hrest]; subst.
  destruct (decide (continues (iterations (settings lm)) run)) as [Hc|Hc].
  - destruct (animate_continues run lm Hc)
      as (run' & Hq' & Hc' & _ & _ & _ & Hs' & _).
    apply IH; [by rewrite Hs'| |done|].
    + rewrite Hq'. apply Forall_app. split; [done|]. repeat constructor.
      pose proof (ticksLeft_decreases (iterations (settings lm)) run run' Hc Hc'). lia.
    + intros _ Hnil. rewrite Hq' in Hnil. by destruct (rafQueue lm).
  - destruct (animate_halts run lm Hc) as (Hq' & Hsim' & Hs' & _).
    apply IH; [by rewrite Hs'|by rewrite Hq'|done|done].
Qed.

Lemma animationFrame_queueInvariant it n lm :
  queueInvariant it (S n) lm → queueInvariant it n (animationFrame lm).
Proof.
  intros (Hit & Hq & Hidle). unfold animationFrame.
  apply animate_queueInvariant; [done|constructor|done|].
  intros Hnil _. by apply Hidle.
Qed.

Lemma animationFrames_queueInvariant it n :
  ∀ k lm, queueInvariant it (n + k) lm →
          queueInvariant it k (Nat.iter n animationFrame lm).
Proof.
  induction n as [|n IH]; intros k lm H; simpl; [done|].
  apply animationFrame_queueInvariant, IH.
  by replace (n + S k)%nat with (S n + k)%nat by lia.
Qed.

(** C6: a run started on an idle manager with nothing queued makes [ticks]
    ticks, where [ticks] is the first number of ticks after which a
    condition holds (the budget is spent, or the last [stableThreshold]
    ticks each had an average energy below the floor or within the
    threshold of the average before), and [ticks] is at most
    [ceil(iterations / stepsPerFrame)].  Until then the closure is queued
    with the iteration count, the last average and the stable count of the
    course, the averages being those of the energies that the calls of
    [simulateStep] return; the frame after that queues nothing, leaves the
    manager idle and runs no further step.  And whatever closures were still
    queued when the run was started, after [ceil(iterations /
    stepsPerFrame) + 1] frames nothing is queued and the manager is idle. *)
Theorem simulation_terminates :
  (∀ (polys : option (list Polygon)) (lm : LabelManager),
     isSimulating lm = false → rafQueue lm = [] →
     let it := iterations (settings lm) in
     let started := startSimulation polys lm in
     ∃ ticks : nat,
       (ticks <= ticksBound it)%nat ∧
       halted it started ticks ∧
       (∀ n, (n < ticks)%nat → ¬ halted it started n) ∧
       (∀ n, (n <= ticks)%nat →
          let running := Nat.iter n animationFrame started in
          rafQueue running = [runAfter polys it started n] ∧
          isSimulating running = true ∧
          labels running = labels (afterSteps (Nat.min (stepsPerFrame * n) it) started) ∧
          countSteps (trace running) =
            (countSteps (trace lm) + Nat.min (stepsPerFrame * n) it)%nat) ∧
       let ended := Nat.iter (S ticks) animationFrame started in
       rafQueue ended = [] ∧ isSimulating ended = false ∧
       labels ended = labels (afterSteps (Nat.min (stepsPerFrame * ticks) it) started) ∧
       countSteps (trace ended) =
         (countSteps (trace lm) + Nat.min (stepsPerFrame * ticks) it)%nat) ∧
  (∀ (polys : option (list Polygon)) (lm : LabelManager),
     isSimulating lm = false →
     let it := iterations (settings lm) in
     let ended := Nat.iter (S (ticksBound it)) animationFrame (startSimulation polys lm) in
     rafQueue ended = [] ∧ isSimulating ended = false).
Proof.
  split.
  - intros polys lm Hsim Hq it started.
    destruct (first_such (halted it started) (ticksBound it) (halted_at_bound it started))
      as (ticks & Hle & Hhalt & Hfirst).
    exists ticks. split; [done|]. split; [done|]. split; [done|]. split.
    + intros n Hn.
      destruct (run_course polys lm Hsim Hq n) as (H1 & H2 & H3 & H4).
      { intros m Hm. apply Hfirst. lia. }
      split; [done|]. split; [done|]. split; [|done]. by destruct H2 as (H2 & _).
    + destruct (run_end polys lm Hsim Hq ticks Hfirst Hhalt) as (H1 & H2 & H3 & H4 & _).
      split; [done|]. split; [done|]. split; [|done]. by destruct H3 as (H3 & _).
  - intros polys lm Hsim it ended.
    destruct (startSimulation_queue polys lm Hsim) as (Hq0 & _ & Hs0 & _).
    assert (queueInvariant it (S (ticksBound it) + 0) (startSimulation polys lm)) as Hinv.
    { split; [by rewrite Hs0|]. split.
      - apply Forall_forall. intros run _.
        pose proof (ticksLeft_le_bound it run). lia.
      - rewrite Hq0. intros Hnil. by destruct (rafQueue lm). }
    apply animationFrames_queueInvariant in Hinv as (_ & Hq' & Hidle).
    fold ended in Hq', Hidle.
    assert (rafQueue ended = []) as Hnil.
    { destruct (rafQueue ended) as [|run ?]; [done|].
      inversion Hq' as [|? ? Hrun _]. lia. }
    split; [done|by apply Hidle].
Qed.

(** ** Stopping a simulation *)

Lemma stopSimulation_rafQueue lm : rafQueue (stopSimulation lm) = rafQueue lm.
Proof. unfold stopSimulation. by destruct (simulationInterval lm). Qed.

Lemma stopSimulation_trace lm : trace (stopSimulation lm) = trace lm.
Proof. unfold stopSimulation. by destruct (simulationInterval lm). Qed.

Lemma stopSimulation_isSimulating lm : isSimulating (stopSimulation lm) = false.
Proof. unfold stopSimulation. by destruct (simulationInterval lm). Qed.

Lemma stopSimulation_invariant polys it base n lm :
  rafQueue lm ≠ [] →
  runInvariant polys it base n lm → runInvariant polys it base n (stopSimulation lm).
Proof.
  intros Hne [Hit [(Hq & _)|(run & Hq & H)]]; [done|].
  split; [by rewrite stopSimulation_settings|]. right. exists run.
  by rewrite stopSimulation_rafQueue, stopSimulation_trace.
Qed.

(** C3, what the code does: [stopSimulation] makes the manager idle, but the
    closure that [startSimulation] queued stays queued.  The next frame runs
    a batch of steps all the same, and the run goes on to its end, where it
    renders the labels and the polygon names. *)
Theorem stopSimulation_does_not_cancel (polys : option (list Polygon)) (lm : LabelManager) :
  isSimulating lm = false → rafQueue lm = [] →
  (0 < iterations (settings lm))%nat →
  let it := iterations (settings lm) in
  let stopped := stopSimulation (startSimulation polys lm) in
  isSimulating stopped = false ∧
  trace stopped = trace lm ∧
  countSteps (trace (animationFrame stopped)) =
    (countSteps (trace lm) + Nat.min stepsPerFrame it)%nat ∧
  let ended := Nat.iter (S (ticksBound it)) animationFrame stopped in
  EvRenderLabels ∈ trace ended ∧
  (∀ ps, polys = Some ps → EvRenderPolygonNames ps ∈ trace ended).
Proof.
  intros Hsim Hq Hit it stopped.
  pose proof (startSimulation_invariant polys lm Hsim Hq) as Hinv.
  assert (rafQueue (startSimulation polys lm) = [mkRun 0 None 0 polys]) as Hq1.
  { unfold startSimulation. rewrite Hsim. simpl. by rewrite Hq. }
  assert (trace (startSimulation polys lm) = trace lm) as Htr1.
  { unfold startSimulation. by rewrite Hsim. }
  apply stopSimulation_invariant in Hinv; [|by rewrite Hq1].
  fold stopped in Hinv. fold it in Hinv.
  split; [apply stopSimulation_isSimulating|].
  split; [unfold stopped; by rewrite stopSimulation_trace|].
  split.
  - unfold animationFrame, stopped. rewrite stopSimulation_rafQueue, Hq1. simpl.
    set (lm0 := set_rafQueue [] _).
    assert (settings lm0 = settings lm) as Hs0.
    { change (settings lm0) with (settings (stopSimulation (startSimulation polys lm))).
      rewrite stopSimulation_settings. unfold startSimulation. by rewrite Hsim. }
    assert (trace lm0 = trace lm) as Ht0.
    { change (trace lm0) with (trace (stopSimulation (startSimulation polys lm))).
      by rewrite stopSimulation_trace. }
    destruct (animate_continues (mkRun 0 None 0 polys) lm0)
      as (run' & _ & Hc' & _ & _ & _ & _ & _ & _ & Hsteps & _).
    { rewrite Hs0. split; simpl; [done|unfold stableThreshold; lia]. }
    rewrite Hsteps, Hc', Hs0, Ht0. simpl. fold it. lia.
  - replace (S (ticksBound it)) with (S (ticksBound it) + 0)%nat in Hinv by lia.
    apply animationFrames_invariant in Hinv
      as [_ [(_ & _ & _ & Hrl & Hpn)|(run & _ & _ & _ & _ & Hleft)]]; [done|lia].
Qed.

(** ** Evaluating the selection pass *)

Arguments calculateVertexAngle : simpl never.

Lemma calculateVertexAngle_le_180 (vertices : list Vertex) (index : nat) :
  calculateVertexAngle vertices index <= 180.
Proof.
  unfold calculateVertexAngle. destruct (decide _); [lra|].
  match goal with |- acos ?x * _ <= _ => pose proof (acos_bound x) as [_ Hb] end.
  pose proof PI_RGT_0 as Hpi.
  apply Rmult_le_reg_r with (r := PI / 180); [lra|].
  field_simplify; lra.
Qed.

(** A right angle: the two edges are perpendicular and not of length zero. *)
Lemma calculateVertexAngle_right (vertices : list Vertex) (index : nat) :
  (index < length vertices)%nat →
  let prev := vertices !!! ringPrev (length vertices) index in
  let curr := vertices !!! index in
  let next := vertices !!! ringNext (length vertices) index in
  (lon prev - lon curr) * (lon next - lon curr) +
  (lat prev - lat curr) * (lat next - lat curr) = 0 →
  (lon prev ≠ lon curr ∨ lat prev ≠ lat curr) →
  (lon next ≠ lon curr ∨ lat next ≠ lat curr) →
  calculateVertexAngle vertices index = 90.
Proof.
  intros Hi prev curr next Hdot Hp Hn. unfold calculateVertexAngle.
  destruct (ring_reads_in_range _ _ Hi) as (-> & -> & _ & _).
  fold prev curr next. rewrite Hdot.
  destruct (decide _) as [[H0|H0]|_].
  - apply sqrt_sum_squares_0 in H0 as [? ?]. destruct Hp; lra.
  - apply sqrt_sum_squares_0 in H0 as [? ?]. destruct Hn; lra.
  - unfold Rdiv at 1. rewrite Rmult_0_l.
    rewrite Rmin_right, Rmax_right by lra. rewrite acos_0.
    field. apply PI_neq0.
Qed.

(** Closeness without the square root. *)
Lemma isClose_spec cfg mpp (v : Vertex) (c : LabeledVertex) :
  0 <= pixelsToDegrees mpp (minVertexDistance cfg) →
  isClose cfg mpp v c ↔
  (lat v - lv_lat c) * (lat v - lv_lat c) + (lon v - lv_lon c) * (lon v - lv_lon c)
  < pixelsToDegrees mpp (minVertexDistance cfg) * pixelsToDegrees mpp (minVertexDistance cfg).
Proof.
  intros Hp. unfold isClose, Math_pow2.
  set (p := pixelsToDegrees mpp (minVertexDistance cfg)) in *.
  replace ((lat v - lv_lat c) ^ 2 + (lon v - lv_lon c) ^ 2)
    with ((lat v - lv_lat c) * (lat v - lv_lat c) + (lon v - lv_lon c) * (lon v - lv_lon c))
    by ring.
  set (x := (lat v - lv_lat c) * (lat v - lv_lat c) + (lon v - lv_lon c) * (lon v - lv_lon c)).
  assert (0 <= x) by (unfold x; apply Rplus_le_le_0_compat; apply Rle_0_sqr).
  rewrite <- (sqrt_square p) at 1 by done. split.
  - intros Hlt. apply sqrt_lt_0_alt in Hlt. done.
  - intros Hlt. apply sqrt_lt_1_alt. lra.
Qed.

(** When every vertex passes the filters and none is close to another, each
    gets its label, in order. *)
Lemma selectVertex_all_accepted ownOnly saved cfg mpp pid ring cLat cLon vds :
  ∀ ls lvs,
    Forall (passesFilters cfg) vds → spacedFrom cfg mpp lvs vds →
    foldl (selectVertex ownOnly saved cfg mpp pid ring cLat cLon) (ls, lvs) vds =
    (ls ++ ((λ vd, newLabel saved cfg mpp pid ring cLat cLon (vd_vertex vd) (vd_index vd))
              <$> vds),
     lvs ++ (entryOf <$> vds)).
Proof.
  induction vds as [|vd rest IH]; intros ls lvs Hpass Hsp; cbn [foldl fmap list_fmap].
  { by rewrite !app_nil_r. }
  apply Forall_cons in Hpass as [Hvd Hrest]. destruct Hsp as [Hfar Hsp].
  rewrite selectVertex_accept; [|done|].
  - rewrite IH by done. by rewrite <- !(assoc_L (++)).
  - apply list_find_None. exact Hfar.
Qed.

Lemma fmap_vertexData {B : Type} bounds vertices (h : VertexData → B) (k : nat → B) :
  (∀ vd, vd ∈ vertexData bounds vertices → h vd = k (vd_index vd)) →
  h <$> vertexData bounds vertices = k <$> seq 0 (length vertices).
Proof.
  intros Hhk. apply list_eq. intros i.
  rewrite !list_lookup_fmap.
  destruct (vertexData bounds vertices !! i) as [vd|] eqn:Hvd; simpl.
  - pose proof Hvd as Hvd'. unfold vertexData in Hvd'. rewrite list_lookup_imap in Hvd'.
    destruct (vertices !! i) as [v|] eqn:Hv; simpl in Hvd'; [|done].
    rewrite lookup_seq_lt by (by eapply lookup_lt_Some). simpl. f_equal.
    rewrite Hhk by (by eapply list_elem_of_lookup_2).
    by inversion Hvd'.
  - unfold vertexData in Hvd. rewrite list_lookup_imap in Hvd.
    destruct (vertices !! i) as [v|] eqn:Hv; simpl in Hvd; [done|].
    rewrite lookup_seq_ge; [done|]. by apply lookup_ge_None.
Qed.

Lemma fmap_const_seq {B : Type} (x : B) (n : nat) :
  ∀ s, (λ _, x) <$> seq s n = replicate n x.
Proof. induction n as [|n IH]; intros s; simpl; [done|]. by rewrite IH. Qed.

Lemma selectRing_all_accepted ownOnly saved cfg m pid vertices ls lvs :
  vertices ≠ [] →
  Forall (λ v, contains (getBounds m) (L_latLng (lat v) (lon v)) = true) vertices →
  (∀ i, (i < length vertices)%nat →
        ¬ calculateVertexAngle vertices i > 180 - minVertexAngle cfg) →
  spacedFrom cfg (metersPerPixelAt m) lvs (vertexData (getBounds m) vertices) →
  vertexIndex <$> (selectRing ownOnly saved cfg m pid vertices (ls, lvs)).1 =
    (vertexIndex <$> ls) ++ seq 0 (length vertices) ∧
  polygonVertices <$> (selectRing ownOnly saved cfg m pid vertices (ls, lvs)).1 =
    (polygonVertices <$> ls) ++ replicate (length vertices) vertices ∧
  polygonId <$> (selectRing ownOnly saved cfg m pid vertices (ls, lvs)).1 =
    (polygonId <$> ls) ++ replicate (length vertices) pid ∧
  key <$> (selectRing ownOnly saved cfg m pid vertices (ls, lvs)).1 =
    (key <$> ls) ++ ((λ i, (pid, i)) <$> seq 0 (length vertices)).
Proof.
  intros Hne Hin Hang Hsp. unfold selectRing.
  assert (filter (λ v, contains (getBounds m) (L_latLng (lat v) (lon v)) = true) vertices
          = vertices) as Hvis.
  { clear -Hin. induction Hin as [|v vs Hv _ IH]; [done|].
    rewrite filter_cons_True by done. by rewrite IH. }
  rewrite Hvis. rewrite decide_False by (by destruct vertices).
  rewrite selectVertex_all_accepted; [|apply Forall_forall; intros vd Hvd|done].
  - cbn [fst]. rewrite !fmap_app, <- !list_fmap_compose.
    split; [|split; [|split]]; f_equal.
    + rewrite (fmap_vertexData _ _ _ (λ i, i)); [by rewrite list_fmap_id|].
      intros vd _. simpl. apply newLabel_vertexIndex.
    + rewrite (fmap_vertexData _ _ _ (λ _, vertices)); [apply fmap_const_seq|].
      intros vd _. simpl. apply newLabel_polygonVertices.
    + rewrite (fmap_vertexData _ _ _ (λ _, pid)); [apply fmap_const_seq|].
      intros vd _. simpl. apply newLabel_polygonId.
    + rewrite (fmap_vertexData _ _ _ (λ i, (pid, i))); [done|].
      intros vd _. simpl. apply newLabel_key.
  - pose proof Hvd as Hvd'. apply vertexData_spec in Hvd' as (Hlt & Hv & Ha).
    split; [|rewrite Ha; by apply Hang].
    apply list_elem_of_lookup in Hvd as [i Hi].
    unfold vertexData in Hi. rewrite list_lookup_imap in Hi.
    destruct (vertices !! i) as [v|] eqn:Hvi; simpl in Hi; [|done].
    inversion Hi; subst; simpl.
    rewrite Forall_forall in Hin. apply Hin. by eapply list_elem_of_lookup_2.
Qed.

Lemma same_cosine (a b k : R) :
  0 < k → sqrt (a * a + b * b) ≠ 0 →
  (a * (k * a) + b * (k * b)) /
  (sqrt (a * a + b * b) * sqrt (k * a * (k * a) + k * b * (k * b))) = 1.
Proof.
  intros Hk Hm.
  assert (0 <= a * a + b * b) as Hnn by nra.
  replace (k * a * (k * a) + k * b * (k * b)) with ((k * k) * (a * a + b * b)) by ring.
  rewrite sqrt_mult by nra. rewrite sqrt_square by lra.
  replace (sqrt (a * a + b * b) * (k * sqrt (a * a + b * b)))
    with (k * (sqrt (a * a + b * b) * sqrt (a * a + b * b))) by ring.
  rewrite sqrt_sqrt by done.
  assert (a * a + b * b ≠ 0) as Hne.
  { intros H0. apply Hm. rewrite H0. apply sqrt_0. }
  field. split; lra.
Qed.

(** A spike: both edges leave the vertex in the same direction. *)
Lemma calculateVertexAngle_spike (vertices : list Vertex) (index : nat) (k : R) :
  (index < length vertices)%nat →
  let prev := vertices !!! ringPrev (length vertices) index in
  let curr := vertices !!! index in
  let next := vertices !!! ringNext (length vertices) index in
  0 < k →
  lon next - lon curr = k * (lon prev - lon curr) →
  lat next - lat curr = k * (lat prev - lat curr) →
  (lon prev ≠ lon curr ∨ lat prev ≠ lat curr) →
  calculateVertexAngle vertices index = 0.
Proof.
  intros Hi prev curr next Hk Hlon Hlat Hp. unfold calculateVertexAngle.
  destruct (ring_reads_in_range _ _ Hi) as (-> & -> & _ & _).
  fold prev curr next. rewrite Hlon, Hlat.
  assert (sqrt ((lon prev - lon curr) * (lon prev - lon curr) +
                (lat prev - lat curr) * (lat prev - lat curr)) ≠ 0) as Hm.
  { intros H0. apply sqrt_sum_squares_0 in H0 as [? ?]. destruct Hp; lra. }
  destruct (decide _) as [[H0|H0]|_].
  - done.
  - apply sqrt_sum_squares_0 in H0 as [? ?]. destruct Hp; nra.
  - rewrite same_cosine by done.
    rewrite Rmin_left, Rmax_right by lra. rewrite acos_1. lra.
Qed.

Lemma updateAllLabels_single polygon ring lm :
  hull polygon = Some ring → ring ≠ [] →
  labels (updateAllLabels [polygon] lm) =
  (selectRing false (savePositions lm) (settings lm) (the_map lm) (id polygon) ring
     ([], [])).1.
Proof.
  intros Hh Hne. rewrite updateAllLabels_labels. simpl. unfold selectPolygon.
  rewrite Hh. rewrite decide_False; [done|]. by destruct ring.
Qed.

Lemma closeness_exampleMap (cfg : Settings) :
  minVertexDistance cfg = 30 →
  pixelsToDegrees (metersPerPixelAt exampleMap) (minVertexDistance cfg)
  = 156543.03392 / 1024 * 30 / 111320.
Proof. intros ->. unfold pixelsToDegrees. by rewrite metersPerPixelAt_exampleMap. Qed.

(** Decides whether a vertex of a scene is close to an entry. *)
Ltac closeness :=
  rewrite isClose_spec by (rewrite closeness_exampleMap by reflexivity; lra);
  rewrite closeness_exampleMap by reflexivity; simpl; lra.

Ltac in_example_bounds :=
  repeat constructor; unfold contains; simpl;
  apply bool_decide_eq_true_2; lra.

Lemma midpointRing_straight : straightAt midpointRing 1.
Proof.
  unfold straightAt, straight. simpl. right. right. exists 1. lra.
Qed.

(** Counterexample to C4 as stated: with [minVertexAngle = 0] every vertex
    of the ring gets a label, the straight one at index 1 as well. *)
Lemma straight_vertex_labeled :
  let lm := idleManager (updateMinVertexAngle 0 defaultSettings) [] ∅ in
  (0 <= minVertexAngle (settings lm)) ∧
  straightAt midpointRing 1 ∧
  calculateVertexAngle midpointRing 1 = 180 ∧
  vertexIndex <$> labels (updateAllLabels [midpointPolygon] lm) = [0; 1; 2; 3; 4]%nat ∧
  polygonVertices <$> labels (updateAllLabels [midpointPolygon] lm)
    = replicate 5 midpointRing.
Proof.
  intros lm. split; [simpl; lra|]. split; [apply midpointRing_straight|].
  split; [apply calculateVertexAngle_straight; [simpl; lia|apply midpointRing_straight]|].
  rewrite (updateAllLabels_single midpointPolygon midpointRing) by done.
  destruct (selectRing_all_accepted false (savePositions lm) (settings lm) (the_map lm)
              (id midpointPolygon) midpointRing [] []) as (H1 & H2 & _ & _).
  - done.
  - in_example_bounds.
  - intros i _. pose proof (calculateVertexAngle_le_180 midpointRing i). simpl. lra.
  - unfold vertexData. simpl. repeat split; repeat constructor; closeness.
  - by rewrite H1, H2.
Qed.

(** Counterexample to C5 as stated: with the default settings
    [updateAllLabels] labels both points of a ring of two points. *)
Lemma two_point_ring_labeled :
  let lm := idleManager defaultSettings [] ∅ in
  length twoPointRing = 2%nat ∧
  vertexIndex <$> labels (updateAllLabels [twoPointPolygon] lm) = [0; 1]%nat ∧
  polygonId <$> labels (updateAllLabels [twoPointPolygon] lm) = [3; 3]%nat.
Proof.
  intros lm. split; [done|].
  rewrite (updateAllLabels_single twoPointPolygon twoPointRing) by done.
  destruct (selectRing_all_accepted false (savePositions lm) (settings lm) (the_map lm)
              (id twoPointPolygon) twoPointRing [] []) as (H1 & _ & H3 & _).
  - done.
  - in_example_bounds.
  - intros i Hi. simpl in Hi.
    rewrite (calculateVertexAngle_spike twoPointRing i 1);
      [simpl; lra|done|lra|..];
      destruct i as [|[|i]]; simpl in *; try lia; try lra; left; lra.
  - unfold vertexData. simpl. repeat split; repeat constructor; closeness.
  - by rewrite H1, H3.
Qed.

(** ** Two close vertices next to a third one *)

Lemma selectRing_visible ownOnly saved cfg m pid vertices sel :
  vertices ≠ [] →
  Forall (λ v, contains (getBounds m) (L_latLng (lat v) (lon v)) = true) vertices →
  selectRing ownOnly saved cfg m pid vertices sel =
  foldl (selectVertex ownOnly saved cfg (metersPerPixelAt m) pid vertices
           (average lat vertices) (average lon vertices))
        sel (vertexData (getBounds m) vertices).
Proof.
  intros Hne Hin. unfold selectRing.
  assert (filter (λ v, contains (getBounds m) (L_latLng (lat v) (lon v)) = true) vertices
          = vertices) as ->.
  { clear -Hin. induction Hin as [|v vs Hv _ IH]; [done|].
    rewrite filter_cons_True by done. by rewrite IH. }
  rewrite decide_False; [done|]. by destruct vertices.
Qed.

Lemma sqrt_2_gt_1 : 1 < sqrt 2.
Proof. rewrite <- sqrt_1 at 1. apply sqrt_lt_1_alt. lra. Qed.

Lemma half_right_cosine (a b c d : R) :
  0 < a * a + b * b →
  a * c + b * d = a * a + b * b →
  c * c + d * d = 2 * (a * a + b * b) →
  (a * c + b * d) / (sqrt (a * a + b * b) * sqrt (c * c + d * d)) = / sqrt 2.
Proof.
  intros Hn Hdot Hlen. rewrite Hdot, Hlen.
  rewrite sqrt_mult by lra.
  replace (sqrt (a * a + b * b) * (sqrt 2 * sqrt (a * a + b * b)))
    with (sqrt 2 * (sqrt (a * a + b * b) * sqrt (a * a + b * b))) by ring.
  rewrite sqrt_sqrt by lra. pose proof sqrt_2_gt_1. field. split; lra.
Qed.

(** Half a right angle: one edge is the other plus a perpendicular of the
    same length. *)
Lemma calculateVertexAngle_half_right (vertices : list Vertex) (index : nat) :
  (index < length vertices)%nat →
  let prev := vertices !!! ringPrev (length vertices) index in
  let curr := vertices !!! index in
  let next := vertices !!! ringNext (length vertices) index in
  let v1x := lon prev - lon curr in
  let v1y := lat prev - lat curr in
  let v2x := lon next - lon curr in
  let v2y := lat next - lat curr in
  (0 < v1x * v1x + v1y * v1y ∧
   v1x * v2x + v1y * v2y = v1x * v1x + v1y * v1y ∧
   v2x * v2x + v2y * v2y = 2 * (v1x * v1x + v1y * v1y)) ∨
  (0 < v2x * v2x + v2y * v2y ∧
   v1x * v2x + v1y * v2y = v2x * v2x + v2y * v2y ∧
   v1x * v1x + v1y * v1y = 2 * (v2x * v2x + v2y * v2y)) →
  calculateVertexAngle vertices index = 45.
Proof.
  intros Hi prev curr next v1x v1y v2x v2y H. unfold calculateVertexAngle.
  destruct (ring_reads_in_range _ _ Hi) as (-> & -> & _ & _).
  fold prev curr next. fold v1x v1y v2x v2y.
  assert ((v1x * v2x + v1y * v2y) /
          (sqrt (v1x * v1x + v1y * v1y) * sqrt (v2x * v2x + v2y * v2y)) = / sqrt 2) as Hcos.
  { destruct H as [(H0 & H1 & H2)|(H0 & H1 & H2)].
    - by apply half_right_cosine.
    - rewrite (Rmult_comm (sqrt _)).
      replace (v1x * v2x + v1y * v2y) with (v2x * v1x + v2y * v1y) in * by ring.
      by apply half_right_cosine. }
  assert (0 < v1x * v1x + v1y * v1y ∧ 0 < v2x * v2x + v2y * v2y) as [Hp1 Hp2].
  { destruct H as [(H0 & H1 & H2)|(H0 & H1 & H2)]; lra. }
  destruct (decide _) as [[H0|H0]|_].
  - apply sqrt_eq_0 in H0; lra.
  - apply sqrt_eq_0 in H0; lra.
  - rewrite Hcos. pose proof sqrt_2_gt_1 as Hs.
    assert (0 < / sqrt 2 < 1) as Hr.
    { split; [apply Rinv_0_lt_compat; lra|].
      apply Rmult_lt_reg_r with (r := sqrt 2); [lra|].
      rewrite Rinv_l by lra. lra. }
    rewrite Rmin_right, Rmax_right by lra. rewrite acos_inv_sqrt2.
    field. apply PI_neq0.
Qed.

Lemma cornerSquare_angles (i : nat) :
  (i < 4)%nat → calculateVertexAngle cornerSquare i = 90.
Proof.
  intros Hi.
  destruct i as [|[|[|[|i]]]]; [..|lia];
    (apply calculateVertexAngle_right; [simpl; lia|simpl; lra|simpl..]);
    first [left; lra|right; lra].
Qed.

Lemma smallTriangle_angles :
  calculateVertexAngle smallTriangle 0 = 45 ∧
  calculateVertexAngle smallTriangle 1 = 90 ∧
  calculateVertexAngle smallTriangle 2 = 45.
Proof.
  repeat split.
  - apply calculateVertexAngle_half_right; [simpl; lia|]. simpl. right. lra.
  - apply calculateVertexAngle_right; [simpl; lia|simpl; lra|simpl..];
      first [left; lra|right; lra].
  - apply calculateVertexAngle_half_right; [simpl; lia|]. simpl. left. lra.
Qed.

Lemma selectPolygon_ring saved cfg m sel polygon ring :
  hull polygon = Some ring → ring ≠ [] →
  selectPolygon saved cfg m sel polygon =
  selectRing false saved cfg m (id polygon) ring sel.
Proof.
  intros Hh Hne. unfold selectPolygon. rewrite Hh.
  rewrite decide_False; [done|]. by destruct ring.
Qed.

Arguments selectVertex : simpl never.
Arguments newLabel : simpl never.

Lemma list_find_head {A : Type} (P : A → Prop) `{!∀ x, Decision (P x)} (x : A) (l : list A) :
  P x → list_find P (x :: l) = Some (0%nat, x).
Proof. intros Hx. simpl. by rewrite decide_True. Qed.

(** Counterexample to C7 as stated: the vertices [A] and [C] of the small
    triangle are 7px apart and both pass the angle filter, and both are
    labeled.  When [A] is processed, the first accepted vertex within
    [minVertexDistance] is the corner of the square, which [A] replaces;
    [C], accepted before, is never compared with [A]. *)
Lemma close_vertices_both_labeled :
  let lm := idleManager defaultSettings [] ∅ in
  let ls := labels (updateAllLabels [cornerSquarePolygon; smallTrianglePolygon] lm) in
  polygonId <$> ls = [1; 1; 1; 2; 2]%nat ∧
  vertexIndex <$> ls = [1; 2; 3; 0; 2]%nat ∧
  isClose defaultSettings (metersPerPixelAt exampleMap)
    (smallTriangle !!! 2%nat) (mkLabeledVertex 0.007 0.043 45) ∧
  ¬ calculateVertexAngle smallTriangle 0 > 180 - minVertexAngle defaultSettings ∧
  ¬ calculateVertexAngle smallTriangle 2 > 180 - minVertexAngle defaultSettings.
Proof.
  intros lm ls.
  destruct smallTriangle_angles as (HC & HB & HA).
  assert (∃ l1 l2 l3 lC lA,
            ls = [l1; l2; l3; lC; lA] ∧
            polygonId <$> [l1; l2; l3; lC; lA] = [1; 1; 1; 2; 2]%nat ∧
            vertexIndex <$> [l1; l2; l3; lC; lA] = [1; 2; 3; 0; 2]%nat)
    as (l1 & l2 & l3 & lC & lA & -> & H1 & H2).
  2:{ split; [done|]. split; [done|]. split; [closeness|].
      rewrite HC, HA. simpl. lra. }
  unfold ls. rewrite updateAllLabels_labels. cbn [foldl].
  rewrite (selectPolygon_ring _ _ _ _ cornerSquarePolygon cornerSquare) by done.
  rewrite (selectPolygon_ring _ _ _ _ smallTrianglePolygon smallTriangle) by done.
  rewrite (selectRing_visible _ _ _ _ _ cornerSquare); [|done|in_example_bounds].
  rewrite selectVertex_all_accepted.
  2:{ unfold vertexData; simpl; repeat constructor; simpl;
      try (unfold contains; simpl; apply bool_decide_eq_true_2; lra).
      all: rewrite cornerSquare_angles by lia; lra. }
  2:{ unfold vertexData; simpl; repeat split; repeat constructor; closeness. }
  rewrite (selectRing_visible _ _ _ _ _ smallTriangle); [|done|in_example_bounds].
  unfold vertexData. simpl imap. simpl fmap. cbn [foldl app entryOf vd_vertex vd_angle vd_index lat lon].
  simpl id. simpl settings. simpl the_map. simpl getBounds.
  (* C is accepted *)
  rewrite selectVertex_accept.
  2:{ split; simpl; [unfold contains; simpl; apply bool_decide_eq_true_2; lra|].
      rewrite HC. lra. }
  2:{ apply list_find_None. simpl. repeat constructor; closeness. }
  cbn [app vd_vertex vd_angle vd_index lat lon].
  (* B is rejected: C is close and as sharp *)
  erewrite selectVertex_reject.
  2:{ split; simpl; [unfold contains; simpl; apply bool_decide_eq_true_2; lra|].
      rewrite HB. lra. }
  2:{ apply (list_find_app_first _ [_; _; _; _] []).
      - intros c Hc. repeat (apply elem_of_cons in Hc as [->|Hc]); [closeness..|].
        by apply elem_of_nil in Hc.
      - closeness. }
  2:{ simpl. rewrite HB, HC. lra. }
  (* A replaces the corner of the square *)
  erewrite selectVertex_evict.
  2:{ split; simpl; [unfold contains; simpl; apply bool_decide_eq_true_2; lra|].
      rewrite HA. lra. }
  2:{ apply list_find_head. closeness. }
  2:{ simpl. rewrite HA, cornerSquare_angles by lia. lra. }
  rewrite list_find_head
    by (unfold isLabelOf; rewrite newLabel_vertexLatLng; simpl;
        rewrite !Rminus_diag, Rabs_R0; repeat split; lra).
  cbn [delete list_delete length app fst].
  eexists _, _, _, _, _. split; [reflexivity|].
  simpl. rewrite !newLabel_polygonId, !newLabel_vertexIndex. done.
Qed.

(** ** Scenes built by [updateAllLabels] *)

(** *** Label texts *)

Lemma Int_part_half (z : Z) : Int_part (IZR z + / 2) = z.
Proof. symmetry. apply Int_part_spec. lra. Qed.

(** [toFixed6] at a multiple of one millionth. *)
Lemma toFixed6_millionths (z : Z) (x : R) :
  x * 10 ^ 6 = IZR z →
  toFixed6 x =
  let s := if decide (x < 0) then "-" else "" in
  let m := pretty (Z.abs z) in
  let k := String.length m in
  let m := if decide (k <= 6)%nat then String.concat "" (replicate (7 - k) "0") +:+ m else m in
  let k := String.length m in
  s +:+ substring 0 (k - 6) m +:+ "." +:+ substring (k - 6) 6 m.
Proof.
  intros Hx. unfold toFixed6.
  assert (Int_part ((if decide (x < 0) then - x else x) * 10 ^ 6 + / 2) = Z.abs z) as ->;
    [|done].
  destruct (decide (x < 0)) as [Hn|Hn].
  - replace (- x * 10 ^ 6) with (IZR (- z)) by (rewrite opp_IZR; lra).
    rewrite Int_part_half.
    assert (IZR z < 0) as Hz by (rewrite <- Hx; simpl; lra).
    apply lt_IZR in Hz. lia.
  - rewrite Hx, Int_part_half.
    assert (0 <= IZR z) as Hz by (rewrite <- Hx; simpl; lra).
    apply le_IZR in Hz. lia.
Qed.

Lemma toFixed6_values :
  toFixed6 0 = "0.000000" ∧ toFixed6 (-0.5) = "-0.500000" ∧
  toFixed6 0.3 = "0.300000" ∧ toFixed6 0.35 = "0.350000".
Proof.
  repeat split.
  - rewrite (toFixed6_millionths 0) by (simpl; lra).
    rewrite decide_False by lra. by vm_compute.
  - rewrite (toFixed6_millionths (-500000)) by (simpl; lra).
    rewrite decide_True by lra. by vm_compute.
  - rewrite (toFixed6_millionths 300000) by (simpl; lra).
    rewrite decide_False by lra. by vm_compute.
  - rewrite (toFixed6_millionths 350000) by (simpl; lra).
    rewrite decide_False by lra. by vm_compute.
Qed.

(** A new label, but for its position. *)
Lemma set_labelLatLng_newLabel (p : LatLng.t) saved cfg mpp pid ring cLat cLon vertex index :
  set_labelLatLng p (newLabel saved cfg mpp pid ring cLat cLon vertex index) =
  {| key := (pid, index); polygonId := pid; vertexIndex := index;
     vertexLatLng := L_latLng (lat vertex) (lon vertex);
     labelLatLng := p;
     text := toFixed6 (lat vertex) +:+ ", " +:+ toFixed6 (lon vertex);
     width := estimateLabelWidth (toFixed6 (lat vertex) +:+ ", " +:+ toFixed6 (lon vertex));
     height := 30;
     polygonVertices := ring;
     manuallyPositioned := bool_decide (is_Some (saved !! (pid, index))) |}.
Proof.
  unfold set_labelLatLng, newLabel. destruct (saved !! _); [done|].
  destruct (decide _); done.
Qed.

Lemma newLabel_unsaved cfg mpp pid ring cLat cLon vertex index :
  let l := newLabel ∅ cfg mpp pid ring cLat cLon vertex index in
  manuallyPositioned l = false ∧ height l = 30 ∧
  width l = estimateLabelWidth (toFixed6 (lat vertex) +:+ ", " +:+ toFixed6 (lon vertex)).
Proof.
  unfold newLabel. rewrite lookup_empty. destruct (decide _); done.
Qed.

(** *** Rings in full view whose vertices are all accepted *)

Lemma updateAllLabels_view polygons lm :
  the_map (updateAllLabels polygons lm) = the_map lm ∧
  settings (updateAllLabels polygons lm) = settings lm.
Proof.
  unfold updateAllLabels.
  destruct (foldl _ _ polygons) as [ls lvs].
  destruct (decide _); [|done].
  unfold startSimulation. simpl. by destruct (isSimulating lm).
Qed.

Lemma updateAllLabels_all_accepted polygon ring lm :
  hull polygon = Some ring → ring ≠ [] →
  Forall (λ v, contains (getBounds (the_map lm)) (L_latLng (lat v) (lon v)) = true) ring →
  (∀ i, (i < length ring)%nat →
        ¬ calculateVertexAngle ring i > 180 - minVertexAngle (settings lm)) →
  spacedFrom (settings lm) (metersPerPixelAt (the_map lm)) []
    (vertexData (getBounds (the_map lm)) ring) →
  labels (updateAllLabels [polygon] lm) =
  (λ vd, newLabel (savePositions lm) (settings lm) (metersPerPixelAt (the_map lm))
           (id polygon) ring (average lat ring) (average lon ring)
           (vd_vertex vd) (vd_index vd))
    <$> vertexData (getBounds (the_map lm)) ring.
Proof.
  intros Hh Hne Hin Hang Hsp.
  rewrite (updateAllLabels_single polygon ring) by done.
  rewrite selectRing_visible by done.
  rewrite selectVertex_all_accepted; [done| |done].
  apply Forall_forall. intros vd Hvd.
  pose proof Hvd as Hvd'. apply vertexData_spec in Hvd' as (Hlt & Hv & Ha).
  split; [|rewrite Ha; by apply Hang].
  apply list_elem_of_lookup in Hvd as [i Hi].
  unfold vertexData in Hi. rewrite list_lookup_imap in Hi.
  destruct (ring !! i) as [v|] eqn:Hvi; simpl in Hi; [|done].
  inversion Hi; subst; simpl.
  rewrite Forall_forall in Hin. apply Hin. by eapply list_elem_of_lookup_2.
Qed.

(** What a step does to the label at an index. *)
Lemma simulateStep_at (lm : LabelManager) (i : nat) (l : Label) :
  labels lm !! i = Some l →
  ∃ force j tr,
    labels (simulateStep lm).1 !! i =
    Some (integrateLabel Rdiv (settings lm) (stepScale (the_map lm))
            (getBounds (the_map lm)) force j l tr).1.
Proof.
  intros Hi. destruct (simulateStep_lookup lm i l Hi) as (l' & Hl' & _).
  pose proof Hl' as Hl. rewrite simulateStep_labels in Hl.
  apply integrateFrom_lookup in Hl as (l0 & force & j & tr0 & Hl0 & Hl).
  exists force, j, tr0. congruence.
Qed.

(** *** A vertex on the edge of the viewport *)

Lemma edgeRing_angles (i : nat) :
  (i < 3)%nat → calculateVertexAngle edgeRing i <= 90.
Proof.
  intros Hi. destruct i as [|[|[|i]]]; [..|lia].
  - rewrite calculateVertexAngle_right; [lra|simpl; lia|simpl; lra|simpl..];
      first [left; lra|right; lra].
  - rewrite calculateVertexAngle_half_right; [lra|simpl; lia|]. simpl. left. lra.
  - rewrite calculateVertexAngle_half_right; [lra|simpl; lia|]. simpl. right. lra.
Qed.

Lemma edgeManager_labels :
  labels edgeManager =
  (λ vd, newLabel ∅ defaultSettings (metersPerPixelAt exampleMap) 1%nat edgeRing
           (average lat edgeRing) (average lon edgeRing) (vd_vertex vd) (vd_index vd))
    <$> vertexData (getBounds exampleMap) edgeRing.
Proof.
  unfold edgeManager.
  rewrite (updateAllLabels_all_accepted edgePolygon edgeRing); [done|done|done|..].
  - in_example_bounds.
  - intros i Hi. pose proof (edgeRing_angles i Hi). simpl. lra.
  - unfold vertexData. simpl. repeat split; repeat constructor; closeness.
Qed.

(** Counterexample to C2 as stated: [updateAllLabels], with the default
    settings, labels a triangle whose first vertex is on the west edge of
    the viewport.  After the first step the label of that vertex is more
    than [maxLabelDistance] (80px) from its anchor, because the viewport
    clamp, which comes last, keeps the label, 149px wide, at least 84.5px
    to the east of the edge. *)
Lemma anchor_distance_exceeded :
  the_map edgeManager = exampleMap ∧ settings edgeManager = defaultSettings ∧
  ∃ l', labels (simulateStep edgeManager).1 !! 0%nat = Some l' ∧
        vertexLatLng l' = L_latLng 0 (-0.5) ∧
        manuallyPositioned l' = false ∧
        anchorDistance l' > pixelsToDegrees (stepScale exampleMap) 80 + 0.001.
Proof.
  destruct (updateAllLabels_view [edgePolygon] (idleManager defaultSettings [] ∅))
    as [Hmap Hcfg].
  fold edgeManager in Hmap, Hcfg. simpl in Hmap, Hcfg.
  split; [done|]. split; [done|].
  set (l := newLabel ∅ defaultSettings (metersPerPixelAt exampleMap) 1%nat edgeRing
              (average lat edgeRing) (average lon edgeRing) (mkVertex 0 (-0.5)) 0).
  assert (labels edgeManager !! 0%nat = Some l) as Hl
    by (by rewrite edgeManager_labels).
  destruct (simulateStep_at edgeManager 0 l Hl) as (force & j & tr & ->).
  rewrite Hmap, Hcfg.
  destruct (newLabel_unsaved defaultSettings (metersPerPixelAt exampleMap) 1%nat edgeRing
              (average lat edgeRing) (average lon edgeRing) (mkVertex 0 (-0.5)) 0)
    as (Hm & Hh & Hw).
  fold l in Hm, Hh, Hw. simpl in Hw.
  destruct toFixed6_values as (T0 & T5 & _). rewrite T0, T5 in Hw.
  assert (width l = 149) as Hw' by (rewrite Hw; unfold estimateLabelWidth; simpl; lra).
  pose proof (newLabel_vertexLatLng ∅ defaultSettings (metersPerPixelAt exampleMap) 1%nat
                edgeRing (average lat edgeRing) (average lon edgeRing)
                (mkVertex 0 (-0.5)) 0) as Hv.
  fold l in Hv. simpl in Hv.
  destruct (integrateLabel_position defaultSettings (stepScale exampleMap)
              (getBounds exampleMap) force j l tr Hm)
    as (newLat & newLng & tr' & -> & _).
  eexists. split; [reflexivity|]. cbn [fst].
  split; [exact Hv|]. split; [exact Hm|].
  unfold anchorDistance. cbn [labelLatLng vertexLatLng set_labelLatLng]. rewrite Hv.
  cbn [LatLng.lat LatLng.lng L_latLng].
  set (lng' := Rmax _ _). set (lat' := Rmax _ _).
  assert (paddedWest (stepScale exampleMap) (getBounds exampleMap) l <= lng')
    as Hwest by apply Rmax_l.
  unfold paddedWest, pixelsToDegrees in Hwest. rewrite Hw' in Hwest. simpl in Hwest.
  unfold pixelsToDegrees. rewrite stepScale_exampleMap in *.
  apply Rlt_gt.
  eapply Rlt_le_trans;
    [|apply sqrt_le_1_alt with (x := (lng' - -0.5) * (lng' - -0.5)); nra].
  rewrite sqrt_square by lra. lra.
Qed.

(** *** Labels in the corner of the viewport *)

(** Labels whose anchors lie beyond the north-east corner of their padded
    box by [maxLabelDistance] or more all end the step in that corner. *)
Lemma integrateFrom_corner cfg mpp bounds forces (p : LatLng.t) (ls : list Label) :
  0 <= pixelsToDegrees mpp (maxLabelDistance cfg) →
  Forall (λ l, manuallyPositioned l = false ∧
               paddedSouth mpp bounds l <= paddedNorth mpp bounds l ∧
               paddedWest mpp bounds l <= paddedEast mpp bounds l ∧
               paddedNorth mpp bounds l + pixelsToDegrees mpp (maxLabelDistance cfg)
                 <= LatLng.lat (vertexLatLng l) ∧
               paddedEast mpp bounds l + pixelsToDegrees mpp (maxLabelDistance cfg)
                 <= LatLng.lng (vertexLatLng l) ∧
               L_latLng (paddedNorth mpp bounds l) (paddedEast mpp bounds l) = p) ls →
  ∀ i tr, (integrateFrom Rdiv cfg mpp bounds forces i ls tr).1 = set_labelLatLng p <$> ls.
Proof.
  intros Hmax Hls. induction Hls as [|l ls (Hm & H1 & H2 & H3 & H4 & Hp) _ IH];
    intros i tr; simpl; [done|].
  pose proof (integrateLabel_corner cfg mpp bounds (forces !!! i) i l tr
                Hm Hmax H1 H2 H3 H4) as Hl.
  destruct (integrateLabel _ _ _ _ _ _ _ _) as [l' tr'].
  specialize (IH (S i) tr').
  destruct (integrateFrom _ _ _ _ _ _ _ _) as [rest' tr''].
  simpl in *. by rewrite Hl, Hp, IH.
Qed.

Lemma stepScale_pannedMap : stepScale pannedMap = 156543.03392 / 1024.
Proof. unfold stepScale. simpl. by rewrite cos_0, Rpower_2_10, Rmult_1_r. Qed.

(** In the moved view, a label of the triangle goes to [cornerPosition]. *)
Lemma cornerRing_beyond (l : Label) :
  manuallyPositioned l = false → width l = 142 → height l = 30 →
  0.3 <= LatLng.lat (vertexLatLng l) → 0.3 <= LatLng.lng (vertexLatLng l) →
  let mpp := stepScale pannedMap in
  let bounds := getBounds pannedMap in
  manuallyPositioned l = false ∧
  paddedSouth mpp bounds l <= paddedNorth mpp bounds l ∧
  paddedWest mpp bounds l <= paddedEast mpp bounds l ∧
  paddedNorth mpp bounds l + pixelsToDegrees mpp (maxLabelDistance defaultSettings)
    <= LatLng.lat (vertexLatLng l) ∧
  paddedEast mpp bounds l + pixelsToDegrees mpp (maxLabelDistance defaultSettings)
    <= LatLng.lng (vertexLatLng l) ∧
  L_latLng (paddedNorth mpp bounds l) (paddedEast mpp bounds l) = cornerPosition.
Proof.
  intros Hm Hw Hh Hlat Hlng mpp bounds. split; [done|].
  unfold paddedSouth, paddedNorth, paddedWest, paddedEast, cornerPosition,
    pixelsToDegrees, mpp, bounds.
  rewrite stepScale_pannedMap, Hw, Hh. simpl.
  repeat split; try lra. unfold L_latLng. f_equal; lra.
Qed.

Lemma cornerRing_angles (i : nat) :
  (i < 3)%nat → calculateVertexAngle cornerRing i <= 90.
Proof.
  intros Hi. destruct i as [|[|[|i]]]; [..|lia].
  - rewrite calculateVertexAngle_right; [lra|simpl; lia|simpl; lra|simpl..];
      first [left; lra|right; lra].
  - rewrite calculateVertexAngle_half_right; [lra|simpl; lia|]. simpl. left. lra.
  - rewrite calculateVertexAngle_half_right; [lra|simpl; lia|]. simpl. right. lra.
Qed.

Lemma cornerManager_labels :
  labels cornerManager = [cornerLabel1; cornerLabel2; cornerLabel3].
Proof.
  unfold cornerManager. rewrite simulateStep_labels.
  cbn [the_map settings labels velocities previousPositions setView].
  destruct (updateAllLabels_view [cornerPolygon] (idleManager defaultSettings [] ∅))
    as [_ ->].
  rewrite (updateAllLabels_all_accepted cornerPolygon cornerRing); [|done|done|..].
  - cbn [settings idleManager the_map id cornerPolygon].
    change (savePositions (idleManager defaultSettings [] ∅)) with (∅ : gmap Key LatLng.t).
    destruct toFixed6_values as (_ & _ & T3 & T35).
    assert (estimateLabelWidth "0.300000, 0.300000" = 142 ∧
            estimateLabelWidth "0.300000, 0.350000" = 142 ∧
            estimateLabelWidth "0.350000, 0.300000" = 142) as (W1 & W2 & W3)
      by (unfold estimateLabelWidth; simpl; lra).
    rewrite (integrateFrom_corner _ _ _ _ cornerPosition).
    + unfold vertexData, cornerRing.
      cbn [imap fmap list_fmap vd_vertex vd_index compose].
      rewrite !set_labelLatLng_newLabel. cbn [lat lon].
      rewrite T3, T35.
      change ("0.300000" +:+ ", " +:+ "0.300000") with "0.300000, 0.300000".
      change ("0.300000" +:+ ", " +:+ "0.350000") with "0.300000, 0.350000".
      change ("0.350000" +:+ ", " +:+ "0.300000") with "0.350000, 0.300000".
      rewrite W1, W2, W3.
      by rewrite lookup_empty.
    + unfold pixelsToDegrees. rewrite stepScale_pannedMap. simpl. lra.
    + unfold vertexData, cornerRing.
      cbn [imap fmap list_fmap vd_vertex vd_index compose].
      repeat first [apply Forall_nil_2 | apply Forall_cons_2];
        match goal with
        | |- context [newLabel ?s ?c ?m ?p ?r ?a ?b ?v ?i] =>
            destruct (newLabel_unsaved c m p r a b v i) as (Hm & Hh & Hw);
            pose proof (newLabel_vertexLatLng s c m p r a b v i) as Hv;
            cbn [lat lon] in Hw, Hv; rewrite ?T3, ?T35 in Hw;
            change ("0.300000" +:+ ", " +:+ "0.300000") with "0.300000, 0.300000" in Hw;
            change ("0.300000" +:+ ", " +:+ "0.350000") with "0.300000, 0.350000" in Hw;
            change ("0.350000" +:+ ", " +:+ "0.300000") with "0.350000, 0.300000" in Hw;
            rewrite ?W1, ?W2, ?W3 in Hw;
            apply cornerRing_beyond; [done|done|done|rewrite Hv; simpl; lra..]
        end.
  - in_example_bounds.
  - intros i Hi. pose proof (cornerRing_angles i Hi). simpl. lra.
  - unfold vertexData. simpl. repeat split; repeat constructor; closeness.
Qed.


(** *** The square *)

Lemma squareRing_angles (i : nat) :
  (i < 4)%nat → calculateVertexAngle squareRing i = 90.
Proof.
  intros Hi.
  destruct i as [|[|[|[|i]]]]; [..|lia];
    (apply calculateVertexAngle_right; [simpl; lia|simpl; lra|simpl..]);
    first [left; lra|right; lra].
Qed.

Lemma squarePolygon_keys (lm : LabelManager) :
  the_map lm = exampleMap → settings lm = defaultSettings →
  key <$> labels (updateAllLabels [squarePolygon] lm)
  = [(1, 0); (1, 1); (1, 2); (1, 3)]%nat.
Proof.
  intros Hm Hs.
  rewrite (updateAllLabels_single squarePolygon squareRing) by done.
  rewrite Hm, Hs.
  destruct (selectRing_all_accepted false (savePositions lm) defaultSettings exampleMap
              (id squarePolygon) squareRing [] []) as (_ & _ & _ & H4); [done|..|done].
  - in_example_bounds.
  - intros i Hi. rewrite squareRing_angles by done. simpl. lra.
  - unfold vertexData. simpl. repeat split; repeat constructor; closeness.
Qed.

(** ** Instances of the theorems on the scenes *)

Lemma manual_position_invariance_witness :
  labels (Nat.iter 2 (λ s, (simulateStep s).1)
            (idleManager defaultSettings [draggedLabel true] ∅)) !! 0%nat
  = Some (draggedLabel true) ∧
  ∃ l', l' ∈ labels (updateAllLabels [squarePolygon]
                       (idleManager defaultSettings [draggedLabel false] {[ (1, 0)%nat ]})) ∧
        key l' = (1, 0)%nat ∧
        labelLatLng l' = L_latLng 0.05 (-0.07) ∧ manuallyPositioned l' = true.
Proof.
  split.
  - apply (proj1 manual_position_invariance); reflexivity.
  - pose proof (squarePolygon_keys
                  (idleManager defaultSettings [draggedLabel false] {[ (1, 0)%nat ]})
                  eq_refl eq_refl) as Hkeys.
    assert ((key <$> labels (updateAllLabels [squarePolygon]
               (idleManager defaultSettings [draggedLabel false] {[ (1, 0)%nat ]}))) !! 0%nat
            = Some (1, 0)%nat) as H0 by (by rewrite Hkeys).
    rewrite list_lookup_fmap in H0.
    destruct (labels _ !! 0%nat) as [l'|] eqn:Hl'; [|done].
    simpl in H0. injection H0 as Hk.
    assert (l' ∈ labels (updateAllLabels [squarePolygon]
               (idleManager defaultSettings [draggedLabel false] {[ (1, 0)%nat ]}))) as Hin
      by (by eapply list_elem_of_lookup_2).
    exists l'. split; [done|]. split; [done|].
    apply (proj2 (proj2 manual_position_invariance) [squarePolygon]
             (idleManager defaultSettings [draggedLabel false] {[ (1, 0)%nat ]})
             (draggedLabel false) l').
    + simpl. repeat constructor. set_solver.
    + simpl. set_solver.
    + simpl. set_solver.
    + done.
    + done.
Defined.

Lemma anchor_distance_bound_witness :
  ∃ l', labels (simulateStep (idleManager defaultSettings [draggedLabel false] ∅)).1 !! 0%nat
        = Some l' ∧
        anchorDistance l' <= pixelsToDegrees (stepScale exampleMap) 80 + anchorEpsilon.
Proof.
  destruct (simulateStep_lookup (idleManager defaultSettings [draggedLabel false] ∅)
              0 (draggedLabel false) eq_refl)
    as (l' & Hl' & Hk & Hp & Hi & Ha & Ht & Hw & Hh & Hr & Hm).
  exists l'. split; [done|].
  apply (anchor_distance_bound (idleManager defaultSettings [draggedLabel false] ∅) 0 l').
  - done.
  - by rewrite Hm.
  - simpl. lra.
  - unfold anchorInPaddedViewport, paddedSouth, paddedNorth, paddedWest, paddedEast,
      pixelsToDegrees.
    rewrite Ha, Hw, Hh. simpl the_map. rewrite stepScale_exampleMap. simpl. lra.
Defined.

Lemma stopSimulation_does_not_cancel_witness :
  let lm := idleManager defaultSettings [draggedLabel false] ∅ in
  let stopped := stopSimulation (startSimulation (Some [squarePolygon]) lm) in
  isSimulating stopped = false ∧
  countSteps (trace (animationFrame stopped)) = 3%nat ∧
  EvRenderPolygonNames [squarePolygon]
    ∈ trace (Nat.iter 68 animationFrame stopped).
Proof.
  intros lm stopped.
  destruct (stopSimulation_does_not_cancel (Some [squarePolygon]) lm)
    as (H1 & _ & H3 & _ & H5).
  - reflexivity.
  - reflexivity.
  - simpl. lia.
  - split; [exact H1|]. split; [exact H3|].
    by apply H5.
Defined.

Lemma straight_vertex_not_labeled_witness :
  179.9999 <= calculateVertexAngle midpointRing 1 <= 180 ∧
  Forall (λ l, ¬ (polygonVertices l = midpointRing ∧ vertexIndex l = 1%nat))
         (labels (updateAllLabels [midpointPolygon] (idleManager defaultSettings [] ∅))) ∧
  Forall (λ l, ¬ (polygonId l = 1%nat ∧ vertexIndex l = 1%nat))
         (labels (setLabels 1%nat (Some midpointRing) (idleManager defaultSettings [] ∅))).
Proof.
  destruct (straight_vertex_not_labeled midpointRing 1) as (_ & H1 & H2 & H3).
  - simpl. lia.
  - split; [exact (H1 midpointRing_straight)|]. split.
    + apply H2. right. split; [apply midpointRing_straight|simpl; lra].
    + apply H3. right. split; [apply midpointRing_straight|simpl; lra].
Defined.

Lemma small_rings_give_no_label_witness :
  selectPolygon ∅ defaultSettings exampleMap ([], [])
    (mkPolygon 4%nat (Some []) "#45B7D1" None) = ([], []) ∧
  labels (setLabels 1%nat None (idleManager defaultSettings [draggedLabel false] ∅)) = [] ∧
  selectPolygon ∅ defaultSettings exampleMap ([], [])
    (mkPolygon 4%nat (Some [mkVertex 0.1 0.1]) "#45B7D1" None) = ([], []) ∧
  labels (setLabels 1%nat (Some [mkVertex 0.1 0.1])
            (idleManager defaultSettings [draggedLabel false] ∅)) = [] ∧
  Forall hasRing (addPolygon twoPointPolygon [squarePolygon]).
Proof.
  destruct small_rings_give_no_label as (H1 & H2 & H3 & H4 & H5).
  split; [apply H1; by right|].
  split; [rewrite H2 by (by left); reflexivity|].
  split; [apply (H3 _ _ _ _ _ (mkVertex 0.1 0.1)); [reflexivity|simpl; lra]|].
  split; [rewrite H4 by (simpl; lra); reflexivity|].
  apply H5. repeat constructor. exists squareRing. split; [done|simpl; lia].
Defined.

Lemma simulation_terminates_witness :
  let lm := idleManager defaultSettings [draggedLabel false] ∅ in
  let started := startSimulation None lm in
  (∃ ticks : nat,
     (ticks <= 67)%nat ∧ halted 200 started ticks ∧
     rafQueue (Nat.iter ticks animationFrame started) = [runAfter None 200 started ticks] ∧
     rafQueue (Nat.iter (S ticks) animationFrame started) = [] ∧
     isSimulating (Nat.iter (S ticks) animationFrame started) = false ∧
     countSteps (trace (Nat.iter (S ticks) animationFrame started))
     = Nat.min (stepsPerFrame * ticks) 200) ∧
  rafQueue (stopSimulation started) = [mkRun 0 None 0 None] ∧
  rafQueue (Nat.iter 68 animationFrame (startSimulation None (stopSimulation started))) = [].
Proof.
  intros lm started. split.
  - destruct (proj1 simulation_terminates None lm eq_refl eq_refl)
      as (ticks & H1 & H2 & _ & H3 & H4 & H5 & _ & H6).
    exists ticks. split; [exact H1|]. split; [exact H2|].
    split; [exact (proj1 (H3 ticks (le_n ticks)))|].
    split; [exact H4|]. split; [exact H5|exact H6].
  - split; [reflexivity|].
    apply (proj2 simulation_terminates None (stopSimulation started)). reflexivity.
Defined.

(** In the scene of the square and the small triangle: vertex [B] of the
    triangle (90 degrees) comes after [C] (45 degrees, 5px away) and is
    rejected; vertex [A] (45 degrees) comes after the four corners of the
    square and [C], and takes the place of the corner at the origin (90
    degrees, 26px away), the first accepted vertex in its range. *)
Lemma close_vertices_one_label_witness :
  let mpp := metersPerPixelAt exampleMap in
  let select :=
    selectVertex false ∅ defaultSettings mpp 2%nat smallTriangle
      (average lat smallTriangle) (average lon smallTriangle) in
  let squareLabel (i : nat) :=
    newLabel ∅ defaultSettings mpp 1%nat cornerSquare
      (average lat cornerSquare) (average lon cornerSquare) (cornerSquare !!! i) i in
  let squareEntry (i : nat) :=
    mkLabeledVertex (lat (cornerSquare !!! i)) (lon (cornerSquare !!! i))
      (calculateVertexAngle cornerSquare i) in
  let triangleLabel (i : nat) :=
    newLabel ∅ defaultSettings mpp 2%nat smallTriangle
      (average lat smallTriangle) (average lon smallTriangle) (smallTriangle !!! i) i in
  let triangleEntry (i : nat) :=
    mkLabeledVertex (lat (smallTriangle !!! i)) (lon (smallTriangle !!! i))
      (calculateVertexAngle smallTriangle i) in
  let vd (i : nat) :=
    {| vd_vertex := smallTriangle !!! i; vd_index := i;
       vd_angle := calculateVertexAngle smallTriangle i;
       vd_inBounds :=
         contains (getBounds exampleMap)
           (L_latLng (lat (smallTriangle !!! i)) (lon (smallTriangle !!! i))) |} in
  vertexData (getBounds exampleMap) smallTriangle = [vd 0%nat; vd 1%nat; vd 2%nat] ∧
  select ([triangleLabel 0%nat], [triangleEntry 0%nat]) (vd 1%nat)
  = ([triangleLabel 0%nat], [triangleEntry 0%nat]) ∧
  select ([squareLabel 0%nat; squareLabel 1%nat; squareLabel 2%nat; squareLabel 3%nat;
           triangleLabel 0%nat],
          [squareEntry 0%nat; squareEntry 1%nat; squareEntry 2%nat; squareEntry 3%nat;
           triangleEntry 0%nat]) (vd 2%nat)
  = ([squareLabel 1%nat; squareLabel 2%nat; squareLabel 3%nat;
      triangleLabel 0%nat; triangleLabel 2%nat],
     [squareEntry 1%nat; squareEntry 2%nat; squareEntry 3%nat;
      triangleEntry 0%nat; triangleEntry 2%nat]).
Proof.
  intros mpp select squareLabel squareEntry triangleLabel triangleEntry vd.
  destruct smallTriangle_angles as (HC & HB & HA).
  pose proof (cornerSquare_angles 0 ltac:(lia)) as H0.
  split; [reflexivity|]. split.
  - etransitivity.
    + apply (close_vertices_one_label false ∅ defaultSettings mpp 2%nat smallTriangle
               (average lat smallTriangle) (average lon smallTriangle)
               [] [] [] [] (triangleEntry 0%nat) (triangleLabel 0%nat) (vd 1%nat)).
      * split; [unfold contains; simpl; apply bool_decide_eq_true_2; simpl; lra|].
        simpl. rewrite HB. lra.
      * unfold mpp. closeness.
      * intros c Hc. by apply elem_of_nil in Hc.
      * unfold isLabelOf, triangleLabel, triangleEntry.
        rewrite newLabel_vertexLatLng. simpl.
        rewrite !Rminus_diag, Rabs_R0. repeat split; lra.
      * intros l Hl. by apply elem_of_nil in Hl.
    + rewrite decide_False; [reflexivity|].
      unfold triangleEntry. simpl. rewrite HB, HC. lra.
  - etransitivity.
    + apply (close_vertices_one_label false ∅ defaultSettings mpp 2%nat smallTriangle
               (average lat smallTriangle) (average lon smallTriangle)
               [] [squareLabel 1%nat; squareLabel 2%nat; squareLabel 3%nat; triangleLabel 0%nat]
               [] [squareEntry 1%nat; squareEntry 2%nat; squareEntry 3%nat; triangleEntry 0%nat]
               (squareEntry 0%nat) (squareLabel 0%nat) (vd 2%nat)).
      * split; [unfold contains; simpl; apply bool_decide_eq_true_2; simpl; lra|].
        simpl. rewrite HA. lra.
      * unfold mpp. closeness.
      * intros c Hc. by apply elem_of_nil in Hc.
      * unfold isLabelOf, squareLabel, squareEntry.
        rewrite newLabel_vertexLatLng. simpl.
        rewrite !Rminus_diag, Rabs_R0. repeat split; lra.
      * intros l Hl. by apply elem_of_nil in Hl.
    + rewrite decide_True; [reflexivity|].
      unfold squareEntry. simpl. rewrite HA, H0. lra.
Defined.


(** * Further properties *)

(** ** Segments and boxes *)

Lemma pick_max (t t0 : R) : (if decide (t > t0) then t else t0) = Rmax t0 t.
Proof. unfold Rmax. destruct (decide _), (Rle_dec _ _); lra. Qed.

Lemma pick_min (t t1 : R) : (if decide (t < t1) then t else t1) = Rmin t1 t.
Proof. unfold Rmin. destruct (decide _), (Rle_dec _ _); lra. Qed.

Lemma axis_pos (lo hi p d t : R) :
  d > 0 → (lo <= p + t * d <= hi ↔ (lo - p) / d <= t ∧ t <= (hi - p) / d).
Proof.
  intros Hd.
  assert ((lo - p) / d * d = lo - p) as Ha by (field; lra).
  assert ((hi - p) / d * d = hi - p) as Hb by (field; lra).
  set (a := (lo - p) / d) in *. set (b := (hi - p) / d) in *.
  split; intros [H1 H2]; split; nra.
Qed.

Lemma axis_neg (lo hi p d t : R) :
  d < 0 → (lo <= p + t * d <= hi ↔ (hi - p) / d <= t ∧ t <= (lo - p) / d).
Proof.
  intros Hd.
  assert ((lo - p) / d * d = lo - p) as Ha by (field; lra).
  assert ((hi - p) / d * d = hi - p) as Hb by (field; lra).
  set (a := (lo - p) / d) in *. set (b := (hi - p) / d) in *.
  split; intros [H1 H2]; split; nra.
Qed.

Lemma between_lt (t a b c : R) :
  0 <= t <= 1 → a < c → b < c → a + t * (b - a) < c.
Proof.
  intros Ht Ha Hb.
  assert (0 <= (1 - t) * (c - a)) by (apply Rmult_le_pos; lra).
  assert (0 <= t * (c - b)) by (apply Rmult_le_pos; lra).
  destruct (Rle_dec t (1 / 2)).
  - assert ((1 / 2) * (c - a) <= (1 - t) * (c - a)) by (apply Rmult_le_compat_r; lra). lra.
  - assert ((1 / 2) * (c - b) <= t * (c - b)) by (apply Rmult_le_compat_r; lra). lra.
Qed.

Lemma between_gt (t a b c : R) :
  0 <= t <= 1 → a > c → b > c → a + t * (b - a) > c.
Proof.
  intros Ht Ha Hb.
  pose proof (between_lt t (- a) (- b) (- c) Ht). lra.
Qed.


(** ** The angle at a vertex *)

(** Cauchy-Schwarz in the plane, for the normalised dot product. *)
Lemma normalised_dot_bound (ax ay bx by_ : R) :
  sqrt (ax * ax + ay * ay) ≠ 0 → sqrt (bx * bx + by_ * by_) ≠ 0 →
  -1 <= (ax * bx + ay * by_) / (sqrt (ax * ax + ay * ay) * sqrt (bx * bx + by_ * by_)) <= 1.
Proof.
  intros Ha Hb.
  set (ma := sqrt (ax * ax + ay * ay)) in *. set (mb := sqrt (bx * bx + by_ * by_)) in *.
  assert (0 <= ax * ax + ay * ay) as Hqa by nra.
  assert (0 <= bx * bx + by_ * by_) as Hqb by nra.
  assert (0 < ma) as Hma by (pose proof (sqrt_pos (ax * ax + ay * ay)); fold ma in H; lra).
  assert (0 < mb) as Hmb by (pose proof (sqrt_pos (bx * bx + by_ * by_)); fold mb in H; lra).
  assert (ma * ma = ax * ax + ay * ay) as Hsa by (apply sqrt_sqrt; lra).
  assert (mb * mb = bx * bx + by_ * by_) as Hsb by (apply sqrt_sqrt; lra).
  assert (0 < ma * mb) as Hm by (apply Rmult_lt_0_compat; lra).
  set (d := ax * bx + ay * by_).
  assert (d * d <= (ma * mb) * (ma * mb)) as Hcs.
  { replace (ma * mb * (ma * mb)) with ((ma * ma) * (mb * mb)) by ring.
    rewrite Hsa, Hsb. unfold d.
    pose proof (Rle_0_sqr (ax * by_ - ay * bx)) as Hsq. unfold Rsqr in Hsq.
    replace ((ax * ax + ay * ay) * (bx * bx + by_ * by_))
      with ((ax * bx + ay * by_) * (ax * bx + ay * by_) +
            (ax * by_ - ay * bx) * (ax * by_ - ay * bx)) by ring.
    lra. }
  assert (- (ma * mb) <= d <= ma * mb) as Hd by nra.
  split.
  - apply Rmult_le_reg_r with (r := ma * mb); [lra|].
    unfold Rdiv. rewrite Rmult_assoc, Rinv_l by lra. lra.
  - apply Rmult_le_reg_r with (r := ma * mb); [lra|].
    unfold Rdiv. rewrite Rmult_assoc, Rinv_l by lra. lra.
Qed.

(** X2: for an index of the ring, the angle at the vertex lies between 0 and
    180 degrees, and it is 180 when an adjacent edge has length zero. *)
Theorem calculateVertexAngle_spec (vertices : list Vertex) (index : nat) :
  (index < length vertices)%nat →
  let prev := vertices !!! ringPrev (length vertices) index in
  let curr := vertices !!! index in
  let next := vertices !!! ringNext (length vertices) index in
  let v1x := lon prev - lon curr in
  let v1y := lat prev - lat curr in
  let v2x := lon next - lon curr in
  let v2y := lat next - lat curr in
  let mag1 := sqrt (v1x * v1x + v1y * v1y) in
  let mag2 := sqrt (v2x * v2x + v2y * v2y) in
  0 <= calculateVertexAngle vertices index <= 180 ∧
  (mag1 = 0 ∨ mag2 = 0 → calculateVertexAngle vertices index = 180).
Proof.
  pose proof PI_RGT_0 as Hpi.
  intros Hi prev curr next v1x v1y v2x v2y mag1 mag2.
  split.
  - split; [|apply calculateVertexAngle_le_180].
    unfold calculateVertexAngle. destruct (decide _); [lra|].
    match goal with |- 0 <= acos ?x * _ => pose proof (acos_bound x) as [Hb _] end.
    apply Rmult_le_pos; [done|]. apply Rlt_le, Rdiv_lt_0_compat; lra.
  - unfold calculateVertexAngle.
    destruct (ring_reads_in_range _ _ Hi) as (-> & -> & _ & _).
    fold prev curr next v1x v1y v2x v2y mag1 mag2.
    intros H. by rewrite decide_True.
Qed.

Lemma calculateVertexAngle_spec_witness :
  0 <= calculateVertexAngle squareRing 0 <= 180 ∧
  calculateVertexAngle [mkVertex 0 0; mkVertex 0 0; mkVertex 0.2 0.2] 0 = 180.
Proof.
  split.
  - apply (calculateVertexAngle_spec squareRing 0). simpl. lia.
  - apply (calculateVertexAngle_spec [mkVertex 0 0; mkVertex 0 0; mkVertex 0.2 0.2] 0).
    + simpl. lia.
    + right. simpl. replace ((0 - 0) * (0 - 0) + (0 - 0) * (0 - 0)) with 0 by lra.
      apply sqrt_0.
Defined.

(** ** What the selection pass produces *)

Lemma vertexData_inBounds bounds vertices vd :
  vd ∈ vertexData bounds vertices →
  vd_inBounds vd = contains bounds (L_latLng (lat (vd_vertex vd)) (lon (vd_vertex vd))).
Proof.
  intros Hin. apply list_elem_of_lookup in Hin as [i Hi].
  unfold vertexData in Hi. rewrite list_lookup_imap in Hi.
  destruct (vertices !! i) as [v|] eqn:Hv; simpl in Hi; [|done].
  by inversion Hi.
Qed.

(** The vertices of a ring for which the pass may create a label: in view
    and not too shallow. *)
Lemma selectRing_Forall_visible (P : Label → Prop) ownOnly saved cfg m pid vertices sel :
  (∀ mpp cLat cLon index,
     (index < length vertices)%nat →
     contains (getBounds m)
       (L_latLng (lat (vertices !!! index)) (lon (vertices !!! index))) = true →
     ¬ calculateVertexAngle vertices index > 180 - minVertexAngle cfg →
     P (newLabel saved cfg mpp pid vertices cLat cLon (vertices !!! index) index)) →
  Forall P sel.1 →
  Forall P (selectRing ownOnly saved cfg m pid vertices sel).1.
Proof.
  intros Hnew HP. unfold selectRing. destruct (decide _); [done|].
  apply (foldl_invariant (λ s, Forall P s.1)); [|done].
  intros a vd Hvd Ha. apply selectVertex_Forall; [|done].
  intros [Hb Hang]. rewrite (vertexData_inBounds _ _ _ Hvd) in Hb.
  apply vertexData_spec in Hvd as (Hlt & Hv & Hangle).
  rewrite Hv in Hb |- *. apply Hnew; [done|done|]. by rewrite <- Hangle.
Qed.

Lemma newLabel_labelOf saved cfg mpp polygon ring cLat cLon index :
  (index < length ring)%nat →
  labelOf polygon ring (newLabel saved cfg mpp (id polygon) ring cLat cLon (ring !!! index) index).
Proof.
  intros Hi. unfold labelOf, newLabel. destruct (saved !! _); [done|].
  destruct (decide _); done.
Qed.

(** X3: every label that [updateAllLabels] leaves belongs to a vertex of the
    hull of one of the polygons passed; that vertex is in the viewport and
    passes the angle filter, and the label is flagged exactly when its key
    has a saved position. *)
Theorem updateAllLabels_sound (polygons : list Polygon) (lm : LabelManager) :
  Forall (λ l, ∃ polygon vertices,
            polygon ∈ polygons ∧ hull polygon = Some vertices ∧
            labelOf polygon vertices l ∧
            contains (getBounds (the_map lm)) (vertexLatLng l) = true ∧
            ¬ calculateVertexAngle vertices (vertexIndex l)
                > 180 - minVertexAngle (settings lm) ∧
            (manuallyPositioned l = true ↔ is_Some (savePositions lm !! key l)))
         (labels (updateAllLabels polygons lm)).
Proof.
  rewrite updateAllLabels_labels.
  apply (foldl_invariant (λ s, Forall _ s.1)); [|by constructor].
  intros a polygon Hin Ha. unfold selectPolygon.
  destruct (hull polygon) as [vertices|] eqn:Hh; [|done].
  destruct (decide _); [done|].
  apply selectRing_Forall_visible; [|done].
  intros mpp cLat cLon index Hi Hb Hang.
  pose proof (newLabel_labelOf (savePositions lm) (settings lm) mpp polygon vertices
                cLat cLon index Hi) as Hl.
  exists polygon, vertices. split; [done|]. split; [done|]. split; [done|].
  destruct Hl as (_ & _ & Hk & _ & Hv & _).
  rewrite newLabel_vertexIndex. rewrite Hv, newLabel_vertexIndex.
  split; [done|]. split; [done|].
  rewrite newLabel_key. unfold newLabel.
  destruct (savePositions lm !! _) as [p|]; simpl.
  - split; eauto.
  - destruct (decide _); simpl; (split; [done|by intros [? ?]]).
Qed.

(** ** Keys of the labels *)

(** The loop body leaves the labels as they are, or removes at most one
    and adds the label of its vertex. *)
Lemma selectVertex_labels ownOnly saved cfg mpp pid ring cLat cLon ls lvs vd :
  let ls' := (selectVertex ownOnly saved cfg mpp pid ring cLat cLon (ls, lvs) vd).1 in
  ls' = ls ∨
  ∃ ls0, ls0 `sublist_of` ls ∧
         ls' = ls0 ++ [newLabel saved cfg mpp pid ring cLat cLon (vd_vertex vd) (vd_index vd)].
Proof.
  intros ls'. unfold ls'.
  destruct (decide (passesFilters cfg vd)) as [Hp|Hp];
    [|left; by rewrite selectVertex_skip].
  destruct (list_find (isClose cfg mpp (vd_vertex vd)) lvs) as [[k c]|] eqn:Hf.
  - destruct (decide (vd_angle vd < lv_angle c)).
    + right. erewrite selectVertex_evict by done. simpl.
      destruct (list_find _ ls) as [[j ?]|]; eexists; (split; [|done]).
      * apply sublist_delete.
      * done.
    + left. by erewrite selectVertex_reject.
  - right. rewrite selectVertex_accept by done. by exists ls.
Qed.

Lemma selectVertex_keys_NoDup ownOnly saved cfg mpp pid ring cLat cLon vds :
  NoDup (vd_index <$> vds) →
  ∀ ls lvs,
    NoDup (key <$> ls) →
    (∀ vd, vd ∈ vds → (pid, vd_index vd) ∉ key <$> ls) →
    NoDup (key <$> (foldl (selectVertex ownOnly saved cfg mpp pid ring cLat cLon)
                          (ls, lvs) vds).1).
Proof.
  induction vds as [|vd vds IH]; intros Hnd ls lvs Hls Hfresh; simpl; [done|].
  rewrite fmap_cons in Hnd. apply NoDup_cons in Hnd as [Hvd Hnd].
  destruct (selectVertex ownOnly saved cfg mpp pid ring cLat cLon (ls, lvs) vd)
    as [ls' lvs'] eqn:Hsel.
  pose proof (selectVertex_labels ownOnly saved cfg mpp pid ring cLat cLon ls lvs vd) as Hl.
  rewrite Hsel in Hl. simpl in Hl.
  apply IH; [done|..].
  - destruct Hl as [->|(ls0 & Hsub & ->)]; [done|].
    rewrite fmap_app. simpl. rewrite newLabel_key.
    apply NoDup_app. split; [|split].
    + eapply sublist_NoDup; [exact Hls|]. by apply fmap_sublist.
    + intros k Hk Hk'. apply list_elem_of_singleton in Hk'. subst k.
      apply (Hfresh vd); [by left|].
      eapply elem_of_sublist; [exact Hk|]. by apply fmap_sublist.
    + apply NoDup_singleton.
  - intros vd' Hvd'.
    destruct Hl as [->|(ls0 & Hsub & ->)]; [apply Hfresh; by right|].
    rewrite fmap_app. simpl. rewrite newLabel_key.
    intros Hin. apply elem_of_app in Hin as [Hin|Hin].
    + apply (Hfresh vd'); [by right|].
      eapply elem_of_sublist; [exact Hin|]. by apply fmap_sublist.
    + apply list_elem_of_singleton in Hin. inversion Hin as [Heq].
      apply Hvd. rewrite <- Heq. by apply list_elem_of_fmap_2.
Qed.

Lemma vertexData_indices bounds vertices :
  vd_index <$> vertexData bounds vertices = seq 0 (length vertices).
Proof.
  rewrite (fmap_vertexData _ _ _ (λ i, i)); [by rewrite list_fmap_id|done].
Qed.

Lemma selectPolygon_keys saved cfg m polygon (done_ids : list PolygonId) sel :
  id polygon ∉ done_ids →
  NoDup (key <$> sel.1) ∧ Forall (λ l, (key l).1 ∈ done_ids) sel.1 →
  NoDup (key <$> (selectPolygon saved cfg m sel polygon).1) ∧
  Forall (λ l, (key l).1 ∈ id polygon :: done_ids) (selectPolygon saved cfg m sel polygon).1.
Proof.
  intros Hnew [Hnd Hids]. split.
  - unfold selectPolygon. destruct (hull polygon) as [vertices|]; [|done].
    destruct (decide _); [done|]. unfold selectRing. destruct (decide _); [done|].
    destruct sel as [ls lvs]. apply selectVertex_keys_NoDup; [|done|].
    + rewrite vertexData_indices. apply NoDup_seq.
    + intros vd _ Hin. apply list_elem_of_fmap in Hin as (l & Hk & Hl).
      rewrite Forall_forall in Hids. apply Hnew.
      specialize (Hids l Hl). by rewrite <- Hk in Hids.
  - apply selectPolygon_Forall.
    + intros. rewrite newLabel_key. by left.
    + eapply Forall_impl; [exact Hids|]. intros l Hl. by right.
Qed.

Lemma foldl_selectPolygon_keys saved cfg m polygons :
  ∀ done_ids sel,
    NoDup (done_ids ++ (id <$> polygons)) →
    NoDup (key <$> sel.1) ∧ Forall (λ l, (key l).1 ∈ done_ids) sel.1 →
    NoDup (key <$> (foldl (selectPolygon saved cfg m) sel polygons).1).
Proof.
  induction polygons as [|polygon polygons IH]; intros done_ids sel Hnd Hsel; simpl;
    [by destruct Hsel|].
  rewrite fmap_cons in Hnd.
  apply (IH (id polygon :: done_ids)).
  - apply NoDup_app in Hnd as (H1 & H2 & H3). apply NoDup_cons in H3 as [H3 H4].
    simpl. apply NoDup_cons. split.
    + intros Hin. apply elem_of_app in Hin as [Hin|Hin]; [|done].
      apply (H2 _ Hin). by left.
    + apply NoDup_app. split; [done|]. split; [|done].
      intros x Hx Hx'. apply (H2 _ Hx). by right.
  - apply selectPolygon_keys; [|done].
    apply NoDup_app in Hnd as (_ & H2 & _). intros Hin. apply (H2 _ Hin). by left.
Qed.

(** X4: polygons with pairwise distinct ids get labels with pairwise
    distinct keys. *)
Theorem updateAllLabels_keys_NoDup (polygons : list Polygon) (lm : LabelManager) :
  NoDup (id <$> polygons) →
  NoDup (key <$> labels (updateAllLabels polygons lm)).
Proof.
  intros Hnd. rewrite updateAllLabels_labels.
  apply (foldl_selectPolygon_keys _ _ _ polygons []); [done|].
  split; [apply NoDup_nil_2|constructor].
Qed.

Lemma updateAllLabels_keys_NoDup_witness :
  NoDup (key <$> labels (updateAllLabels [cornerSquarePolygon; smallTrianglePolygon]
                           (idleManager defaultSettings [] ∅))).
Proof.
  apply updateAllLabels_keys_NoDup. simpl.
  apply NoDup_cons. split; [|apply NoDup_singleton].
  intros Hin. apply list_elem_of_singleton in Hin. discriminate Hin.
Defined.

(** ** [setLabels] and the labels of other polygons *)

Lemma filter_delete_other {A : Type} (P : A → Prop) `{!∀ x, Decision (P x)}
    (l : list A) (j : nat) (x : A) :
  l !! j = Some x → ¬ P x → filter P (delete j l) = filter P l.
Proof.
  revert j. induction l as [|y l IH]; intros j Hj Hx; [done|].
  destruct j as [|j]; simpl in *.
  - inversion Hj; subst. by rewrite filter_cons_False.
  - rewrite !filter_cons. rewrite (IH j) by done. done.
Qed.

Lemma selectVertex_others (pid : PolygonId) saved cfg mpp ring cLat cLon ls lvs vd :
  filter (λ l, polygonId l ≠ pid)
    (selectVertex true saved cfg mpp pid ring cLat cLon (ls, lvs) vd).1
  = filter (λ l, polygonId l ≠ pid) ls.
Proof.
  destruct (decide (passesFilters cfg vd)) as [Hp|Hp];
    [|by rewrite selectVertex_skip].
  assert (∀ k : list Label,
            filter (λ l, polygonId l ≠ pid)
              (k ++ [newLabel saved cfg mpp pid ring cLat cLon (vd_vertex vd) (vd_index vd)])
            = filter (λ l, polygonId l ≠ pid) k) as Hnew.
  { intros k. rewrite filter_app, filter_cons_False, filter_nil, app_nil_r; [done|].
    rewrite newLabel_polygonId. by intros H. }
  destruct (list_find (isClose cfg mpp (vd_vertex vd)) lvs) as [[k c]|] eqn:Hf.
  - destruct (decide (vd_angle vd < lv_angle c)).
    + erewrite selectVertex_evict by done. cbn [fst]. rewrite Hnew.
      destruct (list_find _ ls) as [[j x]|] eqn:Hl; [|done].
      apply list_find_Some in Hl as (Hj & (Hx & _) & _).
      apply (filter_delete_other _ _ _ _ Hj). simpl in Hx. by intros H.
    + by erewrite selectVertex_reject.
  - rewrite selectVertex_accept by done. cbn [fst]. apply Hnew.
Qed.

Lemma selectRing_others (pid : PolygonId) saved cfg m vertices sel :
  filter (λ l, polygonId l ≠ pid) (selectRing true saved cfg m pid vertices sel).1
  = filter (λ l, polygonId l ≠ pid) sel.1.
Proof.
  unfold selectRing. destruct (decide _); [done|].
  apply (foldl_invariant
           (λ s, filter (λ l, polygonId l ≠ pid) s.1 = filter (λ l, polygonId l ≠ pid) sel.1));
    [|done].
  intros [ls lvs] vd _ Ha. by rewrite selectVertex_others.
Qed.

Lemma filter_filter_same {A : Type} (P : A → Prop) `{!∀ x, Decision (P x)} (l : list A) :
  filter P (filter P l) = filter P l.
Proof.
  induction l as [|x l IH]; [done|].
  rewrite (filter_cons P x l). destruct (decide (P x)); [|done].
  rewrite filter_cons_True by done. by rewrite IH.
Qed.

(** X5: [setLabels] leaves the labels of the other polygons as they are, in
    their order; the labels of its own polygon are new labels of in-view
    vertices of the ring passed, none of them flagged. *)
Theorem setLabels_frame (pid : PolygonId) (vertices : option (list Vertex)) (lm : LabelManager) :
  filter (λ l, polygonId l ≠ pid) (labels (setLabels pid vertices lm))
  = filter (λ l, polygonId l ≠ pid) (labels lm) ∧
  Forall (λ l, ∃ vs, vertices = Some vs ∧ polygonVertices l = vs ∧
                     (vertexIndex l < length vs)%nat ∧ manuallyPositioned l = false ∧
                     contains (getBounds (the_map lm)) (vertexLatLng l) = true)
         (filter (λ l, polygonId l = pid) (labels (setLabels pid vertices lm))).
Proof.
  split.
  - destruct vertices as [vs|].
    + rewrite setLabels_labels, selectRing_others. cbn [fst]. apply filter_filter_same.
    + rewrite setLabels_labels_None. apply filter_filter_same.
  - enough (H : Forall (λ l, polygonId l = pid →
                   ∃ vs, vertices = Some vs ∧ polygonVertices l = vs ∧
                     (vertexIndex l < length vs)%nat ∧ manuallyPositioned l = false ∧
                     contains (getBounds (the_map lm)) (vertexLatLng l) = true)
                 (labels (setLabels pid vertices lm))).
    { apply Forall_forall. intros l Hl. apply list_elem_of_filter in Hl as [Hpid Hl].
      rewrite Forall_forall in H. by apply H. }
    destruct vertices as [vs|].
    + rewrite setLabels_labels. apply selectRing_Forall_visible.
      * intros mpp cLat cLon index Hi Hb Hang _. exists vs.
        destruct (newLabel_unsaved (settings lm) mpp pid vs cLat cLon (vs !!! index) index)
          as (Hm & _ & _).
        rewrite newLabel_polygonVertices, newLabel_vertexIndex, newLabel_vertexLatLng.
        done.
      * cbn [fst]. apply Forall_forall. intros l Hl Hpid.
        apply list_elem_of_filter in Hl as [Hne _]. done.
    + rewrite setLabels_labels_None. apply Forall_forall. intros l Hl Hpid.
      apply list_elem_of_filter in Hl as [Hne _]. done.
Qed.

(** ** Labels stay in the viewport *)

(** X6: after a step, a label that is not manually positioned is not south
    or west of its padded viewport box, and not north or east of it when the
    box is not empty in that direction. *)
Theorem simulateStep_in_viewport (lm : LabelManager) (i : nat) (l' : Label) :
  let mpp := stepScale (the_map lm) in
  let bounds := getBounds (the_map lm) in
  labels (simulateStep lm).1 !! i = Some l' →
  manuallyPositioned l' = false →
  (paddedSouth mpp bounds l' <= LatLng.lat (labelLatLng l') ∧
   paddedWest mpp bounds l' <= LatLng.lng (labelLatLng l')) ∧
  (paddedSouth mpp bounds l' <= paddedNorth mpp bounds l' →
   LatLng.lat (labelLatLng l') <= paddedNorth mpp bounds l') ∧
  (paddedWest mpp bounds l' <= paddedEast mpp bounds l' →
   LatLng.lng (labelLatLng l') <= paddedEast mpp bounds l').
Proof.
  intros mpp bounds Hi Hm. rewrite simulateStep_labels in Hi.
  apply integrateFrom_lookup in Hi as (l & force & j & tr0 & _ & Hl).
  destruct (integrateLabel_cases Rdiv (settings lm) mpp bounds force j l tr0)
    as [[Hl1 E]|[Hl1 _]].
  { fold mpp bounds in Hl. rewrite E in Hl. simpl in Hl. congruence. }
  destruct (integrateLabel_position (settings lm) mpp bounds force j l tr0 Hl1)
    as (newLat & newLng & tr' & E & _).
  fold mpp bounds in Hl. rewrite E in Hl. simpl in Hl. subst l'.
  unfold paddedSouth, paddedNorth, paddedWest, paddedEast. simpl.
  split; [split; apply Rmax_l|].
  split; intros H; apply Rmax_lub; (lra || apply Rmin_l).
Qed.

Lemma simulateStep_in_viewport_witness :
  ∃ l', labels (simulateStep (idleManager defaultSettings [draggedLabel false] ∅)).1 !! 0%nat
        = Some l' ∧
        LatLng.lat (labelLatLng l')
        <= paddedNorth (stepScale exampleMap) (getBounds exampleMap) l'.
Proof.
  destruct (simulateStep_lookup (idleManager defaultSettings [draggedLabel false] ∅)
              0 (draggedLabel false) eq_refl)
    as (l' & Hl' & Hk & Hp & Hi & Ha & Ht & Hw & Hh & Hr & Hm).
  exists l'. split; [done|].
  apply (simulateStep_in_viewport (idleManager defaultSettings [draggedLabel false] ∅) 0 l').
  - done.
  - by rewrite Hm.
  - unfold paddedSouth, paddedNorth, pixelsToDegrees.
    rewrite Hh. simpl the_map. rewrite stepScale_exampleMap. simpl. lra.
Defined.

(** ** Managers whose labels were all placed by hand *)

Lemma integrateFrom_all_manual div cfg mpp bounds forces (ls : list Label) :
  Forall (λ l, manuallyPositioned l = true) ls →
  ∀ i tr, integrateFrom div cfg mpp bounds forces i ls tr = (ls, tr).
Proof.
  induction 1 as [|l ls Hl _ IH]; intros i tr; simpl; [done|].
  unfold integrateLabel at 1. destruct tr as [[vel prev] energy].
  rewrite Hl. by rewrite IH.
Qed.

Lemma simulateStep_all_manual (lm : LabelManager) :
  Forall (λ l, manuallyPositioned l = true) (labels lm) →
  simulateStep lm = (log EvSimulateStep lm, 0).
Proof.
  intros Hall. unfold simulateStep, simulateStepWith.
  cbn [labels velocities previousPositions settings the_map log].
  rewrite integrateFrom_all_manual by done.
  by destruct lm.
Qed.

Lemma stepBatch_all_manual (k : nat) :
  ∀ (lm : LabelManager) (n : nat) (e : R),
    Forall (λ l, manuallyPositioned l = true) (labels lm) →
    ∃ lm', stepBatch k lm n e = (lm', Nat.min (n + k) (Nat.max n (iterations (settings lm))), e)
           ∧ labels lm' = labels lm ∧ settings lm' = settings lm
           ∧ velocities lm' = velocities lm ∧ previousPositions lm' = previousPositions lm.
Proof.
  induction k as [|k IH]; intros lm n e Hall; simpl.
  - exists lm. split; [f_equal; f_equal; lia|done].
  - destruct (decide _) as [Hlt|Hge].
    + rewrite simulateStep_all_manual by done.
      destruct (IH (log EvSimulateStep lm) (S n) (e + 0) Hall) as (lm' & -> & H1 & H2 & H3 & H4).
      cbn [settings labels velocities previousPositions log] in *.
      exists lm'. split; [|done]. f_equal; [f_equal; lia|lra].
    + exists lm. split; [f_equal; f_equal; lia|done].
Qed.

(** One tick of a run on such a manager: three steps, no energy. *)
Lemma all_manual_tick polys pe (k : nat) (lm : LabelManager) :
  Forall (λ l, manuallyPositioned l = true) (labels lm) →
  (k < stableThreshold)%nat →
  (3 * stableThreshold <= iterations (settings lm))%nat →
  rafQueue lm = [mkRun (3 * k) pe k polys] →
  ∃ pe', rafQueue (animationFrame lm) = [mkRun (3 * S k) pe' (S k) polys] ∧
         labels (animationFrame lm) = labels lm ∧
         settings (animationFrame lm) = settings lm ∧
         isSimulating (animationFrame lm) = isSimulating lm ∧
         countSteps (trace (animationFrame lm)) = (countSteps (trace lm) + 3)%nat.
Proof.
  intros Hall Hk Hit Hq. unfold animationFrame. rewrite Hq. cbn [foldl].
  set (lm0 := set_rafQueue [] lm).
  unfold animate. cbn [iterationCount stableCount previousEnergy polygonsForNames].
  unfold stableThreshold in *.
  rewrite decide_True by (cbn [settings lm0 set_rafQueue]; lia).
  destruct (stepBatch_all_manual stepsPerFrame lm0 (3 * k) 0 Hall)
    as (lm' & Hb & Hl & Hs & _).
  pose proof (stepBatch_spec stepsPerFrame lm0 (3 * k) 0) as (_ & Hq' & Hsim & _ & _ & Htr & _).
  assert (Nat.min (3 * k + stepsPerFrame)
            (Nat.max (3 * k) (iterations (settings lm0))) = (3 * S k)%nat) as Hn
    by (cbn [settings lm0 set_rafQueue]; unfold stepsPerFrame; lia).
  rewrite Hn in Hb.
  rewrite Hb in Hq', Hsim, Htr |- *. cbn [fst snd] in Hq', Hsim, Htr.
  cbn [settings lm0 set_rafQueue] in Hs.
  assert (bool_decide (0 / INR stepsPerFrame < 0.0001) = true) as He.
  { apply bool_decide_eq_true. unfold Rdiv. rewrite Rmult_0_l. lra. }
  rewrite He. cbn [orb].
  eexists. unfold requestAnimationFrame, renderLabels.
  cbn [rafQueue labels settings isSimulating trace set_rafQueue log].
  rewrite Hq'. cbn [rafQueue lm0 set_rafQueue app].
  split; [reflexivity|]. split; [done|]. split; [done|]. split; [done|].
  unfold countSteps in *. rewrite filter_cons_False by done.
  cbn [trace lm0 set_rafQueue] in Htr. rewrite Htr. lia.
Qed.

Lemma all_manual_ticks polys (n : nat) :
  ∀ lm pe,
    Forall (λ l, manuallyPositioned l = true) (labels lm) →
    (n <= stableThreshold)%nat →
    (3 * stableThreshold <= iterations (settings lm))%nat →
    rafQueue lm = [mkRun 0 pe 0 polys] →
    let lm' := Nat.iter n animationFrame lm in
    ∃ pe', rafQueue lm' = [mkRun (3 * n) pe' n polys] ∧
           labels lm' = labels lm ∧ settings lm' = settings lm ∧
           isSimulating lm' = isSimulating lm ∧
           countSteps (trace lm') = (countSteps (trace lm) + 3 * n)%nat.
Proof.
  induction n as [|n IH]; intros lm pe Hall Hn Hit Hq;
    [|change (Nat.iter (S n) animationFrame lm)
        with (animationFrame (Nat.iter n animationFrame lm))]; cbv zeta.
  - exists pe. repeat split; try done; lia.
  - destruct (IH lm pe Hall) as (pe' & Hq' & Hl & Hs & Hsim & Htr); [lia|done|done|].
    destruct (all_manual_tick polys pe' n (Nat.iter n animationFrame lm))
      as (pe'' & H1 & H2 & H3 & H4 & H5); [by rewrite Hl|lia|by rewrite Hs|done|].
    exists pe''. split; [done|]. split; [congruence|]. split; [congruence|].
    split; [congruence|]. rewrite H5, Htr. lia.
Qed.

(** X7: the run that [startSimulation] starts on such a manager (a manager
    without labels is one) runs ten ticks of three steps, none of which
    moves a label, and ends on the eleventh frame. *)
Theorem all_manual_run_converges (polys : option (list Polygon)) (lm : LabelManager) :
  Forall (λ l, manuallyPositioned l = true) (labels lm) →
  isSimulating lm = false → rafQueue lm = [] →
  (3 * stableThreshold <= iterations (settings lm))%nat →
  let ended := Nat.iter (S stableThreshold) animationFrame (startSimulation polys lm) in
  rafQueue ended = [] ∧ isSimulating ended = false ∧
  labels ended = labels lm ∧
  countSteps (trace ended) = (countSteps (trace lm) + 3 * stableThreshold)%nat.
Proof.
  intros Hall Hsim Hq Hit ended.
  set (started := startSimulation polys lm).
  assert (rafQueue started = [mkRun 0 None 0 polys] ∧ labels started = labels lm ∧
          settings started = settings lm ∧ trace started = trace lm) as (Hq0 & Hl0 & Hs0 & Ht0).
  { unfold started, startSimulation. rewrite Hsim. simpl. by rewrite Hq. }
  destruct (all_manual_ticks polys stableThreshold started None)
    as (pe & Hq1 & Hl1 & Hs1 & _ & Htr1); [by rewrite Hl0|done|by rewrite Hs0|done|].
  set (lm1 := Nat.iter stableThreshold animationFrame started) in *.
  assert (ended = animationFrame lm1) as -> by reflexivity.
  unfold animationFrame. rewrite Hq1. cbn [foldl].
  unfold animate. cbn [iterationCount stableCount polygonsForNames].
  rewrite decide_False by (unfold stableThreshold; lia).
  destruct polys as [ps|], (showDebugFields (set_rafQueue [] lm1)) eqn:Hdbg;
    unfold renderLabels, renderPolygonNames, renderDebugFields;
    cbn [showDebugFields set_isSimulating log set_rafQueue] in Hdbg |- *;
    rewrite Hdbg;
    cbn [rafQueue isSimulating labels trace set_isSimulating log set_rafQueue];
    (split; [done|]; split; [done|]; split; [congruence|]);
    unfold countSteps in *; rewrite ?filter_cons_False by done;
    rewrite Htr1, Ht0; done.
Qed.

Lemma all_manual_run_converges_witness :
  let lm := idleManager defaultSettings [draggedLabel true] ∅ in
  let ended := Nat.iter 11 animationFrame (startSimulation None lm) in
  rafQueue ended = [] ∧ isSimulating ended = false ∧
  labels ended = [draggedLabel true] ∧
  countSteps (trace ended) = 30%nat.
Proof.
  intros lm ended.
  apply (all_manual_run_converges None lm).
  - repeat constructor.
  - reflexivity.
  - reflexivity.
  - simpl. unfold stableThreshold. lia.
Defined.

(** ** A run starts from rest *)

(** The energy that the loop body adds for a label whose previous position
    is recorded, and the entries of [previousPositions] that it leaves. *)
Lemma integrateLabel_energy div cfg mpp bounds force (i : nat) label vel prev e (q : Vertex) :
  manuallyPositioned label = false → prev !! i = Some q →
  let velLat := (LatLng.lat (labelLatLng label) - lat q) * damping cfg in
  let velLng := (LatLng.lng (labelLatLng label) - lon q) * damping cfg in
  ∃ l' vel' prev',
    integrateLabel div cfg mpp bounds force i label (vel, prev, e)
    = (l', (vel', prev', e + (velLat * velLat + velLng * velLng))) ∧
    vel' !! i = Some (mkVertex velLat velLng) ∧
    (∀ k, k ≠ i → prev' !! k = prev !! k).
Proof.
  intros Hm Hq velLat velLng. unfold integrateLabel. rewrite Hm, Hq.
  rewrite (lookup_total_correct prev i q Hq).
  fold velLat velLng.
  repeat match goal with
         | |- context [decide ?P] => destruct (decide P)
         | |- context [match ?x with Some _ => _ | None => _ end] => destruct x
         end;
    (eexists _, _, _; split; [reflexivity|]; split;
     [by rewrite lookup_insert_eq
     |intros k Hk; by rewrite ?lookup_insert_ne by done]).
Qed.

Lemma integrateFrom_at_rest div cfg mpp bounds forces (ls : list Label) :
  ∀ (i : nat) vel prev e,
    (∀ k l, ls !! k = Some l →
            prev !! (i + k)%nat = Some (mkVertex (LatLng.lat (labelLatLng l))
                                                 (LatLng.lng (labelLatLng l)))) →
    (integrateFrom div cfg mpp bounds forces i ls (vel, prev, e)).2.2 = e.
Proof.
  induction ls as [|label rest IH]; intros i vel prev e Hprev; cbn [integrateFrom];
    [done|].
  destruct (manuallyPositioned label) eqn:Hm.
  - unfold integrateLabel at 1. rewrite Hm.
    specialize (IH (S i) vel prev e).
    destruct (integrateFrom _ _ _ _ _ _ _ _) as [rest' tr']. simpl in *.
    apply IH. intros k l Hk. replace (S (i + k)) with (i + S k)%nat by lia.
    by apply Hprev.
  - pose proof (Hprev 0%nat label eq_refl) as H0. rewrite Nat.add_0_r in H0.
    destruct (integrateLabel_energy div cfg mpp bounds (forces !!! i) i label vel prev e _
                Hm H0) as (l' & vel' & prev' & -> & _ & Hother).
    cbn [lat lon] in *.
    match goal with
    | |- context [integrateFrom _ _ _ _ _ _ _ (_, _, ?e')] =>
        specialize (IH (S i) vel' prev' e')
    end.
    destruct (integrateFrom _ _ _ _ _ _ _ _) as [rest' tr']. simpl in *.
    rewrite IH; [lra|].
    intros k l Hk. rewrite Hother by lia.
    replace (S (i + k)) with (i + S k)%nat by lia. by apply Hprev.
Qed.

(** X8: [startSimulation] records the current positions as the previous
    ones, so the first step of the run has kinetic energy 0. *)
Theorem run_starts_from_rest (polys : option (list Polygon)) (lm : LabelManager) :
  isSimulating lm = false →
  (simulateStep (startSimulation polys lm)).2 = 0.
Proof.
  intros Hsim. unfold startSimulation. rewrite Hsim.
  unfold simulateStep, simulateStepWith, requestAnimationFrame.
  cbn [labels velocities previousPositions settings the_map log set_tracking
       set_isSimulating set_rafQueue].
  match goal with
  | |- context [integrateFrom ?d ?c ?m ?b ?f ?i ?l (?v, ?p, ?e)] =>
      pose proof (integrateFrom_at_rest d c m b f l i v p e) as H;
      destruct (integrateFrom d c m b f i l (v, p, e)) as [ls' [[v' p'] e']]
  end.
  simpl in *. apply H. intros k l Hk.
  rewrite lookup_map_seq_0, list_lookup_fmap, Hk. done.
Qed.

Lemma run_starts_from_rest_witness :
  (simulateStep (startSimulation None
                   (idleManager defaultSettings [draggedLabel false] ∅))).2 = 0.
Proof. apply run_starts_from_rest. reflexivity. Defined.

(** ** Rebuilding the labels while a run is in progress *)

(** X9: while a run is in progress, [updateAllLabels] and [setLabels] replace
    labels but start no second run and do not reset the tracking of the
    solver: the queue of animation callbacks, [velocities] and
    [previousPositions] stay as they are. *)
Theorem rebuild_during_run (lm : LabelManager) :
  isSimulating lm = true →
  (∀ polygons,
     let lm' := updateAllLabels polygons lm in
     rafQueue lm' = rafQueue lm ∧ velocities lm' = velocities lm ∧
     previousPositions lm' = previousPositions lm ∧ isSimulating lm' = true) ∧
  (∀ pid vertices,
     (∃ l, l ∈ labels lm ∧ polygonId l ≠ pid) →
     let lm' := setLabels pid (Some vertices) lm in
     rafQueue lm' = rafQueue lm ∧ velocities lm' = velocities lm ∧
     previousPositions lm' = previousPositions lm ∧ isSimulating lm' = true).
Proof.
  intros Hsim. split.
  - intros polygons. unfold updateAllLabels.
    destruct (foldl _ _ polygons) as [ls lvs].
    destruct (decide _); [|done].
    unfold startSimulation. simpl. by rewrite Hsim.
  - intros pid vertices (l & Hl & Hpid).
    assert (removeLabels pid lm
            = set_labels (filter (λ label, polygonId label ≠ pid) (labels lm)) lm) as Hrm.
    { unfold removeLabels. cbn [labels set_labels]. rewrite decide_False; [done|].
      intros Hlen. apply length_zero_iff_nil in Hlen.
      assert (l ∈ filter (λ label, polygonId label ≠ pid) (labels lm)) as Hin
        by (by apply list_elem_of_filter).
      rewrite Hlen in Hin. by apply elem_of_nil in Hin. }
    unfold setLabels. rewrite Hrm.
    destruct (decide _); [done|]. cbn [the_map set_labels].
    destruct (decide _); [done|].
    destruct (selectRing _ _ _ _ _ _ _) as [ls lvs].
    unfold startSimulation. simpl. by rewrite Hsim.
Qed.

Lemma rebuild_during_run_witness :
  let lm := startSimulation None (idleManager defaultSettings [draggedLabel false] ∅) in
  rafQueue (updateAllLabels [squarePolygon] lm) = [mkRun 0 None 0 None] ∧
  isSimulating (updateAllLabels [squarePolygon] lm) = true.
Proof.
  intros lm.
  destruct (proj1 (rebuild_during_run lm eq_refl) [squarePolygon]) as (H1 & _ & _ & H4).
  split; [exact H1|exact H4].
Defined.

(** ** The position of a polygon name *)

Lemma Num_le_refl a : Num_le a a.
Proof.
  destruct a; unfold Num_le; simpl; [|done]. apply bool_decide_eq_false. lra.
Qed.

Lemma Num_le_trans a b c : Num_le a b → Num_le b c → Num_le a c.
Proof.
  unfold Num_le. destruct a, b, c; simpl; try done.
  rewrite !bool_decide_eq_false. lra.
Qed.

Lemma Num_gt_le a b : Num_gt a b = true → Num_le b a.
Proof.
  unfold Num_le. destruct a, b; simpl; try done.
  rewrite bool_decide_eq_true, bool_decide_eq_false. lra.
Qed.

Lemma clearance_nonneg ls c : Num_le (Finite 0) (clearance ls c).
Proof.
  unfold clearance.
  apply (foldl_invariant (λ d, Num_le (Finite 0) d)); [|done].
  intros d l _ Hd. cbv zeta.
  match goal with |- context [sqrt ?x] => pose proof (sqrt_pos x) end.
  destruct d as [r|]; unfold Num_le in *; simpl in *.
  - rewrite bool_decide_eq_false in *. unfold Rmin. destruct (Rle_dec _ _); lra.
  - rewrite bool_decide_eq_false. lra.
Qed.

(** The scan over the candidates keeps the best clearance seen. *)
Lemma best_candidate_scan (ls : list Label) (cs : list Vertex) :
  ∀ best maxClearance,
    Num_le maxClearance (clearance ls best) →
    let r := foldl (λ '(bestPosition, maxClearance) candidate,
                      let minDist := clearance ls candidate in
                      if Num_gt minDist maxClearance then (candidate, minDist)
                      else (bestPosition, maxClearance))
                   (best, maxClearance) cs in
    Num_le maxClearance r.2 ∧ Num_le r.2 (clearance ls r.1) ∧
    (r.1 = best ∨ r.1 ∈ cs) ∧
    ∀ c, c ∈ cs → Num_le (clearance ls c) r.2.
Proof.
  induction cs as [|c cs IH]; intros best maxClearance Hbest; simpl.
  { split; [apply Num_le_refl|]. split; [done|]. split; [by left|].
    intros c Hc. by apply elem_of_nil in Hc. }
  destruct (Num_gt (clearance ls c) maxClearance) eqn:Hgt.
  - destruct (IH c (clearance ls c) (Num_le_refl _)) as (H1 & H2 & H3 & H4).
    split; [eapply Num_le_trans; [by apply Num_gt_le|done]|].
    split; [done|]. split.
    + right. apply elem_of_cons. destruct H3 as [H3|H3]; [left; exact H3|right; exact H3].
    + intros c' Hc'. apply elem_of_cons in Hc' as [->|Hc']; [done|by apply H4].
  - destruct (IH best maxClearance Hbest) as (H1 & H2 & H3 & H4).
    split; [done|]. split; [done|]. split.
    + destruct H3 as [H3|H3]; [left; exact H3|right; apply elem_of_cons; right; exact H3].
    + intros c' Hc'. apply elem_of_cons in Hc' as [->|Hc']; [|by apply H4].
      eapply Num_le_trans; [exact Hgt|done].
Qed.

(** X10: the position that [findPolygonNamePosition] returns is the centroid
    of the hull or one of the candidates checked, and no candidate checked
    is farther from the labels than it is. *)
Theorem findPolygonNamePosition_best (polygon : Polygon) (polygonLabels : list Label)
    (lm : LabelManager) (best : Vertex) :
  findPolygonNamePosition polygon polygonLabels lm = Some best →
  ∃ vertices, hull polygon = Some vertices ∧ vertices ≠ [] ∧
    let cs := candidatesToCheck (the_map lm) (average lat vertices) (average lon vertices) in
    (best = mkVertex (average lat vertices) (average lon vertices) ∨ best ∈ cs) ∧
    ∀ c, c ∈ cs → Num_le (clearance (labels lm) c) (clearance (labels lm) best).
Proof.
  unfold findPolygonNamePosition. destruct (hull polygon) as [vertices|]; [|done].
  destruct (decide _) as [|Hne]; [done|]. cbv zeta.
  pose proof (best_candidate_scan (labels lm)
                (candidatesToCheck (the_map lm) (average lat vertices) (average lon vertices))
                (mkVertex (average lat vertices) (average lon vertices)) (Finite 0)
                (clearance_nonneg _ _)) as H.
  cbv zeta in H.
  destruct (foldl _ _ _) as [b m]. cbn [fst snd] in H.
  destruct H as (_ & H2 & H3 & H4).
  intros [= <-]. exists vertices. split; [done|]. split; [by destruct vertices|].
  split; [done|]. intros c Hc. eapply Num_le_trans; [by apply H4|done].
Qed.

Lemma findPolygonNamePosition_best_witness :
  ∃ best, findPolygonNamePosition squarePolygon [] (idleManager defaultSettings [] ∅)
          = Some best ∧
          (best = mkVertex (average lat squareRing) (average lon squareRing) ∨
           best ∈ candidatesToCheck exampleMap (average lat squareRing) (average lon squareRing)).
Proof.
  assert (∃ b, findPolygonNamePosition squarePolygon [] (idleManager defaultSettings [] ∅)
               = Some b) as [best Hb].
  { unfold findPolygonNamePosition. cbn [hull squarePolygon].
    rewrite decide_False by (simpl; lia). cbv zeta.
    destruct (foldl _ _ _) as [b m]. by exists b. }
  exists best. split; [done|].
  destruct (findPolygonNamePosition_best squarePolygon [] (idleManager defaultSettings [] ∅)
              best Hb) as (vs & Hvs & _ & H & _).
  injection Hvs as <-. exact H.
Defined.

Lemma scan_from_infinity (ls : list Label) (cs : list Vertex) (best : Vertex) :
  foldl (λ '(bestPosition, maxClearance) candidate,
           let minDist := clearance ls candidate in
           if Num_gt minDist maxClearance then (candidate, minDist)
           else (bestPosition, maxClearance))
        (best, Infinity) cs = (best, Infinity).
Proof.
  induction cs as [|c cs IH]; simpl; [done|].
  by destruct (clearance ls c).
Qed.

Lemma scan_without_labels (cs : list Vertex) (best c : Vertex) :
  foldl (λ '(bestPosition, maxClearance) candidate,
           let minDist := clearance [] candidate in
           if Num_gt minDist maxClearance then (candidate, minDist)
           else (bestPosition, maxClearance))
        (best, Finite 0) (c :: cs) = (c, Infinity).
Proof. apply (scan_from_infinity [] cs c). Qed.

Lemma findPolygonNamePosition_None (polygon : Polygon) (polygonLabels : list Label)
    (lm : LabelManager) :
  findPolygonNamePosition polygon polygonLabels lm = None ↔
  hull polygon = None ∨ hull polygon = Some [].
Proof.
  unfold findPolygonNamePosition. destruct (hull polygon) as [vertices|]; [|by split; auto].
  destruct (decide _) as [Hlen|Hlen].
  - split; [|done]. intros _. right. f_equal. by apply length_zero_iff_nil.
  - destruct (foldl _ _ _). split; [done|].
    intros [|[= ->]]; [done|]. simpl in Hlen. done.
Qed.

(** X11: [findPolygonNamePosition] returns [null] exactly when the hull is
    missing or empty; and when there is no label at all it returns the first
    candidate checked, which is the centroid whenever the centroid is in
    view. *)
Theorem findPolygonNamePosition_edges (polygon : Polygon) (polygonLabels : list Label)
    (lm : LabelManager) :
  (findPolygonNamePosition polygon polygonLabels lm = None ↔
   hull polygon = None ∨ hull polygon = Some []) ∧
  (∀ vertices,
     hull polygon = Some vertices → vertices ≠ [] → labels lm = [] →
     findPolygonNamePosition polygon polygonLabels lm
     = head (candidatesToCheck (the_map lm) (average lat vertices) (average lon vertices)) ∧
     (contains (getBounds (the_map lm))
        (L_latLng (average lat vertices) (average lon vertices)) = true →
      findPolygonNamePosition polygon polygonLabels lm
      = Some (mkVertex (average lat vertices) (average lon vertices)))).
Proof.
  split; [apply findPolygonNamePosition_None|].
  - intros vertices Hh Hne Hls.
    assert (∀ c cs,
              candidatesToCheck (the_map lm) (average lat vertices) (average lon vertices)
              = c :: cs →
              findPolygonNamePosition polygon polygonLabels lm = Some c) as Hscan.
    { intros c cs Hcs. unfold findPolygonNamePosition. rewrite Hh.
      rewrite decide_False by (by destruct vertices).
      cbv zeta. rewrite Hcs, Hls. by rewrite scan_without_labels. }
    split.
    + destruct (candidatesToCheck _ _ _) as [|c cs] eqn:Hcs; [|by apply (Hscan c cs)].
      exfalso. unfold candidatesToCheck in Hcs.
      destruct (decide _) as [Hlen|_]; [|done]. rewrite Hcs in Hlen. simpl in Hlen. lia.
    + intros Hvis. unfold candidatesToCheck in Hscan. cbv zeta in Hscan.
      rewrite filter_cons_True in Hscan by done.
      rewrite decide_True in Hscan by (simpl; lia).
      by eapply Hscan.
Qed.

Lemma findPolygonNamePosition_edges_witness :
  findPolygonNamePosition squarePolygon [] (idleManager defaultSettings [] ∅)
  = Some (mkVertex (average lat squareRing) (average lon squareRing)).
Proof.
  apply (proj2 (findPolygonNamePosition_edges squarePolygon []
                  (idleManager defaultSettings [] ∅)) squareRing).
  - reflexivity.
  - done.
  - reflexivity.
  - unfold contains, average. simpl. apply bool_decide_eq_true. lra.
Defined.

(** ** The markers of the polygon names *)

Lemma polygonNameMarkers_fold (lm : LabelManager) (polygons : list Polygon) (pid : PolygonId) :
  ∀ markers : gmap PolygonId Vertex,
    is_Some (foldl (λ markers polygon,
                      let position :=
                        findPolygonNamePosition polygon
                          (filter (λ l, polygonId l = id polygon) (labels lm)) lm in
                      match position, name polygon with
                      | Some position, Some name =>
                          if decide (name = EmptyString) then markers
                          else <[id polygon := position]> markers
                      | _, _ => markers
                      end) markers polygons !! pid) ↔
    is_Some (markers !! pid) ∨
    ∃ polygon, polygon ∈ polygons ∧ id polygon = pid ∧
               (∃ vertices, hull polygon = Some vertices ∧ vertices ≠ []) ∧
               (∃ n, name polygon = Some n ∧ n ≠ EmptyString).
Proof.
  induction polygons as [|polygon polygons IH]; intros markers; simpl.
  { split; [by left|]. intros [H|(p & Hp & _)]; [done|]. by apply elem_of_nil in Hp. }
  rewrite IH. clear IH.
  assert ((∃ p, p ∈ polygon :: polygons ∧ id p = pid ∧
                (∃ vertices, hull p = Some vertices ∧ vertices ≠ []) ∧
                (∃ n, name p = Some n ∧ n ≠ EmptyString)) ↔
          (id polygon = pid ∧
           (∃ vertices, hull polygon = Some vertices ∧ vertices ≠ []) ∧
           (∃ n, name polygon = Some n ∧ n ≠ EmptyString)) ∨
          (∃ p, p ∈ polygons ∧ id p = pid ∧
                (∃ vertices, hull p = Some vertices ∧ vertices ≠ []) ∧
                (∃ n, name p = Some n ∧ n ≠ EmptyString))) as ->.
  { split.
    - intros (p & Hp & H). apply elem_of_cons in Hp as [->|Hp]; [by left|right; eauto].
    - intros [H|(p & Hp & H)]; [exists polygon; split; [by left|done]
                               |exists p; split; [by right|done]]. }
  destruct (findPolygonNamePosition polygon _ lm) as [pos|] eqn:Hpos.
  - assert (∃ vertices, hull polygon = Some vertices ∧ vertices ≠ []) as Hhull.
    { destruct (hull polygon) as [[|v vs]|] eqn:Hh.
      - assert (findPolygonNamePosition polygon
                  (filter (λ l, polygonId l = id polygon) (labels lm)) lm = None) as Hn
          by (apply findPolygonNamePosition_None; by right).
        congruence.
      - by exists (v :: vs).
      - assert (findPolygonNamePosition polygon
                  (filter (λ l, polygonId l = id polygon) (labels lm)) lm = None) as Hn
          by (apply findPolygonNamePosition_None; by left).
        congruence. }
    destruct (name polygon) as [n|] eqn:Hname.
    + destruct (decide (n = EmptyString)) as [Hn|Hn].
      * split; [tauto|]. intros [H|[(_ & _ & n' & [= <-] & Hn')|H]]; tauto.
      * destruct (decide (id polygon = pid)) as [Hid|Hid].
        -- rewrite Hid, lookup_insert_eq. split; [intros _|eauto].
           right. left. split; [done|]. split; [done|]. by exists n.
        -- rewrite lookup_insert_ne by done. tauto.
    + split; [tauto|]. intros [H|[(_ & _ & n' & Hn' & _)|H]]; [tauto|done|tauto].
  - split; [tauto|]. intros [H|[(_ & (vs & Hvs & Hne) & _)|H]]; [tauto| |tauto].
    apply findPolygonNamePosition_None in Hpos as [Hpos|Hpos]; congruence.
Qed.

(** X12: [renderPolygonNames] puts a name marker for a polygon id exactly
    when one of the polygons of that id has a hull that is not empty and a
    name that is not empty. *)
Theorem polygonNameMarkers_dom (polygons : list Polygon) (lm : LabelManager)
    (pid : PolygonId) :
  is_Some (polygonNameMarkers polygons lm !! pid) ↔
  ∃ polygon, polygon ∈ polygons ∧ id polygon = pid ∧
             (∃ vertices, hull polygon = Some vertices ∧ vertices ≠ []) ∧
             (∃ n, name polygon = Some n ∧ n ≠ EmptyString).
Proof.
  unfold polygonNameMarkers. rewrite polygonNameMarkers_fold.
  rewrite lookup_empty. split; [|by right].
  intros [[? ?]|H]; done.
Qed.

(** ** The repulsion between two labels *)

Lemma netForce_addForce (i : nat) (dlat dlon : R) (forces : list Vertex) :
  (i < length forces)%nat →
  lat (netForce (addForce i dlat dlon forces)) = lat (netForce forces) + dlat ∧
  lon (netForce (addForce i dlat dlon forces)) = lon (netForce forces) + dlon.
Proof.
  unfold addForce, netForce, alter.
  revert i. induction forces as [|f forces IH]; intros i Hi; simpl in *; [lia|].
  destruct i as [|i]; simpl.
  - split; lra.
  - destruct (IH i) as [H1 H2]; [lia|]. rewrite H1, H2. split; lra.
Qed.

Lemma length_addForce (i : nat) (dlat dlon : R) (forces : list Vertex) :
  length (addForce i dlat dlon forces) = length forces.
Proof. unfold addForce. apply length_alter. Qed.



(** The overlap test of [simulateStep] on the boxes of two labels, grown by
    5px. *)
Lemma overlap_extent mpp (l1 l2 : Label) :
  let box1 := labelBox Rdiv mpp (p2d Rdiv mpp 5) l1 in
  let box2 := labelBox Rdiv mpp (p2d Rdiv mpp 5) l2 in
  ¬ (right box1 < left box2 ∨ left box1 > right box2 ∨
     top box1 < bottom box2 ∨ bottom box1 > top box2) →
  let dx := LatLng.lng (labelLatLng l2) - LatLng.lng (labelLatLng l1) in
  let dy := LatLng.lat (labelLatLng l2) - LatLng.lat (labelLatLng l1) in
  0 < mpp →
  Rabs dx <= p2d Rdiv mpp (width l1) / 2 + p2d Rdiv mpp (width l2) / 2
             + p2d Rdiv mpp 5 * 2 ∧
  Rabs dy <= p2d Rdiv mpp (height l1) / 2 + p2d Rdiv mpp (height l2) / 2
             + p2d Rdiv mpp 5 * 2.
Proof.
  intros box1 box2 Hov dx dy Hmpp. unfold box1, box2, labelBox in Hov. simpl in Hov.
  unfold dx, dy. split; apply Rabs_le; lra.
Qed.

Lemma sqrt_ge_abs_l (a b : R) : Rabs a <= sqrt (a * a + b * b).
Proof.
  rewrite <- sqrt_Rsqr_abs. apply sqrt_le_1_alt. unfold Rsqr. nra.
Qed.

Lemma sqrt_ge_abs_r (a b : R) : Rabs b <= sqrt (a * a + b * b).
Proof.
  rewrite <- sqrt_Rsqr_abs. apply sqrt_le_1_alt. unfold Rsqr. nra.
Qed.

(** X14: two labels whose boxes overlap are pushed apart: on each axis on
    which the centres differ by more than the epsilon, the push on the
    second label points away from the first (and the first gets the
    opposite). *)
Theorem overlapping_labels_pushed_apart cfg mpp (l1 l2 : Label) :
  let box1 := labelBox Rdiv mpp (p2d Rdiv mpp 5) l1 in
  let box2 := labelBox Rdiv mpp (p2d Rdiv mpp 5) l2 in
  let dx := LatLng.lng (labelLatLng l2) - LatLng.lng (labelLatLng l1) in
  let dy := LatLng.lat (labelLatLng l2) - LatLng.lat (labelLatLng l1) in
  let fx := (overlapPush Rdiv cfg mpp l1 l2).1 in
  let fy := (overlapPush Rdiv cfg mpp l1 l2).2 in
  0 < mpp → 0 < eqLabel cfg →
  ¬ (right box1 < left box2 ∨ left box1 > right box2 ∨
     top box1 < bottom box2 ∨ bottom box1 > top box2) →
  (dx > 0.00001 → 0 < fx) ∧ (dx < -0.00001 → fx < 0) ∧
  (dy > 0.00001 → 0 < fy) ∧ (dy < -0.00001 → fy < 0).
Proof.
  intros box1 box2 dx dy fx fy Hmpp Heq Hov.
  destruct (overlap_extent mpp l1 l2 Hov Hmpp) as [Hx Hy]. fold dx dy in Hx, Hy.
  unfold fx, fy, overlapPush. fold dx dy.
  set (w := p2d Rdiv mpp (width l1) / 2 + p2d Rdiv mpp (width l2) / 2 + p2d Rdiv mpp 5 * 2) in *.
  set (h := p2d Rdiv mpp (height l1) / 2 + p2d Rdiv mpp (height l2) / 2 + p2d Rdiv mpp 5 * 2) in *.
  set (d := sqrt (dx * dx + dy * dy)).
  pose proof (sqrt_ge_abs_l dx dy) as Hdx. pose proof (sqrt_ge_abs_r dx dy) as Hdy.
  fold d in Hdx, Hdy.
  assert (0 < eqLabel cfg / 30) as Hmult by lra.
  assert (0 < p2d Rdiv mpp (eqLabel cfg)) as Hpe.
  { unfold p2d. apply Rdiv_lt_0_compat; [|lra]. by apply Rmult_lt_0_compat. }
  assert (0 <= p2d Rdiv mpp 2) as Hp2.
  { unfold p2d. apply Rmult_le_pos; [nra|]. apply Rlt_le, Rinv_0_lt_compat. lra. }
  assert (∀ s : R, d > 0.00001 → 0 < s → 0 < s / d * (p2d Rdiv mpp (eqLabel cfg) / (d + p2d Rdiv mpp 2)))
    as Hpen.
  { intros s Hd Hs. apply Rmult_lt_0_compat; apply Rdiv_lt_0_compat; lra. }
  assert (∀ s : R, d > 0.00001 → s < 0 → s / d * (p2d Rdiv mpp (eqLabel cfg) / (d + p2d Rdiv mpp 2)) < 0)
    as Hpen'.
  { intros s Hd Hs. pose proof (Hpen (- s) Hd ltac:(lra)) as H.
    replace (- s / d) with (- (s / d)) in H by (field; lra). lra. }
  assert (∀ o : R, 0 <= o → 0 <= o * 0.5 * (eqLabel cfg / 30)) as Hpush.
  { intros o Ho. apply Rmult_le_pos; [lra|lra]. }
  repeat split; intros Hd.
  - assert (Rabs dx = dx) as Ha by (apply Rabs_right; lra). rewrite Ha in *.
    rewrite (decide_True (P := dx > 0.00001)) by done.
    rewrite (decide_True (P := dx > 0)) by lra.
    rewrite (decide_True (P := d > 0.00001)) by lra.
    destruct (decide (Rabs dy > 0.00001)); cbn [fst];
      pose proof (Hpen dx ltac:(lra) ltac:(lra)); pose proof (Hpush (w - dx) ltac:(lra)); lra.
  - assert (Rabs dx = - dx) as Ha by (apply Rabs_left; lra). rewrite Ha in *.
    rewrite (decide_True (P := - dx > 0.00001)) by lra.
    rewrite (decide_False (P := dx > 0)) by lra.
    rewrite (decide_True (P := d > 0.00001)) by lra.
    destruct (decide (Rabs dy > 0.00001)); cbn [fst];
      pose proof (Hpen' dx ltac:(lra) ltac:(lra)); pose proof (Hpush (w - - dx) ltac:(lra)); lra.
  - assert (Rabs dy = dy) as Ha by (apply Rabs_right; lra). rewrite Ha in *.
    rewrite (decide_True (P := dy > 0.00001)) by done.
    rewrite (decide_True (P := dy > 0)) by lra.
    rewrite (decide_True (P := d > 0.00001)) by lra.
    destruct (decide (Rabs dx > 0.00001)); cbn [snd];
      pose proof (Hpen dy ltac:(lra) ltac:(lra)); pose proof (Hpush (h - dy) ltac:(lra)); lra.
  - assert (Rabs dy = - dy) as Ha by (apply Rabs_left; lra). rewrite Ha in *.
    rewrite (decide_True (P := - dy > 0.00001)) by lra.
    rewrite (decide_False (P := dy > 0)) by lra.
    rewrite (decide_True (P := d > 0.00001)) by lra.
    destruct (decide (Rabs dx > 0.00001)); cbn [snd];
      pose proof (Hpen' dy ltac:(lra) ltac:(lra)); pose proof (Hpush (h - - dy) ltac:(lra)); lra.
Qed.

Lemma overlapping_labels_pushed_apart_witness :
  0 < (overlapPush Rdiv defaultSettings (stepScale exampleMap) (draggedLabel false)
         (set_labelLatLng (L_latLng 0.05 (-0.06)) (draggedLabel false))).1.
Proof.
  apply (overlapping_labels_pushed_apart defaultSettings (stepScale exampleMap)
           (draggedLabel false) (set_labelLatLng (L_latLng 0.05 (-0.06)) (draggedLabel false))).
  - apply stepScale_pos.
  - simpl. lra.
  - unfold labelBox, p2d. rewrite stepScale_exampleMap. simpl. lra.
  - simpl. lra.
Defined.

(** ** The polygons of the map manager *)

Lemma NoDup_fmap_filter {A B : Type} (f : A → B) (P : A → Prop) `{!∀ x, Decision (P x)}
    (l : list A) :
  NoDup (f <$> l) → NoDup (f <$> filter P l).
Proof.
  intros Hnd. eapply sublist_NoDup; [exact Hnd|]. apply fmap_sublist, sublist_filter.
Qed.

(** X15: [polygonData] holds one polygon per id.  [addPolygon] keeps that;
    it leaves the polygons of the other ids, puts the new polygon in when
    its hull has three points or more, and otherwise leaves no polygon of
    that id; [removePolygon] leaves none either.  The labels that
    [refreshAllLabels] then builds have pairwise distinct keys. *)
Theorem addPolygon_polygonData (polygon : Polygon) (polygonData : list Polygon) :
  NoDup (id <$> polygonData) →
  NoDup (id <$> addPolygon polygon polygonData) ∧
  NoDup (id <$> removePolygon (id polygon) polygonData) ∧
  (id polygon ∉ (id <$> removePolygon (id polygon) polygonData)) ∧
  (∀ p, id p ≠ id polygon → (p ∈ addPolygon polygon polygonData ↔ p ∈ polygonData)) ∧
  (hasRing polygon → polygon ∈ addPolygon polygon polygonData) ∧
  (¬ hasRing polygon → id polygon ∉ (id <$> addPolygon polygon polygonData)) ∧
  (∀ lm, NoDup (key <$> labels (refreshAllLabels (addPolygon polygon polygonData) lm))).
Proof.
  intros Hnd.
  assert (id polygon ∉ (id <$> filter (λ p, id p ≠ id polygon) polygonData)) as Hfresh.
  { intros Hin. apply list_elem_of_fmap in Hin as (p & Hp & Hin).
    apply list_elem_of_filter in Hin as [Hne _]. by apply Hne. }
  assert (NoDup (id <$> addPolygon polygon polygonData)) as Hnd'.
  { unfold addPolygon. destruct (hull polygon) as [vs|]; [|by apply NoDup_fmap_filter].
    destruct (decide _); [by apply NoDup_fmap_filter|].
    rewrite fmap_app. apply NoDup_app. split; [by apply NoDup_fmap_filter|].
    split; [|apply NoDup_singleton].
    intros x Hx Hx'. apply list_elem_of_singleton in Hx'. subst x. by apply Hfresh. }
  split; [done|]. split; [by apply NoDup_fmap_filter|]. split; [done|].
  split; [|split; [|split]].
  - intros p Hp. unfold addPolygon.
    destruct (hull polygon) as [vs|]; [destruct (decide _)|];
      rewrite ?elem_of_app, ?list_elem_of_filter, ?list_elem_of_singleton;
      split; try tauto.
    intros [H|H]; [tauto|]. by subst p.
  - intros (vs & Hvs & Hlen). unfold addPolygon. rewrite Hvs.
    rewrite decide_False by lia. apply elem_of_app. right. by left.
  - intros Hno. unfold addPolygon. destruct (hull polygon) as [vs|] eqn:Hh; [|done].
    destruct (decide _) as [|Hlen]; [done|].
    exfalso. apply Hno. exists vs. split; [done|lia].
  - intros lm. unfold refreshAllLabels. rewrite updateAllLabels_labels.
    apply (foldl_selectPolygon_keys _ _ _ _ []); [done|].
    split; [apply NoDup_nil_2|constructor].
Qed.

Lemma addPolygon_polygonData_witness :
  (twoPointPolygon ∉ addPolygon twoPointPolygon [squarePolygon; twoPointPolygon]) ∧
  squarePolygon ∈ addPolygon twoPointPolygon [squarePolygon; twoPointPolygon].
Proof.
  assert (NoDup (id <$> [squarePolygon; twoPointPolygon])) as Hnd.
  { simpl. apply NoDup_cons. split; [|apply NoDup_singleton].
    intros Hin. apply list_elem_of_singleton in Hin. discriminate Hin. }
  destruct (addPolygon_polygonData twoPointPolygon [squarePolygon; twoPointPolygon] Hnd)
    as (_ & _ & _ & H4 & _ & H6 & _).
  split.
  - intros Hin. apply H6.
    + intros (vs & Hvs & Hlen). injection Hvs as <-. simpl in Hlen. lia.
    + by apply list_elem_of_fmap_2.
  - apply H4; [simpl; lia|]. by left.
Defined.

(** ** The area of a hull *)

Lemma foldl_sum_from (g : nat → R) (l : list nat) (a : R) :
  foldl (λ s i, s + g i) a l = a + foldl (λ s i, s + g i) 0 l.
Proof.
  revert a. induction l as [|i l IH]; intros a; simpl; [lra|].
  rewrite (IH (a + g i)), (IH (0 + g i)). lra.
Qed.

Lemma sum_ext (g g' : nat → R) (l : list nat) :
  (∀ i, i ∈ l → g i = g' i) →
  foldl (λ s i, s + g i) 0 l = foldl (λ s i, s + g' i) 0 l.
Proof.
  generalize 0. induction l as [|i l IH]; intros a Hg; simpl; [done|].
  rewrite Hg by (by left). apply IH. intros j Hj. apply Hg. by right.
Qed.

Lemma sum_S (g : nat → R) (n : nat) :
  foldl (λ s i, s + g i) 0 (seq 0 (S n)) = foldl (λ s i, s + g i) 0 (seq 0 n) + g n.
Proof. rewrite seq_S, foldl_app. simpl. done. Qed.

(** X16: the area of a hull is not negative; it is 0 for a missing hull, for
    fewer than three points, and for a hull whose points all have the same
    longitude. *)
Theorem calculateArea_spec (hull : list Vertex) :
  0 <= calculateArea (Some hull) ∧
  calculateArea None = 0 ∧
  ((length hull < 3)%nat → calculateArea (Some hull) = 0) ∧
  ((∃ x : R, Forall (λ v, lon v = x) hull) → calculateArea (Some hull) = 0).
Proof.
  split; [|split; [|split]].
  - unfold calculateArea. destruct (decide _); [lra|apply Rabs_pos].
  - done.
  - intros H. unfold calculateArea. by rewrite decide_True.
  - intros [x Hx]. unfold calculateArea. destruct (decide _); [done|]. cbv zeta.
    rewrite (sum_ext _ (λ _, 0)).
    + assert (∀ l a, foldl (λ s (_ : nat), s + 0) a l = a) as Hz.
      { intros l. induction l as [|i l IH]; intros a; simpl; [done|].
        rewrite IH. lra. }
      rewrite Hz. replace (0 * 6371000 * 6371000 / 2) with 0 by lra. apply Rabs_R0.
    + intros i Hi. apply elem_of_seq in Hi.
      assert (∀ k, (k < length hull)%nat → lon (hull !!! k) = x) as Hlon.
      { intros k Hk. rewrite Forall_forall in Hx. apply Hx.
        apply list_elem_of_lookup_total_2. done. }
      rewrite (Hlon i) by lia.
      rewrite (Hlon ((i + 1) mod length hull)%nat) by (apply Nat.mod_upper_bound; lia).
      lra.
Qed.

(** ** Convex hulls *)

Lemma findPivot_fold (pts : list Vertex) (l : list (nat * Vertex)) (acc : Vertex * nat) :
  Forall (λ ip, pts !! ip.1 = Some ip.2) l →
  pts !! acc.2 = Some acc.1 →
  let r :=
    foldl (λ '(pivot, pivotIndex) '(i, p),
             if decide (lat p < lat pivot ∨ (lat p = lat pivot ∧ lon p < lon pivot))
             then (p, i)
             else (pivot, pivotIndex)) acc l in
  pts !! r.2 = Some r.1 ∧
  (lat r.1 < lat acc.1 ∨ (lat r.1 = lat acc.1 ∧ lon r.1 <= lon acc.1)) ∧
  Forall (λ ip, lat r.1 < lat ip.2 ∨ (lat r.1 = lat ip.2 ∧ lon r.1 <= lon ip.2)) l.
Proof.
  revert acc. induction l as [|[i p] l IH]; intros [pivot pivotIndex] Hl Hacc; simpl in *.
  - split; [done|]. split; [right; lra|constructor].
  - inversion Hl as [|? ? Hp Hl']; subst. simpl in Hp.
    destruct (decide (lat p < lat pivot ∨ (lat p = lat pivot ∧ lon p < lon pivot)))
      as [Hlow|Hlow].
    + destruct (IH (p, i) Hl' Hp) as (H1 & H2 & H3). simpl in *.
      split; [exact H1|]. split; [lra|]. constructor; [simpl; lra|exact H3].
    + destruct (IH (pivot, pivotIndex) Hl' Hacc) as (H1 & H2 & H3). simpl in *.
      split; [exact H1|]. split; [exact H2|]. constructor; [simpl|exact H3].
      destruct (Rtotal_order (lat p) (lat pivot)) as [?|[?|?]];
        [exfalso; apply Hlow; left; lra| |left; lra].
      destruct (Rlt_le_dec (lon p) (lon pivot));
        [exfalso; apply Hlow; right; lra|lra].
Qed.

Lemma findPivot_spec (pts : list Vertex) :
  (0 < length pts)%nat →
  ((findPivot pts).2 < length pts)%nat ∧
  pts !! (findPivot pts).2 = Some (findPivot pts).1 ∧
  Forall (λ p, lat (findPivot pts).1 < lat p ∨
               (lat (findPivot pts).1 = lat p ∧ lon (findPivot pts).1 <= lon p)) pts.
Proof.
  intros Hlen. destruct pts as [|p0 tl]; [simpl in Hlen; lia|].
  assert (Hl : Forall (λ ip : nat * Vertex, (p0 :: tl) !! ip.1 = Some ip.2)
                 (drop 1 (indexed (p0 :: tl)))).
  { apply Forall_forall. intros [i p] Hin.
    apply (subseteq_drop 1) in Hin. apply elem_of_lookup_imap in Hin.
    destruct Hin as (j & y & Heq & Hj). by inversion Heq; subst. }
  destruct (findPivot_fold (p0 :: tl) _ ((p0 :: tl) !!! 0%nat, 0%nat) Hl eq_refl)
    as (H1 & H2 & H3).
  fold (findPivot (p0 :: tl)) in H1, H2, H3. simpl in H2.
  split; [by eapply lookup_lt_Some|]. split; [exact H1|].
  constructor; [exact H2|].
  apply Forall_forall. intros p Hp. apply list_elem_of_lookup_1 in Hp as [j Hj].
  rewrite Forall_forall in H3. apply (H3 (S j, p)).
  unfold indexed. simpl. rewrite drop_0.
  apply (elem_of_lookup_imap_2 (pair ∘ S) tl p j Hj).
Qed.

Lemma elem_of_insert_inv {A : Type} (l : list A) (i : nat) (x y : A) :
  y ∈ <[i:=x]> l → y = x ∨ y ∈ l.
Proof.
  revert i. induction l as [|z l IH]; intros [|i] Hy; simpl in Hy;
    try (by right).
  - apply elem_of_cons in Hy as [->|Hy]; [by left|right; by apply elem_of_cons; right].
  - apply elem_of_cons in Hy as [->|Hy]; [right; by apply elem_of_cons; left|].
    destruct (IH i Hy) as [?|?]; [by left|right; by apply elem_of_cons; right].
Qed.

Lemma sortedInsert_subseteq {A : Type} (compare : A → A → R) (a : A) (sorted : list A) :
  sortedInsert compare a sorted ⊆ a :: sorted.
Proof.
  induction sorted as [|b l IH]; simpl; [done|].
  destruct (decide _); [done|].
  intros v Hv. apply elem_of_cons in Hv as [->|Hv].
  - apply elem_of_cons; right; by apply elem_of_cons; left.
  - apply IH in Hv. apply elem_of_cons in Hv as [->|Hv].
    + by apply elem_of_cons; left.
    + apply elem_of_cons; right; by apply elem_of_cons; right.
Qed.

Lemma Array_sort_subseteq {A : Type} (compare : A → A → R) (array : list A) :
  Array_sort compare array ⊆ array.
Proof.
  induction array as [|a l IH]; simpl; [done|].
  etrans; [apply sortedInsert_subseteq|]. by apply list_subseteq_skip.
Qed.

Lemma removeDuplicates_subseteq (previous : Vertex) (sorted : list Vertex) :
  removeDuplicates previous sorted ⊆ sorted.
Proof.
  revert previous. induction sorted as [|p l IH]; intros previous; simpl; [done|].
  destruct (decide _).
  - by apply list_subseteq_skip.
  - by apply list_subseteq_cons.
Qed.

(** The [while] loop of the scan leaves a final part of the stack. *)
Lemma popClockwise_drop (hull : list Vertex) (p : Vertex) :
  ∃ k : nat, popClockwise hull p = drop k hull.
Proof.
  induction hull as [|top [|below hull] IH]; try (by exists 0%nat).
  simpl. destruct (decide _); [|by exists 0%nat].
  destruct IH as [k Hk]. exists (S k). exact Hk.
Qed.

Lemma popClockwise_top (hull : list Vertex) (p top below : Vertex) (hull' : list Vertex) :
  popClockwise hull p = top :: below :: hull' → 0 < crossProduct below top p.
Proof.
  induction hull as [|t [|b hull] IH]; [intros; discriminate..|].
  simpl. destruct (decide _) as [Hle|Hgt].
  - exact IH.
  - intros Heq. inversion Heq; subst. lra.
Qed.

Lemma popClockwise_bottom (hull : list Vertex) (bottom p : Vertex) :
  ∃ hull', popClockwise (hull ++ [bottom]) p = hull' ++ [bottom].
Proof.
  induction hull as [|t [|b hull] IH].
  - by exists [].
  - simpl. destruct (decide _); [by exists []|by exists [t]].
  - simpl in *. destruct (decide _); [exact IH|].
    by exists (t :: b :: hull).
Qed.

Lemma scan_subseteq (points hull : list Vertex) :
  foldl (λ hull p, p :: popClockwise hull p) hull points ⊆ hull ++ points.
Proof.
  revert hull. induction points as [|p points IH]; intros hull; simpl.
  - by rewrite app_nil_r.
  - etrans; [apply IH|]. intros v Hv.
    apply elem_of_cons in Hv as [->|Hv].
    + apply elem_of_app; right; by apply elem_of_cons; left.
    + apply elem_of_app in Hv as [Hv|Hv].
      * destruct (popClockwise_drop hull p) as [k Hk]. rewrite Hk in Hv.
        apply elem_of_app; left. by apply (subseteq_drop k).
      * apply elem_of_app; right; by apply elem_of_cons; right.
Qed.

Lemma scan_bottom (points hull : list Vertex) (bottom : Vertex) :
  ∃ hull', foldl (λ hull p, p :: popClockwise hull p) (hull ++ [bottom]) points
           = hull' ++ [bottom].
Proof.
  revert hull. induction points as [|p points IH]; intros hull; simpl.
  - by exists hull.
  - destruct (popClockwise_bottom hull bottom p) as [h' ->].
    apply (IH (p :: h')).
Qed.

Lemma scan_turns (points hull : list Vertex) :
  (∀ j c b a, hull !! j = Some c → hull !! S j = Some b → hull !! S (S j) = Some a →
              0 < crossProduct a b c) →
  ∀ j c b a,
    foldl (λ hull p, p :: popClockwise hull p) hull points !! j = Some c →
    foldl (λ hull p, p :: popClockwise hull p) hull points !! S j = Some b →
    foldl (λ hull p, p :: popClockwise hull p) hull points !! S (S j) = Some a →
    0 < crossProduct a b c.
Proof.
  revert hull. induction points as [|p points IH]; intros hull Hinv; simpl; [exact Hinv|].
  apply IH. intros [|j] c b a Hc Hb Ha; simpl in *.
  - inversion Hc; subst.
    destruct (popClockwise hull c) as [|t [|bl rest]] eqn:Hpop; try discriminate.
    simpl in *. inversion Hb; inversion Ha; subst.
    by eapply popClockwise_top.
  - destruct (popClockwise_drop hull p) as [k Hk]. rewrite Hk in Hc, Hb, Ha.
    rewrite lookup_drop in Hc, Hb, Ha.
    apply (Hinv (k + j)%nat); [done| |].
    + by replace (S (k + j)) with (k + S j)%nat by lia.
    + by replace (S (S (k + j))) with (k + S (S j))%nat by lia.
Qed.

Lemma Math_atan2_east (x : R) : 0 < x → Math_atan2 0 x = 0.
Proof.
  intros Hx. unfold Math_atan2. rewrite decide_True by done.
  replace (0 / x) with 0 by (field; lra). apply atan_0.
Qed.

Lemma Math_atan2_diagonal (t : R) : 0 < t → Math_atan2 t t = PI / 4.
Proof.
  intros Ht. unfold Math_atan2. rewrite decide_True by done.
  replace (t / t) with 1 by (field; lra). apply atan_1.
Qed.

Lemma findPivot_scatteredPoints : findPivot scatteredPoints = (mkVertex 0 0, 2%nat).
Proof.
  unfold findPivot, scatteredPoints. simpl.
  rewrite (decide_True (P := 0 < 1 ∨ _)) by (left; lra). simpl.
  rewrite (decide_True (P := 0 < 0 ∨ _)) by (right; split; lra). simpl.
  rewrite (decide_False (P := 2 < 0 ∨ _)); [done|]. intros [?|[? ?]]; lra.
Qed.

Lemma Array_sort_scatteredPoints :
  Array_sort (compareByAngle (mkVertex 0 0)) [mkVertex 0 2; mkVertex 1 1; mkVertex 2 2]
  = [mkVertex 0 2; mkVertex 1 1; mkVertex 2 2].
Proof.
  pose proof PI_RGT_0 as Hpi.
  assert (H1 : compareByAngle (mkVertex 0 0) (mkVertex 1 1) (mkVertex 2 2) <= 0).
  { unfold compareByAngle. simpl.
    replace (1 - 0) with 1 by lra. replace (2 - 0) with 2 by lra.
    rewrite !Math_atan2_diagonal by lra.
    rewrite decide_False by (intros Hne; by apply Hne).
    unfold distanceSquared. simpl. lra. }
  assert (H2 : compareByAngle (mkVertex 0 0) (mkVertex 0 2) (mkVertex 1 1) <= 0).
  { unfold compareByAngle. simpl.
    replace (0 - 0) with 0 by lra. replace (1 - 0) with 1 by lra.
    replace (2 - 0) with 2 by lra.
    rewrite Math_atan2_diagonal, Math_atan2_east by lra.
    rewrite decide_True by lra. lra. }
  cbn [Array_sort sortedInsert].
  rewrite (decide_True _ _ H1). cbn [sortedInsert]. by rewrite (decide_True _ _ H2).
Qed.

Lemma computeConvexHull_scatteredPoints :
  computeConvexHull scatteredPoints = [mkVertex 0 0; mkVertex 0 2; mkVertex 2 2].
Proof.
  unfold computeConvexHull. rewrite decide_False by (simpl; lia).
  rewrite findPivot_scatteredPoints. cbv zeta.
  unfold scatteredPoints.
  cbn [lookup_total list_lookup_total insert list_insert drop app].
  rewrite Array_sort_scatteredPoints.
  cbn [lookup_total list_lookup_total drop app removeDuplicates lat lon].
  rewrite (decide_True (P := 0 ≠ 0 ∨ 2 ≠ 0)) by (right; lra).
  rewrite (decide_True (P := 1 ≠ 0 ∨ 1 ≠ 2)) by (left; lra).
  rewrite (decide_True (P := 2 ≠ 1 ∨ 2 ≠ 1)) by (left; lra).
  rewrite decide_False by (simpl; lia).
  cbn [lookup_total list_lookup_total drop foldl popClockwise].
  unfold crossProduct. cbn [lat lon].
  rewrite (decide_False (P := (2 - 0) * (1 - 0) - (0 - 0) * (1 - 0) <= 0)) by lra.
  cbn [popClockwise].
  rewrite (decide_True (P := (1 - 2) * (2 - 0) - (1 - 0) * (2 - 2) <= 0)) by lra.
  rewrite (decide_False (P := (2 - 0) * (2 - 0) - (0 - 0) * (2 - 0) <= 0)) by lra.
  reflexivity.
Qed.

(** The pivot search, the sort, the removal of duplicates and the scan only
    pass on points they were given. *)
Lemma computeConvexHull_input (points : list Vertex) : computeConvexHull points ⊆ points.
Proof.
  unfold computeConvexHull.
  destruct (decide (length points < 3)%nat) as [|Hlen]; [done|].
  destruct (findPivot points) as [pivot pivotIndex] eqn:Hpivot.
  destruct (findPivot_spec points ltac:(lia)) as (Hlt & Hlookup & _).
  rewrite Hpivot in Hlt, Hlookup. simpl in Hlt, Hlookup.
  set (pts := <[pivotIndex:=points !!! 0%nat]> (<[0%nat:=points !!! pivotIndex]> points)).
  assert (Hpts : pts ⊆ points).
  { intros v Hv. apply elem_of_insert_inv in Hv as [->|Hv].
    - apply list_elem_of_lookup_total_2. lia.
    - apply elem_of_insert_inv in Hv as [->|Hv]; [|done].
      by apply list_elem_of_lookup_total_2. }
  assert (Hptslen : length pts = length points) by (unfold pts; by rewrite !length_insert).
  set (sorted := [pts !!! 0%nat] ++ Array_sort (compareByAngle pivot) (drop 1 pts)).
  assert (Hsorted : sorted ⊆ points).
  { intros v Hv. apply Hpts. apply elem_of_app in Hv as [Hv|Hv].
    - apply list_elem_of_singleton in Hv as ->. apply list_elem_of_lookup_total_2. lia.
    - apply Array_sort_subseteq in Hv. by apply (subseteq_drop 1). }
  assert (Hslen : (0 < length sorted)%nat) by (unfold sorted; simpl; lia).
  set (unique := [sorted !!! 0%nat] ++ removeDuplicates (sorted !!! 0%nat) (drop 1 sorted)).
  assert (Hunique : unique ⊆ points).
  { intros v Hv. apply Hsorted. apply elem_of_app in Hv as [Hv|Hv].
    - apply list_elem_of_singleton in Hv as ->. by apply list_elem_of_lookup_total_2.
    - apply removeDuplicates_subseteq in Hv. by apply (subseteq_drop 1). }
  cbv zeta. fold pts. fold sorted. fold unique.
  destruct (decide (length unique < 3)%nat) as [|Hulen]; [done|].
  intros v Hv. rewrite elem_of_reverse in Hv. apply scan_subseteq in Hv.
  apply Hunique. apply elem_of_app in Hv as [Hv|Hv].
  - apply elem_of_cons in Hv as [->|Hv]; [apply list_elem_of_lookup_total_2; lia|].
    apply list_elem_of_singleton in Hv as ->. apply list_elem_of_lookup_total_2; lia.
  - by apply (subseteq_drop 2).
Qed.

(** X17: every vertex of the hull that [computeConvexHull] returns is one of
    the points it was given, and so for [mergeConvexHulls] and the points of
    the arrays it is given. *)
Theorem computeConvexHull_subseteq (points : list Vertex) (pointArrays : list (list Vertex)) :
  computeConvexHull points ⊆ points ∧
  mergeConvexHulls pointArrays ⊆ concat pointArrays.
Proof.
  split.
  - apply computeConvexHull_input.
  - unfold mergeConvexHulls. cbv zeta. apply computeConvexHull_input.
Qed.

(** X18: the hull that [computeConvexHull] returns turns to the left at each
    of its vertices but the first and the last: three vertices in a row have a
    positive [crossProduct] (counter-clockwise, and never in one line). *)
Theorem computeConvexHull_turns_left (points : list Vertex) (i : nat) (a b c : Vertex) :
  computeConvexHull points !! i = Some a →
  computeConvexHull points !! S i = Some b →
  computeConvexHull points !! S (S i) = Some c →
  0 < crossProduct a b c.
Proof.
  unfold computeConvexHull.
  destruct (decide (length points < 3)%nat) as [Hlen|Hlen].
  { intros _ _ Hc. apply lookup_lt_Some in Hc. lia. }
  destruct (findPivot points) as [pivot pivotIndex].
  cbv zeta.
  match goal with |- context [decide (length ?u < 3)%nat] => set (unique := u) end.
  destruct (decide (length unique < 3)%nat) as [Hulen|Hulen].
  { intros _ _ Hc. apply lookup_lt_Some in Hc. lia. }
  set (hull := foldl _ _ _).
  intros Ha Hb Hc.
  pose proof (lookup_lt_Some _ _ _ Hc) as Hi. rewrite length_reverse in Hi.
  rewrite reverse_lookup in Ha, Hb, Hc by lia.
  apply (scan_turns (drop 2 unique) [unique !!! 1%nat; unique !!! 0%nat])
    with (j := (length hull - S (S (S i)))%nat).
  - intros j ? ? ? _ _ Hj. apply lookup_lt_Some in Hj. simpl in Hj. lia.
  - exact Hc.
  - fold hull. rewrite <- Hb. f_equal. lia.
  - fold hull. rewrite <- Ha. f_equal. lia.
Qed.

Lemma computeConvexHull_turns_left_witness :
  0 < crossProduct (mkVertex 0 0) (mkVertex 0 2) (mkVertex 2 2).
Proof.
  apply (computeConvexHull_turns_left scatteredPoints 0);
    rewrite computeConvexHull_scatteredPoints; reflexivity.
Defined.

(** X19: for three points or more, the hull starts with the pivot: a given
    point such that no given point lies south of it, nor west of it at its
    latitude. *)
Theorem computeConvexHull_starts_at_pivot (points : list Vertex) :
  (3 ≤ length points)%nat →
  ∃ (pivot : Vertex) (hull : list Vertex),
    computeConvexHull points = pivot :: hull ∧
    pivot ∈ points ∧
    Forall (λ p, lat pivot < lat p ∨ (lat pivot = lat p ∧ lon pivot <= lon p)) points.
Proof.
  intros Hlen. unfold computeConvexHull.
  destruct (decide (length points < 3)%nat) as [|_]; [lia|].
  destruct (findPivot_spec points ltac:(lia)) as (Hlt & Hlookup & Hmin).
  destruct (findPivot points) as [pivot pivotIndex]. simpl in Hlt, Hlookup, Hmin.
  exists pivot.
  assert (Hfirst : <[pivotIndex:=points !!! 0%nat]> (<[0%nat:=points !!! pivotIndex]> points)
                     !!! 0%nat = pivot).
  { rewrite (list_lookup_total_correct _ _ _ Hlookup).
    apply list_lookup_total_correct.
    destruct pivotIndex as [|k].
    - rewrite list_insert_insert_eq.
      rewrite list_lookup_insert_eq by lia.
      f_equal. by apply list_lookup_total_correct.
    - rewrite list_lookup_insert_ne by lia.
      apply list_lookup_insert_eq. lia. }
  cbv zeta.
  match goal with |- context [decide (length ?u < 3)%nat] => set (unique := u) end.
  assert (Hu : ∃ unique', unique = pivot :: unique').
  { unfold unique. rewrite Hfirst. simpl. by eexists. }
  destruct Hu as [unique' Hu].
  assert (Hin : pivot ∈ points) by (by eapply list_elem_of_lookup_2).
  destruct (decide (length unique < 3)%nat) as [|Hulen].
  { exists unique'. by split. }
  destruct (scan_bottom (drop 2 unique) [unique !!! 1%nat] (unique !!! 0%nat)) as [h' Hh'].
  change ([unique !!! 1%nat] ++ [unique !!! 0%nat])
    with [unique !!! 1%nat; unique !!! 0%nat] in Hh'.
  rewrite Hh'. rewrite reverse_app. exists (reverse h').
  split; [by rewrite Hu|]. by split.
Qed.

Lemma computeConvexHull_starts_at_pivot_witness :
  ∃ (pivot : Vertex) (hull : list Vertex),
    computeConvexHull scatteredPoints = pivot :: hull ∧
    pivot ∈ scatteredPoints ∧
    Forall (λ p, lat pivot < lat p ∨ (lat pivot = lat p ∧ lon pivot <= lon p))
           scatteredPoints.
Proof.
  apply (computeConvexHull_starts_at_pivot scatteredPoints). simpl. lia.
Defined.

(** ** The hull encloses the points *)

(** *** Cross products *)

Lemma cross_edge_before (o a b c q : Vertex) :
  0 < crossProduct o b c → 0 <= crossProduct o b q →
  0 < crossProduct a b c → 0 <= crossProduct b c q →
  0 <= crossProduct o a b →
  0 <= crossProduct a b q.
Proof.
  intros H1 H2 H3 H4 H5.
  assert (Hid : crossProduct a b q * crossProduct o b c
                = crossProduct o b q * crossProduct a b c
                  + crossProduct b c q * crossProduct o a b)
    by (unfold crossProduct; ring).
  assert (0 <= crossProduct a b q * crossProduct o b c) by (rewrite Hid; nra).
  nra.
Qed.

Lemma cross_new_edge_after (o tf t q p : Vertex) :
  0 < crossProduct o tf t → crossProduct tf t q <= 0 →
  0 <= crossProduct tf t p → 0 <= crossProduct o tf p → 0 <= crossProduct o tf q →
  0 <= crossProduct tf q p.
Proof.
  intros H1 H2 H3 H4 H5.
  assert (Hid : crossProduct tf q p * crossProduct o tf t
                = crossProduct o tf q * crossProduct tf t p
                  - crossProduct tf t q * crossProduct o tf p)
    by (unfold crossProduct; ring).
  assert (0 <= crossProduct tf q p * crossProduct o tf t) by (rewrite Hid; nra).
  nra.
Qed.

Lemma cross_new_edge_before (o t' tf q p : Vertex) :
  0 < crossProduct o t' tf → 0 <= crossProduct t' tf p → 0 < crossProduct t' tf q →
  0 <= crossProduct o p tf → 0 <= crossProduct o tf q →
  0 <= crossProduct tf q p.
Proof.
  intros H1 H2 H3 H4 H5.
  assert (Hid : crossProduct tf q p * crossProduct o t' tf
                = crossProduct o tf q * crossProduct t' tf p
                  + crossProduct t' tf q * crossProduct o p tf)
    by (unfold crossProduct; ring).
  assert (0 <= crossProduct tf q p * crossProduct o t' tf) by (rewrite Hid; nra).
  nra.
Qed.

(** Two points above the pivot and in line with it lie on one side of it. *)
Lemma same_ray (o b q : Vertex) :
  above o b → above o q → crossProduct o b q = 0 →
  0 < (lon b - lon o) * (lon q - lon o) + (lat b - lat o) * (lat q - lat o).
Proof.
  unfold above, crossProduct. 
  set (bx := lon b - lon o). set (by_ := lat b - lat o).
  set (qx := lon q - lon o). set (qy := lat q - lat o).
  intros Hb Hq Hc.
  assert (Hb' : 0 < by_ ∨ (by_ = 0 ∧ 0 < bx)) by (unfold bx, by_; destruct Hb as [|[]]; [left|right]; lra).
  assert (Hq' : 0 < qy ∨ (qy = 0 ∧ 0 < qx)) by (unfold qx, qy; destruct Hq as [|[]]; [left|right]; lra).
  clearbody bx by_ qx qy. clear Hb Hq.
  destruct Hb' as [Hb|[Hb1 Hb2]], Hq' as [Hq|[Hq1 Hq2]].
  - assert (0 <= bx * qx * (by_ * qy)).
    { replace (bx * qx * (by_ * qy)) with ((bx * qy) * (by_ * qx)) by ring.
      replace (bx * qy) with (by_ * qx) by lra. nra. }
    assert (0 < by_ * qy) by nra.
    assert (0 <= bx * qx) by nra. nra.
  - subst. nra.
  - subst. nra.
  - subst. nra.
Qed.

Lemma turn_gives_increase (o a b q : Vertex) :
  above o b → above o q → before o b q →
  0 <= crossProduct o a b → 0 < crossProduct a b q →
  0 < crossProduct o b q.
Proof.
  intros Hb Hq [Hlt|[Hc Hd]] Ha Hturn; [done|exfalso].
  pose proof (same_ray o b q Hb Hq Hc) as Hdot.
  revert Hc Hd Ha Hturn Hdot. unfold crossProduct, distanceSquared. cbv zeta.
  assert (Hb' : 0 < (lat o - lat b) * (lat o - lat b) + (lon o - lon b) * (lon o - lon b)).
  { pose proof (Rle_0_sqr (lat o - lat b)) as H1. pose proof (Rle_0_sqr (lon o - lon b)) as H2.
    unfold Rsqr in H1, H2.
    destruct Hb as [Hb|[Hb1 Hb2]].
    - assert (0 < (lat o - lat b) * (lat o - lat b)) by nra. lra.
    - assert (0 < (lon o - lon b) * (lon o - lon b)) by nra. lra. }
  revert Hb'.
  set (bx := lon b - lon o). set (by_ := lat b - lat o).
  set (qx := lon q - lon o). set (qy := lat q - lat o).
  replace (lon a - lon o) with (lon a - lon o) by ring.
  set (ax := lon a - lon o). set (ay := lat a - lat o).
  replace (lat o - lat b) with (- by_) by (unfold by_; ring).
  replace (lon o - lon b) with (- bx) by (unfold bx; ring).
  replace (lat o - lat q) with (- qy) by (unfold qy; ring).
  replace (lon o - lon q) with (- qx) by (unfold qx; ring).
  replace (lon b - lon a) with (bx - ax) by (unfold bx, ax; ring).
  replace (lat q - lat a) with (qy - ay) by (unfold qy, ay; ring).
  replace (lat b - lat a) with (by_ - ay) by (unfold by_, ay; ring).
  replace (lon q - lon a) with (qx - ax) by (unfold qx, ax; ring).
  clearbody bx by_ qx qy ax ay.
  intros Hbb Hc Hd Ha Hturn Hdot.
  set (bb := bx * bx + by_ * by_) in *.
  set (dot := bx * qx + by_ * qy) in *.
  assert (Hbb' : 0 < bb) by (unfold bb; nra).
  assert (Hsq : dot * dot = bb * (qx * qx + qy * qy)).
  { unfold dot, bb.
    replace ((bx * qx + by_ * qy) * (bx * qx + by_ * qy))
      with ((bx * bx + by_ * by_) * (qx * qx + qy * qy) - (bx * qy - by_ * qx) * (bx * qy - by_ * qx)) by ring.
    rewrite Hc. ring. }
  assert (Hdd : bb < dot).
  { assert (bb * bb < dot * dot) by (rewrite Hsq; unfold bb; nra).
    nra. }
  assert (Hid : ((bx - ax) * (qy - ay) - (by_ - ay) * (qx - ax)) * bb
                = (bx * qy - by_ * qx) * (bb - (ax * bx + ay * by_))
                  + (ax * by_ - ay * bx) * (bb - dot))
    by (unfold bb, dot; ring).
  rewrite Hc in Hid.
  assert (0 < ((bx - ax) * (qy - ay) - (by_ - ay) * (qx - ax)) * bb) by nra.
  nra.
Qed.

Lemma above_distance (o b : Vertex) :
  above o b →
  0 < (lon b - lon o) * (lon b - lon o) + (lat b - lat o) * (lat b - lat o).
Proof.
  intros Hb.
  pose proof (Rle_0_sqr (lat b - lat o)) as H1. pose proof (Rle_0_sqr (lon b - lon o)) as H2.
  unfold Rsqr in H1, H2.
  destruct Hb as [Hb|[Hb1 Hb2]].
  - assert (0 < (lat b - lat o) * (lat b - lat o)) by nra. lra.
  - assert (0 < (lon b - lon o) * (lon b - lon o)) by nra. lra.
Qed.

Lemma cross_new_edge_pivot (o t q p : Vertex) :
  above o t → above o q → crossProduct o t q = 0 →
  0 <= crossProduct o t p → 0 <= crossProduct o p q →
  0 <= crossProduct o q p.
Proof.
  intros Ht Hq Hc H1 H2.
  pose proof (same_ray o t q Ht Hq Hc) as Hdot.
  pose proof (above_distance o t Ht) as Htt.
  revert Hc H1 H2 Hdot Htt. unfold crossProduct.
  set (tx := lon t - lon o). set (ty := lat t - lat o).
  set (qx := lon q - lon o). set (qy := lat q - lat o).
  set (px := lon p - lon o). set (py := lat p - lat o).
  clearbody tx ty qx qy px py. intros Hc H1 H2 Hdot Htt.
  assert (Hid : (px * qy - py * qx) * (tx * tx + ty * ty)
                = - (tx * py - ty * px) * (tx * qx + ty * qy)
                  + (px * tx + py * ty) * (tx * qy - ty * qx)) by ring.
  rewrite Hc in Hid.
  assert ((px * qy - py * qx) * (tx * tx + ty * ty) <= 0) by nra.
  assert (px * qy - py * qx <= 0) by nra.
  lra.
Qed.

Lemma cross_new_edge_first (o s q p : Vertex) :
  above o s → before o p s →
  0 <= crossProduct o s p → 0 <= crossProduct o s q →
  0 <= crossProduct s q p.
Proof.
  intros Hs Hb H1 H2.
  pose proof (above_distance o s Hs) as Hss.
  assert (Hc : crossProduct o p s = - crossProduct o s p) by (unfold crossProduct; ring).
  destruct Hb as [Hb|[Hb Hd]]; [lra|].
  assert (Hc' : crossProduct o s p = 0) by lra. clear H1 Hc Hb.
  revert Hc' Hd H2 Hss. unfold crossProduct, distanceSquared. cbv zeta.
  replace (lat o - lat p) with (- (lat p - lat o)) by ring.
  replace (lon o - lon p) with (- (lon p - lon o)) by ring.
  replace (lat o - lat s) with (- (lat s - lat o)) by ring.
  replace (lon o - lon s) with (- (lon s - lon o)) by ring.
  replace (lon q - lon s) with ((lon q - lon o) - (lon s - lon o)) by ring.
  replace (lat p - lat s) with ((lat p - lat o) - (lat s - lat o)) by ring.
  replace (lat q - lat s) with ((lat q - lat o) - (lat s - lat o)) by ring.
  replace (lon p - lon s) with ((lon p - lon o) - (lon s - lon o)) by ring.
  set (sx := lon s - lon o). set (sy := lat s - lat o).
  set (qx := lon q - lon o). set (qy := lat q - lat o).
  set (px := lon p - lon o). set (py := lat p - lat o).
  clearbody sx sy qx qy px py. intros Hc Hd H2 Hss.
  set (ss := sx * sx + sy * sy) in *.
  set (dot := sx * px + sy * py).
  assert (Hsq : dot * dot = ss * (px * px + py * py)).
  { unfold dot, ss.
    replace ((sx * px + sy * py) * (sx * px + sy * py))
      with ((sx * sx + sy * sy) * (px * px + py * py) - (sx * py - sy * px) * (sx * py - sy * px)) by ring.
    rewrite Hc. ring. }
  assert (Hdd : dot <= ss).
  { assert (dot * dot < ss * ss) by (rewrite Hsq; unfold ss; nra).
    nra. }
  assert (Hid : ((qx - sx) * (py - sy) - (qy - sy) * (px - sx)) * ss
                = (sx * qy - sy * qx) * (ss - dot)
                  + (sx * py - sy * px) * ((qx * sx + qy * sy) - ss))
    by (unfold ss, dot; ring).
  rewrite Hc in Hid.
  assert (0 <= ((qx - sx) * (py - sy) - (qy - sy) * (px - sx)) * ss) by nra.
  nra.
Qed.

Lemma before_asymmetric (o p q : Vertex) : before o p q → before o q p → False.
Proof.
  assert (Hc : crossProduct o q p = - crossProduct o p q) by (unfold crossProduct; ring).
  intros [H1|[H1 H1']] [H2|[H2 H2']]; lra.
Qed.

Lemma before_cross (o p q : Vertex) : before o p q → 0 <= crossProduct o p q.
Proof. intros [H|[H _]]; lra. Qed.


(** *** One step of the scan *)

Lemma popClockwise_spec (hull : list Vertex) (p : Vertex) :
  (1 ≤ length hull)%nat →
  ∃ k : nat, popClockwise hull p = drop k hull ∧ (k < length hull)%nat ∧
    ∀ k' t tf, k = S k' → hull !! k' = Some t → hull !! k = Some tf →
               crossProduct tf t p <= 0.
Proof.
  induction hull as [|top [|below hull] IH]; simpl; intros Hlen; [lia| |].
  - exists 0%nat. split; [done|]. split; [lia|]. intros; discriminate.
  - destruct (decide _) as [Hle|Hgt].
    + destruct IH as (k & Hk & Hlt & Hpop); [simpl; lia|].
      exists (S k). split; [exact Hk|]. split; [simpl in *; lia|].
      intros k' t tf Heq Ht Htf. inversion Heq; subst k'. clear Heq.
      destruct k as [|k0].
      * simpl in Ht, Htf. inversion Ht; inversion Htf; subst. exact Hle.
      * simpl in Ht, Htf. by apply (Hpop k0).
    + exists 0%nat. split; [done|]. split; [simpl; lia|]. intros; discriminate.
Qed.

Lemma last_drop_lt {A : Type} (l : list A) (k : nat) :
  (k < length l)%nat → last (drop k l) = last l.
Proof.
  intros Hk. rewrite !last_lookup, lookup_drop, length_drop. f_equal. lia.
Qed.

Lemma bottom_is_pivot (pivot : Vertex) (stack : list Vertex) (j : nat) (a : Vertex) :
  last stack = Some pivot → stack !! j = Some a → ¬ (S j < length stack)%nat → a = pivot.
Proof.
  intros Hlast Ha Hj. pose proof (lookup_lt_Some _ _ _ Ha) as Hlt.
  rewrite last_lookup in Hlast. replace (pred (length stack)) with j in Hlast by lia.
  congruence.
Qed.

Lemma crossProduct_pivot_edge (pivot : Vertex) (stack : list Vertex) (j : nat) (b a : Vertex) :
  last stack = Some pivot →
  (∀ j b a, stack !! j = Some b → stack !! S j = Some a → (S (S j) < length stack)%nat →
            0 < crossProduct pivot a b) →
  stack !! j = Some b → stack !! S j = Some a →
  0 <= crossProduct pivot a b.
Proof.
  intros Hlast Hincr Hb Ha.
  destruct (decide (S (S j) < length stack)%nat) as [Hlt|Hge].
  - apply Rlt_le. by apply (Hincr j).
  - rewrite (bottom_is_pivot pivot stack (S j) a Hlast Ha Hge).
    unfold crossProduct. lra.
Qed.

(** The point pushed lies to the left of every edge left on the stack. *)
Lemma pushed_left_of_edges (pivot q : Vertex) (done stack : list Vertex) :
  last stack = Some pivot →
  (∀ j x, stack !! j = Some x → (S j < length stack)%nat → x ∈ done) →
  (∀ j c b a, stack !! j = Some c → stack !! S j = Some b → stack !! S (S j) = Some a →
              0 < crossProduct a b c) →
  (∀ j b a, stack !! j = Some b → stack !! S j = Some a → (S (S j) < length stack)%nat →
            0 < crossProduct pivot a b) →
  (∀ p, p ∈ done → before pivot p q) →
  (∀ top below rest, stack = top :: below :: rest → 0 < crossProduct below top q) →
  ∀ j b a, stack !! j = Some b → stack !! S j = Some a → 0 <= crossProduct a b q.
Proof.
  intros Hlast Hdone Hturns Hincr Hq Hstop j.
  induction j as [|j IH]; intros b a Hb Ha.
  - destruct stack as [|top [|below rest]]; try discriminate.
    simpl in Hb, Ha. inversion Hb; inversion Ha; subst.
    apply Rlt_le. by eapply Hstop.
  - destruct (stack !! j) as [c|] eqn:Hc.
    2: { apply lookup_ge_None in Hc. apply lookup_lt_Some in Hb. lia. }
    apply (cross_edge_before pivot a b c q).
    + apply (Hincr j); [done..|]. by eapply lookup_lt_Some.
    + apply before_cross. apply Hq. apply (Hdone (S j)); [done|].
      by eapply lookup_lt_Some.
    + by apply (Hturns j).
    + by apply IH.
    + by apply (crossProduct_pivot_edge pivot stack (S j)).
Qed.

Lemma crossProduct_same_end (a b : Vertex) : crossProduct a b b = 0 ∧ crossProduct a b a = 0.
Proof. unfold crossProduct. split; ring. Qed.

Lemma scan_step (pivot q : Vertex) (done stack : list Vertex) :
  (∀ p, p ∈ done → above pivot p) → above pivot q →
  (∀ p, p ∈ done → before pivot p q) →
  (∀ p t, p ∈ done → t ∈ done → p = t ∨ before pivot p t ∨ before pivot t p) →
  scanInvariant pivot done stack →
  scanInvariant pivot (q :: done) (q :: popClockwise stack q).
Proof.
  intros Habove Hqabove Hq Htotal (Hlast & Hlen & Hdone & Hturns & Hincr & Hcont & Htop).
  destruct (popClockwise_spec stack q ltac:(lia)) as (k & Hpop & Hk & Hpopped).
  pose proof (popClockwise_top stack q) as Hstop. rewrite Hpop in *. clear Hpop.
  assert (HS' : ∀ j, drop k stack !! j = stack !! (k + j)%nat) by (intros; apply lookup_drop).
  assert (Hlen' : length (drop k stack) = (length stack - k)%nat) by apply length_drop.
  assert (Hlast' : last (drop k stack) = Some pivot) by (by rewrite last_drop_lt).
  remember (drop k stack) as S' eqn:HeqS'.
  assert (Hdone' : ∀ j x, S' !! j = Some x → (S j < length S')%nat → x ∈ done).
  { intros j x Hx Hj. rewrite HS' in Hx. apply (Hdone (k + j)%nat); [done|lia]. }
  assert (Hturns' : ∀ j c b a, S' !! j = Some c → S' !! S j = Some b →
                               S' !! S (S j) = Some a → 0 < crossProduct a b c).
  { intros j c b a Hc Hb Ha. rewrite HS' in Hc, Hb, Ha.
    replace (k + S j)%nat with (S (k + j)) in Hb by lia.
    replace (k + S (S j))%nat with (S (S (k + j))) in Ha by lia.
    by apply (Hturns (k + j)%nat). }
  assert (Hincr' : ∀ j b a, S' !! j = Some b → S' !! S j = Some a →
                            (S (S j) < length S')%nat → 0 < crossProduct pivot a b).
  { intros j b a Hb Ha Hj. rewrite HS' in Hb, Ha.
    replace (k + S j)%nat with (S (k + j)) in Ha by lia.
    apply (Hincr (k + j)%nat); [done..|lia]. }
  assert (Hcont' : ∀ p, p ∈ done → ∀ j b a, S' !! j = Some b → S' !! S j = Some a →
                                            0 <= crossProduct a b p).
  { intros p Hp j b a Hb Ha. rewrite HS' in Hb, Ha.
    replace (k + S j)%nat with (S (k + j)) in Ha by lia.
    by apply (Hcont p Hp (k + j)%nat). }
  unfold scanInvariant. split_and!.
  - rewrite last_cons, Hlast'. done.
  - simpl. lia.
  - intros [|j] x Hx Hj; simpl in *.
    + inversion Hx. by apply elem_of_cons; left.
    + apply elem_of_cons; right. apply (Hdone' j); [done|lia].
  - intros [|j] c b a Hc Hb Ha; simpl in *.
    + inversion Hc; subst c.
      destruct S' as [|t [|bl rest]]; try discriminate.
      simpl in Hb, Ha. inversion Hb; inversion Ha; subst.
      by eapply Hstop.
    + by apply (Hturns' j).
  - intros [|j] b a Hb Ha Hj; simpl in *.
    + inversion Hb; subst b.
      destruct S' as [|tf [|t' rest]]; simpl in *; try lia.
      inversion Ha; subst a.
      assert (Htf : tf ∈ done) by (apply (Hdone' 0%nat); [done|simpl; lia]).
      apply (turn_gives_increase pivot t' tf q); auto.
      * by apply (crossProduct_pivot_edge pivot (tf :: t' :: rest) 0%nat).
      * by eapply Hstop.
    + apply (Hincr' j); [done..|lia].
  - intros p Hp [|j] b a Hb Ha; simpl in *.
    + inversion Hb; subst b.
      apply elem_of_cons in Hp as [->|Hp]; [apply Req_le; symmetry; apply crossProduct_same_end|].
      destruct S' as [|tf [|t' rest]]; [discriminate| |]; simpl in Ha; inversion Ha; subst a.
      * (* only the pivot is left *)
        simpl in Hlast'. inversion Hlast'; subst tf. simpl in Hlen'.
        destruct k as [|k']; [lia|].
        destruct (stack !! k') as [t|] eqn:Ht.
        2: { apply lookup_ge_None in Ht. lia. }
        assert (Htf : stack !! S k' = Some pivot).
        { specialize (HS' 0%nat). simpl in HS'. by rewrite Nat.add_0_r in HS'. }
        assert (Htd : t ∈ done) by (apply (Hdone k'); [done|lia]).
        apply (cross_new_edge_pivot pivot t q p); auto.
        -- pose proof (Hpopped k' t pivot eq_refl Ht Htf).
           pose proof (before_cross _ _ _ (Hq t Htd)). lra.
        -- by apply (Hcont p Hp k').
        -- apply before_cross. by apply Hq.
      * assert (Htf : tf ∈ done) by (apply (Hdone' 0%nat); [done|simpl; lia]).
        destruct (Htotal p tf Hp Htf) as [->|[Hbefore|Hafter]].
        -- apply Req_le; symmetry; apply crossProduct_same_end.
        -- destruct (decide (2 < length (tf :: t' :: rest))%nat) as [Hlong|Hshort].
           ++ apply (cross_new_edge_before pivot t' tf q p).
              ** by apply (Hincr' 0%nat).
              ** by apply (Hcont' p Hp 0%nat).
              ** by eapply Hstop.
              ** by apply before_cross.
              ** apply before_cross. by apply Hq.
           ++ assert (t' = pivot) as ->.
              { apply (bottom_is_pivot pivot (tf :: t' :: rest) 1%nat); [done..|]. lia. }
              apply (cross_new_edge_first pivot tf q p); auto.
              ** by apply (Hcont' p Hp 0%nat).
              ** apply before_cross. by apply Hq.
        -- destruct k as [|k'].
           ++ exfalso. rewrite drop_0 in HeqS'.
              destruct (Htop tf ltac:(by rewrite <- HeqS') p Hp) as [->|Hb'];
                by eapply before_asymmetric.
           ++ destruct (stack !! k') as [t|] eqn:Ht.
              2: { apply lookup_ge_None in Ht. lia. }
              assert (Htf' : stack !! S k' = Some tf).
              { specialize (HS' 0%nat). simpl in HS'. by rewrite Nat.add_0_r in HS'. }
              simpl in Hlen'.
              apply (cross_new_edge_after pivot tf t q p).
              ** apply (Hincr k'); [done..|lia].
              ** by apply (Hpopped k').
              ** by apply (Hcont p Hp k').
              ** by apply before_cross.
              ** apply before_cross. by apply Hq.
    + apply elem_of_cons in Hp as [->|Hp].
      * by apply (pushed_left_of_edges pivot q done S' Hlast' Hdone' Hturns' Hincr' Hq Hstop j).
      * by apply (Hcont' p Hp j).
  - intros t Ht p Hp. simpl in Ht. inversion Ht; subst t.
    apply elem_of_cons in Hp as [->|Hp]; [by left|right; by apply Hq].
Qed.

(** *** Angles *)

Lemma sqrt_1_plus_sqr_pos (t : R) : 0 < sqrt (1 + t²).
Proof. apply sqrt_lt_R0. pose proof (Rle_0_sqr t). lra. Qed.

Lemma Math_atan2_polar (y x : R) :
  0 < y ∨ (y = 0 ∧ 0 < x) →
  ∃ r, 0 < r ∧ 0 <= Math_atan2 y x < PI ∧
       x = r * cos (Math_atan2 y x) ∧ y = r * sin (Math_atan2 y x).
Proof.
  intros Hyx. pose proof PI_RGT_0 as Hpi. unfold Math_atan2.
  destruct (decide (0 < x)) as [Hx|Hx].
  - pose proof (sqrt_1_plus_sqr_pos (y / x)) as Hs.
    pose proof (atan_bound (y / x)) as Hb.
    assert (Ht : 0 <= y / x).
    { unfold Rdiv. apply Rmult_le_pos; [lra|]. apply Rlt_le. by apply Rinv_0_lt_compat. }
    assert (Ha : 0 <= atan (y / x)).
    { destruct Ht as [Ht|Ht]; [|rewrite <- Ht, atan_0; lra].
      apply Rlt_le. rewrite <- atan_0. by apply atan_increasing. }
    exists (x * sqrt (1 + (y / x)²)). split; [by apply Rmult_lt_0_compat|].
    split; [lra|]. rewrite cos_atan, sin_atan. split; field; lra.
  - destruct (decide (x < 0)) as [Hx'|Hx'].
    + assert (Hy : 0 < y) by (destruct Hyx as [|[? ?]]; lra).
      rewrite decide_True by lra.
      pose proof (sqrt_1_plus_sqr_pos (y / x)) as Hs.
      pose proof (atan_bound (y / x)) as Hb.
      assert (Ht : y / x < 0).
      { unfold Rdiv. assert (/ x < 0) by (by apply Rinv_lt_0_compat). nra. }
      assert (Ha : atan (y / x) < 0).
      { rewrite <- atan_0. by apply atan_increasing. }
      exists (- x * sqrt (1 + (y / x)²)). split; [apply Rmult_lt_0_compat; lra|].
      split; [lra|]. rewrite neg_cos, neg_sin, cos_atan, sin_atan. split; field; lra.
    + assert (x = 0) as -> by lra.
      assert (Hy : 0 < y) by (destruct Hyx as [|[? ?]]; lra).
      rewrite decide_True by done.
      exists y. split; [done|]. split; [lra|]. rewrite cos_PI2, sin_PI2. lra.
Qed.

(** Points above the pivot in the order of [compareByAngle] are in the order
    of [before]. *)
Lemma angle_order_before (o p q : Vertex) :
  above o p → above o q →
  let angleP := Math_atan2 (lat p - lat o) (lon p - lon o) in
  let angleQ := Math_atan2 (lat q - lat o) (lon q - lon o) in
  angleP < angleQ ∨ (angleP = angleQ ∧ distanceSquared o p < distanceSquared o q) →
  before o p q.
Proof.
  intros Hp Hq angleP angleQ Hlt.
  destruct (Math_atan2_polar (lat p - lat o) (lon p - lon o)) as (rp & Hrp & Hpb & Hpx & Hpy).
  { destruct Hp as [?|[? ?]]; [left|right]; lra. }
  destruct (Math_atan2_polar (lat q - lat o) (lon q - lon o)) as (rq & Hrq & Hqb & Hqx & Hqy).
  { destruct Hq as [?|[? ?]]; [left|right]; lra. }
  fold angleP in Hpb, Hpx, Hpy. fold angleQ in Hqb, Hqx, Hqy.
  assert (Hc : crossProduct o p q = rp * rq * sin (angleQ - angleP)).
  { unfold crossProduct. rewrite sin_minus. rewrite Hpx, Hpy, Hqx, Hqy. ring. }
  destruct Hlt as [Hlt|[Heq Hd]].
  - left. rewrite Hc. apply Rmult_lt_0_compat; [by apply Rmult_lt_0_compat|].
    apply sin_gt_0; lra.
  - right. split; [|done]. rewrite Hc, Heq.
    replace (angleQ - angleQ) with 0 by ring. rewrite sin_0. ring.
Qed.

Lemma distanceSquared_0 (o p : Vertex) : distanceSquared o p = 0 → p = o.
Proof.
  unfold distanceSquared. cbv zeta. intros H.
  pose proof (Rle_0_sqr (lat o - lat p)) as H1. pose proof (Rle_0_sqr (lon o - lon p)) as H2.
  unfold Rsqr in H1, H2.
  assert (lat o - lat p = 0) by nra. assert (lon o - lon p = 0) by nra.
  destruct o, p; simpl in *. f_equal; lra.
Qed.

Lemma distanceSquared_above (o p : Vertex) : above o p → 0 < distanceSquared o p.
Proof.
  intros Hp. pose proof (above_distance o p Hp). unfold distanceSquared. cbv zeta. nra.
Qed.

(** Two of the points compare as equal only when they are at one location. *)
Lemma same_angle_same_distance (o p q : Vertex) :
  above o p ∨ p = o → above o q ∨ q = o →
  Math_atan2 (lat p - lat o) (lon p - lon o) = Math_atan2 (lat q - lat o) (lon q - lon o) →
  distanceSquared o p = distanceSquared o q →
  p = q.
Proof.
  intros [Hp| ->] [Hq| ->] Ha Hd.
  - destruct (Math_atan2_polar (lat p - lat o) (lon p - lon o)) as (rp & Hrp & Hpb & Hpx & Hpy).
    { destruct Hp as [?|[? ?]]; [left|right]; lra. }
    destruct (Math_atan2_polar (lat q - lat o) (lon q - lon o)) as (rq & Hrq & Hqb & Hqx & Hqy).
    { destruct Hq as [?|[? ?]]; [left|right]; lra. }
    rewrite <- Ha in Hqx, Hqy.
    set (angle := Math_atan2 (lat p - lat o) (lon p - lon o)) in *.
    pose proof (sin2_cos2 angle) as Hsc. unfold Rsqr in Hsc.
    assert (Hdp : distanceSquared o p = rp * rp).
    { unfold distanceSquared. cbv zeta.
      replace (lat o - lat p) with (- (lat p - lat o)) by ring.
      replace (lon o - lon p) with (- (lon p - lon o)) by ring.
      rewrite Hpx, Hpy. 
      replace (- (rp * sin angle) * - (rp * sin angle) + - (rp * cos angle) * - (rp * cos angle))
        with (rp * rp * (sin angle * sin angle + cos angle * cos angle)) by ring.
      rewrite Hsc. ring. }
    assert (Hdq : distanceSquared o q = rq * rq).
    { unfold distanceSquared. cbv zeta.
      replace (lat o - lat q) with (- (lat q - lat o)) by ring.
      replace (lon o - lon q) with (- (lon q - lon o)) by ring.
      rewrite Hqx, Hqy. 
      replace (- (rq * sin angle) * - (rq * sin angle) + - (rq * cos angle) * - (rq * cos angle))
        with (rq * rq * (sin angle * sin angle + cos angle * cos angle)) by ring.
      rewrite Hsc. ring. }
    assert (rp = rq) by nra. subst rq.
    destruct p, q; simpl in *. f_equal; lra.
  - pose proof (distanceSquared_above o p Hp).
    assert (distanceSquared o o = 0) by (unfold distanceSquared; cbv zeta; ring). lra.
  - pose proof (distanceSquared_above o q Hq).
    assert (distanceSquared o o = 0) by (unfold distanceSquared; cbv zeta; ring). lra.
  - done.
Qed.

(** *** Sorting and duplicates *)

Lemma inOrder_impl {A : Type} (R R' : A → A → Prop) (l : list A) :
  (∀ x y, x ∈ l → y ∈ l → R x y → R' x y) → inOrder R l → inOrder R' l.
Proof.
  induction l as [|x l IH]; simpl; [done|]. intros Himpl [Hx Hl]. split.
  - apply Forall_forall. intros y Hy. rewrite Forall_forall in Hx.
    apply Himpl; [by apply elem_of_cons; left|by apply elem_of_cons; right|by apply Hx].
  - apply IH; [|done]. intros a b Ha Hb. apply Himpl; by apply elem_of_cons; right.
Qed.

Lemma inOrder_total {A : Type} (R : A → A → Prop) (l : list A) (x y : A) :
  inOrder R l → x ∈ l → y ∈ l → x = y ∨ R x y ∨ R y x.
Proof.
  induction l as [|z l IH]; simpl; [intros _ Hx; by apply elem_of_nil in Hx|].
  intros [Hz Hl] Hx Hy. rewrite Forall_forall in Hz.
  apply elem_of_cons in Hx as [->|Hx]; apply elem_of_cons in Hy as [->|Hy]; auto.
Qed.

Lemma sortedInsert_elem {A : Type} (compare : A → A → R) (a x : A) (sorted : list A) :
  x ∈ a :: sorted → x ∈ sortedInsert compare a sorted.
Proof.
  induction sorted as [|b l IH]; simpl; [done|].
  destruct (decide _); [done|]. intros Hx.
  apply elem_of_cons in Hx as [->|Hx].
  - apply elem_of_cons; right. apply IH. by apply elem_of_cons; left.
  - apply elem_of_cons in Hx as [->|Hx]; [by apply elem_of_cons; left|].
    apply elem_of_cons; right. apply IH. by apply elem_of_cons; right.
Qed.

Lemma Array_sort_elem {A : Type} (compare : A → A → R) (x : A) (array : list A) :
  x ∈ array → x ∈ Array_sort compare array.
Proof.
  induction array as [|a l IH]; simpl; [done|]. intros Hx.
  apply sortedInsert_elem. apply elem_of_cons in Hx as [->|Hx].
  - by apply elem_of_cons; left.
  - apply elem_of_cons; right. by apply IH.
Qed.

Lemma sortedInsert_inOrder {A : Type} (compare : A → A → R) (a : A) (sorted : list A) :
  (∀ a b, compare a b <= 0 ∨ compare b a <= 0) →
  (∀ a b c, compare a b <= 0 → compare b c <= 0 → compare a c <= 0) →
  inOrder (λ a b, compare a b <= 0) sorted →
  inOrder (λ a b, compare a b <= 0) (sortedInsert compare a sorted).
Proof.
  intros Htotal Htrans. induction sorted as [|b l IH]; simpl; [done|].
  intros [Hb Hl]. rewrite Forall_forall in Hb.
  destruct (decide (compare a b <= 0)) as [Hab|Hab]; simpl.
  - split; [|split; [by apply Forall_forall|done]].
    constructor; [done|]. apply Forall_forall. intros x Hx. apply (Htrans a b x); auto.
  - split; [|by apply IH].
    apply Forall_forall. intros x Hx. apply sortedInsert_subseteq in Hx.
    apply elem_of_cons in Hx as [->|Hx]; [|by apply Hb].
    by destruct (Htotal a b).
Qed.

Lemma Array_sort_inOrder {A : Type} (compare : A → A → R) (array : list A) :
  (∀ a b, compare a b <= 0 ∨ compare b a <= 0) →
  (∀ a b c, compare a b <= 0 → compare b c <= 0 → compare a c <= 0) →
  inOrder (λ a b, compare a b <= 0) (Array_sort compare array).
Proof.
  intros Htotal Htrans. induction array as [|a l IH]; simpl; [done|].
  by apply sortedInsert_inOrder.
Qed.

Lemma compareByAngle_le (o a b : Vertex) :
  compareByAngle o a b <= 0 ↔
  Math_atan2 (lat a - lat o) (lon a - lon o) < Math_atan2 (lat b - lat o) (lon b - lon o) ∨
  (Math_atan2 (lat a - lat o) (lon a - lon o) = Math_atan2 (lat b - lat o) (lon b - lon o) ∧
   distanceSquared o a <= distanceSquared o b).
Proof.
  unfold compareByAngle. cbv zeta. destruct (decide _) as [Hne|Heq].
  - split; [intros H; left; lra|]. intros [H|[H _]]; [lra|done].
  - assert (Heq' : Math_atan2 (lat a - lat o) (lon a - lon o)
                   = Math_atan2 (lat b - lat o) (lon b - lon o)).
    { destruct (Req_dec (Math_atan2 (lat a - lat o) (lon a - lon o))
                        (Math_atan2 (lat b - lat o) (lon b - lon o))); [done|].
      by exfalso; apply Heq. }
    split; [intros H; right; split; [done|lra]|]. intros [H|[_ H]]; lra.
Qed.

Lemma compareByAngle_total (o a b : Vertex) :
  compareByAngle o a b <= 0 ∨ compareByAngle o b a <= 0.
Proof. rewrite !compareByAngle_le. lra. Qed.

Lemma compareByAngle_trans (o a b c : Vertex) :
  compareByAngle o a b <= 0 → compareByAngle o b c <= 0 → compareByAngle o a c <= 0.
Proof. rewrite !compareByAngle_le. lra. Qed.

Lemma removeDuplicates_elem (previous x : Vertex) (sorted : list Vertex) :
  x ∈ sorted → x = previous ∨ x ∈ removeDuplicates previous sorted.
Proof.
  revert previous. induction sorted as [|p l IH]; intros previous Hx; simpl.
  - by apply elem_of_nil in Hx.
  - assert (Hp : p = previous ∨
                 p ∈ (if decide (lat p ≠ lat previous ∨ lon p ≠ lon previous)
                      then p :: removeDuplicates p l else removeDuplicates p l)).
    { destruct (decide _) as [Hne|Heq]; [right; by apply elem_of_cons; left|left].
      destruct p as [y x0], previous as [y' x']; simpl in *.
      destruct (Req_dec y y'), (Req_dec x0 x'); subst; try done; exfalso; apply Heq; auto. }
    apply elem_of_cons in Hx as [->|Hx]; [exact Hp|].
    destruct (IH p Hx) as [->|Hin]; [exact Hp|].
    right. destruct (decide _); [by apply elem_of_cons; right|done].
Qed.

Lemma compareByAngle_gt (o a b : Vertex) :
  0 < compareByAngle o b a ↔
  Math_atan2 (lat a - lat o) (lon a - lon o) < Math_atan2 (lat b - lat o) (lon b - lon o) ∨
  (Math_atan2 (lat a - lat o) (lon a - lon o) = Math_atan2 (lat b - lat o) (lon b - lon o) ∧
   distanceSquared o a < distanceSquared o b).
Proof.
  pose proof (compareByAngle_le o b a) as Hle.
  split.
  - intros Hgt. assert (Hn : ¬ compareByAngle o b a <= 0) by lra.
    rewrite Hle in Hn.
    destruct (Rtotal_order (Math_atan2 (lat a - lat o) (lon a - lon o))
                           (Math_atan2 (lat b - lat o) (lon b - lon o))) as [?|[Heq|?]].
    + by left.
    + right. split; [done|].
      destruct (Rlt_le_dec (distanceSquared o a) (distanceSquared o b)); [done|].
      exfalso. apply Hn. right. by split.
    + exfalso. apply Hn. by left.
  - intros H. destruct (Rlt_le_dec 0 (compareByAngle o b a)) as [|Hn]; [done|].
    rewrite Hle in Hn. lra.
Qed.

Lemma removeDuplicates_strict (o previous : Vertex) (sorted : list Vertex) :
  (∀ x, x ∈ previous :: sorted → above o x ∨ x = o) →
  inOrder (λ a b, compareByAngle o a b <= 0) (previous :: sorted) →
  inOrder (λ a b, 0 < compareByAngle o b a) (previous :: removeDuplicates previous sorted).
Proof.
  revert previous. induction sorted as [|p l IH]; intros previous Hin Hord.
  - simpl. by split.
  - destruct Hord as (Hprev & Hp & Hl).
    apply Forall_cons in Hprev as [Hpp Hprev].
    simpl. destruct (decide _) as [Hne|Heq].
    + destruct (IH p) as [Hp' Hl'].
      { intros x Hx. apply Hin. by apply elem_of_cons; right. }
      { by split. }
      assert (Hlt : 0 < compareByAngle o p previous).
      { apply compareByAngle_gt. apply compareByAngle_le in Hpp.
        destruct Hpp as [?|[Ha [Hd|Hd]]]; [by left|by right|exfalso].
        assert (previous = p) as <-.
        { apply (same_angle_same_distance o); auto; apply Hin.
          - by apply elem_of_cons; left.
          - apply elem_of_cons; right. by apply elem_of_cons; left. }
        destruct Hne; done. }
      split; [|by split].
      constructor; [done|].
      apply Forall_forall. intros x Hx. rewrite Forall_forall in Hp'.
      specialize (Hp' x Hx). apply compareByAngle_gt. apply compareByAngle_gt in Hlt, Hp'. lra.
    + assert (p = previous) as ->.
      { destruct p as [y x0], previous as [y' x']; simpl in *.
        destruct (Req_dec y y'), (Req_dec x0 x'); subst; try done; exfalso; apply Heq; auto. }
      apply IH.
      * intros x Hx. apply Hin. apply elem_of_cons in Hx as [->|Hx].
        -- by apply elem_of_cons; left.
        -- apply elem_of_cons; right. by apply elem_of_cons; right.
      * by split.
Qed.

Lemma Math_atan2_pivot : Math_atan2 0 0 = 0.
Proof.
  unfold Math_atan2. rewrite !(decide_False (P := 0 < 0)) by lra. done.
Qed.

(** The points after the pivot, sorted and without duplicates. *)
Lemma unique_points_spec (pivot : Vertex) (pts : list Vertex) :
  pts !! 0%nat = Some pivot →
  Forall (λ p, lat pivot < lat p ∨ (lat pivot = lat p ∧ lon pivot <= lon p)) pts →
  let rest := Array_sort (compareByAngle pivot) (drop 1 pts) in
  let unique' := removeDuplicates pivot rest in
  (∀ p, p ∈ pts → p = pivot ∨ p ∈ unique') ∧
  (∀ u, u ∈ unique' → above pivot u) ∧
  inOrder (before pivot) unique' ∧
  inOrder (λ a b, 0 < compareByAngle pivot b a) (pivot :: unique') ∧
  unique' ⊆ pts.
Proof.
  intros Hfirst Hmin rest unique'. rewrite Forall_forall in Hmin.
  assert (Habove : ∀ x, x ∈ pts → above pivot x ∨ x = pivot).
  { intros x Hx. destruct (Hmin x Hx) as [?|[? [?|?]]]; [left; by left|left; by right|right].
    destruct x, pivot; simpl in *; f_equal; lra. }
  assert (Hrest : ∀ x, x ∈ pivot :: rest → above pivot x ∨ x = pivot).
  { intros x Hx. apply elem_of_cons in Hx as [->|Hx]; [by right|].
    apply Habove. apply Array_sort_subseteq in Hx. by apply (subseteq_drop 1). }
  assert (Hzero : Math_atan2 (lat pivot - lat pivot) (lon pivot - lon pivot) = 0).
  { replace (lat pivot - lat pivot) with 0 by ring.
    replace (lon pivot - lon pivot) with 0 by ring. apply Math_atan2_pivot. }
  assert (Hdzero : distanceSquared pivot pivot = 0)
    by (unfold distanceSquared; cbv zeta; ring).
  assert (Hord : inOrder (λ a b, compareByAngle pivot a b <= 0) (pivot :: rest)).
  { split; [|apply Array_sort_inOrder; [apply compareByAngle_total|apply compareByAngle_trans]].
    apply Forall_forall. intros x Hx. apply compareByAngle_le. rewrite Hzero, Hdzero.
    destruct (Hrest x ltac:(by apply elem_of_cons; right)) as [Hx'| ->].
    - destruct (Math_atan2_polar (lat x - lat pivot) (lon x - lon pivot))
        as (r & _ & [[Hpos|Heq] _] & _).
      { destruct Hx' as [?|[? ?]]; [left|right]; lra. }
      + by left.
      + right. split; [done|]. apply Rlt_le. by apply distanceSquared_above.
    - right. rewrite Hzero, Hdzero. split; [done|lra]. }
  pose proof (removeDuplicates_strict pivot pivot rest Hrest Hord) as Hstrict0.
  fold unique' in Hstrict0. destruct Hstrict0 as [Hstrict Hstrict'].
  assert (Hstrict0 : inOrder (λ a b, 0 < compareByAngle pivot b a) (pivot :: unique'))
    by (by split).
  rewrite Forall_forall in Hstrict.
  assert (Hunique : ∀ u, u ∈ unique' → above pivot u).
  { intros u Hu.
    destruct (Hrest u) as [?| ->]; [|done|].
    - apply elem_of_cons; right. by apply removeDuplicates_subseteq in Hu.
    - specialize (Hstrict pivot Hu). apply compareByAngle_gt in Hstrict. lra. }
  split; [|split; [done|split; [|split; [done|]]]].
  - intros p Hp. destruct pts as [|p0 pts']; [by apply elem_of_nil in Hp|].
    simpl in Hfirst. inversion Hfirst; subst p0.
    apply elem_of_cons in Hp as [->|Hp]; [by left|].
    apply removeDuplicates_elem. apply Array_sort_elem. simpl. by rewrite drop_0.
  - apply (inOrder_impl (λ a b, 0 < compareByAngle pivot b a)); [|done].
    intros x y Hx Hy Hxy. apply angle_order_before; auto.
    by apply compareByAngle_gt.
  - intros u Hu. apply removeDuplicates_subseteq, Array_sort_subseteq in Hu.
    by apply (subseteq_drop 1).
Qed.

Lemma scan_invariant (pivot : Vertex) (rest done stack : list Vertex) :
  (∀ p, p ∈ done → above pivot p) → (∀ p, p ∈ rest → above pivot p) →
  inOrder (before pivot) rest →
  (∀ p q, p ∈ done → q ∈ rest → before pivot p q) →
  (∀ p t, p ∈ done → t ∈ done → p = t ∨ before pivot p t ∨ before pivot t p) →
  scanInvariant pivot done stack →
  scanInvariant pivot (reverse rest ++ done)
    (foldl (λ hull p, p :: popClockwise hull p) stack rest).
Proof.
  revert done stack. induction rest as [|q rest IH]; intros done stack Hd Hr Hord Hdr Htotal Hinv.
  - done.
  - destruct Hord as [Hq Hord]. rewrite Forall_forall in Hq.
    rewrite reverse_cons, <- app_assoc. simpl.
    apply IH.
    + intros p Hp. apply elem_of_cons in Hp as [->|Hp]; [|by apply Hd].
      apply Hr. by apply elem_of_cons; left.
    + intros p Hp. apply Hr. by apply elem_of_cons; right.
    + done.
    + intros p q' Hp Hq'. apply elem_of_cons in Hp as [->|Hp]; [by apply Hq|].
      apply Hdr; [done|]. by apply elem_of_cons; right.
    + assert (Hbq : ∀ p, p ∈ done → before pivot p q).
      { intros p Hp. apply Hdr; [done|]. by apply elem_of_cons; left. }
      intros p t Hp Ht.
      apply elem_of_cons in Hp as [->|Hp]; apply elem_of_cons in Ht as [->|Ht]; auto.
    + apply scan_step; auto.
      * apply Hr. by apply elem_of_cons; left.
      * intros p Hp. apply Hdr; [done|]. by apply elem_of_cons; left.
Qed.

(** *** The whole scan *)

(** The array after the pivot was moved to the beginning. *)
Lemma pivot_moved (points : list Vertex) (pivot : Vertex) (pivotIndex : nat) :
  points !! pivotIndex = Some pivot →
  let pts := <[pivotIndex:=points !!! 0%nat]> (<[0%nat:=points !!! pivotIndex]> points) in
  pts !! 0%nat = Some pivot ∧ pts ⊆ points ∧ points ⊆ pts.
Proof.
  intros Hpivot pts.
  pose proof (lookup_lt_Some _ _ _ Hpivot) as Hlt.
  assert (Hp : points !!! pivotIndex = pivot) by (by apply list_lookup_total_correct).
  assert (H0 : points !! 0%nat = Some (points !!! 0%nat)).
  { apply list_lookup_lookup_total_lt. lia. }
  assert (Hfirst : pts !! 0%nat = Some pivot).
  { unfold pts. rewrite Hp. destruct pivotIndex as [|k].
    - rewrite list_insert_insert_eq. rewrite list_lookup_insert_eq by lia.
      f_equal. by apply list_lookup_total_correct.
    - rewrite list_lookup_insert_ne by lia. apply list_lookup_insert_eq. lia. }
  split; [exact Hfirst|]. split.
  - intros v Hv. apply elem_of_insert_inv in Hv as [->|Hv].
    + apply list_elem_of_lookup_total_2. lia.
    + apply elem_of_insert_inv in Hv as [->|Hv]; [|done].
      by apply list_elem_of_lookup_total_2.
  - intros v Hv. apply list_elem_of_lookup_1 in Hv as [i Hi].
    destruct (decide (i = pivotIndex)) as [->|Hne].
    + assert (v = pivot) as -> by congruence. by eapply list_elem_of_lookup_2.
    + destruct (decide (i = 0%nat)) as [->|Hne0].
      * apply (list_elem_of_lookup_2 _ pivotIndex). unfold pts.
        rewrite list_lookup_insert_eq by (rewrite length_insert; lia). congruence.
      * apply (list_elem_of_lookup_2 _ i). unfold pts.
        rewrite !list_lookup_insert_ne by done. done.
Qed.

Lemma crossProduct_cycle (a b c : Vertex) : crossProduct a b c = crossProduct c a b.
Proof. unfold crossProduct. ring. Qed.

(** Rings of one or two locations hold every point in each of their edges. *)
Lemma short_ring_contains (ring : list Vertex) (i : nat) (a b p : Vertex) :
  (length ring < 3)%nat →
  ring !! i = Some a → ring !! ((i + 1) mod length ring)%nat = Some b →
  p ∈ ring → 0 <= crossProduct a b p.
Proof.
  intros Hlen Ha Hb Hp.
  assert (Hcases : p = a ∨ p = b).
  { destruct ring as [|x [|y [|z ring]]]; simpl in Hlen; try lia.
    - by apply elem_of_nil in Hp.
    - apply list_elem_of_singleton in Hp as ->.
      destruct i as [|i]; simpl in Ha; [left; congruence|discriminate].
    - destruct i as [|[|i]]; simpl in Ha, Hb; try discriminate;
        inversion Ha; inversion Hb; subst;
        apply elem_of_cons in Hp as [->|Hp]; auto;
        apply list_elem_of_singleton in Hp as ->; auto. }
  destruct Hcases as [-> | ->]; apply Req_le; symmetry; apply crossProduct_same_end.
Qed.



(** ** From tracks to labels *)

Lemma elem_of_concat {A : Type} (x : A) (ls : list (list A)) :
  x ∈ concat ls → ∃ l, l ∈ ls ∧ x ∈ l.
Proof.
  induction ls as [|l ls IH]; simpl; intros Hx; [by apply elem_of_nil in Hx|].
  apply elem_of_app in Hx as [Hx|Hx].
  - exists l. split; [by apply elem_of_cons; left|done].
  - destruct (IH Hx) as (l' & Hl' & Hx'). exists l'. split; [by apply elem_of_cons; right|done].
Qed.

Lemma filter_none {A : Type} (P : A → Prop) `{!∀ x, Decision (P x)} (l : list A) :
  Forall (λ x, ¬ P x) l → filter P l = [].
Proof.
  induction 1 as [|x l Hx Hl IH]; [done|].
  by rewrite filter_cons_False.
Qed.

(** The polygon of an id that [updatePolygonOnMap] leaves in [polygonData] is
    the one it was given, with three hull vertices or more. *)
Lemma updatePolygonOnMap_own (polygon : StatePolygon) (polygonData : list Polygon)
    (p : Polygon) :
  p ∈ updatePolygonOnMap polygon polygonData → id p = state_id polygon →
  hull p = state_hull polygon ∧
  ∃ vertices, state_hull polygon = Some vertices ∧ (3 <= length vertices)%nat.
Proof.
  unfold updatePolygonOnMap, addPolygon, removePolygon. intros Hp Hid.
  assert (Hno : p ∉ filter (λ p0 : Polygon, id p0 ≠ state_id polygon) polygonData).
  { intros Hin. apply list_elem_of_filter in Hin as [Hne _]. done. }
  destruct (state_hull polygon) as [vertices|] eqn:Hhull; [|done].
  destruct (decide (3 ≤ length vertices)%nat) as [Hlen|Hlen]; [|done].
  simpl in Hp. rewrite decide_False in Hp by lia.
  apply elem_of_app in Hp as [Hp|Hp]; [done|].
  apply list_elem_of_singleton in Hp as ->. simpl. split; [done|].
  exists vertices. split; [done|lia].
Qed.

(** X21: after [updatePolygonHull] and [updatePolygonOnMap], every label that
    [refreshAllLabels] builds for the polygon sits at a vertex of the hull of
    its tracks, which is a point of one of the tracks, and shows the
    coordinates of that point; a polygon without tracks, or whose hull has
    fewer than three vertices, gets no label. *)
Theorem labels_at_track_points (polygon : StatePolygon) (polygonData : list Polygon)
    (lm : LabelManager) :
  let polygon' := updatePolygonHull polygon in
  let polygonData' := updatePolygonOnMap polygon' polygonData in
  let own := filter (λ l, polygonId l = state_id polygon)
                    (labels (refreshAllLabels polygonData' lm)) in
  Forall (λ l, ∃ track point,
            track ∈ tracks polygon ∧ point ∈ points track ∧
            mergeConvexHulls (points <$> tracks polygon) !! vertexIndex l = Some point ∧
            vertexLatLng l = L_latLng (lat point) (lon point) ∧
            text l = toFixed6 (lat point) +:+ ", " +:+ toFixed6 (lon point)) own ∧
  ((tracks polygon = [] ∨
    (length (mergeConvexHulls (points <$> tracks polygon)) < 3)%nat) → own = []).
Proof.
  intros polygon' polygonData' own.
  assert (Hid : state_id polygon' = state_id polygon).
  { unfold polygon', updatePolygonHull. by destruct (decide _). }
  assert (Hhull : state_hull polygon' =
                  if decide (length (tracks polygon) = 0%nat) then None
                  else Some (mergeConvexHulls (points <$> tracks polygon))).
  { unfold polygon', updatePolygonHull. by destruct (decide _). }
  split.
  - apply Forall_forall. intros l Hl. unfold own in Hl.
    apply list_elem_of_filter in Hl as [Hpid Hl]. revert Hpid.
    pattern l. revert l Hl. apply Forall_forall.
    unfold refreshAllLabels. apply updateAllLabels_Forall.
    intros p vertices mpp cLat cLon index Hp Hh [Hi _] Hpid.
    rewrite newLabel_polygonId in Hpid. rewrite <- Hid in Hpid.
    destruct (updatePolygonOnMap_own polygon' polygonData p Hp Hpid) as (Hown & _).
    rewrite Hh, Hhull in Hown. destruct (decide _); [done|].
    inversion Hown; subst vertices.
    set (ring := mergeConvexHulls (points <$> tracks polygon)) in *.
    assert (Hpoint : ring !! index = Some (ring !!! index))
      by (by apply list_lookup_lookup_total_lt).
    assert (Hin : ring !!! index ∈ concat (points <$> tracks polygon)).
    { apply (computeConvexHull_input (concat (points <$> tracks polygon))).
      by apply (list_elem_of_lookup_2 _ index). }
    apply elem_of_concat in Hin as (pts & Hpts & Hin).
    apply list_elem_of_fmap in Hpts as (track & -> & Htrack).
    exists track, (ring !!! index).
    destruct (newLabel_labelOf (savePositions lm) (settings lm) mpp p ring cLat cLon index Hi)
      as (_ & _ & _ & _ & Hv & Ht & _).
    rewrite newLabel_vertexIndex in Hv, Ht. rewrite newLabel_vertexIndex.
    done.
  - intros Hshort. unfold own. apply filter_none.
    unfold refreshAllLabels. apply updateAllLabels_Forall.
    intros p vertices mpp cLat cLon index Hp Hh _ Hpid.
    rewrite newLabel_polygonId in Hpid. rewrite <- Hid in Hpid.
    destruct (updatePolygonOnMap_own polygon' polygonData p Hp Hpid)
      as (_ & ring & Hring & Hlen).
    rewrite Hhull in Hring. destruct (decide _) as [|Hne]; [done|].
    inversion Hring; subst ring.
    destruct Hshort as [Hnil|Hshort]; [|lia].
    apply Hne. by rewrite Hnil.
Qed.

Lemma labels_at_track_points_witness :
  filter (λ l, polygonId l = state_id emptyStatePolygon)
         (labels (refreshAllLabels
                    (updatePolygonOnMap (updatePolygonHull emptyStatePolygon) [])
                    (idleManager defaultSettings [] ∅))) = [].
Proof.
  apply (labels_at_track_points emptyStatePolygon [] (idleManager defaultSettings [] ∅)).
  left. reflexivity.
Defined.

(** ** The hull of a set of points *)

Lemma above_irreflexive (o : Vertex) : ¬ above o o.
Proof. intros [?|[_ ?]]; lra. Qed.

(** What the scan is run on: the pivot and the other locations, in order. *)
Lemma computeConvexHull_unfold (points : list Vertex) :
  (3 ≤ length points)%nat →
  ∃ pivot unique',
    computeConvexHull points =
      (if decide (length (pivot :: unique') < 3)%nat then pivot :: unique'
       else reverse (foldl (λ hull p, p :: popClockwise hull p)
                       [(pivot :: unique') !!! 1%nat; (pivot :: unique') !!! 0%nat]
                       (drop 2 (pivot :: unique')))) ∧
    pivot ∈ points ∧
    Forall (λ p, lat pivot < lat p ∨ (lat pivot = lat p ∧ lon pivot <= lon p)) points ∧
    (∀ u, u ∈ unique' ↔ u ∈ points ∧ u ≠ pivot) ∧
    inOrder (λ a b, 0 < compareByAngle pivot b a) (pivot :: unique').
Proof.
  intros Hlen. unfold computeConvexHull.
  rewrite decide_False by lia.
  destruct (findPivot_spec points ltac:(lia)) as (Hlt & Hlookup & Hmin).
  destruct (findPivot points) as [pivot pivotIndex]. simpl in Hlt, Hlookup, Hmin.
  destruct (pivot_moved points pivot pivotIndex Hlookup) as (Hfirst & Hsub & Hsup).
  cbv zeta.
  set (pts := <[pivotIndex:=points !!! 0%nat]> (<[0%nat:=points !!! pivotIndex]> points)) in *.
  rewrite (list_lookup_total_correct _ _ _ Hfirst).
  simpl ([pivot] ++ _). simpl ((pivot :: _) !!! 0%nat). simpl (drop 1 (pivot :: _)).
  rewrite drop_0.
  destruct (unique_points_spec pivot pts Hfirst) as (Hall & Habove & _ & Hord & Hin).
  { apply Forall_forall. intros x Hx. rewrite Forall_forall in Hmin. apply Hmin. by apply Hsub. }
  set (unique' := removeDuplicates pivot (Array_sort (compareByAngle pivot) (drop 1 pts))) in *.
  exists pivot, unique'. split; [reflexivity|].
  split; [by eapply list_elem_of_lookup_2|]. split; [done|]. split; [|done].
  intros u. split.
  - intros Hu. split; [by apply Hsub, Hin|].
    intros ->. by apply (above_irreflexive pivot), Habove.
  - intros [Hu Hne]. destruct (Hall u (Hsup u Hu)); done.
Qed.

(** Two lists in the same strict order with the same elements are equal. *)
Lemma inOrder_unique {A : Type} (R : A → A → Prop) (l1 l2 : list A) :
  (∀ x y, R x y → R y x → False) →
  inOrder R l1 → inOrder R l2 → (∀ x, x ∈ l1 ↔ x ∈ l2) → l1 = l2.
Proof.
  intros Hasym. revert l2. induction l1 as [|x t1 IH]; intros [|y t2] H1 H2 Hsame.
  - done.
  - exfalso. apply (elem_of_nil y), Hsame. by apply elem_of_cons; left.
  - exfalso. apply (elem_of_nil x), Hsame. by apply elem_of_cons; left.
  - destruct H1 as [Hx H1], H2 as [Hy H2]. rewrite Forall_forall in Hx, Hy.
    assert (x = y) as ->.
    { assert (Hxy : x ∈ y :: t2) by (apply Hsame; by apply elem_of_cons; left).
      assert (Hyx : y ∈ x :: t1) by (apply Hsame; by apply elem_of_cons; left).
      apply elem_of_cons in Hxy as [?|Hxy]; [done|].
      apply elem_of_cons in Hyx as [?|Hyx]; [done|].
      exfalso. apply (Hasym x y); auto. }
    f_equal. apply IH; [done..|].
    intros z. split; intros Hz.
    + assert (Hz' : z ∈ y :: t2) by (apply Hsame; by apply elem_of_cons; right).
      apply elem_of_cons in Hz' as [->|?]; [|done].
      exfalso. apply (Hasym y y); auto.
    + assert (Hz' : z ∈ y :: t1) by (apply Hsame; by apply elem_of_cons; right).
      apply elem_of_cons in Hz' as [->|?]; [|done].
      exfalso. apply (Hasym y y); auto.
Qed.



(** ** The hull of a hull *)

Lemma inOrder_drop {A : Type} (R : A → A → Prop) (l : list A) (k : nat) :
  inOrder R l → inOrder R (drop k l).
Proof.
  revert k. induction l as [|x l IH]; intros [|k] Hl; simpl; try done.
  apply IH. by destruct Hl.
Qed.

Lemma inOrder_snoc {A : Type} (R : A → A → Prop) (l : list A) (x : A) :
  inOrder R l → Forall (λ y, R y x) l → inOrder R (l ++ [x]).
Proof.
  induction l as [|y l IH]; simpl; intros Hl Hx; [by split|].
  destruct Hl as [Hy Hl]. apply Forall_cons in Hx as [Hyx Hx].
  split; [|by apply IH].
  apply Forall_app. split; [done|]. by constructor.
Qed.

Lemma inOrder_reverse {A : Type} (R : A → A → Prop) (l : list A) :
  inOrder (λ a b, R b a) l → inOrder R (reverse l).
Proof.
  induction l as [|x l IH]; simpl; [done|]. intros [Hx Hl].
  rewrite reverse_cons. apply inOrder_snoc; [by apply IH|].
  apply Forall_forall. intros y Hy. rewrite Forall_forall in Hx.
  apply Hx. by apply elem_of_reverse.
Qed.

(** The stack of the scan holds the points in the order in which they were
    pushed. *)
Lemma scan_inOrder (R : Vertex → Vertex → Prop) (rest stack : list Vertex) :
  inOrder R rest →
  (∀ s q, s ∈ stack → q ∈ rest → R s q) →
  inOrder (λ a b, R b a) stack →
  inOrder (λ a b, R b a) (foldl (λ hull p, p :: popClockwise hull p) stack rest).
Proof.
  revert stack. induction rest as [|q rest IH]; intros stack Hrest Hsr Hstack; simpl; [done|].
  destruct Hrest as [Hq Hrest]. rewrite Forall_forall in Hq.
  destruct (popClockwise_drop stack q) as [k Hk]. rewrite Hk.
  apply IH; [done| |].
  - intros s q' Hs Hq'. apply elem_of_cons in Hs as [->|Hs]; [by apply Hq|].
    apply Hsr; [by apply (subseteq_drop k)|by apply elem_of_cons; right].
  - split; [|by apply inOrder_drop].
    apply Forall_forall. intros s Hs.
    apply Hsr; [by apply (subseteq_drop k)|by apply elem_of_cons; left].
Qed.

(** On points that turn to the left all along, the scan removes nothing. *)
Lemma scan_unchanged (rest stack : list Vertex) :
  (∀ i a b c,
     (reverse stack ++ rest) !! i = Some a → (reverse stack ++ rest) !! S i = Some b →
     (reverse stack ++ rest) !! S (S i) = Some c → 0 < crossProduct a b c) →
  foldl (λ hull p, p :: popClockwise hull p) stack rest = reverse rest ++ stack.
Proof.
  revert stack. induction rest as [|q rest IH]; intros stack Hturn; simpl; [done|].
  assert (Hpop : popClockwise stack q = stack).
  { destruct stack as [|top [|below s]]; simpl; try done.
    destruct (decide _) as [Hle|Hgt]; [exfalso|done].
    rewrite !reverse_cons, <- !app_assoc in Hturn. simpl in Hturn.
    assert (0 < crossProduct below top q); [|lra].
    apply (Hturn (length (reverse s))).
    - by apply list_lookup_middle.
    - change (reverse s ++ below :: top :: q :: rest)
        with (reverse s ++ [below] ++ top :: q :: rest).
      rewrite app_assoc. apply list_lookup_middle. rewrite length_app. simpl. lia.
    - change (reverse s ++ below :: top :: q :: rest)
        with (reverse s ++ [below; top] ++ q :: rest).
      rewrite app_assoc. apply list_lookup_middle. rewrite length_app. simpl. lia. }
  rewrite Hpop, IH.
  - by rewrite reverse_cons, <- app_assoc.
  - by rewrite reverse_cons, <- app_assoc.
Qed.

Lemma reverse_turns (stack : list Vertex) :
  (∀ j c b a, stack !! j = Some c → stack !! S j = Some b → stack !! S (S j) = Some a →
              0 < crossProduct a b c) →
  ∀ i a b c, reverse stack !! i = Some a → reverse stack !! S i = Some b →
             reverse stack !! S (S i) = Some c → 0 < crossProduct a b c.
Proof.
  intros Hturn i a b c Ha Hb Hc.
  pose proof (lookup_lt_Some _ _ _ Hc) as Hi. rewrite length_reverse in Hi.
  rewrite reverse_lookup in Ha, Hb, Hc by lia.
  apply (Hturn (length stack - S (S (S i)))%nat); [done| |].
  - rewrite <- Hb. f_equal. lia.
  - rewrite <- Ha. f_equal. lia.
Qed.

(** X23: the hull of a hull is that hull: [computeConvexHull] returns its
    own results unchanged. *)
Theorem computeConvexHull_idempotent (points : list Vertex) :
  computeConvexHull (computeConvexHull points) = computeConvexHull points.
Proof.
  destruct (decide (length points < 3)%nat) as [Hshort|Hlong].
  { assert (Hsame : computeConvexHull points = points).
    { unfold computeConvexHull. by rewrite decide_True. }
    by rewrite !Hsame. }
  destruct (decide (length (computeConvexHull points) < 3)%nat) as [Hshort'|Hlong'].
  { unfold computeConvexHull at 1. by rewrite decide_True. }
  pose proof (computeConvexHull_input points) as Hinput.
  destruct (computeConvexHull_unfold points ltac:(lia))
    as (pivot & unique' & Hhull & Hp & Hmin & Hu & Hord).
  destruct (computeConvexHull_unfold (computeConvexHull points) ltac:(lia))
    as (pivot2 & unique2 & Hhull2 & Hp2 & Hmin2 & Hu2 & Hord2).
  rewrite Hhull2. clear Hhull2.
  set (hull0 := computeConvexHull points) in *.
  destruct (decide (length (pivot :: unique') < 3)%nat) as [Hfew|Hmany].
  { rewrite Hhull in Hlong'. done. }
  destruct unique' as [|u1 rest]; [simpl in Hmany; lia|].
  simpl in Hhull. rewrite drop_0 in Hhull.
  set (stack := foldl (λ hull p, p :: popClockwise hull p) [u1; pivot] rest) in *.
  (* the first vertex is the pivot *)
  destruct (scan_bottom rest [u1] pivot) as [top Htop].
  change ([u1] ++ [pivot]) with [u1; pivot] in Htop. fold stack in Htop.
  assert (Hhull' : hull0 = pivot :: reverse top).
  { rewrite Hhull, Htop, reverse_app. done. }
  (* the vertices are in the order of the sort *)
  assert (Hsorted : inOrder (λ a b, 0 < compareByAngle pivot b a) hull0).
  { rewrite Hhull. apply inOrder_reverse.
    destruct Hord as (Hpu & Hu1 & Hrest). apply Forall_cons in Hpu as [Hpu1 Hpu].
    rewrite Forall_forall in Hpu, Hu1.
    apply (scan_inOrder (λ a b, 0 < compareByAngle pivot b a)); [done| |].
    - intros s q Hs Hq. apply elem_of_cons in Hs as [->|Hs]; [by apply Hu1|].
      apply list_elem_of_singleton in Hs as ->. by apply Hpu.
    - split; [by repeat constructor|]. by split. }
  (* they turn to the left *)
  assert (Hturns : ∀ i a b c, hull0 !! i = Some a → hull0 !! S i = Some b →
                              hull0 !! S (S i) = Some c → 0 < crossProduct a b c).
  { rewrite Hhull. apply reverse_turns. apply scan_turns.
    intros j ? ? ? _ _ Hj. apply lookup_lt_Some in Hj. simpl in Hj. lia. }
  rewrite Forall_forall in Hmin, Hmin2.
  assert (pivot2 = pivot) as ->.
  { assert (Hin : pivot ∈ hull0) by (rewrite Hhull'; by apply elem_of_cons; left).
    pose proof (Hmin2 pivot Hin) as H1.
    pose proof (Hmin pivot2 (Hinput pivot2 Hp2)) as H2.
    destruct pivot, pivot2; simpl in *. f_equal; lra. }
  assert (Hasym : ∀ x y : Vertex,
            0 < compareByAngle pivot y x → 0 < compareByAngle pivot x y → False).
  { intros x y Hxy Hyx. apply compareByAngle_gt in Hxy, Hyx. lra. }
  assert (unique2 = reverse top) as ->.
  { rewrite Hhull' in Hsorted. destruct Hsorted as [Hfirst Hsorted].
    rewrite Forall_forall in Hfirst.
    apply (inOrder_unique (λ a b, 0 < compareByAngle pivot b a)); [done|apply Hord2|done|].
    intros u. rewrite Hu2, Hhull'. split.
    - intros [Hin Hne]. apply elem_of_cons in Hin as [?|?]; done.
    - intros Hin. split; [by apply elem_of_cons; right|].
      intros ->. by apply (Hasym pivot pivot); apply Hfirst. }
  rewrite <- Hhull'. rewrite decide_False by done.
  rewrite scan_unchanged.
  - rewrite reverse_app, reverse_involutive. 
    destruct hull0 as [|h0 [|h1 hull1]]; simpl in Hlong'; try lia. done.
  - destruct hull0 as [|h0 [|h1 hull1]]; simpl in Hlong'; try lia. exact Hturns.
Qed.

(** ** Moving a track *)

Lemma fmap_alter_same {A B : Type} (g : A → B) (f : A → A) (i : nat) (l : list A) :
  (∀ x, g (f x) = g x) → g <$> alter f i l = g <$> l.
Proof.
  intros Hgf. revert i. induction l as [|x l IH]; intros [|i]; simpl; try done.
  - by rewrite Hgf.
  - f_equal. apply IH.
Qed.

Lemma concat_tracks_alter (f : StatePolygon → StatePolygon) (i : nat)
    (l : list StatePolygon) (p : StatePolygon) :
  l !! i = Some p →
  concat (tracks <$> alter f i l) ≡ₚ tracks (f p) ++ concat (tracks <$> delete i l).
Proof.
  revert i. induction l as [|x l IH]; intros [|i] Hp; simpl in *; try done.
  - by inversion Hp.
  - rewrite (IH i Hp). rewrite !app_assoc. f_equiv; [|done]. apply Permutation_app_comm.
Qed.

Lemma concat_tracks_lookup (i : nat) (l : list StatePolygon) (p : StatePolygon) :
  l !! i = Some p →
  concat (tracks <$> l) ≡ₚ tracks p ++ concat (tracks <$> delete i l).
Proof.
  intros Hp. rewrite <- (concat_tracks_alter (λ x, x) i l p Hp).
  by rewrite (fmap_alter_same tracks (λ x, x)).
Qed.

Lemma updatePolygonHull_tracks (polygon : StatePolygon) :
  tracks (updatePolygonHull polygon) = tracks polygon.
Proof. unfold updatePolygonHull. by destruct (decide _). Qed.

Lemma updatePolygonHull_state_id (polygon : StatePolygon) :
  state_id (updatePolygonHull polygon) = state_id polygon.
Proof. unfold updatePolygonHull. by destruct (decide _). Qed.

Lemma updatePolygonHull_again (polygon : StatePolygon) :
  updatePolygonHull (updatePolygonHull polygon) = updatePolygonHull polygon.
Proof.
  pose proof (updatePolygonHull_tracks polygon) as Ht.
  unfold updatePolygonHull at 1. rewrite Ht.
  unfold updatePolygonHull.
  destruct (decide (length (tracks polygon) = 0%nat)); done.
Qed.

(** X24: [moveTrack] neither loses nor copies a track: the tracks of all
    polygons together are the same as before; the polygons keep their ids
    and places; and every polygon is as it was or has the hull of its
    tracks. *)
Theorem moveTrack_keeps_tracks (trackId : R) (fromPolygonId toPolygonId : PolygonId)
    (polygons : list StatePolygon) :
  let polygons' := moveTrack trackId fromPolygonId toPolygonId polygons in
  concat (tracks <$> polygons') ≡ₚ concat (tracks <$> polygons) ∧
  state_id <$> polygons' = state_id <$> polygons ∧
  Forall (λ p, p ∈ polygons ∨ updatePolygonHull p = p) polygons'.
Proof.
  cbv zeta. unfold moveTrack.
  assert (Hsame : Forall (λ p, p ∈ polygons ∨ updatePolygonHull p = p) polygons).
  { apply Forall_forall. intros p Hp. by left. }
  destruct (list_find _ polygons) as [[i fromPolygon]|] eqn:Hfrom; [|done].
  destruct (list_find (λ p, state_id p = toPolygonId) polygons) as [[j toPolygon]|] eqn:Hto;
    [|done].
  destruct (list_find _ (tracks fromPolygon)) as [[trackIndex track]|] eqn:Htrack; [|done].
  apply list_find_Some in Hfrom as (Hi & _ & _).
  apply list_find_Some in Hto as (Hj & _ & _).
  apply list_find_Some in Htrack as (Hk & _ & _).
  set (P1 := alter (λ p, set_tracks (delete trackIndex (tracks p)) p) i polygons).
  set (P2 := alter (λ p, set_tracks (tracks p ++ [track]) p) j P1).
  set (P3 := alter updatePolygonHull i P2).
  split; [|split].
  - unfold P3. rewrite !(fmap_alter_same tracks updatePolygonHull) by apply updatePolygonHull_tracks.
    assert (Hj1 : ∃ q, P1 !! j = Some q).
    { apply lookup_lt_is_Some. unfold P1. rewrite length_alter. by eapply lookup_lt_Some. }
    destruct Hj1 as [q Hq].
    unfold P2. rewrite (concat_tracks_alter _ j P1 q Hq). simpl.
    rewrite <- app_assoc. simpl. rewrite <- (Permutation_middle _ _ track).
    rewrite <- (concat_tracks_lookup j P1 q Hq).
    unfold P1. rewrite (concat_tracks_alter _ i polygons fromPolygon Hi). simpl.
    rewrite (concat_tracks_lookup i polygons fromPolygon Hi).
    rewrite (delete_Permutation (tracks fromPolygon) trackIndex track Hk) at 2. done.
  - unfold P3, P2, P1.
    rewrite !(fmap_alter_same state_id updatePolygonHull) by apply updatePolygonHull_state_id.
    by rewrite !(fmap_alter_same state_id).
  - apply Forall_forall. intros p Hp. apply list_elem_of_lookup_1 in Hp as [n Hn].
    destruct (decide (j = n)) as [->|Hjn].
    { rewrite list_lookup_alter_eq in Hn.
      destruct (P3 !! n) as [p3|]; simpl in Hn; [|done].
      inversion Hn. right. apply updatePolygonHull_again. }
    rewrite list_lookup_alter_ne in Hn by done.
    destruct (decide (i = n)) as [->|Hin].
    { unfold P3 in Hn. rewrite list_lookup_alter_eq in Hn.
      destruct (P2 !! n) as [p2|]; simpl in Hn; [|done].
      inversion Hn. right. apply updatePolygonHull_again. }
    unfold P3, P2, P1 in Hn. rewrite !list_lookup_alter_ne in Hn by done.
    left. by eapply list_elem_of_lookup_2.
Qed.
